(** * The queue monitor of the Hydra queue runner

    A shallow embedding of [src/hydra-queue-runner/queue-monitor.cc]:
    the queue scan and the build ingester of [State::getQueuedBuilds], the
    step interner and step graph builder of [State::createStep], the reaper
    [State::removeCancelledBuilds] and the loops of [State::queueMonitor]
    and [State::queueMonitorLoop].

    Conventions of the embedding.
    - [std::shared_ptr<Step>] is an index into [stepHeap]; every cell
      carries the number of strong owners. [std::weak_ptr::lock] succeeds
      exactly when that number is positive. Indices are never reused, so
      an expired weak pointer stays expired.
    - [std::shared_ptr<Build>] is an index into [buildHeap].
    - [std::set<Step::ptr>] orders its members by their machine
      addresses, which the allocator decides. The set itself is kept as
      the strictly increasing list of the indices of its members; a loop
      over the set goes through [in_address_order E] of that list, the
      members in the order of [address E], a field of the environment
      about which nothing is assumed. The order in which a set lets go of
      its members when it is destroyed is not specified either; there the
      model takes the order of the list.
    - [std::multimap<Path, Build::ptr>] is a list sorted by key, entries
      with equal keys in insertion order.
    - A [nix::Error] thrown by [readDerivation] is the outcome [Throw]; a
      failed [assert] is the outcome [AssertFail]. The other calls that
      can throw (the queries and transactions on the connection,
      [isValidPath], [getBuildOutput]) are taken to succeed: an exception
      of the database or of the store other than that of [readDerivation]
      is not an outcome of the model, and the properties are about the
      runs without one.
    - Everything outside this file (the store, the machine registry, the
      cached-failure oracle, the clock) is a field of [Env]. *)

From Stdlib Require Import ZArith NArith String List Bool Sorted OrderedTypeEx.
From stdpp Require Import gmap strings list fin_maps.

Local Open Scope string_scope.

(** ** Data model *)

Abbreviation Path := string (only parsing).
Abbreviation BuildID := N (only parsing).
Abbreviation StepPtr := nat (only parsing).
Abbreviation BuildPtr := nat (only parsing).

(** The status codes of [build-result.hh] that this file writes. *)
Inductive BuildStatus :=
  | bsSuccess | bsFailed | bsDepFailed | bsAborted | bsUnsupported.

Inductive BuildStepStatus :=
  | bssSuccess | bssFailed | bssUnsupported.

#[global] Instance BuildStatus_eq_dec : EqDecision BuildStatus.
Proof. solve_decision. Defined.

#[global] Instance BuildStepStatus_eq_dec : EqDecision BuildStepStatus.
Proof. solve_decision. Defined.

Module Derivation.
(** [outputs], [inputDrvs] and [env] are [std::map]s; the lists are in
    the iteration order of the map. *)
Record t := mk {
  outputs : list (string * Path);
  inputDrvs : list (Path * list string);
  env : list (string * string);
  platform : string
}.
Definition empty : t := mk [] [] [] "".
End Derivation.

(** [std::map::find] on a map given by its entries. *)
Fixpoint map_find {V : Type} (k : string) (m : list (string * V)) : option V :=
  match m with
  | [] => None
  | (k', v) :: m' => if String.eqb k k' then Some v else map_find k m'
  end.

Module Step.
Record t := mk {
  drvPath : Path;
  drv : Derivation.t;
  requiredSystemFeatures : list string;
  preferLocalBuild : bool;
  (* the fields of [Step::State], guarded by the step's lock *)
  deps : list StepPtr;
  rdeps : list StepPtr;
  builds : list BuildPtr;
  created : bool
}.

(** [std::make_shared<Step>()] followed by [step->drvPath = drvPath]. The
    other members are those of a value-initialised object: the containers
    are empty and [created] is false, which is what line 299 asserts of a
    new step. *)
Definition fresh (p : Path) : t :=
  mk p Derivation.empty [] false [] [] [] false.

Definition push_build (b : BuildPtr) (s : t) : t :=
  mk (drvPath s) (drv s) (requiredSystemFeatures s) (preferLocalBuild s)
     (deps s) (rdeps s) (builds s ++ [b]) (created s).

Definition push_rdep (r : StepPtr) (s : t) : t :=
  mk (drvPath s) (drv s) (requiredSystemFeatures s) (preferLocalBuild s)
     (deps s) (rdeps s ++ [r]) (builds s) (created s).

Definition set_drv (d : Derivation.t) (rsf : list string) (plb : bool) (s : t) : t :=
  mk (drvPath s) d rsf plb (deps s) (rdeps s) (builds s) (created s).

Definition set_deps (ds : list StepPtr) (s : t) : t :=
  mk (drvPath s) (drv s) (requiredSystemFeatures s) (preferLocalBuild s)
     ds (rdeps s) (builds s) (created s).

Definition set_created (s : t) : t :=
  mk (drvPath s) (drv s) (requiredSystemFeatures s) (preferLocalBuild s)
     (deps s) (rdeps s) (builds s) true.
End Step.

Module Build.
Record t := mk {
  id : BuildID;
  drvPath : Path;
  fullJobName : string;
  maxSilentTime : Z;
  buildTimeout : Z;
  finishedInDB : bool;
  toplevel : option StepPtr
}.

Definition set_finishedInDB (b : t) : t :=
  mk (id b) (drvPath b) (fullJobName b) (maxSilentTime b) (buildTimeout b)
     true (toplevel b).

Definition set_toplevel (s : StepPtr) (b : t) : t :=
  mk (id b) (drvPath b) (fullJobName b) (maxSilentTime b) (buildTimeout b)
     (finishedInDB b) (Some s).
End Build.

(** A cell of the step heap: the object and its strong owners. *)
Record StepCell := mkCell { obj : Step.t; strong : nat }.

(** ** The database *)

Module Row.
(** One row of the [Builds] table, with the columns this file touches. *)
Record t := mk {
  id : BuildID;
  project : string;
  jobset : string;
  job : string;
  drvPath : Path;
  maxsilent : Z;
  timeout : Z;
  finished : Z;
  busy : Z;
  buildStatus : option BuildStatus;
  startTime : option Z;
  stopTime : option Z;
  errorMsg : option string;
  isCachedBuild : option Z
}.
End Row.

Inductive SqlParam :=
  | PId (i : BuildID)
  | PStatus (s : BuildStatus)      (* [(int) buildStatus] *)
  | PInt (z : Z)
  | PStr (s : string).

(** What [getBuildOutput] computes is opaque here. *)
Definition BuildOutput := list (string * Path).

(** The work done inside one [pqxx::work]. [createBuildStep] lives in
    another file of the queue runner; its call is recorded with its
    arguments. *)
Inductive DbOp :=
  | Exec (sql : string) (params : list SqlParam)
  | CreateBuildStep (startTime : Z) (build : BuildPtr) (step : StepPtr)
      (machine : string) (status : BuildStepStatus)
  | MarkSucceededBuild (build : BuildPtr) (res : BuildOutput)
      (isCachedBuild : bool) (startTime stopTime : Z).

(** What the outside sees of a run: the derivations read, the transactions
    committed, the "loading build" message with which every ingestion
    starts (line 92; the other log messages are left out), and the steps
    handed to the dispatcher. *)
Inductive Event :=
  | EvReadDerivation (p : Path)
  | EvCommit (ops : list DbOp)
  | EvLoadBuild (b : BuildPtr)
  | EvMakeRunnable (s : StepPtr).

(** The two update statements of [getQueuedBuilds], as written there. *)
Definition sql_abort_gced : string :=
  "update Builds set finished = 1, busy = 0, buildStatus = $2, startTime = $3, stopTime = $3, errorMsg = $4 where id = $1 and finished = 0".

Definition sql_fail_build : string :=
  "update Builds set finished = 1, busy = 0, buildStatus = $2, startTime = $3, stopTime = $3, isCachedBuild = $4 where id = $1 and finished = 0".

Definition msg_gced : string :=
  "derivation was garbage-collected prior to build".

(** ** The environment

    The collaborators of this file: the store ([isValidPath]), the
    derivation reader ([readDerivation], [None] when it throws), the
    configuration ([buildOne], 0 when no single build is pinned;
    [localPlatforms]), the cached-failure oracle, the machine registry and
    the clock ([time_ n] is what the [n]-th call of [time(0)] returns). *)

Record Machine := mkMachine { supportsStep : Step.t -> bool }.

Record Env := mkEnv {
  isValidPath : Path -> bool;
  readDerivation : Path -> option Derivation.t;
  getBuildOutput : Derivation.t -> BuildOutput;
  tokenizeString : string -> list string;
  localPlatforms : list string;
  buildOne : BuildID;
  checkCachedFailure : Step.t -> bool;
  machines : list Machine;
  time_ : nat -> Z;
  (* the machine address of the step object at an index of [stepHeap] *)
  address : StepPtr -> nat
}.

(** ** The state

    The members of [State] used here ([steps], [builds], the counters),
    the database behind the connection, and the locals that the lambda
    [createBuild] and [createStep] receive by reference. *)

Record State := mkState {
  stepHeap : list StepCell;
  buildHeap : list Build.t;
  steps : gmap Path StepPtr;
  builds : gmap BuildID BuildPtr;
  nrBuildsDone : N;
  nrBuildsRead : N;
  db : list Row.t;
  trace : list Event;
  clock : nat;
  newBuilds : list (Path * BuildPtr);
  newRunnable : list StepPtr;
  nrAdded : N;
  newSteps : list StepPtr;
  finishedDrvs : gset Path
}.

Definition set_stepHeap (v : list StepCell) (s : State) : State :=
  mkState v (buildHeap s) (steps s) (builds s) (nrBuildsDone s) (nrBuildsRead s) (db s) (trace s) (clock s) (newBuilds s) (newRunnable s) (nrAdded s) (newSteps s) (finishedDrvs s).

Definition set_buildHeap (v : list Build.t) (s : State) : State :=
  mkState (stepHeap s) v (steps s) (builds s) (nrBuildsDone s) (nrBuildsRead s) (db s) (trace s) (clock s) (newBuilds s) (newRunnable s) (nrAdded s) (newSteps s) (finishedDrvs s).

Definition set_steps (v : gmap Path StepPtr) (s : State) : State :=
  mkState (stepHeap s) (buildHeap s) v (builds s) (nrBuildsDone s) (nrBuildsRead s) (db s) (trace s) (clock s) (newBuilds s) (newRunnable s) (nrAdded s) (newSteps s) (finishedDrvs s).

Definition set_builds (v : gmap BuildID BuildPtr) (s : State) : State :=
  mkState (stepHeap s) (buildHeap s) (steps s) v (nrBuildsDone s) (nrBuildsRead s) (db s) (trace s) (clock s) (newBuilds s) (newRunnable s) (nrAdded s) (newSteps s) (finishedDrvs s).

Definition set_nrBuildsDone (v : N) (s : State) : State :=
  mkState (stepHeap s) (buildHeap s) (steps s) (builds s) v (nrBuildsRead s) (db s) (trace s) (clock s) (newBuilds s) (newRunnable s) (nrAdded s) (newSteps s) (finishedDrvs s).

Definition set_nrBuildsRead (v : N) (s : State) : State :=
  mkState (stepHeap s) (buildHeap s) (steps s) (builds s) (nrBuildsDone s) v (db s) (trace s) (clock s) (newBuilds s) (newRunnable s) (nrAdded s) (newSteps s) (finishedDrvs s).

Definition set_db (v : list Row.t) (s : State) : State :=
  mkState (stepHeap s) (buildHeap s) (steps s) (builds s) (nrBuildsDone s) (nrBuildsRead s) v (trace s) (clock s) (newBuilds s) (newRunnable s) (nrAdded s) (newSteps s) (finishedDrvs s).

Definition set_trace (v : list Event) (s : State) : State :=
  mkState (stepHeap s) (buildHeap s) (steps s) (builds s) (nrBuildsDone s) (nrBuildsRead s) (db s) v (clock s) (newBuilds s) (newRunnable s) (nrAdded s) (newSteps s) (finishedDrvs s).

Definition set_clock (v : nat) (s : State) : State :=
  mkState (stepHeap s) (buildHeap s) (steps s) (builds s) (nrBuildsDone s) (nrBuildsRead s) (db s) (trace s) v (newBuilds s) (newRunnable s) (nrAdded s) (newSteps s) (finishedDrvs s).

Definition set_newBuilds (v : list (Path * BuildPtr)) (s : State) : State :=
  mkState (stepHeap s) (buildHeap s) (steps s) (builds s) (nrBuildsDone s) (nrBuildsRead s) (db s) (trace s) (clock s) v (newRunnable s) (nrAdded s) (newSteps s) (finishedDrvs s).

Definition set_newRunnable (v : list StepPtr) (s : State) : State :=
  mkState (stepHeap s) (buildHeap s) (steps s) (builds s) (nrBuildsDone s) (nrBuildsRead s) (db s) (trace s) (clock s) (newBuilds s) v (nrAdded s) (newSteps s) (finishedDrvs s).

Definition set_nrAdded (v : N) (s : State) : State :=
  mkState (stepHeap s) (buildHeap s) (steps s) (builds s) (nrBuildsDone s) (nrBuildsRead s) (db s) (trace s) (clock s) (newBuilds s) (newRunnable s) v (newSteps s) (finishedDrvs s).

Definition set_newSteps (v : list StepPtr) (s : State) : State :=
  mkState (stepHeap s) (buildHeap s) (steps s) (builds s) (nrBuildsDone s) (nrBuildsRead s) (db s) (trace s) (clock s) (newBuilds s) (newRunnable s) (nrAdded s) v (finishedDrvs s).

Definition set_finishedDrvs (v : gset Path) (s : State) : State :=
  mkState (stepHeap s) (buildHeap s) (steps s) (builds s) (nrBuildsDone s) (nrBuildsRead s) (db s) (trace s) (clock s) (newBuilds s) (newRunnable s) (nrAdded s) (newSteps s) v.

(** The outcome of a call: a normal return, a [nix::Error] that leaves the
    call (with the state after the frame was unwound), a failed [assert],
    or a model that ran out of fuel. *)
Inductive Res (A : Type) :=
  | Ok (a : A) (s : State)
  | Throw (s : State)
  | AssertFail
  | OutOfFuel.

Arguments Ok {A} a s.
Arguments Throw {A} s.
Arguments AssertFail {A}.
Arguments OutOfFuel {A}.

(** ** Containers *)

(** [std::set<Step::ptr>::insert]. *)
Fixpoint set_insert (a : nat) (l : list nat) : list nat :=
  match l with
  | [] => [a]
  | x :: l' =>
      if (a <? x)%nat then a :: l
      else if (a =? x)%nat then l
      else x :: set_insert a l'
  end.

Definition set_has (a : nat) (l : list nat) : bool := existsb (Nat.eqb a) l.

(** The order in which [for (auto & r : set)] goes through a
    [std::set<Step::ptr>]: by the machine addresses of its members. *)
Fixpoint insert_by_address (E : Env) (a : StepPtr) (l : list StepPtr)
  : list StepPtr :=
  match l with
  | [] => [a]
  | x :: l' =>
      if Nat.ltb (address E a) (address E x) then a :: l
      else x :: insert_by_address E a l'
  end.

Definition in_address_order (E : Env) (l : list StepPtr) : list StepPtr :=
  fold_right (insert_by_address E) [] l.

(** [std::multimap::emplace]: behind the entries whose key is not larger. *)
Fixpoint emplace (k : Path) (v : BuildPtr) (m : list (Path * BuildPtr))
  : list (Path * BuildPtr) :=
  match m with
  | [] => [(k, v)]
  | (k', v') :: m' =>
      if String.ltb k k' then (k, v) :: m else (k', v') :: emplace k v m'
  end.

(** [std::multimap::find] and the [erase] of the entry found. The
    standard lets [find] return any entry with the key; the model takes
    the first, as the red-black tree of libstdc++ does. *)
Fixpoint find_erase (k : Path) (m : list (Path * BuildPtr))
  : option (BuildPtr * list (Path * BuildPtr)) :=
  match m with
  | [] => None
  | (k', v) :: m' =>
      if String.eqb k k' then Some (v, m')
      else match find_erase k m' with
           | Some (b, r) => Some (b, (k', v) :: r)
           | None => None
           end
  end.

(** ** Shared and weak pointers to steps *)

(** One more strong owner. *)
Definition retain (a : StepPtr) (h : list StepCell) : list StepCell :=
  match h !! a with
  | Some c => <[a := mkCell (obj c) (S (strong c))]> h
  | None => h
  end.

(** One strong owner less. When the last owner goes the step is destroyed,
    and with it the strong pointers in its [deps]. *)
Fixpoint release_fuel (n : nat) (a : StepPtr) (h : list StepCell) : list StepCell :=
  match n with
  | O => h
  | S n' =>
      match h !! a with
      | None => h
      | Some c =>
          match strong c with
          | O => h
          | S O =>
              fold_left (fun h' d => release_fuel n' d h')
                (Step.deps (obj c)) (<[a := mkCell (obj c) 0]> h)
          | S k => <[a := mkCell (obj c) k]> h
          end
      end
  end.

Definition release (a : StepPtr) (h : list StepCell) : list StepCell :=
  release_fuel (S (length h)) a h.

Definition release_all (l : list StepPtr) (h : list StepCell) : list StepCell :=
  fold_left (fun h' a => release a h') l h.

Definition release_opt (o : option StepPtr) (h : list StepCell) : list StepCell :=
  match o with Some a => release a h | None => h end.

Definition live (h : list StepCell) (a : StepPtr) : Prop :=
  exists c, h !! a = Some c /\ 0 < strong c.

(** [std::weak_ptr::lock]: a new strong pointer unless the step is gone. *)
Definition weak_lock (a : StepPtr) (h : list StepCell) : option (list StepCell) :=
  match h !! a with
  | Some c => match strong c with O => None | S _ => Some (retain a h) end
  | None => None
  end.

(** The step object behind a strong pointer. *)
Definition step_at (h : list StepCell) (a : StepPtr) : Step.t :=
  match h !! a with Some c => obj c | None => Step.fresh "" end.

Definition update_step (f : Step.t -> Step.t) (a : StepPtr) (h : list StepCell)
  : list StepCell :=
  match h !! a with
  | Some c => <[a := mkCell (f (obj c)) (strong c)]> h
  | None => h
  end.

(** ** The database behind the connection *)

Definition update_where (i : BuildID) (f : Row.t -> Row.t) (tbl : list Row.t)
  : list Row.t :=
  map (fun r => if (Row.id r =? i)%N && (Row.finished r =? 0)%Z then f r else r) tbl.

Definition row_finish (s : option BuildStatus) (t0 t1 : Z) (msg : option string)
    (cached : option Z) (r : Row.t) : Row.t :=
  Row.mk (Row.id r) (Row.project r) (Row.jobset r) (Row.job r) (Row.drvPath r)
    (Row.maxsilent r) (Row.timeout r) 1 0 s (Some t0) (Some t1) msg cached.

(** What the two statements of this file do to the [Builds] table. *)
Definition exec_sql (sql : string) (ps : list SqlParam) (tbl : list Row.t)
  : list Row.t :=
  if String.eqb sql sql_abort_gced then
    match ps with
    | [PId i; PStatus s; PInt t; PStr m] =>
        update_where i
          (fun r => row_finish (Some s) t t (Some m) (Row.isCachedBuild r) r) tbl
    | _ => tbl
    end
  else if String.eqb sql sql_fail_build then
    match ps with
    | [PId i; PStatus s; PInt t; PInt c] =>
        update_where i
          (fun r => row_finish (Some s) t t (Row.errorMsg r) (Some c) r) tbl
    | _ => tbl
    end
  else tbl.

(** Modelled from the spec: [markSucceededBuild] is defined in another file
    of the queue runner. The spec (4.5, step 4, and 6) has it mark the
    build succeeded in the transaction it is given, with the given
    [isCachedBuild], start and stop time, under the [finished = 0] guard;
    it names no other effect. *)
Definition markSucceededBuild_db (i : BuildID) (cached : bool) (t0 t1 : Z)
    (tbl : list Row.t) : list Row.t :=
  update_where i
    (fun r => row_finish (Some bsSuccess) t0 t1 (Row.errorMsg r)
                (Some (if cached then 1 else 0)%Z) r) tbl.

Definition build_at (bh : list Build.t) (b : BuildPtr) : Build.t :=
  match bh !! b with
  | Some x => x
  | None => Build.mk 0%N "" "" 0%Z 0%Z false None
  end.

Definition apply_op (bh : list Build.t) (tbl : list Row.t) (op : DbOp) : list Row.t :=
  match op with
  | Exec sql ps => exec_sql sql ps tbl
  | CreateBuildStep _ _ _ _ _ => tbl
  | MarkSucceededBuild b _ cached t0 t1 =>
      markSucceededBuild_db (Build.id (build_at bh b)) cached t0 t1 tbl
  end.

(** [txn.commit()] of a transaction that did [ops]. The connection is
    taken to work (see the conventions): a transaction that fails is not
    an outcome here. *)
Definition commit (ops : list DbOp) (s : State) : State :=
  set_trace (trace s ++ [EvCommit ops])
    (set_db (fold_left (apply_op (buildHeap s)) ops (db s)) s).

(** [time(0)]. *)
Definition now (E : Env) (s : State) : Z := time_ E (clock s).
Definition tick (s : State) : State := set_clock (S (clock s)) s.

(** The counters are unsigned and wrap around: [nrBuildsDone] and
    [nrBuildsRead] are of the type [counter] of the queue runner, an atomic
    [unsigned long], taken to be 64 bits wide; [nrAdded] is an
    [unsigned int]. *)
Definition incr64 (n : N) : N := ((n + 1) mod 2 ^ 64)%N.
Definition incr32 (n : N) : N := ((n + 1) mod 2 ^ 32)%N.
Definition add64 (n m : N) : N := ((n + m) mod 2 ^ 64)%N.

(** ** The queue scan (lines 62-85) *)

Fixpoint insert_row (r : Row.t) (l : list Row.t) : list Row.t :=
  match l with
  | [] => [r]
  | x :: l' => if (Row.id r <? Row.id x)%N then r :: l else x :: insert_row r l'
  end.

Definition order_by_id (l : list Row.t) : list Row.t :=
  fold_right insert_row [] l.

(** [select ... from Builds where id > $1 and finished = 0 order by id]. *)
Definition queuedRows (lastBuildId : BuildID) (tbl : list Row.t) : list Row.t :=
  order_by_id
    (List.filter (fun r => (lastBuildId <? Row.id r)%N && (Row.finished r =? 0)%Z) tbl).

(** The body of the loop over the rows. The members of the new build
    that lines 77-81 do not assign are those of a value-initialised
    object: [finishedInDB] is false and [toplevel] is null. *)
Definition scanRow (E : Env) (acc : BuildID * State) (row : Row.t)
  : BuildID * State :=
  let '(lastBuildId, s) := acc in
  let id := Row.id row in
  if negb (buildOne E =? 0)%N && negb (id =? buildOne E)%N then acc
  else
    let lastBuildId := if (lastBuildId <? id)%N then id else lastBuildId in
    match builds s !! id with
    | Some _ => (lastBuildId, s)
    | None =>
        let build :=
          Build.mk id (Row.drvPath row)
            (Row.project row ++ ":" ++ Row.jobset row ++ ":" ++ Row.job row)
            (Row.maxsilent row) (Row.timeout row) false None in
        (lastBuildId,
         set_newBuilds (emplace (Row.drvPath row) (length (buildHeap s)) (newBuilds s))
           (set_buildHeap (buildHeap s ++ [build]) s))
    end.

Definition scanQueue (E : Env) (lastBuildId : BuildID) (s : State)
  : BuildID * State :=
  fold_left (scanRow E) (queuedRows lastBuildId (db s))
    (lastBuildId, set_newBuilds [] s).

(** ** The step interner (createStep, lines 275-308)

    The block that runs with [steps] locked. It returns the step and
    [isNew]. *)
Definition internStep (drvPath : Path) (referringBuild : option BuildPtr)
    (referringStep : option StepPtr) (s : State) : Res (StepPtr * bool) :=
  (* prev = steps_->find(drvPath); step = prev->second.lock();
     if (!step) steps_->erase(drvPath) *)
  let '(found, s1) :=
    match steps s !! drvPath with
    | Some w =>
        match weak_lock w (stepHeap s) with
        | Some h => (Some w, set_stepHeap h s)
        | None => (None, set_steps (delete drvPath (steps s)) s)
        end
    | None => (None, s)
    end in
  (* if (!step) { step = make_shared<Step>(); step->drvPath = drvPath;
     isNew = true; } *)
  let '(step, isNew, s2) :=
    match found with
    | Some a => (a, false, s1)
    | None =>
        (length (stepHeap s1), true,
         set_stepHeap (stepHeap s1 ++ [mkCell (Step.fresh drvPath) 1]) s1)
    end in
  (* assert(step_->created != isNew) *)
  if Bool.eqb (Step.created (step_at (stepHeap s2) step)) isNew then AssertFail
  else
    let h3 :=
      match referringBuild with
      | Some b => update_step (Step.push_build b) step (stepHeap s2)
      | None => stepHeap s2
      end in
    let h4 :=
      match referringStep with
      | Some r => update_step (Step.push_rdep r) step h3
      | None => h3
      end in
    Ok (step, isNew) (set_steps (<[drvPath := step]> (steps s2)) (set_stepHeap h4 s2)).

(** ** The step graph builder (createStep) *)

Definition all_outputs_valid (E : Env) (drv : Derivation.t) : bool :=
  forallb (fun o => isValidPath E (snd o)) (Derivation.outputs drv).

Definition required_features (E : Env) (drv : Derivation.t) : list string :=
  match map_find "requiredSystemFeatures" (Derivation.env drv) with
  | Some v => tokenizeString E v
  | None => []
  end.

Definition prefer_local (E : Env) (drv : Derivation.t) : bool :=
  match map_find "preferLocalBuild" (Derivation.env drv) with
  | Some v =>
      String.eqb v "1"
      && existsb (String.eqb (Derivation.platform drv)) (localPlatforms E)
  | None => false
  end.

(** [std::set<Step::ptr>::insert] of a strong pointer: the set becomes an
    owner unless it has the step already. *)
Definition insert_newSteps (a : StepPtr) (s : State) : State :=
  if set_has a (newSteps s) then s
  else set_newSteps (set_insert a (newSteps s))
         (set_stepHeap (retain a (stepHeap s)) s).

Definition insert_newRunnable (a : StepPtr) (s : State) : State :=
  if set_has a (newRunnable s) then s
  else set_newRunnable (set_insert a (newRunnable s))
         (set_stepHeap (retain a (stepHeap s)) s).

(** [step_->deps.insert(dep)], after which the local [dep] goes. *)
Definition link_dep (step dep : StepPtr) (s : State) : State :=
  let ds := Step.deps (step_at (stepHeap s) step) in
  let h :=
    if set_has dep ds then stepHeap s
    else retain dep (update_step (Step.set_deps (set_insert dep ds)) step (stepHeap s)) in
  set_stepHeap (release dep h) s.

Definition CreateStep :=
  Path -> option BuildPtr -> option StepPtr -> State -> Res (option StepPtr).

(** The loop over [step->drv.inputDrvs] (lines 350-356). *)
Fixpoint createDeps (rec : CreateStep) (step : StepPtr)
    (inputs : list (Path * list string)) (s : State) : Res unit :=
  match inputs with
  | [] => Ok tt s
  | (p, _) :: rest =>
      match rec p None (Some step) s with
      | Ok (Some dep) s1 => createDeps rec step rest (link_dep step dep s1)
      | Ok None s1 => createDeps rec step rest s1
      | Throw s1 => Throw s1
      | AssertFail => AssertFail
      | OutOfFuel => OutOfFuel
      end
  end.

(** Lines 358-366: the step is marked created, and runnable when it has no
    dependencies left. *)
Definition finishStep (step : StepPtr) (s : State) : Res (option StepPtr) :=
  if Step.created (step_at (stepHeap s) step) then AssertFail
  else
    let s1 := set_stepHeap (update_step Step.set_created step (stepHeap s)) s in
    match Step.deps (step_at (stepHeap s1) step) with
    | [] => Ok (Some step) (insert_newRunnable step s1)
    | _ :: _ => Ok (Some step) s1
    end.

Definition drop_step (step : StepPtr) (s : State) : State :=
  set_stepHeap (release step (stepHeap s)) s.

Definition createStep_body (E : Env) (rec : CreateStep) : CreateStep :=
  fun drvPath referringBuild referringStep s =>
  if bool_decide (drvPath ∈ finishedDrvs s) then Ok None s
  else
    match internStep drvPath referringBuild referringStep s with
    | Ok (step, false) s1 => Ok (Some step) s1
    | Ok (step, true) s1 =>
        let s2 := set_trace (trace s1 ++ [EvReadDerivation drvPath]) s1 in
        match readDerivation E drvPath with
        | None => Throw (drop_step step s2)
        | Some drv =>
            let s3 :=
              set_stepHeap
                (update_step
                   (Step.set_drv drv (required_features E drv) (prefer_local E drv))
                   step (stepHeap s2)) s2 in
            if all_outputs_valid E drv then
              Ok None
                (drop_step step
                   (set_finishedDrvs ({[drvPath]} ∪ finishedDrvs s3) s3))
            else
              match createDeps rec step (Derivation.inputDrvs drv)
                      (insert_newSteps step s3) with
              | Ok _ s5 => finishStep step s5
              | Throw s5 => Throw (drop_step step s5)
              | AssertFail => AssertFail
              | OutOfFuel => OutOfFuel
              end
        end
    | Throw s1 => Throw s1
    | AssertFail => AssertFail
    | OutOfFuel => OutOfFuel
    end.

Fixpoint createStep (fuel : nat) (E : Env) : CreateStep :=
  match fuel with
  | O => fun _ _ _ _ => OutOfFuel
  | S fuel' => createStep_body E (createStep fuel' E)
  end.

(** ** The build ingester (the lambda createBuild, lines 91-210) *)

Definition update_build (f : Build.t -> Build.t) (b : BuildPtr) (s : State) : State :=
  set_buildHeap (<[b := f (build_at (buildHeap s) b)]> (buildHeap s)) s.

(** A local [Build::ptr] goes out of scope. The build lives on when the
    [builds] map holds it; otherwise it is destroyed, and its [toplevel]
    pointer with it. *)
Definition dropBuild (b : BuildPtr) (s : State) : State :=
  let x := build_at (buildHeap s) b in
  if bool_decide (builds s !! Build.id x = Some b) then s
  else set_stepHeap (release_opt (Build.toplevel x) (stepHeap s)) s.

(** Lines 95-111: the derivation has been garbage-collected. *)
Definition abortGCed (E : Env) (build : BuildPtr) (s : State) : State :=
  let x := build_at (buildHeap s) build in
  if Build.finishedInDB x then s
  else
    let s1 :=
      commit [Exec sql_abort_gced
                [PId (Build.id x); PStatus bsAborted; PInt (now E s); PStr msg_gced]]
        (tick s) in
    set_nrBuildsDone (incr64 (nrBuildsDone s1))
      (update_build Build.set_finishedInDB build s1).

Definition CreateBuild := BuildPtr -> State -> Res unit.

(** The [while (true)] loop of lines 122-128 for one path; [n] bounds the
    iterations, each of which takes an entry out of [newBuilds]. After the
    nested call the locals of this frame are back in place. *)
Fixpoint piggybackPath (n : nat) (rec : CreateBuild) (p : Path) (s : State)
  : Res unit :=
  match find_erase p (newBuilds s) with
  | None => Ok tt s
  | Some (b, rest) =>
      match n with
      | O => OutOfFuel
      | S n' =>
          let back s' := set_newSteps (newSteps s) (set_finishedDrvs (finishedDrvs s) s') in
          match rec b (set_newBuilds rest s) with
          | Ok _ s1 => piggybackPath n' rec p (back (dropBuild b s1))
          | Throw s1 => Throw (back (dropBuild b s1))
          | AssertFail => AssertFail
          | OutOfFuel => OutOfFuel
          end
      end
  end.

(** The loop of lines 121-129 over [newSteps]. *)
Fixpoint piggyback (rec : CreateBuild) (l : list StepPtr) (s : State) : Res unit :=
  match l with
  | [] => Ok tt s
  | r :: l' =>
      match piggybackPath (length (newBuilds s)) rec
              (Step.drvPath (step_at (stepHeap s) r)) s with
      | Ok _ s1 => piggyback rec l' s1
      | Throw s1 => Throw s1
      | AssertFail => AssertFail
      | OutOfFuel => OutOfFuel
      end
  end.

(** Lines 133-145: no step came back, the build is a cached success. *)
Definition markCachedSuccess (E : Env) (build : BuildPtr) (s : State) : Res unit :=
  let x := build_at (buildHeap s) build in
  let s1 := set_trace (trace s ++ [EvReadDerivation (Build.drvPath x)]) s in
  match readDerivation E (Build.drvPath x) with
  | None => Throw s1
  | Some drv =>
      let res := getBuildOutput E drv in
      let t := now E s1 in
      let s2 := commit [MarkSucceededBuild build res true t t] (tick s1) in
      Ok tt (update_build Build.set_finishedInDB build s2)
  end.

(** Lines 152-174: the verdict on one new step. *)
Definition classifyStep (E : Env) (step r : StepPtr) (s : State)
  : BuildStatus * BuildStepStatus :=
  let o := step_at (stepHeap s) r in
  let '(buildStatus, buildStepStatus) :=
    if checkCachedFailure E o
    then (if bool_decide (step = r) then bsFailed else bsDepFailed, bssFailed)
    else (bsSuccess, bssFailed) in
  if bool_decide (buildStatus = bsSuccess) then
    if existsb (fun m => supportsStep m o) (machines E)
    then (buildStatus, buildStepStatus)
    else (bsUnsupported, bssUnsupported)
  else (buildStatus, buildStepStatus).

(** Lines 176-190: the build is failed right away. *)
Definition failBuild (E : Env) (build : BuildPtr) (r : StepPtr)
    (buildStatus : BuildStatus) (buildStepStatus : BuildStepStatus) (s : State)
  : State :=
  let x := build_at (buildHeap s) build in
  let t := now E s in
  let s1 := tick s in
  if Build.finishedInDB x then s1
  else
    let s2 :=
      commit [CreateBuildStep 0 build r "" buildStepStatus;
              Exec sql_fail_build
                [PId (Build.id x); PStatus buildStatus; PInt t;
                 PInt (if bool_decide (buildStatus <> bsUnsupported) then 1 else 0)]]
        s1 in
    set_nrBuildsDone (incr64 (nrBuildsDone s2))
      (update_build Build.set_finishedInDB build s2).

(** The loop of lines 150-194; the boolean is [badStep]. *)
Fixpoint classify (E : Env) (build : BuildPtr) (step : StepPtr)
    (l : list StepPtr) (s : State) : bool * State :=
  match l with
  | [] => (false, s)
  | r :: l' =>
      let '(buildStatus, buildStepStatus) := classifyStep E step r s in
      if bool_decide (buildStatus <> bsSuccess)
      then (true, failBuild E build r buildStatus buildStepStatus s)
      else classify E build step l' s
  end.

(** Lines 201-206. Assigning into [builds] lets go of a build that was
    there under the same id; assigning [toplevel] lets go of the step that
    was there. *)
Definition publish (build : BuildPtr) (step : StepPtr) (s : State) : State :=
  let x := build_at (buildHeap s) build in
  let s1 :=
    if Build.finishedInDB x then s
    else
      let s' := set_builds (<[Build.id x := build]> (builds s)) s in
      match builds s !! Build.id x with
      | Some old => if bool_decide (old = build) then s' else dropBuild old s'
      | None => s'
      end in
  let h := retain step (stepHeap s1) in
  update_build (Build.set_toplevel step) build
    (set_stepHeap (release_opt (Build.toplevel x) h) s1).

(** The locals [newSteps] and [step] of createBuild go out of scope. *)
Definition leave (step : option StepPtr) (s : State) : State :=
  set_stepHeap (release_opt step (release_all (newSteps s) (stepHeap s))) s.

(** Lines 92-93: the message and [nrAdded++]. *)
Definition loadBuild (build : BuildPtr) (s : State) : State :=
  set_nrAdded (incr32 (nrAdded s)) (set_trace (trace s ++ [EvLoadBuild build]) s).

(** Lines 113-114: the locals [newSteps] and [finishedDrvs] start empty. *)
Definition freshLocals (s : State) : State :=
  set_newSteps [] (set_finishedDrvs ∅ s).

Definition createBuild_body (E : Env) (recS : CreateStep) (rec : CreateBuild)
  : CreateBuild :=
  fun build s =>
  let s0 := loadBuild build s in
  let x := build_at (buildHeap s0) build in
  if negb (isValidPath E (Build.drvPath x)) then Ok tt (abortGCed E build s0)
  else
    match recS (Build.drvPath x) (Some build) None (freshLocals s0) with
    | Ok step s2 =>
        match piggyback rec (in_address_order E (newSteps s2)) s2 with
        | Ok _ s3 =>
            match step with
            | None =>
                match markCachedSuccess E build s3 with
                | Ok _ s4 => Ok tt (leave None s4)
                | Throw s4 => Throw (leave None s4)
                | AssertFail => AssertFail
                | OutOfFuel => OutOfFuel
                end
            | Some root =>
                let '(badStep, s4) :=
                  classify E build root (in_address_order E (newSteps s3)) s3 in
                if badStep then Ok tt (leave step s4)
                else Ok tt (leave step (publish build root s4))
            end
        | Throw s3 => Throw (leave step s3)
        | AssertFail => AssertFail
        | OutOfFuel => OutOfFuel
        end
    | Throw s2 => Throw (leave None s2)
    | AssertFail => AssertFail
    | OutOfFuel => OutOfFuel
    end.

Fixpoint createBuild (fuel : nat) (E : Env) : CreateBuild :=
  match fuel with
  | O => fun _ _ => OutOfFuel
  | S fuel' => createBuild_body E (createStep fuel E) (createBuild fuel' E)
  end.

(** ** getQueuedBuilds (lines 56-236) *)

Definition clear_newRunnable (s : State) : State :=
  set_newRunnable [] (set_stepHeap (release_all (newRunnable s) (stepHeap s)) s).

(** [makeRunnable] belongs to the dispatcher; its calls are recorded. *)
Definition makeRunnable_all (E : Env) (s : State) : State :=
  set_trace (trace s ++ map EvMakeRunnable (in_address_order E (newRunnable s))) s.

(** The loop of lines 215-235; [n] bounds the iterations. *)
Fixpoint processQueue (n fuel : nat) (E : Env) (s : State) : Res unit :=
  match newBuilds s with
  | [] => Ok tt s
  | (_, build) :: rest =>
      match n with
      | O => OutOfFuel
      | S n' =>
          let s1 := set_nrAdded 0%N (clear_newRunnable (set_newBuilds rest s)) in
          match createBuild fuel E build s1 with
          | Ok _ s2 =>
              let s3 := makeRunnable_all E s2 in
              let s4 := set_nrBuildsRead (add64 (nrBuildsRead s3) (nrAdded s3)) s3 in
              processQueue n' fuel E (dropBuild build s4)
          | Throw s2 => Throw (clear_newRunnable (dropBuild build s2))
          | AssertFail => AssertFail
          | OutOfFuel => OutOfFuel
          end
      end
  end.

(** Returns the new value of the reference [lastBuildId]. *)
Definition getQueuedBuilds (fuel : nat) (E : Env) (lastBuildId : BuildID)
    (s : State) : Res BuildID :=
  let '(lastBuildId', s1) := scanQueue E lastBuildId s in
  let s2 := set_newRunnable [] s1 in
  match processQueue (length (newBuilds s2)) fuel E s2 with
  | Ok _ s3 => Ok lastBuildId' (clear_newRunnable s3)
  | Throw s3 => Throw s3
  | AssertFail => AssertFail
  | OutOfFuel => OutOfFuel
  end.

(** ** Vocabulary of the properties *)

(** A row gets past the single-build pin (line 72). *)
Definition passes_pin (E : Env) (r : Row.t) : bool :=
  (buildOne E =? 0)%N || (Row.id r =? buildOne E)%N.

Definition max_id (h : BuildID) (rows : list Row.t) : BuildID :=
  fold_left N.max (map Row.id rows) h.


(** The back-references that the interner appends under the step's lock
    (lines 301-305). *)
Definition link_back (referringBuild : option BuildPtr)
    (referringStep : option StepPtr) (o : Step.t) : Step.t :=
  let o1 := match referringBuild with Some b => Step.push_build b o | None => o end in
  match referringStep with Some r => Step.push_rdep r o1 | None => o1 end.

(** Every live step is the one its path is interned to. *)
Definition interned (s : State) : Prop :=
  forall a c, stepHeap s !! a = Some c -> 0 < strong c ->
    steps s !! Step.drvPath (obj c) = Some a.

(** The interner entry of [p] is missing or expired. *)
Definition no_live_entry (s : State) (p : Path) : Prop :=
  forall w, steps s !! p = Some w -> ~ live (stepHeap s) w.

(** What the interner leaves behind when it finds the live step [w]. *)
Definition relinked (p : Path) (rb : option BuildPtr) (rs : option StepPtr)
    (w : StepPtr) (s : State) : State :=
  set_steps (<[p := w]> (steps s))
    (set_stepHeap (update_step (link_back rb rs) w (retain w (stepHeap s))) s).

(** What it leaves behind when it makes a step: the new cell has one owner
    and, apart from the back-references, only [drvPath] set. *)
Definition installed (p : Path) (rb : option BuildPtr) (rs : option StepPtr)
    (m : gmap Path StepPtr) (s : State) : State :=
  set_steps (<[p := length (stepHeap s)]> m)
    (set_stepHeap (stepHeap s ++ [mkCell (link_back rb rs (Step.fresh p)) 1]) s).

(** A heap and interner to try the interner on: the step of /d/A is live
    and created, the step of /d/B is gone and its entry is stale. *)
Definition state_AB : State :=
  mkState
    [mkCell (Step.mk "/d/A" Derivation.empty [] false [] [] [] true) 1;
     mkCell (Step.fresh "/d/B") 0]
    [] ({["/d/A" := 0%nat; "/d/B" := 1%nat]}) ∅ 0 0 [] [] 0 [] [] 0 [] ∅.

(** The step objects of a heap, without the owner counts. *)
Definition objs (s : State) : list Step.t := obj <$> stepHeap s.

(** Every interner entry leads to a step for that path. *)
Definition keyed (s : State) : Prop :=
  forall p w, steps s !! p = Some w ->
    exists o, objs s !! w = Some o /\ Step.drvPath o = p.

(** The dependencies of a created step exist and are created. *)
Definition closed (s : State) : Prop :=
  forall a o, objs s !! a = Some o -> Step.created o = true ->
    forall d, d ∈ Step.deps o ->
      exists o', objs s !! d = Some o' /\ Step.created o' = true.

(** The pointers in [newSteps] and [newRunnable] point into the heap. *)
Definition bounded (s : State) : Prop :=
  forall a, a ∈ newSteps s \/ a ∈ newRunnable s -> a < length (objs s).

(** What a runnable step must be: created, with nothing left to wait for. *)
Definition ready (s : State) (a : StepPtr) : Prop :=
  exists o, objs s !! a = Some o /\ Step.created o = true /\ Step.deps o = [].

(** A step whose initialisation is complete: the derivation has been read
    into it, each input derivation is either known to be finished or has
    its step among [deps], [created] is set, and it is in [newRunnable]
    exactly when [deps] is empty. *)
Definition initialised (E : Env) (s : State) (a : StepPtr) : Prop :=
  exists o, objs s !! a = Some o /\
    Step.created o = true /\
    readDerivation E (Step.drvPath o) = Some (Step.drv o) /\
    (forall p, p ∈ fst <$> Derivation.inputDrvs (Step.drv o) ->
       p ∈ finishedDrvs s \/
       exists d o', d ∈ Step.deps o /\ objs s !! d = Some o' /\ Step.drvPath o' = p) /\
    (a ∈ newRunnable s <-> Step.deps o = []).

(** Every step in [newRunnable] is ready. *)
Definition runnable_ok (s : State) : Prop :=
  forall a, a ∈ newRunnable s -> ready s a.

(** The invariant of the step graph. *)
Definition inv (s : State) : Prop :=
  bounded s /\ keyed s /\ closed s /\ runnable_ok s.

(** Two versions of a step. The path never changes; with [keep] on, only
    the back-references may differ. *)
Definition stable (keep : bool) (o o' : Step.t) : Prop :=
  Step.drvPath o' = Step.drvPath o /\
  (keep = true ->
   Step.drv o' = Step.drv o /\
   Step.requiredSystemFeatures o' = Step.requiredSystemFeatures o /\
   Step.preferLocalBuild o' = Step.preferLocalBuild o /\
   Step.created o' = Step.created o /\
   Step.deps o' = Step.deps o).

(** The part of the state that createStep never writes. *)
Definition outside (s : State) :=
  (buildHeap s, builds s, nrBuildsDone s, nrBuildsRead s, db s, clock s,
   newBuilds s, nrAdded s).

(** How a state may change while steps are created. The step [ex], if any,
    is the one under construction; the others keep all but their
    back-references. *)
Record evolves (ex : option StepPtr) (s s' : State) : Prop := mkEvolves {
  ev_len : length (objs s) <= length (objs s');
  ev_old : forall a o, objs s !! a = Some o ->
    exists o', objs s' !! a = Some o' /\
      stable (negb (bool_decide (ex = Some a))) o o';
  ev_steps_mono : forall a, a ∈ newSteps s -> a ∈ newSteps s';
  ev_steps_new : forall a, a ∈ newSteps s' ->
    a ∈ newSteps s \/ ex = Some a \/ length (objs s) <= a;
  ev_run_mono : forall a, a ∈ newRunnable s -> a ∈ newRunnable s';
  ev_run_new : forall a, a ∈ newRunnable s' ->
    a ∈ newRunnable s \/ ex = Some a \/ length (objs s) <= a;
  ev_finished : finishedDrvs s ⊆ finishedDrvs s';
  ev_outside : outside s' = outside s
}.

(** What createStep promises about its result. *)
Definition result_ok (p : Path) (r : option StepPtr) (s' : State) : Prop :=
  match r with
  | Some d => exists o, objs s' !! d = Some o /\ Step.created o = true /\ Step.drvPath o = p
  | None => p ∈ finishedDrvs s'
  end.

(** Between [s] and [s'], no new step has [created] set without being
    initialised. *)
Definition fresh_ok (E : Env) (s s' : State) : Prop :=
  forall a o, objs s' !! a = Some o -> length (objs s) <= a ->
    Step.created o = true -> initialised E s' a.

(** The steps that entered [newSteps] between [s] and [s'] are created. *)
Definition fresh_created (s s' : State) : Prop :=
  forall a, a ∈ newSteps s' -> a ∉ newSteps s ->
    exists o, objs s' !! a = Some o /\ Step.created o = true.

Definition step_spec (E : Env) (rec : CreateStep) : Prop :=
  forall p rb rs s, inv s ->
    match rec p rb rs s with
    | Ok r s' =>
        evolves None s s' /\ inv s' /\ fresh_ok E s s' /\
        fresh_created s s' /\ result_ok p r s'
    | Throw s' => evolves None s s' /\ inv s' /\ fresh_ok E s s'
    | AssertFail | OutOfFuel => True
    end.

(** Two states that agree on everything the step graph is about (they may
    differ in owner counts and in the trace). *)
Definition same (s s' : State) : Prop :=
  objs s' = objs s /\ steps s' = steps s /\ newSteps s' = newSteps s /\
  newRunnable s' = newRunnable s /\ finishedDrvs s' = finishedDrvs s /\
  outside s' = outside s.

(** [step_->deps.insert(dep)] on the object. *)
Definition add_dep (dep : StepPtr) (o : Step.t) : Step.t :=
  if set_has dep (Step.deps o) then o
  else Step.set_deps (set_insert dep (Step.deps o)) o.

(** What createStep leaves alone, whatever the state of the graph: the
    builds, the database, the counters, the working set; the trace only
    gets longer. *)
Definition step_frame (s s' : State) : Prop :=
  outside s' = outside s /\ exists evs, trace s' = (trace s ++ evs)%list.

(** The invariant of the step graph without the locals of createBuild. *)
Definition hinv (s : State) : Prop := keyed s /\ closed s /\ runnable_ok s.

(** The step objects between two states: none is lost, the old ones keep
    all but their back-references, and [newRunnable] keeps its members. *)
Definition grows (s s' : State) : Prop :=
  length (objs s) <= length (objs s') /\
  (forall a o, objs s !! a = Some o ->
     exists o', objs s' !! a = Some o' /\ stable true o o') /\
  (forall a, a ∈ newRunnable s -> a ∈ newRunnable s').

(** What an ingestion of [b] may do to the builds: it writes to [b] and to
    builds it takes out of the working set, and the working set only
    shrinks. *)
Definition build_frame (b : BuildPtr) (s s' : State) : Prop :=
  length (buildHeap s') = length (buildHeap s) /\
  (forall c, c <> b -> c ∉ snd <$> newBuilds s ->
     buildHeap s' !! c = buildHeap s !! c) /\
  (forall e, e ∈ newBuilds s' -> e ∈ newBuilds s).

(** The builds that left the working set between [s] and [s'] have been
    loaded: their "loading build" message is among the new events. *)
Definition loaded (s s' : State) : Prop :=
  exists evs, trace s' = (trace s ++ evs)%list /\
    forall e, e ∈ newBuilds s -> e ∈ newBuilds s' \/ EvLoadBuild (snd e) ∈ evs.

(** What the piggyback loops do between [s] and [s']: the step graph
    grows, the locals of the frame are back in place, builds outside the
    working set are not written to. *)
Definition pig_post (s s' : State) : Prop :=
  grows s s' /\ hinv s' /\
  newSteps s' = newSteps s /\ finishedDrvs s' = finishedDrvs s /\
  length (buildHeap s') = length (buildHeap s) /\
  (forall c, c ∉ snd <$> newBuilds s -> buildHeap s' !! c = buildHeap s !! c) /\
  (forall e, e ∈ newBuilds s' -> e ∈ newBuilds s) /\
  loaded s s'.

Definition build_spec (rec : CreateBuild) : Prop :=
  forall b s, hinv s ->
    match rec b s with
    | Ok _ s' | Throw s' =>
        grows s s' /\ hinv s' /\ build_frame b s s' /\
        exists evs, trace s' = (trace s ++ EvLoadBuild b :: evs)%list /\
          forall e, e ∈ newBuilds s ->
            e ∈ newBuilds s' \/ EvLoadBuild (snd e) ∈ evs
    | AssertFail | OutOfFuel => True
    end.

(** The steps that can be reached from [a] along [deps]. *)
Inductive reach (s : State) : StepPtr -> StepPtr -> Prop :=
  | reach_here a : reach s a a
  | reach_dep a o d b :
      objs s !! a = Some o -> d ∈ Step.deps o -> reach s d b -> reach s a b.

(** What the last part of an ingestion of [b] (the database updates, the
    publication, the locals going out of scope) does: it writes to the
    build [b], to the owner counts, the counters, the database, and it
    extends the trace without loading a build. *)
Definition tail_ok (b : BuildPtr) (s s' : State) : Prop :=
  objs s' = objs s /\ steps s' = steps s /\ newRunnable s' = newRunnable s /\
  newSteps s' = newSteps s /\ finishedDrvs s' = finishedDrvs s /\
  newBuilds s' = newBuilds s /\
  length (buildHeap s') = length (buildHeap s) /\
  (forall c, c <> b -> buildHeap s' !! c = buildHeap s !! c) /\
  exists evs, trace s' = (trace s ++ evs)%list /\
    forall c, EvLoadBuild c ∉ evs.

(** What an ingestion of [b] has done between [s] and [s']. *)
Definition build_post (b : BuildPtr) (s s' : State) : Prop :=
  grows s s' /\ hinv s' /\ build_frame b s s' /\
  exists evs, trace s' = (trace s ++ EvLoadBuild b :: evs)%list /\
    forall e, e ∈ newBuilds s ->
      e ∈ newBuilds s' \/ EvLoadBuild (snd e) ∈ evs.

(** ** The transactions *)

(** The three transactions that an ingestion can commit. *)
Inductive commit_shape : list DbOp -> Prop :=
  | shape_abort i t :
      commit_shape
        [Exec sql_abort_gced [PId i; PStatus bsAborted; PInt t; PStr msg_gced]]
  | shape_fail b r bss i bs t :
      commit_shape
        [CreateBuildStep 0 b r "" bss;
         Exec sql_fail_build
           [PId i; PStatus bs; PInt t;
            PInt (if bool_decide (bs <> bsUnsupported) then 1 else 0)]]
  | shape_success b res t :
      commit_shape [MarkSucceededBuild b res true t t].

Definition run_event (e : Event) : Prop :=
  match e with
  | EvCommit ops => commit_shape ops
  | _ => True
  end.

(** The trace of [s'] is the trace of [s] and then events that satisfy [P]. *)
Definition adds (P : Event -> Prop) (s s' : State) : Prop :=
  exists evs, trace s' = (trace s ++ evs)%list /\ Forall P evs.

Definition adds_spec (rec : CreateBuild) : Prop :=
  forall b s,
    match rec b s with
    | Ok _ s' | Throw s' => adds run_event s s'
    | _ => True
    end.

(** [s] ends with [suffix]. *)
Definition ends_with (suffix s : string) : bool :=
  (String.length suffix <=? String.length s)%nat
  && String.eqb
       (String.substring (String.length s - String.length suffix)
          (String.length suffix) s)
       suffix.

(** The updates among the operations of a transaction. *)
Definition updates_of (ops : list DbOp) : list (string * list SqlParam) :=
  flat_map (fun op => match op with Exec sql ps => [(sql, ps)] | _ => [] end) ops.

(** The transactions among [evs] have one of the three shapes, and each
    update in them is the only one of its transaction, ends in the guard
    on [finished], takes the build id as its first parameter, and leaves
    the rows that are finished alone. *)
Definition commits_guarded (evs : list Event) : Prop :=
  forall ops, EvCommit ops ∈ evs ->
    commit_shape ops /\
    forall sql ps, (sql, ps) ∈ updates_of ops ->
      updates_of ops = [(sql, ps)] /\
      ends_with " where id = $1 and finished = 0" sql = true /\
      (exists i rest, ps = PId i :: rest) /\
      forall tbl k row, tbl !! k = Some row -> Row.finished row <> 0%Z ->
        exec_sql sql ps tbl !! k = Some row.

(** The build [x'] has the fields of [x] but for [finishedInDB], which is
    [f], and [toplevel], which is [t]. *)
Definition build_is (x : Build.t) (f : bool) (t : option StepPtr)
    (x' : Build.t) : Prop :=
  Build.id x' = Build.id x /\ Build.drvPath x' = Build.drvPath x /\
  Build.fullJobName x' = Build.fullJobName x /\
  Build.maxSilentTime x' = Build.maxSilentTime x /\
  Build.buildTimeout x' = Build.buildTimeout x /\
  Build.finishedInDB x' = f /\ Build.toplevel x' = t.

(** ** Termination *)

(** The derivation graph of the store has no cycle: [rank] goes down along
    [inputDrvs]. *)
Definition acyclic (E : Env) (rank : Path -> nat) : Prop :=
  forall p drv q, readDerivation E p = Some drv ->
    q ∈ fst <$> Derivation.inputDrvs drv -> rank q < rank p.

(** A step for [p] that is under construction at [a]: it has an owner and
    [created] is not set. *)
Definition pending (h : list StepCell) (a : StepPtr) (p : Path) : Prop :=
  exists c, h !! a = Some c /\ 0 < strong c /\
    Step.created (obj c) = false /\ Step.drvPath (obj c) = p.

(** From [h] to [h'], no step has come under construction. *)
Definition quiet (h h' : list StepCell) : Prop :=
  forall a p, pending h' a p -> pending h a p.

(** No step is under construction. *)
Definition settled (s : State) : Prop := forall a q, ~ pending (stepHeap s) a q.

(** [rec] comes back for every path of rank below [k], provided the steps
    under construction are for paths of higher rank; when it returns, no
    step is left under construction; it throws only when a derivation
    cannot be read. *)
Definition step_total (E : Env) (rank : Path -> nat) (k : nat) (rec : CreateStep)
  : Prop :=
  forall p rb rs s, rank p < k -> inv s ->
    (forall a q, pending (stepHeap s) a q -> rank p < rank q) ->
    match rec p rb rs s with
    | Ok _ s' => quiet (stepHeap s) (stepHeap s')
    | Throw _ => exists q, readDerivation E q = None
    | AssertFail | OutOfFuel => False
    end.

(** [rec] comes back for every build when the working set has fewer than
    [k] builds. *)
Definition build_total (E : Env) (k : nat) (rec : CreateBuild) : Prop :=
  forall b s, length (newBuilds s) < k -> hinv s -> settled s ->
    match rec b s with
    | Ok _ s' => settled s' /\ length (newBuilds s') <= length (newBuilds s)
    | Throw _ => exists q, readDerivation E q = None
    | AssertFail | OutOfFuel => False
    end.

(** What the scan leaves: the step graph as it was, the build heap with the
    new builds at its end, and a working set of new builds, none of them
    finished in the database, with a top-level step or in [builds]. *)
Definition scanned (s0 s : State) : Prop :=
  stepHeap s = stepHeap s0 /\ steps s = steps s0 /\
  newRunnable s = newRunnable s0 /\ builds s = builds s0 /\ db s = db s0 /\
  (exists l, buildHeap s = (buildHeap s0 ++ l)%list) /\
  (forall p b, (p, b) ∈ newBuilds s ->
     length (buildHeap s0) <= b /\
     exists x, buildHeap s !! b = Some x /\ Build.drvPath x = p /\
       Build.finishedInDB x = false /\ Build.toplevel x = None /\
       builds s0 !! Build.id x = None).

(** ** The working set *)

(** The builds of the working set are as the scan made them: each is there
    once, for its path, not finished in the database, without a top-level
    step. *)
Definition untouched (s : State) : Prop :=
  NoDup (snd <$> newBuilds s) /\
  forall p b, (p, b) ∈ newBuilds s ->
    exists x, buildHeap s !! b = Some x /\ Build.drvPath x = p /\
      Build.finishedInDB x = false /\ Build.toplevel x = None.

(** [rec] keeps the working set untouched when it ingests a build that is
    no longer in it. *)
Definition untouched_spec (rec : CreateBuild) : Prop :=
  forall b s, untouched s -> b ∉ snd <$> newBuilds s ->
    match rec b s with
    | Ok _ s' | Throw s' =>
        untouched s' /\ forall e, e ∈ newBuilds s' -> e ∈ newBuilds s
    | AssertFail | OutOfFuel => True
    end.

(** ** The cancellation reaper (removeCancelledBuilds, lines 239-260) *)

(** [select id from Builds where finished = 0], the ids collected in the
    [std::set] [currentIds] (lines 242-248). *)
Definition currentIds (tbl : list Row.t) : gset BuildID :=
  list_to_set (Row.id <$> List.filter (fun r => (Row.finished r =? 0)%Z) tbl).

(** The entries of the [std::map] [builds] in the order of its iteration,
    by id. *)
Fixpoint insert_entry (e : BuildID * BuildPtr) (l : list (BuildID * BuildPtr))
  : list (BuildID * BuildPtr) :=
  match l with
  | [] => [e]
  | x :: l' => if (e.1 <? x.1)%N then e :: l else x :: insert_entry e l'
  end.

Definition builds_in_order (m : gmap BuildID BuildPtr) : list (BuildID * BuildPtr) :=
  fold_right insert_entry [] (map_to_list m).

(** [builds_->erase(i)] (line 255): the map lets go of its pointer to the
    build. *)
Definition eraseBuild (i : BuildID) (b : BuildPtr) (s : State) : State :=
  dropBuild b (set_builds (delete i (builds s)) s).

(** The body of the loop of lines 252-259 for the entry [e] ("discarding
    cancelled build" is a log message and left out, like the others). *)
Definition reapEntry (ids : gset BuildID) (s : State) (e : BuildID * BuildPtr) : State :=
  if bool_decide (e.1 ∈ ids) then s else eraseBuild e.1 e.2 s.

Definition removeCancelledBuilds (s : State) : State :=
  fold_left (reapEntry (currentIds (db s))) (builds_in_order (builds s)) s.

(** ** The monitor (queueMonitorLoop and queueMonitor, lines 7-53) *)

(** The state of the monitor thread: the state of the queue runner, the
    local [lastBuildId] of [queueMonitorLoop] and the counter
    [nrQueueWakeups]. *)
Record Monitor := mkMonitor {
  core : State;
  lastBuildId : BuildID;
  nrQueueWakeups : N
}.

(** What the monitor finds when [await_notification] comes back: the
    answers of the four receivers to [get()], and the [Builds] table, to
    which the other parts of Hydra have written meanwhile. The receivers
    are defined outside this file; their answers are inputs, and the
    properties of the monitor hold for every sequence of wake-ups. *)
Record Wake := mkWake {
  buildsAdded : bool;
  buildsRestarted : bool;
  buildsCancelled : bool;
  buildsDeleted : bool;
  table : list Row.t
}.

(** Lines 39-50: the wake-up is counted, a restart puts [lastBuildId] back
    to 0, a cancellation or deletion calls the reaper. *)
Definition onWake (w : Wake) (m : Monitor) : Monitor :=
  let s := set_db (table w) (core m) in
  let n := incr64 (nrQueueWakeups m) in
  let h := if buildsRestarted w then 0%N else lastBuildId m in
  let s' := if buildsCancelled w || buildsDeleted w then removeCancelledBuilds s else s in
  mkMonitor s' h n.

(** How a bounded run of the monitor ends: waiting for the next
    notification, by an exception that leaves [queueMonitorLoop] (with the
    wake-ups it has not seen and the number of the pass that would come
    next), by a failed [assert], or out of fuel. *)
Inductive LoopEnd :=
  | LoopWaiting (m : Monitor)
  | LoopThrow (s : State) (wakeups : N) (rest : list Wake) (next : nat)
  | LoopAssertFail
  | LoopOutOfFuel.

(** The loop of lines 33-52 for the wake-ups [ws]. The store, the machine
    registry and the clock are not the same from one pass to the next:
    [world i] is the environment that the pass number [i] of
    getQueuedBuilds finds. *)
Fixpoint monitorLoop (fuel : nat) (world : nat -> Env) (i : nat) (ws : list Wake)
    (m : Monitor) : LoopEnd :=
  match getQueuedBuilds fuel (world i) (lastBuildId m) (core m) with
  | Ok h s =>
      let m1 := mkMonitor s h (nrQueueWakeups m) in
      match ws with
      | [] => LoopWaiting m1
      | w :: ws' => monitorLoop fuel world (S i) ws' (onWake w m1)
      end
  | Throw s => LoopThrow s (nrQueueWakeups m) ws (S i)
  | AssertFail => LoopAssertFail
  | OutOfFuel => LoopOutOfFuel
  end.

(** [queueMonitorLoop] (lines 20-53): [lastBuildId] starts at 0. *)
Definition queueMonitorLoop (fuel : nat) (world : nat -> Env) (i : nat)
    (ws : list Wake) (s : State) (wakeups : N) : LoopEnd :=
  monitorLoop fuel world i ws (mkMonitor s 0%N wakeups).

(** [queueMonitor] (lines 7-17): an exception is caught and, after a
    pause, [queueMonitorLoop] starts anew. The run is followed for
    [retries] restarts; when the attempt after the last of them throws as
    well, the run ends there, in the handler. *)
Fixpoint queueMonitor (retries fuel : nat) (world : nat -> Env) (i : nat)
    (ws : list Wake) (s : State) (wakeups : N) : LoopEnd :=
  match queueMonitorLoop fuel world i ws s wakeups with
  | LoopThrow s' n ws' i' =>
      match retries with
      | O => LoopThrow s' n ws' i'
      | S r => queueMonitor r fuel world i' ws' s' n
      end
  | e => e
  end.

(** ** Vocabulary of the further properties *)

(** The build that lines 76-81 make of a row. *)
Definition build_of_row (row : Row.t) : Build.t :=
  Build.mk (Row.id row) (Row.drvPath row)
    (Row.project row ++ ":" ++ Row.jobset row ++ ":" ++ Row.job row)
    (Row.maxsilent row) (Row.timeout row) false None.

(** A row that the scan from [h] turns into a build: it is in the result
    of the query, gets past the pin, and its id is not in [builds]. *)
Definition scan_takes (E : Env) (h : BuildID) (s : State) (row : Row.t) : Prop :=
  row ∈ db s /\ (h < Row.id row)%N /\ Row.finished row = 0%Z /\
  passes_pin E row = true /\ builds s !! Row.id row = None.

(** An event of the store: a derivation is read. *)
Definition is_read (e : Event) : Prop := exists q, e = EvReadDerivation q.

(** Every step that the events [evs] hand to the dispatcher is ready in
    [s]: created, with nothing left to wait for. *)
Definition dispatch_ok (s : State) (evs : list Event) : Prop :=
  forall a, EvMakeRunnable a ∈ evs -> ready s a.

(** An event of an ingestion: anything but a dispatch. *)
Definition not_dispatch (e : Event) : Prop :=
  match e with
  | EvMakeRunnable _ => False
  | _ => True
  end.

(** A row of the table that is still queued under the id [i]. *)
Definition queued_id (tbl : list Row.t) (i : BuildID) : Prop :=
  exists r, r ∈ tbl /\ Row.id r = i /\ Row.finished r = 0%Z.

(** From [s] to [s'] only the [builds] map and the owners of steps have
    changed, and no step has gained an owner. *)
Definition only_releases (s s' : State) : Prop :=
  buildHeap s' = buildHeap s /\ steps s' = steps s /\ db s' = db s /\
  trace s' = trace s /\ clock s' = clock s /\
  nrBuildsRead s' = nrBuildsRead s /\ nrBuildsDone s' = nrBuildsDone s /\
  newBuilds s' = newBuilds s /\ newRunnable s' = newRunnable s /\
  objs s' = objs s /\
  forall a c c', stepHeap s !! a = Some c -> stepHeap s' !! a = Some c' ->
    strong c' <= strong c.

(** ** Unwinding *)

(** From [h] to [h'] the cells are the same in number, and a step that is
    not created has gained no owner. *)
Definition shrinks (h h' : list StepCell) : Prop :=
  length h' = length h /\
  forall a c c', h !! a = Some c -> h' !! a = Some c' ->
    Step.created (obj c') = true \/
    (Step.created (obj c) = false /\ strong c' <= strong c).

(** The owners of the steps under construction between [s] and [s']: a
    step that was there is created by now or has gained no owner; a step
    that was made since and is not created has no owner but [newSteps]. *)
Record unwinds (s s' : State) : Prop := mkUnwinds {
  uw_len : length (stepHeap s) <= length (stepHeap s');
  uw_steps : forall a, a ∈ newSteps s -> a ∈ newSteps s';
  uw_old : forall a c, stepHeap s !! a = Some c ->
    exists c', stepHeap s' !! a = Some c' /\
      (Step.created (obj c') = true \/
       (Step.created (obj c) = false /\ strong c' <= strong c));
  uw_new : forall a c', stepHeap s' !! a = Some c' ->
    length (stepHeap s) <= a ->
    Step.created (obj c') = false -> 0 < strong c' ->
    strong c' = 1 /\ a ∈ newSteps s'
}.

(** [rec] keeps the owners in order, whether it returns or throws, and a
    step that it returns is created. *)
Definition step_unwinds (rec : CreateStep) : Prop :=
  forall p rb rs s,
    match rec p rb rs s with
    | Ok r s' =>
        unwinds s s' /\
        forall d, r = Some d -> Step.created (step_at (stepHeap s') d) = true
    | Throw s' => unwinds s s'
    | AssertFail | OutOfFuel => True
    end.

(** When [rec] throws, it leaves no step under construction. *)
Definition build_unwinds (k : nat) (rec : CreateBuild) : Prop :=
  forall b s, length (newBuilds s) < k -> hinv s -> settled s ->
    match rec b s with
    | Throw s' => settled s'
    | _ => True
    end.

(** Since [s], the run to [s'] has added events of which the last is a
    read of a derivation that the store does not have. *)
Definition failed_read (E : Env) (s s' : State) : Prop :=
  exists q evs, readDerivation E q = None /\
    trace s' = (trace s ++ evs ++ [EvReadDerivation q])%list.

(** How a call ends that went from [s] to the outcome [r]: the table has
    as many rows as before, and an exception comes right after a read
    that the call made and that failed. *)
Definition ends_well {A} (E : Env) (s : State) (r : Res A) : Prop :=
  match r with
  | Ok _ s' => length (db s') = length (db s)
  | Throw s' => length (db s') = length (db s) /\ failed_read E s s'
  | AssertFail | OutOfFuel => True
  end.

(** An attempt of the monitor that ended by an exception: the number of
    the pass that threw, the events of the attempt before the read that
    failed, and the derivation that could not be read. *)
Record Attempt := mkAttempt {
  pass : nat;
  before : list Event;
  lost : Path
}.

Definition attempt_trace (a : Attempt) : list Event :=
  (before a ++ [EvReadDerivation (lost a)])%list.

(** ** Counting

    What the counters count, read off the trace. *)

(** An ingestion begins: the message of line 92. *)
Definition is_load (e : Event) : bool :=
  match e with
  | EvLoadBuild _ => true
  | _ => false
  end.

(** The transaction of the garbage-collected path (lines 99-106) or of
    the failed classification (lines 179-187). *)
Definition is_failure (e : Event) : bool :=
  match e with
  | EvCommit [Exec sql _] => String.eqb sql sql_abort_gced
  | EvCommit [CreateBuildStep _ _ _ _ _; Exec sql _] => String.eqb sql sql_fail_build
  | _ => false
  end.

Definition loads (evs : list Event) : nat := length (List.filter is_load evs).
Definition failures (evs : list Event) : nat := length (List.filter is_failure evs).

(** The counters from [s] to [s'] inside the loop of getQueuedBuilds:
    [nrBuildsDone] has gone up once for every failure transaction,
    [nrAdded] once for every ingestion that began, [nrBuildsRead] not at
    all; at least [k] ingestions began, and at most [k] more than builds
    left the working set. *)
Definition counted (k : nat) (s s' : State) : Prop :=
  exists evs, trace s' = (trace s ++ evs)%list /\
    nrBuildsDone s' = Nat.iter (failures evs) incr64 (nrBuildsDone s) /\
    nrAdded s' = Nat.iter (loads evs) incr32 (nrAdded s) /\
    nrBuildsRead s' = nrBuildsRead s /\
    k <= loads evs /\
    loads evs + length (newBuilds s') <= k + length (newBuilds s).

Definition counted_spec (rec : CreateBuild) : Prop :=
  forall b s,
    match rec b s with
    | Ok _ s' | Throw s' => counted 1 s s'
    | AssertFail | OutOfFuel => True
    end.

(** ** Concrete stores, tables and states *)

Definition row0 (i : BuildID) (p : Path) : Row.t :=
  Row.mk i "hydra" "trunk" "job" p 0 0 0 0 None None None None None.

Definition drv_of (out : Path) (inputs : list Path) : Derivation.t :=
  Derivation.mk [("out", out)] (map (fun p => (p, ["out"])) inputs) []
    "x86_64-linux".

(** A store in which exactly the paths of [valid] are valid and the
    derivations are those of [drvs]; one machine that takes every step. *)
Definition env_of (valid : list Path) (drvs : list (string * Derivation.t))
    (pin : BuildID) : Env :=
  mkEnv (fun p => existsb (String.eqb p) valid)
        (fun p => map_find p drvs)
        Derivation.outputs
        (fun v => [v])
        ["x86_64-linux"]
        pin
        (fun _ => false)
        [mkMachine (fun _ => true)]
        (fun n => 1000 + Z.of_nat n)%Z
        (fun a => a).

Definition state_of (tbl : list Row.t) : State :=
  mkState [] [] ∅ ∅ 0 0 tbl [] 0 [] [] 0 [] ∅.

(** Single-build mode pinned to build 7, with builds 3, 7 and 9 queued. *)
Definition env_pin7 : Env := env_of [] [] 7%N.
Definition state_379 : State :=
  state_of [row0 3%N "/d/three"; row0 7%N "/d/seven"; row0 9%N "/d/nine"].

(** The store of the shared-subtree scenario: /d/A has the input /d/C,
    neither is built yet. Builds 5 (for /d/A) and 6 (for /d/C) are queued. *)
Definition env_AC : Env :=
  env_of ["/d/A"; "/d/C"]
    [("/d/A", drv_of "/s/A" ["/d/C"]); ("/d/C", drv_of "/s/C" [])] 0%N.

Definition state_56 : State := state_of [row0 5%N "/d/A"; row0 6%N "/d/C"].

(** The state in which the ingestion of build 6 calls createStep: the step
    of /d/C has been made on behalf of /d/A, and [newSteps] and
    [finishedDrvs] are the fresh locals of the new createBuild. *)
Definition state_after_A : State :=
  match createStep 3 env_AC "/d/A" (Some 0) None (state_of []) with
  | Ok _ s => set_newSteps [] (set_finishedDrvs ∅ s)
  | _ => state_of []
  end.

(** The same store once the output of /d/C has been built. *)
Definition env_AC_built : Env :=
  env_of ["/d/A"; "/d/C"; "/s/C"]
    [("/d/A", drv_of "/s/A" ["/d/C"]); ("/d/C", drv_of "/s/C" [])] 0%N.

(** Build 3 for /d/gone, whose derivation is no longer in the store. *)
Definition env_gone : Env := env_of [] [] 0%N.

Definition state_gone : State :=
  mkState [] [Build.mk 3 "/d/gone" "hydra:trunk:job" 0 0 false None] ∅ ∅ 0 0
    [row0 3%N "/d/gone"] [] 0 [] [] 0 [] ∅.

(** The state a call leaves behind, for stating what followed it. *)
Definition state_of_res {A} (r : Res A) : State :=
  match r with
  | Ok _ s | Throw s => s
  | AssertFail | OutOfFuel => state_of []
  end.

(** Build 4 for /d/arm, a derivation for a platform that the only machine
    does not build. *)
Definition env_arm : Env :=
  mkEnv (fun p => String.eqb p "/d/arm")
        (fun p => if String.eqb p "/d/arm"
                  then Some (Derivation.mk [("out", "/s/arm")] [] [] "armv7l-linux")
                  else None)
        Derivation.outputs
        (fun v => [v])
        ["x86_64-linux"]
        0%N
        (fun _ => false)
        [mkMachine (fun o =>
           String.eqb (Derivation.platform (Step.drv o)) "x86_64-linux")]
        (fun n => 1000 + Z.of_nat n)%Z
        (fun a => a).

Definition state_arm : State :=
  mkState [] [Build.mk 4 "/d/arm" "hydra:trunk:job" 0 0 false None] ∅ ∅ 0 0
    [row0 4%N "/d/arm"] [] 0 [] [] 0 [] ∅.

Definition state_arm_created : State :=
  state_of_res (createStep 2 env_arm "/d/arm" (Some 0) None
                  (freshLocals (loadBuild 0 state_arm))).

(** The shared-subtree scenario after the scan, when the loop of
    getQueuedBuilds has taken build 5 (at address 0) out of the working
    set: build 6 (at address 1) is still in it. *)
Definition build5 : Build.t := Build.mk 5 "/d/A" "hydra:trunk:job" 0 0 false None.
Definition build6 : Build.t := Build.mk 6 "/d/C" "hydra:trunk:job" 0 0 false None.

Definition state_5 : State :=
  mkState [] [build5; build6] ∅ ∅ 0 0 [row0 5%N "/d/A"; row0 6%N "/d/C"] [] 0
    [("/d/C", 1)] [] 0 [] ∅.

Definition state_5_stepped : State :=
  state_of_res (createStep 3 env_AC "/d/A" (Some 0) None
                  (freshLocals (loadBuild 0 state_5))).

Definition state_5_piggybacked : State :=
  state_of_res (piggyback (createBuild 2 env_AC) (in_address_order env_AC (newSteps state_5_stepped))
                  state_5_stepped).

(** After the ingestion of build 5. *)
Definition state_5_done : State :=
  state_of_res (createBuild 3 env_AC 0 state_5).

(** The ids of the builds that a step refers back to, and the paths of the
    steps that depend on it. *)
Definition builds_of (s : State) (a : StepPtr) : list BuildID :=
  map (fun b => Build.id (build_at (buildHeap s) b))
      (Step.builds (step_at (stepHeap s) a)).

Definition rdeps_of (s : State) (a : StepPtr) : list Path :=
  map (fun r => Step.drvPath (step_at (stepHeap s) r))
      (Step.rdeps (step_at (stepHeap s) a)).

Definition state_arm_done : State :=
  state_of_res (createBuild 2 env_arm 0 state_arm).

(** Build 2 for /d/cached, whose output is in the store already. *)
Definition env_cached : Env :=
  env_of ["/d/cached"; "/s/cached"] [("/d/cached", drv_of "/s/cached" [])] 0%N.

Definition build2 : Build.t :=
  Build.mk 2 "/d/cached" "hydra:trunk:job" 0 0 false None.

Definition state_cached : State :=
  mkState [] [build2] ∅ ∅ 0 0 [row0 2%N "/d/cached"] [] 0
    [("/d/cached", 0)] [] 0 [] ∅.

(** The cached-success scenario when createStep has come back for build 2,
    taken out of the working set. *)
Definition state_cached_stepped : State :=
  state_of_res (createStep 1 env_cached "/d/cached" (Some 0) None
    (freshLocals (loadBuild 0 (set_newBuilds [] state_cached)))).

(** A rank for the derivations of [env_AC]: /d/A is above its input. *)
Definition rank_AC (p : Path) : nat := if String.eqb p "/d/A" then 1 else 0.

(** Build 1 for /d/root, whose one input /d/leaf is built already. *)
Definition env_root : Env :=
  env_of ["/d/root"; "/d/leaf"; "/s/leaf"]
    [("/d/root", drv_of "/s/root" ["/d/leaf"]); ("/d/leaf", drv_of "/s/leaf" [])] 0%N.

(** The shared-subtree scenario after its pass: builds 5 and 6 are
    published. *)
Definition state_56_done : State :=
  state_of_res (getQueuedBuilds 5 env_AC 0 state_56).

(** A store with a derivation that names itself as its input. *)
Definition env_loop : Env :=
  env_of ["/d/L"] [("/d/L", drv_of "/s/L" ["/d/L"])] 0%N.

(** Build 8 for /d/lost: the path is valid, the derivation cannot be read. *)
Definition env_lost : Env := env_of ["/d/lost"] [] 0%N.

Definition build8 : Build.t :=
  Build.mk 8 "/d/lost" "hydra:trunk:job" 0 0 false None.

Definition state_lost : State :=
  mkState [] [build8] ∅ ∅ 0 0 [row0 8%N "/d/lost"] [] 0
    [("/d/lost", 0)] [] 0 [] ∅.

(** Build 3 and build 4 as they would be had another part of the queue
    runner marked them finished already. *)
Definition state_gone_finished : State :=
  mkState [] [Build.mk 3 "/d/gone" "hydra:trunk:job" 0 0 true None] ∅ ∅ 0 0
    [row0 3%N "/d/gone"] [] 0 [] [] 0 [] ∅.

Definition state_arm_finished : State :=
  mkState [] [Build.mk 4 "/d/arm" "hydra:trunk:job" 0 0 true None] ∅ ∅ 0 0
    [row0 4%N "/d/arm"] [] 0 [] [] 0 [] ∅.

Definition state_arm_finished_created : State :=
  state_of_res (createStep 2 env_arm "/d/arm" (Some 0) None
                  (freshLocals (loadBuild 0 state_arm_finished))).

(** Build 5 of the shared-subtree scenario, alone and marked finished. *)
Definition state_5_finished : State :=
  mkState [] [Build.mk 5 "/d/A" "hydra:trunk:job" 0 0 true None] ∅ ∅ 0 0
    [row0 5%N "/d/A"] [] 0 [] [] 0 [] ∅.

Definition state_5_finished_created : State :=
  state_of_res (createStep 3 env_AC "/d/A" (Some 0) None
                  (freshLocals (loadBuild 0 state_5_finished))).

(** Build 8 queued, nothing loaded yet. *)
Definition state_8 : State := state_of [row0 8%N "/d/lost"].

(** The store of [env_lost] once the derivation of build 8 is there, and
    a store that has it from the second pass on. *)
Definition env_found : Env :=
  env_of ["/d/lost"] [("/d/lost", drv_of "/s/lost" [])] 0%N.

Definition world_mend (i : nat) : Env :=
  match i with
  | O => env_lost
  | S _ => env_found
  end.

(** A wake-up for new builds, with the table as it was. *)
Definition wake_added : Wake := mkWake true false false false [row0 8%N "/d/lost"].

(** Build 2 of the cached-success scenario, marked finished already. *)
Definition build2_finished : Build.t :=
  Build.mk 2 "/d/cached" "hydra:trunk:job" 0 0 true None.

Definition state_cached_finished : State :=
  mkState [] [build2_finished] ∅ ∅ 0 0 [row0 2%N "/d/cached"] [] 0 [] [] 0 [] ∅.

Definition state_cached_finished_stepped : State :=
  state_of_res (createStep 1 env_cached "/d/cached" (Some 0) None
                  (freshLocals (loadBuild 0 state_cached_finished))).

(** The store of [env_AC] with every step a cached failure, and with the
    steps at the addresses [addr]. *)
Definition env_AC_failed (addr : StepPtr -> nat) : Env :=
  mkEnv (isValidPath env_AC) (readDerivation env_AC) (getBuildOutput env_AC)
        (tokenizeString env_AC) (localPlatforms env_AC) 0%N (fun _ => true)
        (machines env_AC) (time_ env_AC) addr.

(** The allocator puts a later step at a lower address. *)
Definition downwards (a : StepPtr) : nat := 10 - a.

(** Build 5 alone, taken out of the working set. *)
Definition state_A : State :=
  mkState [] [build5] ∅ ∅ 0 0 [row0 5%N "/d/A"] [] 0 [] [] 0 [] ∅.

Definition state_A_created (addr : StepPtr -> nat) : State :=
  state_of_res (createStep 3 (env_AC_failed addr) "/d/A" (Some 0) None
                  (freshLocals (loadBuild 0 state_A))).
(** * Properties *)

(** Projections out of updated states. *)
Ltac sproj :=
  cbn [stepHeap buildHeap steps builds nrBuildsDone nrBuildsRead db trace clock newBuilds newRunnable nrAdded newSteps finishedDrvs
       set_stepHeap set_buildHeap set_steps set_builds set_nrBuildsDone set_nrBuildsRead set_db
       set_trace set_clock set_newBuilds set_newRunnable set_nrAdded set_newSteps set_finishedDrvs] in *.

(** ** The order of a loop over a set *)

Lemma insert_by_address_perm E a l : insert_by_address E a l ≡ₚ a :: l.
Proof.
  induction l as [|x l IH]; cbn [insert_by_address]; [reflexivity|].
  destruct (Nat.ltb (address E a) (address E x)); [reflexivity|].
  rewrite IH. apply Permutation_swap.
Qed.

Lemma in_address_order_perm E l : in_address_order E l ≡ₚ l.
Proof.
  induction l as [|a l IH]; cbn [in_address_order fold_right]; [reflexivity|].
  rewrite insert_by_address_perm. fold (in_address_order E l). rewrite IH. reflexivity.
Qed.

Lemma elem_of_in_address_order E l a : a ∈ in_address_order E l <-> a ∈ l.
Proof. rewrite (in_address_order_perm E l). reflexivity. Qed.

Lemma in_address_order_nil E : in_address_order E [] = [].
Proof. reflexivity. Qed.

(** ** The high-water mark of the scan *)

Lemma scanRow_fst E acc row :
  fst (scanRow E acc row) =
  if passes_pin E row then N.max (fst acc) (Row.id row) else fst acc.
Proof.
  destruct acc as [h s]. unfold scanRow, passes_pin. cbn [fst].
  destruct (buildOne E =? 0)%N eqn:Hb; destruct (Row.id row =? buildOne E)%N eqn:Hi;
    cbn [negb andb orb fst].
  all: try reflexivity.
  all: assert (Hmax : (if (h <? Row.id row)%N then Row.id row else h) = N.max h (Row.id row))
    by (destruct (N.ltb_spec h (Row.id row)); lia).
  all: destruct (builds s !! Row.id row); cbn [fst]; exact Hmax.
Qed.

Lemma scan_fold_fst E rows : forall acc,
  fst (fold_left (scanRow E) rows acc) =
  max_id (fst acc) (List.filter (passes_pin E) rows).
Proof.
  induction rows as [|r rows IH]; intros acc; [reflexivity|].
  cbn [fold_left List.filter]. rewrite IH, scanRow_fst.
  destruct (passes_pin E r); reflexivity.
Qed.

(** C1 (as amended). The new high-water mark is the largest id among the old
    mark and the rows of the query that get past the single-build pin;
    whether a row is then dropped because its id is already in [builds]
    plays no role. Without a pin every row of the query counts. *)
Theorem scanQueue_high_water E h s :
  fst (scanQueue E h s) =
  max_id h (List.filter (passes_pin E) (queuedRows h (db s))).
Proof.
  unfold scanQueue. rewrite scan_fold_fst. reflexivity.
Qed.

(** C1 (counterexample). With the pin on build 7 and builds 3, 7 and 9
    queued, the query returns all three rows, yet the mark stops at 7: it is
    not the largest id of the result set. *)
Lemma scanQueue_pin_counterexample :
  map Row.id (queuedRows 0 (db state_379)) = [3; 7; 9]%N /\
  fst (scanQueue env_pin7 0 state_379) = 7%N /\
  fst (scanQueue env_pin7 0 state_379) <> max_id 0 (queuedRows 0 (db state_379)).
Proof.
  split; [reflexivity|]. split; [reflexivity|]. vm_compute. discriminate.
Qed.

(** ** The heap of steps *)

Lemma retain_length a h : length (retain a h) = length h.
Proof. unfold retain. destruct (h !! a); [apply length_insert | reflexivity]. Qed.

Lemma update_step_length f a h : length (update_step f a h) = length h.
Proof. unfold update_step. destruct (h !! a); [apply length_insert | reflexivity]. Qed.

Lemma retain_lookup a h b :
  retain a h !! b =
  if decide (a = b) then (fun c => mkCell (obj c) (S (strong c))) <$> h !! b
  else h !! b.
Proof.
  unfold retain. destruct (h !! a) as [c|] eqn:Ha.
  - destruct (decide (a = b)) as [->|Hne].
    + rewrite list_lookup_insert_eq by (eapply lookup_lt_Some; eauto).
      rewrite Ha. reflexivity.
    + apply list_lookup_insert_ne; assumption.
  - destruct (decide (a = b)) as [->|Hne]; [rewrite Ha|]; reflexivity.
Qed.

Lemma update_step_lookup f a h b :
  update_step f a h !! b =
  if decide (a = b) then (fun c => mkCell (f (obj c)) (strong c)) <$> h !! b
  else h !! b.
Proof.
  unfold update_step. destruct (h !! a) as [c|] eqn:Ha.
  - destruct (decide (a = b)) as [->|Hne].
    + rewrite list_lookup_insert_eq by (eapply lookup_lt_Some; eauto).
      rewrite Ha. reflexivity.
    + apply list_lookup_insert_ne; assumption.
  - destruct (decide (a = b)) as [->|Hne]; [rewrite Ha|]; reflexivity.
Qed.

Lemma update_step_twice f g a h :
  update_step g a (update_step f a h) = update_step (fun o => g (f o)) a h.
Proof.
  apply list_eq. intros b. rewrite !update_step_lookup.
  destruct (decide (a = b)); [|reflexivity].
  destruct (lookup _ _); reflexivity.
Qed.

Lemma link_back_drvPath rb rs o :
  Step.drvPath (link_back rb rs o) = Step.drvPath o.
Proof. destruct rb, rs; reflexivity. Qed.

Lemma link_back_created rb rs o :
  Step.created (link_back rb rs o) = Step.created o.
Proof. destruct rb, rs; reflexivity. Qed.

Lemma link_back_deps rb rs o : Step.deps (link_back rb rs o) = Step.deps o.
Proof. destruct rb, rs; reflexivity. Qed.

Lemma link_back_drv rb rs o : Step.drv (link_back rb rs o) = Step.drv o.
Proof. destruct rb, rs; reflexivity. Qed.

(** The two conditional updates of the interner are one [link_back]. *)
Lemma link_back_updates rb rs a h :
  match rs with
  | Some r =>
      update_step (Step.push_rdep r) a
        match rb with Some b => update_step (Step.push_build b) a h | None => h end
  | None => match rb with Some b => update_step (Step.push_build b) a h | None => h end
  end = update_step (link_back rb rs) a h.
Proof.
  destruct rb, rs; cbn [link_back]; rewrite ?update_step_twice; try reflexivity.
  apply list_eq. intros b. rewrite update_step_lookup.
  destruct (decide (a = b)); [|reflexivity].
  destruct (lookup _ _) as [[]|]; reflexivity.
Qed.

(** ** The interner *)

Lemma internStep_live p rb rs s w :
  steps s !! p = Some w -> live (stepHeap s) w ->
  Step.created (step_at (stepHeap s) w) = true ->
  internStep p rb rs s = Ok (w, false) (relinked p rb rs w s).
Proof.
  intros Hw (c & Hc & Hpos) Hcr. unfold internStep, weak_lock. rewrite Hw, Hc.
  destruct (strong c) as [|k] eqn:Hk; [lia|].
  cbn [stepHeap set_stepHeap steps set_steps].
  assert (Hst : Step.created (step_at (retain w (stepHeap s)) w) = true).
  { unfold step_at in *. rewrite retain_lookup, decide_True by reflexivity.
    rewrite Hc in *. exact Hcr. }
  rewrite Hst. cbn [Bool.eqb]. rewrite link_back_updates. reflexivity.
Qed.

Lemma step_at_snoc h c : step_at (h ++ [c]) (length h) = obj c.
Proof. unfold step_at. rewrite lookup_app_r, Nat.sub_diag by lia. reflexivity. Qed.

Lemma update_step_snoc f h c :
  update_step f (length h) (h ++ [c]) = (h ++ [mkCell (f (obj c)) (strong c)])%list.
Proof.
  unfold update_step. rewrite lookup_app_r, Nat.sub_diag by lia. cbn [lookup list_lookup].
  rewrite insert_app_r_alt, Nat.sub_diag by lia. reflexivity.
Qed.

Lemma internStep_expired p rb rs s w :
  steps s !! p = Some w -> ~ live (stepHeap s) w ->
  internStep p rb rs s =
  Ok (length (stepHeap s), true) (installed p rb rs (delete p (steps s)) s).
Proof.
  intros Hw Hdead. unfold internStep, weak_lock. rewrite Hw.
  assert (Hnone : match stepHeap s !! w with
                  | Some c => match strong c with 0 => None | S _ => Some (retain w (stepHeap s)) end
                  | None => None end = None).
  { destruct (stepHeap s !! w) as [c|] eqn:Hc; [|reflexivity].
    destruct (strong c) eqn:Hk; [reflexivity|].
    exfalso. apply Hdead. exists c. split; [assumption|lia]. }
  rewrite Hnone. cbn [stepHeap set_stepHeap steps set_steps].
  rewrite step_at_snoc. cbn [obj Step.fresh Step.created Bool.eqb].
  rewrite link_back_updates, update_step_snoc. reflexivity.
Qed.

Lemma internStep_absent p rb rs s :
  steps s !! p = None ->
  internStep p rb rs s =
  Ok (length (stepHeap s), true) (installed p rb rs (steps s) s).
Proof.
  intros Hw. unfold internStep. rewrite Hw.
  cbn [stepHeap set_stepHeap steps set_steps].
  rewrite step_at_snoc. cbn [obj Step.fresh Step.created Bool.eqb].
  rewrite link_back_updates, update_step_snoc. reflexivity.
Qed.

Lemma live_dec h a : {live h a} + {~ live h a}.
Proof.
  unfold live. destruct (h !! a) as [c|] eqn:Hc.
  - destruct (strong c) eqn:Hk.
    + right. intros (c' & Hc' & Hpos). inversion Hc'; subst. lia.
    + left. exists c. split; [reflexivity|lia].
  - right. intros (c' & Hc' & _). discriminate.
Qed.

Lemma internStep_assert p rb rs s w :
  steps s !! p = Some w -> live (stepHeap s) w ->
  Step.created (step_at (stepHeap s) w) = false ->
  internStep p rb rs s = AssertFail.
Proof.
  intros Hw (c & Hc & Hpos) Hcr. unfold internStep, weak_lock. rewrite Hw, Hc.
  destruct (strong c) as [|k] eqn:Hk; [lia|].
  cbn [stepHeap set_stepHeap steps set_steps].
  assert (Hst : Step.created (step_at (retain w (stepHeap s)) w) = false).
  { unfold step_at in *. rewrite retain_lookup, decide_True by reflexivity.
    rewrite Hc in *. exact Hcr. }
  rewrite Hst. reflexivity.
Qed.

Lemma interned_relinked p rb rs w s :
  interned s -> steps s !! p = Some w -> live (stepHeap s) w ->
  interned (relinked p rb rs w s).
Proof.
  intros Hinv Hw (c0 & Hc0 & Hpos) a c. unfold relinked.
  cbn [stepHeap set_stepHeap steps set_steps].
  rewrite insert_id by assumption.
  rewrite update_step_lookup, retain_lookup.
  destruct (decide (w = a)) as [->|Hne]; [|apply Hinv].
  rewrite Hc0. simpl. intros Heq _. inversion Heq; subst c. cbn [obj].
  rewrite link_back_drvPath. eapply Hinv; eassumption.
Qed.

Lemma interned_installed p rb rs m s :
  interned s -> no_live_entry s p ->
  (forall q, q <> p -> m !! q = steps s !! q) ->
  interned (installed p rb rs m s).
Proof.
  intros Hinv Hnl Hm a c. unfold installed.
  cbn [stepHeap set_stepHeap steps set_steps].
  intros Hc Hpos.
  destruct (decide (a < length (stepHeap s))) as [Hlt|Hge].
  - rewrite lookup_app_l in Hc by assumption.
    pose proof (Hinv a c Hc Hpos) as Hent.
    destruct (decide (Step.drvPath (obj c) = p)) as [Hp|Hp].
    + exfalso. rewrite Hp in Hent. apply (Hnl a Hent). exists c. auto.
    + rewrite lookup_insert_ne by congruence. rewrite Hm by assumption. exact Hent.
  - assert (Hlen : a < length (stepHeap s ++ [mkCell (link_back rb rs (Step.fresh p)) 1]))
      by (eapply lookup_lt_Some; eassumption).
    rewrite length_app in Hlen. cbn [length] in Hlen.
    assert (a = length (stepHeap s)) as -> by lia.
    rewrite lookup_app_r, Nat.sub_diag in Hc by lia. cbn in Hc.
    inversion Hc; subst c. cbn [obj]. rewrite link_back_drvPath. cbn [Step.fresh Step.drvPath].
    apply lookup_insert_eq.
Qed.

(** Two live steps are never for the same path. *)
Lemma interned_unique s a1 a2 c1 c2 :
  interned s ->
  stepHeap s !! a1 = Some c1 -> 0 < strong c1 ->
  stepHeap s !! a2 = Some c2 -> 0 < strong c2 ->
  Step.drvPath (obj c1) = Step.drvPath (obj c2) -> a1 = a2.
Proof.
  intros Hinv H1 P1 H2 P2 Hp.
  pose proof (Hinv _ _ H1 P1) as E1. pose proof (Hinv _ _ H2 P2) as E2.
  rewrite Hp in E1. congruence.
Qed.

Lemma live_relinked p rb rs w s :
  live (stepHeap s) w -> live (stepHeap (relinked p rb rs w s)) w.
Proof.
  intros (c & Hc & Hpos). unfold relinked. cbn [stepHeap set_stepHeap set_steps].
  exists (mkCell (link_back rb rs (obj c)) (S (strong c))). split; [|cbn; lia].
  rewrite update_step_lookup, retain_lookup, !decide_True by reflexivity.
  rewrite Hc. reflexivity.
Qed.

Lemma live_installed p rb rs m s :
  live (stepHeap (installed p rb rs m s)) (length (stepHeap s)).
Proof.
  unfold installed. cbn [stepHeap set_stepHeap set_steps].
  eexists. rewrite lookup_app_r, Nat.sub_diag by lia. split; [reflexivity|cbn; lia].
Qed.

(** C2. The interner keeps at most one live step per path. A live entry is
    handed back with [isNew = false]; an expired entry is erased and a new
    step put in its place; a missing entry gets a new step. The new step
    has one owner, [created = false] and nothing set but [drvPath] and the
    back-references of this call. Afterwards every live step is again the
    entry of its path, and the step handed back is the only live step for
    [drvPath]. *)
Theorem internStep_one_live_step p rb rs s :
  interned s ->
  (forall w, steps s !! p = Some w -> live (stepHeap s) w ->
     Step.created (step_at (stepHeap s) w) = true ->
     internStep p rb rs s = Ok (w, false) (relinked p rb rs w s))
  /\ (forall w, steps s !! p = Some w -> ~ live (stepHeap s) w ->
     internStep p rb rs s =
     Ok (length (stepHeap s), true) (installed p rb rs (delete p (steps s)) s))
  /\ (steps s !! p = None ->
     internStep p rb rs s =
     Ok (length (stepHeap s), true) (installed p rb rs (steps s) s))
  /\ (forall step isNew s', internStep p rb rs s = Ok (step, isNew) s' ->
       interned s' /\ steps s' !! p = Some step /\ live (stepHeap s') step /\
       (forall a c, stepHeap s' !! a = Some c -> 0 < strong c ->
          Step.drvPath (obj c) = p -> a = step)).
Proof.
  intros Hinv.
  split; [intros; apply internStep_live; assumption|].
  split; [intros w Hw Hd; apply (internStep_expired _ _ _ _ w); assumption|].
  split; [intros; apply internStep_absent; assumption|].
  intros step isNew s' Hrun.
  assert (Hgoal : interned s' /\ steps s' !! p = Some step /\ live (stepHeap s') step).
  { destruct (steps s !! p) as [w|] eqn:Hw.
    - destruct (live_dec (stepHeap s) w) as [Hl|Hd].
      + destruct (Step.created (step_at (stepHeap s) w)) eqn:Hcr.
        * rewrite (internStep_live _ _ _ _ _ Hw Hl Hcr) in Hrun.
          inversion Hrun; subst. split; [apply interned_relinked; assumption|].
          split; [apply lookup_insert_eq | apply live_relinked; assumption].
        * rewrite (internStep_assert _ _ _ _ _ Hw Hl Hcr) in Hrun. discriminate.
      + rewrite (internStep_expired _ _ _ _ _ Hw Hd) in Hrun.
        inversion Hrun; subst. split; [|split].
        * apply interned_installed; [assumption| |].
          -- intros w' Hw'. assert (w' = w) as -> by congruence. exact Hd.
          -- intros q Hq. apply lookup_delete_ne. congruence.
        * apply lookup_insert_eq.
        * apply live_installed.
    - rewrite (internStep_absent _ _ _ _ Hw) in Hrun.
      inversion Hrun; subst. split; [|split].
      + apply interned_installed; [assumption| |].
        * intros w' Hw'. congruence.
        * reflexivity.
      + apply lookup_insert_eq.
      + apply live_installed. }
  destruct Hgoal as (Hi & He & Hl). repeat split; try assumption.
  intros a c Hc Hpos Hp. pose proof (Hi a c Hc Hpos) as Hent.
  rewrite Hp in Hent. pose proof (eq_trans (eq_sym Hent) He) as Heq.
  inversion Heq. reflexivity.
Qed.

Lemma interned_state_AB : interned state_AB.
Proof.
  intros a c Hc Hpos. destruct a as [|[|a]]; cbn in Hc.
  - inversion Hc; subst. reflexivity.
  - inversion Hc; subst. cbn in Hpos. lia.
  - discriminate.
Qed.

(** The heap [state_AB] meets the premise of C2; at /d/B the stale entry is
    replaced by a new step at address 2. *)
Lemma internStep_one_live_step_witness :
  interned state_AB /\
  forall step isNew s',
    internStep "/d/B" (Some 0) None state_AB = Ok (step, isNew) s' ->
    interned s' /\ steps s' !! "/d/B" = Some step /\ live (stepHeap s') step /\
    (forall a c, stepHeap s' !! a = Some c -> 0 < strong c ->
       Step.drvPath (obj c) = "/d/B" -> a = step).
Proof.
  split; [exact interned_state_AB|].
  exact (proj2 (proj2 (proj2
    (internStep_one_live_step "/d/B" (Some 0) None state_AB interned_state_AB)))).
Defined.

Example internStep_state_AB :
  (exists s', internStep "/d/A" None (Some 7) state_AB = Ok (0, false) s'
     /\ Step.rdeps (step_at (stepHeap s') 0) = [7]
     /\ strong <$> stepHeap s' !! 0 = Some 2)
  /\ (exists s', internStep "/d/B" (Some 3) None state_AB = Ok (2, true) s'
     /\ stepHeap s' !! 2 =
        Some (mkCell (Step.mk "/d/B" Derivation.empty [] false [] [] [3] false) 1)
     /\ steps s' !! "/d/B" = Some 2).
Proof.
  split; eexists; (split; [vm_compute; reflexivity|]); split; reflexivity.
Qed.

(** ** Owner counts do not touch the objects *)

Lemma fmap_obj_insert_same (h : list StepCell) a c k :
  h !! a = Some c -> obj <$> <[a := mkCell (obj c) k]> h = obj <$> h.
Proof.
  intros Hc. rewrite list_fmap_insert. apply list_insert_id.
  rewrite list_lookup_fmap, Hc. reflexivity.
Qed.

Lemma retain_objs a h : obj <$> retain a h = obj <$> h.
Proof.
  unfold retain. destruct (h !! a) as [c|] eqn:Hc; [|reflexivity].
  apply fmap_obj_insert_same. assumption.
Qed.

Lemma release_fuel_objs n : forall a h, obj <$> release_fuel n a h = obj <$> h.
Proof.
  induction n as [|n IH]; intros a h; [reflexivity|].
  cbn [release_fuel]. destruct (h !! a) as [c|] eqn:Hc; [|reflexivity].
  destruct (strong c) as [|[|k]]; [reflexivity| |].
  - transitivity (obj <$> <[a := mkCell (obj c) 0]> h);
      [|apply fmap_obj_insert_same; assumption].
    generalize (<[a := mkCell (obj c) 0]> h).
    induction (Step.deps (obj c)) as [|d ds IHd]; intros h0; [reflexivity|].
    cbn [fold_left]. rewrite IHd. apply IH.
  - apply fmap_obj_insert_same. assumption.
Qed.

Lemma release_objs a h : obj <$> release a h = obj <$> h.
Proof. apply release_fuel_objs. Qed.

Lemma release_all_objs l : forall h, obj <$> release_all l h = obj <$> h.
Proof.
  unfold release_all. induction l as [|a l IH]; intros h; [reflexivity|].
  cbn [fold_left]. rewrite IH. apply release_objs.
Qed.

Lemma release_opt_objs o h : obj <$> release_opt o h = obj <$> h.
Proof. destruct o; [apply release_objs | reflexivity]. Qed.

Lemma update_step_objs f a h :
  obj <$> update_step f a h = alter f a (obj <$> h).
Proof.
  apply list_eq. intros b. rewrite list_lookup_fmap, update_step_lookup.
  destruct (decide (a = b)) as [->|Hne].
  - rewrite list_lookup_alter_eq, list_lookup_fmap.
    destruct (h !! b); reflexivity.
  - rewrite list_lookup_alter_ne, list_lookup_fmap by assumption. reflexivity.
Qed.

Lemma step_at_objs h a :
  step_at h a = default (Step.fresh "") ((obj <$> h) !! a).
Proof. unfold step_at. rewrite list_lookup_fmap. destruct (h !! a); reflexivity. Qed.

(** ** Sets of step pointers *)

Lemma elem_of_set_insert a x l : x ∈ set_insert a l <-> x = a \/ x ∈ l.
Proof.
  induction l as [|y l IH]; cbn [set_insert].
  - rewrite list_elem_of_singleton, elem_of_nil. tauto.
  - destruct (Nat.ltb_spec a y).
    + rewrite elem_of_cons. tauto.
    + destruct (Nat.eqb_spec a y) as [->|Hne].
      * rewrite elem_of_cons. tauto.
      * rewrite !elem_of_cons, IH. tauto.
Qed.

Lemma set_has_true a l : set_has a l = true <-> a ∈ l.
Proof.
  unfold set_has. rewrite existsb_exists. split.
  - intros (x & Hx & Heq). apply Nat.eqb_eq in Heq. subst.
    apply list_elem_of_In. assumption.
  - intros Hin. exists a. split; [apply list_elem_of_In; assumption|apply Nat.eqb_refl].
Qed.

Lemma set_has_false a l : set_has a l = false <-> a ∉ l.
Proof.
  rewrite <- set_has_true. destruct (set_has a l); split; congruence.
Qed.

(** ** States that evolve *)

Lemma stable_refl b o : stable b o o.
Proof. unfold stable. tauto. Qed.

Lemma stable_trans b o1 o2 o3 : stable b o1 o2 -> stable b o2 o3 -> stable b o1 o3.
Proof.
  unfold stable. intros [H1 K1] [H2 K2]. split; [congruence|].
  intros Hb. destruct (K1 Hb) as (?&?&?&?&?). destruct (K2 Hb) as (?&?&?&?&?).
  repeat split; congruence.
Qed.

Lemma stable_weaken b o o' : stable true o o' -> stable b o o'.
Proof. unfold stable. intros [H K]. split; [assumption|]. intros _. auto. Qed.

Lemma evolves_refl ex s : evolves ex s s.
Proof.
  constructor; try tauto; try reflexivity.
  intros a o Ho. exists o. split; [assumption|apply stable_refl].
Qed.

Lemma evolves_trans ex s1 s2 s3 :
  evolves ex s1 s2 -> evolves ex s2 s3 -> evolves ex s1 s3.
Proof.
  intros H12 H23. destruct H12, H23. constructor.
  - lia.
  - intros a o Ho. destruct (ev_old0 a o Ho) as (o' & Ho' & Hst).
    destruct (ev_old1 a o' Ho') as (o'' & Ho'' & Hst').
    exists o''. split; [assumption|]. eapply stable_trans; eassumption.
  - auto.
  - intros a Ha. destruct (ev_steps_new1 a Ha) as [Hin|[?|?]].
    + destruct (ev_steps_new0 a Hin) as [?|[?|?]]; auto.
    + auto.
    + right. right. lia.
  - auto.
  - intros a Ha. destruct (ev_run_new1 a Ha) as [Hin|[?|?]].
    + destruct (ev_run_new0 a Hin) as [?|[?|?]]; auto.
    + auto.
    + right. right. lia.
  - etransitivity; eassumption.
  - congruence.
Qed.

Lemma evolves_weaken ex s s' : evolves None s s' -> evolves ex s s'.
Proof.
  intros []. constructor; try assumption.
  - intros a o Ho. destruct (ev_old0 a o Ho) as (o' & Ho' & Hst).
    exists o'. split; [assumption|]. apply stable_weaken. exact Hst.
  - intros a Ha. destruct (ev_steps_new0 a Ha) as [?|[?|?]]; auto. discriminate.
  - intros a Ha. destruct (ev_run_new0 a Ha) as [?|[?|?]]; auto. discriminate.
Qed.

(** Once the step under construction is done, it is one more new step. *)
Lemma evolves_close n s s1 s2 :
  evolves None s s1 -> evolves (Some n) s1 s2 -> length (objs s) <= n ->
  evolves None s s2.
Proof.
  intros H01 H12 Hn. destruct H01, H12. constructor.
  - lia.
  - intros a o Ho. destruct (ev_old0 a o Ho) as (o' & Ho' & Hst).
    destruct (ev_old1 a o' Ho') as (o'' & Ho'' & Hst').
    exists o''. split; [assumption|].
    assert (Hlt : a < length (objs s)) by (eapply lookup_lt_Some; eassumption).
    rewrite bool_decide_eq_false_2 in Hst' by (intros [= ->]; lia).
    eapply stable_trans; eassumption.
  - auto.
  - intros a Ha. destruct (ev_steps_new1 a Ha) as [Hin|[[= ->]|?]].
    + destruct (ev_steps_new0 a Hin) as [?|[?|?]]; auto.
    + auto.
    + right. right. lia.
  - auto.
  - intros a Ha. destruct (ev_run_new1 a Ha) as [Hin|[[= ->]|?]].
    + destruct (ev_run_new0 a Hin) as [?|[?|?]]; auto.
    + auto.
    + right. right. lia.
  - etransitivity; eassumption.
  - congruence.
Qed.

(** ** The interner, seen on the objects *)

Lemma internStep_objs p rb rs s a isNew s' :
  internStep p rb rs s = Ok (a, isNew) s' ->
  exists h m, s' = set_steps m (set_stepHeap h s) /\
    m !! p = Some a /\
    (forall q, q <> p -> m !! q = steps s !! q) /\
    if isNew
    then a = length (objs s) /\
         obj <$> h = (objs s ++ [link_back rb rs (Step.fresh p)])%list
    else steps s !! p = Some a /\
         obj <$> h = alter (link_back rb rs) a (objs s) /\
         exists o, objs s !! a = Some o /\ Step.created o = true.
Proof.
  intros Hrun. unfold objs.
  destruct (steps s !! p) as [w|] eqn:Hw.
  - destruct (live_dec (stepHeap s) w) as [Hl|Hd].
    + destruct (Step.created (step_at (stepHeap s) w)) eqn:Hcr.
      * rewrite (internStep_live _ _ _ _ _ Hw Hl Hcr) in Hrun.
        inversion Hrun; subst. unfold relinked. do 2 eexists.
        split; [reflexivity|]. split; [apply lookup_insert_eq|].
        split; [intros q Hq; apply lookup_insert_ne; congruence|].
        split; [reflexivity|]. split.
        -- rewrite update_step_objs, retain_objs. reflexivity.
        -- destruct Hl as (c & Hc & _). exists (obj c).
           rewrite list_lookup_fmap, Hc. split; [reflexivity|].
           unfold step_at in Hcr. rewrite Hc in Hcr. exact Hcr.
      * rewrite (internStep_assert _ _ _ _ _ Hw Hl Hcr) in Hrun. discriminate.
    + rewrite (internStep_expired _ _ _ _ _ Hw Hd) in Hrun.
      inversion Hrun; subst. unfold installed. do 2 eexists.
      split; [reflexivity|]. split; [apply lookup_insert_eq|].
      split.
      * intros q Hq. rewrite lookup_insert_ne, lookup_delete_ne by congruence.
        reflexivity.
      * split; [rewrite length_fmap; reflexivity|].
        rewrite fmap_app. reflexivity.
  - rewrite (internStep_absent _ _ _ _ Hw) in Hrun.
    inversion Hrun; subst. unfold installed. do 2 eexists.
    split; [reflexivity|]. split; [apply lookup_insert_eq|].
    split; [intros q Hq; apply lookup_insert_ne; congruence|].
    split; [rewrite length_fmap; reflexivity|].
    rewrite fmap_app. reflexivity.
Qed.

Lemma internStep_no_throw p rb rs s s' : internStep p rb rs s <> Throw s'.
Proof.
  unfold internStep.
  destruct (steps s !! p) as [w|]; [destruct (weak_lock w (stepHeap s))|];
    cbv zeta; cbn [fst snd];
    match goal with |- context [if ?b then _ else _] => destruct b end;
    discriminate.
Qed.

Lemma internStep_fuel p rb rs s : internStep p rb rs s <> OutOfFuel.
Proof.
  unfold internStep.
  destruct (steps s !! p) as [w|]; [destruct (weak_lock w (stepHeap s))|];
    cbv zeta; cbn [fst snd];
    match goal with |- context [if ?b then _ else _] => destruct b end;
    discriminate.
Qed.

(** ** States that agree up to owner counts *)

Lemma same_refl s : same s s.
Proof. repeat split. Qed.

Lemma same_drop_step a s : same s (drop_step a s).
Proof.
  unfold same, drop_step, objs, outside. sproj. rewrite release_objs. repeat split.
Qed.

Lemma same_trans s1 s2 s3 : same s1 s2 -> same s2 s3 -> same s1 s3.
Proof.
  unfold same. intros (?&?&?&?&?&?) (?&?&?&?&?&?). repeat split; congruence.
Qed.

Lemma same_trace t s : same s (set_trace t s).
Proof. repeat split. Qed.

Lemma inv_same s s' : same s s' -> inv s -> inv s'.
Proof.
  intros (Ho & Hs & Hn & Hr & _ & _) (Hb & Hk & Hc & Hro).
  unfold inv, bounded, keyed, closed, runnable_ok, ready.
  rewrite Ho, Hs, Hn, Hr. auto.
Qed.

Lemma evolves_same_r ex s s1 s2 : same s1 s2 -> evolves ex s s1 -> evolves ex s s2.
Proof.
  intros (Ho & Hs & Hn & Hr & Hf & Hout) []. constructor;
    rewrite ?Ho, ?Hn, ?Hr, ?Hf, ?Hout; assumption.
Qed.

Lemma initialised_same E s s' a : same s s' -> initialised E s a -> initialised E s' a.
Proof.
  intros (Ho & Hs & Hn & Hr & Hf & Hout). unfold initialised.
  rewrite Ho, Hr, Hf. auto.
Qed.

Lemma result_ok_same p r s s' : same s s' -> result_ok p r s -> result_ok p r s'.
Proof.
  intros (Ho & Hs & Hn & Hr & Hf & Hout). unfold result_ok.
  rewrite Ho, Hf. auto.
Qed.

(** ** Initialised steps stay initialised *)

Lemma initialised_evolves E ex s s' a :
  evolves ex s s' -> ex <> Some a -> initialised E s a -> initialised E s' a.
Proof.
  intros Hev Hne (o & Ho & Hcr & Hrd & Hin & Hrun).
  destruct (ev_old _ _ _ Hev a o Ho) as (o' & Ho' & Hp & Hst).
  rewrite bool_decide_eq_false_2 in Hst by assumption.
  destruct (Hst eq_refl) as (Hdrv & _ & _ & Hcr' & Hdeps).
  exists o'. split; [assumption|]. split; [congruence|].
  split; [rewrite Hp, Hdrv; assumption|]. split.
  - intros p Hpin. rewrite Hdrv in Hpin. destruct (Hin p Hpin) as [Hf|(d & od & Hd & Hod & Hdp)].
    + left. eapply ev_finished; eassumption.
    + right. destruct (ev_old _ _ _ Hev d od Hod) as (od' & Hod' & Hp' & _).
      exists d, od'. rewrite Hdeps. split; [assumption|]. split; [assumption|congruence].
  - rewrite Hdeps, <- Hrun. split.
    + intros Ha. destruct (ev_run_new _ _ _ Hev a Ha) as [?|[?|Hge]]; [assumption|congruence|].
      apply lookup_lt_Some in Ho. lia.
    + eapply ev_run_mono; eassumption.
Qed.

(** ** The invariant under the changes of one cell *)

Lemma lookup_alter_Some {A} (f : A -> A) n (l : list A) a o' :
  alter f n l !! a = Some o' ->
  exists o, l !! a = Some o /\ o' = if decide (n = a) then f o else o.
Proof.
  destruct (decide (n = a)) as [->|Hne].
  - rewrite list_lookup_alter_eq. destruct (l !! a) as [o|]; [|discriminate].
    cbn. intros [= <-]. eauto.
  - rewrite list_lookup_alter_ne by assumption. eauto.
Qed.

(** A cell is rewritten by [f], which keeps the path and [created], and the
    [deps] of a created step. *)
Lemma inv_alter f n s s' :
  inv s ->
  objs s' = alter f n (objs s) -> steps s' = steps s ->
  newSteps s' = newSteps s -> newRunnable s' = newRunnable s ->
  (forall o, objs s !! n = Some o ->
     Step.drvPath (f o) = Step.drvPath o /\ Step.created (f o) = Step.created o /\
     (Step.created o = true -> Step.deps (f o) = Step.deps o)) ->
  inv s'.
Proof.
  intros (Hb & Hk & Hc & Hr) Ho Hs Hn Hrn Hf.
  assert (Hlook : forall a o', objs s' !! a = Some o' ->
            exists o, objs s !! a = Some o /\ Step.drvPath o' = Step.drvPath o /\
              Step.created o' = Step.created o /\
              (Step.created o = true -> Step.deps o' = Step.deps o)).
  { intros a o' Ha. rewrite Ho in Ha. apply lookup_alter_Some in Ha.
    destruct Ha as (o & Ha & ->). exists o. split; [assumption|].
    destruct (decide (n = a)) as [->|]; [apply Hf; assumption|auto]. }
  assert (Hback : forall a o, objs s !! a = Some o -> Step.created o = true ->
            exists o', objs s' !! a = Some o' /\ Step.created o' = true /\
              Step.deps o' = Step.deps o).
  { intros a o Ha Hcr. rewrite Ho.
    destruct (decide (n = a)) as [->|Hne].
    - rewrite list_lookup_alter_eq, Ha. cbn. exists (f o).
      destruct (Hf o Ha) as (_ & Hcr' & Hd). split; [reflexivity|].
      split; [congruence|auto].
    - rewrite list_lookup_alter_ne by assumption. eauto. }
  repeat split.
  - intros a Ha. rewrite Hn, Hrn in Ha. rewrite Ho, length_alter. auto.
  - intros p w Hw. rewrite Hs in Hw. destruct (Hk p w Hw) as (o & Hlo & Hp).
    rewrite Ho. destruct (decide (n = w)) as [->|Hne].
    + rewrite list_lookup_alter_eq, Hlo. cbn. exists (f o). split; [reflexivity|].
      destruct (Hf o Hlo) as (Hp' & _). congruence.
    + rewrite list_lookup_alter_ne by assumption. eauto.
  - intros a o' Ha Hcr d Hd.
    destruct (Hlook a o' Ha) as (o & Hlo & _ & Hcr' & Hdeps).
    rewrite Hcr' in Hcr. rewrite (Hdeps Hcr) in Hd.
    destruct (Hc a o Hlo Hcr d Hd) as (od & Hod & Hodc).
    destruct (Hback d od Hod Hodc) as (od' & ? & ? & _). eauto.
  - intros a Ha. rewrite Hrn in Ha. destruct (Hr a Ha) as (o & Hlo & Hcr & Hd).
    destruct (Hback a o Hlo Hcr) as (o' & ? & ? & Hd'). exists o'.
    split; [assumption|]. split; [assumption|congruence].
Qed.

(** A new cell, not yet created, is interned under its path. *)
Lemma inv_snoc o p s s' :
  inv s ->
  objs s' = (objs s ++ [o])%list ->
  steps s' !! p = Some (length (objs s)) ->
  (forall q, q <> p -> steps s' !! q = steps s !! q) ->
  newSteps s' = newSteps s -> newRunnable s' = newRunnable s ->
  Step.drvPath o = p -> Step.created o = false ->
  inv s'.
Proof.
  intros (Hb & Hk & Hc & Hr) Ho Hp Hq Hn Hrn Hdp Hcr.
  assert (Hold : forall a x, objs s !! a = Some x -> objs s' !! a = Some x).
  { intros a x Ha. rewrite Ho. apply lookup_app_l_Some. assumption. }
  repeat split.
  - intros a Ha. rewrite Hn, Hrn in Ha. rewrite Ho, length_app. specialize (Hb a Ha). lia.
  - intros q w Hw. destruct (decide (q = p)) as [->|Hne].
    + rewrite Hp in Hw. inversion Hw; subst w. exists o. split; [|assumption].
      rewrite Ho, lookup_app_r, Nat.sub_diag by lia. reflexivity.
    + rewrite Hq in Hw by assumption. destruct (Hk q w Hw) as (x & Hx & Hxp). eauto.
  - intros a x Ha Hxc d Hd. rewrite Ho in Ha.
    apply lookup_app_Some in Ha. destruct Ha as [Ha|[Hge Ha]].
    + destruct (Hc a x Ha Hxc d Hd) as (od & Hod & Hodc). eauto.
    + destruct (a - length (objs s)) as [|k]; [|discriminate].
      cbn in Ha. inversion Ha; subst x. congruence.
  - intros a Ha. rewrite Hrn in Ha. destruct (Hr a Ha) as (x & Hx & Hxc & Hxd).
    exists x. auto.
Qed.

Lemma evolves_alter ex f n s s' :
  objs s' = alter f n (objs s) ->
  newSteps s' = newSteps s -> newRunnable s' = newRunnable s ->
  finishedDrvs s ⊆ finishedDrvs s' -> outside s' = outside s ->
  (forall o, objs s !! n = Some o ->
     stable (negb (bool_decide (ex = Some n))) o (f o)) ->
  evolves ex s s'.
Proof.
  intros Ho Hn Hr Hf Hout Hst. constructor; rewrite ?Hn, ?Hr; auto.
  - rewrite Ho, length_alter. lia.
  - intros a o Ha. rewrite Ho. destruct (decide (n = a)) as [->|Hne].
    + rewrite list_lookup_alter_eq, Ha. cbn. eauto.
    + rewrite list_lookup_alter_ne by assumption. exists o.
      split; [assumption|apply stable_refl].
Qed.

Lemma evolves_snoc ex o s s' :
  objs s' = (objs s ++ [o])%list ->
  newSteps s' = newSteps s -> newRunnable s' = newRunnable s ->
  finishedDrvs s' = finishedDrvs s -> outside s' = outside s ->
  evolves ex s s'.
Proof.
  intros Ho Hn Hr Hf Hout. constructor; rewrite ?Hn, ?Hr, ?Hf; auto.
  - rewrite Ho, length_app. lia.
  - intros a x Ha. exists x. split; [|apply stable_refl].
    rewrite Ho. apply lookup_app_l_Some. assumption.
Qed.

(** ** What the interner does to the invariant *)

Lemma internStep_inv p rb rs s a isNew s' :
  inv s -> internStep p rb rs s = Ok (a, isNew) s' ->
  evolves None s s' /\ inv s' /\
  exists o, objs s' !! a = Some o /\ Step.drvPath o = p /\
    Step.created o = negb isNew /\
    if isNew
    then a = length (objs s) /\ Step.deps o = [] /\ Step.drv o = Derivation.empty /\
         length (objs s') = S (length (objs s))
    else True.
Proof.
  intros Hinv Hrun. apply internStep_objs in Hrun.
  destruct Hrun as (h & m & -> & Hmp & Hmq & Hcase).
  destruct isNew.
  - destruct Hcase as (-> & Hobjs).
    assert (Hin : inv (set_steps m (set_stepHeap h s))).
    { eapply (inv_snoc _ p s); try eassumption; try reflexivity.
      - apply link_back_drvPath.
      - apply link_back_created. }
    split; [|split; [exact Hin|]].
    + eapply evolves_snoc; try eassumption; reflexivity.
    + exists (link_back rb rs (Step.fresh p)).
      change (objs (set_steps m (set_stepHeap h s))) with (obj <$> h).
      rewrite Hobjs, lookup_app_r, Nat.sub_diag by lia.
      split; [reflexivity|]. rewrite link_back_drvPath, link_back_created, link_back_deps, link_back_drv.
      repeat split.
      rewrite length_app. cbn [length]. lia.
  - destruct Hcase as (Hsp & Hobjs & o & Ho & Hcr).
    assert (Hm : m = steps s).
    { apply map_eq. intros q. destruct (decide (q = p)) as [->|Hne]; [congruence|auto]. }
    subst m.
    assert (Hin : inv (set_steps (steps s) (set_stepHeap h s))).
    { eapply (inv_alter (link_back rb rs) a s); try eassumption; try reflexivity.
      intros x _. rewrite link_back_drvPath, link_back_created, link_back_deps. auto. }
    split; [|split; [exact Hin|]].
    + eapply (evolves_alter None (link_back rb rs) a); try eassumption; try reflexivity.
      intros x _. split; [apply link_back_drvPath|]. intros _.
      rewrite link_back_drv, link_back_created, link_back_deps.
      destruct rb, rs; repeat split.
    + destruct Hinv as (_ & Hk & _). destruct (Hk p a Hsp) as (x & Hx & Hxp).
      assert (x = o) as -> by congruence.
      exists (link_back rb rs o).
      change (objs (set_steps (steps s) (set_stepHeap h s))) with (obj <$> h).
      rewrite Hobjs, list_lookup_alter_eq, Ho.
      rewrite link_back_drvPath, link_back_created. auto.
Qed.

(** ** The small steps of createStep *)

Lemma add_dep_drvPath d o : Step.drvPath (add_dep d o) = Step.drvPath o.
Proof. unfold add_dep. destruct (set_has d (Step.deps o)); reflexivity. Qed.

Lemma add_dep_created d o : Step.created (add_dep d o) = Step.created o.
Proof. unfold add_dep. destruct (set_has d (Step.deps o)); reflexivity. Qed.

Lemma add_dep_drv d o : Step.drv (add_dep d o) = Step.drv o.
Proof. unfold add_dep. destruct (set_has d (Step.deps o)); reflexivity. Qed.

Lemma elem_of_add_dep d o x :
  x ∈ Step.deps (add_dep d o) <-> x = d \/ x ∈ Step.deps o.
Proof.
  unfold add_dep. destruct (set_has d (Step.deps o)) eqn:Hh.
  - apply set_has_true in Hh. split; [auto|]. intros [->|?]; assumption.
  - cbn [Step.set_deps Step.deps]. apply elem_of_set_insert.
Qed.

Lemma link_dep_objs st dep s :
  objs (link_dep st dep s) = alter (add_dep dep) st (objs s).
Proof.
  unfold link_dep, objs. sproj. rewrite release_objs.
  rewrite step_at_objs.
  apply list_eq. intros b.
  destruct (decide (st = b)) as [->|Hne].
  - rewrite list_lookup_alter_eq.
    destruct ((obj <$> stepHeap s) !! b) as [o|] eqn:Ho;
      cbn [default from_option id fmap option_fmap option_map].
    + unfold add_dep. destruct (set_has dep (Step.deps o)).
      * rewrite Ho. reflexivity.
      * rewrite retain_objs, update_step_objs, list_lookup_alter_eq, Ho. reflexivity.
    + cbn [Step.fresh Step.deps set_has existsb].
      rewrite retain_objs, update_step_objs, list_lookup_alter_eq, Ho. reflexivity.
  - rewrite list_lookup_alter_ne by assumption.
    destruct (set_has dep _); [reflexivity|].
    rewrite retain_objs, update_step_objs, list_lookup_alter_ne by assumption.
    reflexivity.
Qed.

Lemma link_dep_rest st dep s :
  steps (link_dep st dep s) = steps s /\
  newSteps (link_dep st dep s) = newSteps s /\
  newRunnable (link_dep st dep s) = newRunnable s /\
  finishedDrvs (link_dep st dep s) = finishedDrvs s /\
  outside (link_dep st dep s) = outside s.
Proof. repeat split. Qed.

(** Sets of pointers grow, the heap stays. *)
Lemma inv_sets s s' :
  inv s -> objs s' = objs s -> steps s' = steps s ->
  (forall a, a ∈ newSteps s' -> a < length (objs s)) ->
  (forall a, a ∈ newRunnable s' -> ready s a) ->
  inv s'.
Proof.
  intros (Hb & Hk & Hc & Hr) Ho Hs Hn Hrn.
  unfold inv, bounded, keyed, closed, runnable_ok, ready in *.
  rewrite Ho, Hs. repeat split; auto.
  intros a [Ha|Ha]; [auto|].
  destruct (Hrn a Ha) as (o & Hlo & _). eapply lookup_lt_Some; eassumption.
Qed.

Lemma evolves_sets ex s s' :
  objs s' = objs s ->
  (forall a, a ∈ newSteps s -> a ∈ newSteps s') ->
  (forall a, a ∈ newSteps s' -> a ∈ newSteps s \/ ex = Some a) ->
  (forall a, a ∈ newRunnable s -> a ∈ newRunnable s') ->
  (forall a, a ∈ newRunnable s' -> a ∈ newRunnable s \/ ex = Some a) ->
  finishedDrvs s ⊆ finishedDrvs s' -> outside s' = outside s ->
  evolves ex s s'.
Proof.
  intros Ho Hn1 Hn2 Hr1 Hr2 Hf Hout. constructor; auto.
  - rewrite Ho. lia.
  - intros a o Ha. exists o. rewrite Ho. split; [assumption|apply stable_refl].
  - intros a Ha. destruct (Hn2 a Ha); auto.
  - intros a Ha. destruct (Hr2 a Ha); auto.
Qed.

Lemma insert_newSteps_spec n s :
  objs (insert_newSteps n s) = objs s /\
  steps (insert_newSteps n s) = steps s /\
  (forall a, a ∈ newSteps (insert_newSteps n s) <-> a = n \/ a ∈ newSteps s) /\
  newRunnable (insert_newSteps n s) = newRunnable s /\
  finishedDrvs (insert_newSteps n s) = finishedDrvs s /\
  outside (insert_newSteps n s) = outside s.
Proof.
  unfold insert_newSteps. destruct (set_has n (newSteps s)) eqn:Hh.
  - apply set_has_true in Hh. repeat split; auto. intros [->|?]; assumption.
  - unfold objs, outside. sproj. rewrite retain_objs. repeat split.
    + apply elem_of_set_insert.
    + apply elem_of_set_insert.
Qed.

Lemma insert_newRunnable_spec n s :
  objs (insert_newRunnable n s) = objs s /\
  steps (insert_newRunnable n s) = steps s /\
  newSteps (insert_newRunnable n s) = newSteps s /\
  (forall a, a ∈ newRunnable (insert_newRunnable n s) <-> a = n \/ a ∈ newRunnable s) /\
  finishedDrvs (insert_newRunnable n s) = finishedDrvs s /\
  outside (insert_newRunnable n s) = outside s.
Proof.
  unfold insert_newRunnable. destruct (set_has n (newRunnable s)) eqn:Hh.
  - apply set_has_true in Hh. repeat split; auto. intros [->|?]; assumption.
  - unfold objs, outside. sproj. rewrite retain_objs. repeat split.
    + apply elem_of_set_insert.
    + apply elem_of_set_insert.
Qed.

(** The step under construction gets one more dependency. *)
Lemma link_dep_step st dep s o od :
  inv s -> objs s !! st = Some o -> Step.created o = false ->
  objs s !! dep = Some od -> Step.created od = true ->
  evolves (Some st) s (link_dep st dep s) /\ inv (link_dep st dep s) /\
  objs (link_dep st dep s) !! st = Some (add_dep dep o) /\
  (forall a x, a <> st -> objs s !! a = Some x ->
     objs (link_dep st dep s) !! a = Some x).
Proof.
  intros Hinv Ho Hcr Hod Hodc.
  pose proof (link_dep_objs st dep s) as Hobjs.
  destruct (link_dep_rest st dep s) as (Hs & Hn & Hr & Hf & Hout).
  split; [|split; [|split]].
  - eapply (evolves_alter (Some st) (add_dep dep) st); try eassumption.
    + rewrite Hf. reflexivity.
    + intros x _. rewrite bool_decide_eq_true_2 by reflexivity.
      split; [apply add_dep_drvPath|discriminate].
  - eapply (inv_alter (add_dep dep) st s); try eassumption.
    intros x Hx. assert (x = o) as -> by congruence.
    rewrite add_dep_drvPath, add_dep_created. repeat split. congruence.
  - rewrite Hobjs, list_lookup_alter_eq, Ho. reflexivity.
  - intros a x Hne Hx. rewrite Hobjs, list_lookup_alter_ne by congruence. assumption.
Qed.

Lemma internStep_rest p rb rs s r s' :
  internStep p rb rs s = Ok r s' ->
  newSteps s' = newSteps s /\ newRunnable s' = newRunnable s /\
  finishedDrvs s' = finishedDrvs s /\ outside s' = outside s /\
  buildHeap s' = buildHeap s /\ trace s' = trace s.
Proof.
  destruct r as [a isNew]. intros Hrun. apply internStep_objs in Hrun.
  destruct Hrun as (h & m & -> & _). repeat split.
Qed.

(** The step under construction is marked created: its dependencies are. *)
Lemma inv_created n s s' o :
  inv s -> objs s !! n = Some o ->
  (forall d, d ∈ Step.deps o ->
     exists od, objs s !! d = Some od /\ Step.created od = true) ->
  objs s' = alter Step.set_created n (objs s) -> steps s' = steps s ->
  newSteps s' = newSteps s -> newRunnable s' = newRunnable s ->
  inv s'.
Proof.
  intros (Hb & Hk & Hc & Hr) Hn Hdeps Ho Hs Hns Hrn.
  assert (Hfwd : forall a x, objs s !! a = Some x ->
            exists x', objs s' !! a = Some x' /\ Step.drvPath x' = Step.drvPath x /\
              Step.deps x' = Step.deps x /\
              (Step.created x = true -> Step.created x' = true) /\
              (a = n -> Step.created x' = true)).
  { intros a x Ha. rewrite Ho. destruct (decide (n = a)) as [->|Hne].
    - rewrite list_lookup_alter_eq, Ha. cbn. eexists. split; [reflexivity|].
      repeat split; auto.
    - rewrite list_lookup_alter_ne by assumption. exists x. repeat split; auto.
      all: congruence. }
  repeat split.
  - intros a Ha. rewrite Hns, Hrn in Ha. rewrite Ho, length_alter. auto.
  - intros p w Hw. rewrite Hs in Hw. destruct (Hk p w Hw) as (x & Hx & Hp).
    destruct (Hfwd w x Hx) as (x' & Hx' & Hp' & _). exists x'. split; [assumption|congruence].
  - intros a x' Ha Hcr d Hd. rewrite Ho in Ha. apply lookup_alter_Some in Ha.
    destruct Ha as (x & Ha & ->).
    assert (Hdx : exists od, objs s !! d = Some od /\ Step.created od = true).
    { destruct (decide (n = a)) as [->|Hne].
      - apply Hdeps. assert (x = o) as -> by congruence. exact Hd.
      - eapply Hc; eassumption. }
    destruct Hdx as (od & Hod & Hodc).
    destruct (Hfwd d od Hod) as (od' & Hod' & _ & _ & Hc' & _). eauto.
  - intros a Ha. rewrite Hrn in Ha. destruct (Hr a Ha) as (x & Hx & Hxc & Hxd).
    destruct (Hfwd a x Hx) as (x' & Hx' & _ & Hd' & Hc' & _).
    exists x'. split; [assumption|]. split; [auto|congruence].
Qed.

Lemma finishStep_spec n s o :
  inv s -> objs s !! n = Some o -> Step.created o = false ->
  n ∉ newRunnable s ->
  (forall d, d ∈ Step.deps o ->
     exists od, objs s !! d = Some od /\ Step.created od = true) ->
  exists s', finishStep n s = Ok (Some n) s' /\
    evolves (Some n) s s' /\ inv s' /\
    objs s' !! n = Some (Step.set_created o) /\
    (n ∈ newRunnable s' <-> Step.deps o = []) /\
    finishedDrvs s' = finishedDrvs s /\ newSteps s' = newSteps s /\
    length (objs s') = length (objs s).
Proof.
  intros Hinv Ho Hcr Hnr Hdeps. unfold finishStep.
  assert (Hat : step_at (stepHeap s) n = o).
  { rewrite step_at_objs. fold (objs s). rewrite Ho. reflexivity. }
  rewrite Hat, Hcr.
  set (s1 := set_stepHeap (update_step Step.set_created n (stepHeap s)) s).
  assert (Hobjs1 : objs s1 = alter Step.set_created n (objs s))
    by apply update_step_objs.
  assert (Hn1 : objs s1 !! n = Some (Step.set_created o)).
  { rewrite Hobjs1, list_lookup_alter_eq, Ho. reflexivity. }
  assert (Hat1 : step_at (stepHeap s1) n = Step.set_created o).
  { rewrite step_at_objs. fold (objs s1). rewrite Hn1. reflexivity. }
  rewrite Hat1. cbn [Step.set_created Step.deps].
  assert (Hinv1 : inv s1).
  { eapply (inv_created n s s1 o); try eassumption; reflexivity. }
  assert (Hev1 : evolves (Some n) s s1).
  { eapply (evolves_alter (Some n) Step.set_created n); try eassumption; try reflexivity.
    intros x _. rewrite bool_decide_eq_true_2 by reflexivity.
    split; [reflexivity|discriminate]. }
  destruct (Step.deps o) as [|d ds] eqn:Hd.
  - destruct (insert_newRunnable_spec n s1) as (Ho2 & Hs2 & Hn2 & Hr2 & Hf2 & Hout2).
    eexists. split; [reflexivity|]. split; [|split; [|split; [|split; [|split; [|split]]]]].
    + eapply evolves_trans; [exact Hev1|].
      apply evolves_sets; try assumption.
      * rewrite Hn2. auto.
      * rewrite Hn2. auto.
      * intros a Ha. apply Hr2. auto.
      * intros a Ha. apply Hr2 in Ha. destruct Ha as [->|?]; auto.
      * rewrite Hf2. reflexivity.
    + eapply (inv_sets s1); try eassumption.
      * intros a Ha. rewrite Hn2 in Ha. apply Hinv1. auto.
      * intros a Ha. apply Hr2 in Ha. destruct Ha as [->|Ha].
        -- exists (Step.set_created o). split; [assumption|]. split; [reflexivity|].
           cbn [Step.set_created Step.deps]. assumption.
        -- apply Hinv1. assumption.
    + rewrite Ho2. assumption.
    + split; [reflexivity|]. intros _. apply Hr2. auto.
    + rewrite Hf2. reflexivity.
    + rewrite Hn2. reflexivity.
    + rewrite Ho2, Hobjs1, length_alter. reflexivity.
  - exists s1. split; [reflexivity|]. split; [assumption|]. split; [assumption|].
    split; [assumption|]. split; [|split; [reflexivity|split; [reflexivity|]]].
    + split; [intros Hin; contradiction|discriminate].
    + rewrite Hobjs1, length_alter. reflexivity.
Qed.

(** ** New steps are created only once initialised *)

Lemma fresh_ok_nogrow E s s' :
  length (objs s') <= length (objs s) -> fresh_ok E s s'.
Proof.
  intros Hlen a o Ho Hge _. apply lookup_lt_Some in Ho. lia.
Qed.

Lemma fresh_ok_same_r E s s1 s2 : same s1 s2 -> fresh_ok E s s1 -> fresh_ok E s s2.
Proof.
  intros Hsame Hf a o Ho Hge Hcr. pose proof Hsame as (Hobjs & _).
  rewrite Hobjs in Ho. eapply initialised_same; [exact Hsame|]. eapply Hf; eassumption.
Qed.

Lemma fresh_ok_trans E ex s1 s2 s3 :
  fresh_ok E s1 s2 -> evolves ex s2 s3 -> fresh_ok E s2 s3 ->
  (forall a, ex = Some a -> a < length (objs s1)) ->
  fresh_ok E s1 s3.
Proof.
  intros H12 Hev H23 Hex a o3 Ho3 Hge Hcr.
  destruct (decide (a < length (objs s2))) as [Hlt|Hnlt]; [|apply (H23 a o3); [assumption|lia|assumption]].
  destruct (lookup_lt_is_Some_2 _ _ Hlt) as (o2 & Ho2).
  assert (Hne : ex <> Some a) by (intros Heq; specialize (Hex a Heq); lia).
  destruct (ev_old _ _ _ Hev a o2 Ho2) as (o3' & Ho3' & _ & Hst).
  rewrite bool_decide_eq_false_2 in Hst by assumption.
  destruct (Hst eq_refl) as (_ & _ & _ & Hc & _).
  assert (o3' = o3) as -> by congruence.
  eapply initialised_evolves; [exact Hev|exact Hne|].
  apply (H12 a o2); [assumption|assumption|congruence].
Qed.

(** The step under construction is the only one that may not be done. *)
Lemma fresh_ok_close E n s s4 s5 :
  length (objs s) = n -> length (objs s4) = S n ->
  fresh_ok E s4 s5 ->
  (forall o, objs s5 !! n = Some o -> Step.created o = true -> initialised E s5 n) ->
  fresh_ok E s s5.
Proof.
  intros Hn H4 Hf Hown a o Ho Hge Hcr.
  destruct (decide (a = n)) as [->|Hne]; [eapply Hown; eassumption|].
  apply (Hf a o); [assumption|lia|assumption].
Qed.

Lemma created_evolves ex s s' a o :
  evolves ex s s' -> ex <> Some a ->
  objs s !! a = Some o -> Step.created o = true ->
  exists o', objs s' !! a = Some o' /\ Step.created o' = true.
Proof.
  intros Hev Hne Ho Hcr. destruct (ev_old _ _ _ Hev a o Ho) as (o' & Ho' & _ & Hst).
  rewrite bool_decide_eq_false_2 in Hst by assumption.
  destruct (Hst eq_refl) as (_ & _ & _ & Hc & _). exists o'. split; [assumption|congruence].
Qed.

Lemma createDeps_spec E rec st :
  step_spec E rec ->
  forall inputs s o,
    inv s -> objs s !! st = Some o -> Step.created o = false ->
    st ∉ newRunnable s ->
    (forall d, d ∈ Step.deps o ->
       exists od, objs s !! d = Some od /\ Step.created od = true) ->
    match createDeps rec st inputs s with
    | Ok _ s' =>
        evolves (Some st) s s' /\ inv s' /\ fresh_ok E s s' /\ fresh_created s s' /\
        exists o', objs s' !! st = Some o' /\ Step.created o' = false /\
          Step.drv o' = Step.drv o /\ Step.drvPath o' = Step.drvPath o /\
          (st ∉ newRunnable s') /\
          (forall d, d ∈ Step.deps o' ->
             exists od, objs s' !! d = Some od /\ Step.created od = true) /\
          (forall q, q ∈ fst <$> inputs ->
             q ∈ finishedDrvs s' \/
             exists d od, d ∈ Step.deps o' /\ objs s' !! d = Some od /\
               Step.drvPath od = q) /\
          (forall d, d ∈ Step.deps o -> d ∈ Step.deps o')
    | Throw s' =>
        evolves (Some st) s s' /\ inv s' /\ fresh_ok E s s' /\
        exists o', objs s' !! st = Some o' /\ Step.created o' = false
    | AssertFail | OutOfFuel => True
    end.
Proof.
  intros Hrec. induction inputs as [|[q x] rest IH]; intros s o Hinv Ho Hcr Hnr Hdeps.
  - cbn [createDeps]. split; [apply evolves_refl|]. split; [assumption|].
    split; [apply fresh_ok_nogrow; lia|]. split; [intros a Ha Hna; contradiction|].
    exists o. repeat split; auto.
    intros q Hq. cbn in Hq. apply elem_of_nil in Hq. contradiction.
  - cbn [createDeps]. specialize (Hrec q None (Some st) s Hinv).
    assert (Hlt : st < length (objs s)) by (eapply lookup_lt_Some; eassumption).
    assert (Hex : forall a, Some st = Some a -> a < length (objs s)) by (intros a [= <-]; exact Hlt).
    destruct (rec q None (Some st) s) as [r t1|t1| |]; [| |exact I|exact I].
    2:{ destruct Hrec as (Hev & Hi & Hf). split; [apply evolves_weaken; assumption|].
        split; [assumption|]. split; [assumption|].
        destruct (ev_old _ _ _ Hev st o Ho) as (o1 & Ho1 & _ & Hst1).
        destruct (Hst1 eq_refl) as (_ & _ & _ & Hc & _). exists o1. split; [assumption|congruence]. }
    destruct Hrec as (Hev1 & Hinv1 & Hfresh1 & Hfc1 & Hres).
    (* the step under construction, after the call *)
    destruct (ev_old _ _ _ Hev1 st o Ho) as (o1 & Ho1 & Hp1 & Hst1).
    destruct (Hst1 eq_refl) as (Hdrv1 & _ & _ & Hcr1 & Hdeps1).
    assert (Hcf1 : Step.created o1 = false) by congruence.
    assert (Hnr1 : st ∉ newRunnable t1).
    { intros Hin. destruct (ev_run_new _ _ _ Hev1 st Hin) as [?|[?|?]];
        [contradiction|discriminate|lia]. }
    assert (Hdeps1' : forall d, d ∈ Step.deps o1 ->
              exists od, objs t1 !! d = Some od /\ Step.created od = true).
    { intros d Hd. rewrite Hdeps1 in Hd. destruct (Hdeps d Hd) as (od & Hod & Hodc).
      eapply created_evolves; [exact Hev1|discriminate|eassumption|assumption]. }
    assert (Hnew1 : forall a, a ∈ newSteps t1 -> a ∉ newSteps s -> Some st <> Some a).
    { intros a Ha Hna [= ->]. destruct (ev_steps_new _ _ _ Hev1 a Ha) as [?|[?|?]];
        [contradiction|discriminate|lia]. }
    destruct r as [dep|].
    + (* a dependency came back: it is linked *)
      destruct Hres as (od & Hod & Hodc & Hodp).
      destruct (link_dep_step st dep t1 o1 od Hinv1 Ho1 Hcf1 Hod Hodc)
        as (Hev2 & Hinv2 & Ho2 & Hkeep).
      assert (Hne : dep <> st) by (intros ->; congruence).
      specialize (IH (link_dep st dep t1) (add_dep dep o1) Hinv2 Ho2).
      rewrite add_dep_created in IH. specialize (IH Hcf1 Hnr1).
      assert (Hd2 : forall d, d ∈ Step.deps (add_dep dep o1) ->
                exists od, objs (link_dep st dep t1) !! d = Some od /\ Step.created od = true).
      { intros d Hd. apply elem_of_add_dep in Hd. destruct Hd as [->|Hd].
        - exists od. split; [apply Hkeep; assumption|assumption].
        - destruct (Hdeps1' d Hd) as (od1 & Hod1 & Hodc1). exists od1.
          split; [|assumption]. apply Hkeep; [|assumption]. intros ->. congruence. }
      specialize (IH Hd2).
      assert (Hf2 : fresh_ok E s (link_dep st dep t1)).
      { eapply (fresh_ok_trans E (Some st) s t1); try eassumption.
        apply fresh_ok_nogrow. rewrite link_dep_objs, length_alter. lia. }
      assert (Hev02 : evolves (Some st) s (link_dep st dep t1)).
      { eapply evolves_trans; [apply evolves_weaken; eassumption|eassumption]. }
      destruct (createDeps rec st rest (link_dep st dep t1)) as [[] s'|s'| |];
        [| |exact I|exact I].
      2:{ destruct IH as (Hev3 & Hi3 & Hf3 & Ho3). split; [eapply evolves_trans; eassumption|].
          split; [assumption|]. split; [|assumption].
          eapply (fresh_ok_trans E (Some st) s (link_dep st dep t1)); eassumption. }
      destruct IH as (Hev3 & Hinv3 & Hf3 & Hfc3 & o' & Ho' & Hcr' & Hdrv' & Hp' & Hnr' & Hd' & Hq' & Hmono').
      split; [eapply evolves_trans; eassumption|].
      split; [assumption|].
      split; [eapply (fresh_ok_trans E (Some st) s (link_dep st dep t1)); eassumption|].
      split.
      * intros a Ha Hna.
        destruct (decide (a ∈ newSteps t1)) as [Hin|Hnin]; [|apply Hfc3; assumption].
        destruct (Hfc1 a Hin Hna) as (y & Hx & Hxc).
        destruct (created_evolves _ _ _ _ _ Hev2 (Hnew1 a Hin Hna) Hx Hxc) as (x2 & Hx2 & Hxc2).
        eapply created_evolves; [exact Hev3|apply Hnew1; assumption|eassumption|assumption].
      * exists o'. rewrite add_dep_drv, add_dep_drvPath in *.
        split; [assumption|]. split; [assumption|]. split; [congruence|].
        split; [congruence|]. split; [assumption|]. split; [assumption|]. split.
        -- intros q' Hq0. cbn in Hq0. apply elem_of_cons in Hq0. destruct Hq0 as [->|Hq0].
           ++ right. destruct (ev_old _ _ _ Hev3 dep od (Hkeep dep od Hne Hod))
                as (od' & Hod' & Hpd & _).
              exists dep, od'. split; [|split; [assumption|congruence]].
              apply Hmono'. apply elem_of_add_dep. auto.
           ++ apply Hq'. assumption.
        -- intros d Hd. apply Hmono'. apply elem_of_add_dep. right. congruence.
    + (* the dependency is finished already *)
      cbn [result_ok] in Hres.
      specialize (IH t1 o1 Hinv1 Ho1 Hcf1 Hnr1 Hdeps1').
      assert (Hev01 : evolves (Some st) s t1) by (apply evolves_weaken; assumption).
      destruct (createDeps rec st rest t1) as [[] s'|s'| |]; [| |exact I|exact I].
      2:{ destruct IH as (Hev3 & Hi3 & Hf3 & Ho3). split; [eapply evolves_trans; eassumption|].
          split; [assumption|]. split; [|assumption].
          eapply (fresh_ok_trans E (Some st) s t1); eassumption. }
      destruct IH as (Hev3 & Hinv3 & Hf3 & Hfc3 & o' & Ho' & Hcr' & Hdrv' & Hp' & Hnr' & Hd' & Hq' & Hmono').
      split; [eapply evolves_trans; eassumption|].
      split; [assumption|].
      split; [eapply (fresh_ok_trans E (Some st) s t1); eassumption|].
      split.
      * intros a Ha Hna.
        destruct (decide (a ∈ newSteps t1)) as [Hin|Hnin]; [|apply Hfc3; assumption].
        destruct (Hfc1 a Hin Hna) as (y & Hx & Hxc).
        eapply created_evolves; [exact Hev3|apply Hnew1; assumption|eassumption|assumption].
      * exists o'. split; [assumption|]. split; [assumption|]. split; [congruence|].
        split; [congruence|]. split; [assumption|]. split; [assumption|]. split.
        -- intros q' Hq0. cbn in Hq0. apply elem_of_cons in Hq0. destruct Hq0 as [->|Hq0].
           ++ left. eapply ev_finished; eassumption.
           ++ apply Hq'. assumption.
        -- intros d Hd. apply Hmono'. congruence.
Qed.

(** ** createStep keeps the invariant *)

Lemma fresh_ok_one E s s' n o :
  length (objs s) = n -> length (objs s') = S n ->
  objs s' !! n = Some o -> Step.created o = false ->
  fresh_ok E s s'.
Proof.
  intros Hn Hlen Ho Hcr a x Hx Hge Hxc.
  assert (a = n) as -> by (apply lookup_lt_Some in Hx; lia).
  congruence.
Qed.

Lemma createStep_body_spec E rec :
  step_spec E rec -> step_spec E (createStep_body E rec).
Proof.
  intros Hrec p rb rs s Hinv. unfold createStep_body.
  destruct (bool_decide (p ∈ finishedDrvs s)) eqn:Hfin.
  { apply bool_decide_eq_true in Hfin. split; [apply evolves_refl|].
    split; [assumption|]. split; [apply fresh_ok_nogrow; lia|].
    split; [intros a Ha Hna; contradiction|exact Hfin]. }
  destruct (internStep p rb rs s) as [[n isNew] s1|s1| |] eqn:Hint;
    [|exfalso; eapply internStep_no_throw; eassumption|exact I|exact I].
  destruct (internStep_inv _ _ _ _ _ _ _ Hinv Hint) as (Hev1 & Hinv1 & o1 & Ho1 & Hp1 & Hcr1 & Hnew).
  destruct (internStep_rest _ _ _ _ _ _ Hint) as (Hns1 & Hnr1 & Hfd1 & Hout1 & _).
  destruct isNew.
  2:{ (* the step was there *)
      split; [assumption|]. split; [assumption|]. split; [|split].
      - intros a o Ho Hge Hcr.
        destruct (ev_old _ _ _ Hev1 n o1) as (? & ? & ?).
        + apply internStep_objs in Hint. destruct Hint as (h & m & -> & _ & _ & _ & Hal & _).
          change (objs (set_steps m (set_stepHeap h s))) with (obj <$> h) in Ho.
          rewrite Hal in Ho. apply lookup_lt_Some in Ho. rewrite length_alter in Ho. lia.
        + apply internStep_objs in Hint. destruct Hint as (h & m & -> & _ & _ & _ & Hal & _).
          change (objs (set_steps m (set_stepHeap h s))) with (obj <$> h) in Ho.
          rewrite Hal in Ho. apply lookup_lt_Some in Ho. rewrite length_alter in Ho. lia.
      - intros a Ha Hna. rewrite Hns1 in Ha. contradiction.
      - exists o1. auto. }
  destruct Hnew as (-> & Hd1 & Hdrv1 & Hlen1). cbn [negb] in Hcr1.
  set (n := length (objs s)) in *.
  set (s2 := set_trace (trace s1 ++ [EvReadDerivation p]) s1).
  assert (Hsame2 : same s1 s2) by apply same_trace.
  destruct (readDerivation E p) as [drv|] eqn:Hread.
  2:{ (* readDerivation throws *)
      assert (Hsame : same s1 (drop_step n s2))
        by (eapply same_trans; [exact Hsame2|apply same_drop_step]).
      split; [eapply evolves_same_r; [exact Hsame|exact Hev1]|].
      split; [eapply inv_same; [apply same_drop_step|]; exact Hinv1|].
      eapply fresh_ok_same_r; [exact Hsame|].
      eapply (fresh_ok_one E s s1 n o1); try eassumption; reflexivity. }
  set (F := Step.set_drv drv (required_features E drv) (prefer_local E drv)).
  set (s3 := set_stepHeap (update_step F n (stepHeap s2)) s2).
  assert (Hobjs3 : objs s3 = alter F n (objs s1)) by apply update_step_objs.
  assert (Ho3 : objs s3 !! n = Some (F o1)).
  { rewrite Hobjs3, list_lookup_alter_eq, Ho1. reflexivity. }
  assert (Hlen3 : length (objs s3) = S n) by (rewrite Hobjs3, length_alter; exact Hlen1).
  assert (Hinv3 : inv s3).
  { eapply (inv_alter F n s1); try eassumption; try reflexivity.
    intros x _. repeat split. }
  assert (Hstab : forall x, stable (negb (bool_decide (Some n = Some n))) x (F x)).
  { intros x. rewrite bool_decide_eq_true_2 by reflexivity.
    split; [reflexivity|discriminate]. }
  destruct (all_outputs_valid E drv) eqn:Hvalid.
  { (* every output is valid: the step is not needed *)
    set (s3v := set_finishedDrvs ({[p]} ∪ finishedDrvs s3) s3).
    assert (Hev3 : evolves (Some n) s1 s3v).
    { eapply (evolves_alter (Some n) F n); try eassumption; try reflexivity.
      - change (finishedDrvs s3v) with ({[p]} ∪ finishedDrvs s1).
        apply union_subseteq_r.
      - intros x _. apply Hstab. }
    split; [|split; [|split; [|split]]].
    - eapply evolves_same_r; [apply same_drop_step|].
      eapply evolves_close; [exact Hev1|exact Hev3|]. reflexivity.
    - eapply inv_same; [apply same_drop_step|]. exact Hinv3.
    - eapply fresh_ok_same_r; [apply same_drop_step|].
      eapply (fresh_ok_one E s s3v n (F o1)); try eassumption; reflexivity.
    - intros a Ha Hna. change (a ∈ newSteps s1) in Ha. rewrite Hns1 in Ha. contradiction.
    - change (p ∈ {[p]} ∪ finishedDrvs s1).
      apply elem_of_union_l, elem_of_singleton. reflexivity. }
  (* the step has to be built *)
  destruct (insert_newSteps_spec n s3) as (Ho4 & Hs4 & Hn4 & Hr4 & Hf4 & Hout4).
  set (s4 := insert_newSteps n s3) in *.
  assert (Hinv4 : inv s4).
  { eapply (inv_sets s3); try eassumption.
    - intros a Ha. apply Hn4 in Ha. destruct Ha as [->|Ha]; [lia|].
      apply Hinv3. auto.
    - intros a Ha. rewrite Hr4 in Ha. apply Hinv3. assumption. }
  assert (Hev4 : evolves (Some n) s1 s4).
  { eapply evolves_trans.
    - eapply (evolves_alter (Some n) F n s1 s3); try eassumption; try reflexivity.
      intros x _. apply Hstab.
    - apply evolves_sets; try assumption.
      + intros a Ha. apply Hn4. auto.
      + intros a Ha. apply Hn4 in Ha. destruct Ha as [->|?]; auto.
      + rewrite Hr4. auto.
      + rewrite Hr4. auto.
      + rewrite Hf4. reflexivity. }
  assert (Hnr4 : n ∉ newRunnable s4).
  { rewrite Hr4. change (newRunnable s3) with (newRunnable s1). rewrite Hnr1.
    intros Hin. destruct Hinv as (Hb & _). specialize (Hb n (or_intror Hin)).
    unfold n in Hb. lia. }
  assert (Ho4n : objs s4 !! n = Some (F o1)) by (rewrite Ho4; exact Ho3).
  assert (Hcr4 : Step.created (F o1) = false) by exact Hcr1.
  assert (Hd4 : forall d, d ∈ Step.deps (F o1) ->
            exists od, objs s4 !! d = Some od /\ Step.created od = true).
  { intros d Hd. change (Step.deps (F o1)) with (Step.deps o1) in Hd.
    rewrite Hd1 in Hd. apply elem_of_nil in Hd. contradiction. }
  assert (Hlen4 : length (objs s4) = S n) by (rewrite Ho4; exact Hlen3).
  pose proof (createDeps_spec E rec n Hrec (Derivation.inputDrvs drv) s4 (F o1)
                Hinv4 Ho4n Hcr4 Hnr4 Hd4) as Hloop.
  destruct (createDeps rec n (Derivation.inputDrvs drv) s4) as [[] s5|s5| |];
    [| |exact I|exact I].
  2:{ (* a dependency threw *)
      destruct Hloop as (Hev5 & Hinv5 & Hf5 & o5 & Ho5 & Hcr5). split; [|split].
      - eapply evolves_same_r; [apply same_drop_step|].
        eapply evolves_close; [exact Hev1| |reflexivity].
        eapply evolves_trans; eassumption.
      - eapply inv_same; [apply same_drop_step|]. exact Hinv5.
      - eapply fresh_ok_same_r; [apply same_drop_step|].
        eapply (fresh_ok_close E n s s4 s5); try eassumption; [reflexivity|].
        intros x Hx Hxc. congruence. }
  destruct Hloop as (Hev5 & Hinv5 & Hf5 & Hfc5 & o5 & Ho5 & Hcr5 & Hdrv5 & Hp5 & Hnr5 & Hd5 & Hq5 & _).
  destruct (finishStep_spec n s5 o5 Hinv5 Ho5 Hcr5 Hnr5 Hd5)
    as (s6 & Hfin6 & Hev6 & Hinv6 & Ho6 & Hrun6 & Hf6 & Hn6 & Hlen6).
  rewrite Hfin6.
  assert (Hev16 : evolves (Some n) s1 s6).
  { eapply evolves_trans; [exact Hev4|]. eapply evolves_trans; eassumption. }
  assert (Hown : initialised E s6 n).
  { exists (Step.set_created o5). split; [assumption|].
    cbn [Step.set_created Step.created Step.drvPath Step.drv Step.deps].
    split; [reflexivity|]. split.
    { rewrite Hp5, Hdrv5. cbn [F Step.set_drv Step.drvPath Step.drv].
      rewrite Hp1. exact Hread. }
    split; [|exact Hrun6].
    intros q Hq. rewrite Hdrv5 in Hq. cbn [F Step.set_drv Step.drv] in Hq.
    destruct (Hq5 q Hq) as [Hqf|(d & od & Hd & Hod & Hodp)].
    - left. rewrite Hf6. assumption.
    - right. destruct (ev_old _ _ _ Hev6 d od Hod) as (od' & Hod' & Hpd & _).
      exists d, od'. split; [assumption|]. split; [assumption|congruence]. }
  split; [eapply evolves_close; [exact Hev1|exact Hev16|reflexivity]|].
  split; [assumption|]. split; [|split].
  - eapply (fresh_ok_close E n s s4 s6); try eassumption; [reflexivity| |auto].
    eapply (fresh_ok_trans E (Some n) s4 s5 s6); try eassumption.
    + apply fresh_ok_nogrow. lia.
    + intros a [= <-]. lia.
  - intros a Ha Hna. rewrite Hn6 in Ha.
    destruct (decide (a = n)) as [->|Hne].
    + exists (Step.set_created o5). split; [assumption|reflexivity].
    + destruct (Hfc5 a Ha) as (x & Hx & Hxc).
      * intros Hin. apply Hn4 in Hin. destruct Hin as [?|Hin]; [contradiction|].
        change (a ∈ newSteps s1) in Hin. rewrite Hns1 in Hin. contradiction.
      * eapply created_evolves; [exact Hev6|congruence|eassumption|assumption].
  - exists (Step.set_created o5). split; [assumption|].
    cbn [Step.set_created Step.created Step.drvPath].
    split; [reflexivity|]. rewrite Hp5. exact Hp1.
Qed.

Lemma createStep_spec E fuel : step_spec E (createStep fuel E).
Proof.
  induction fuel as [|fuel IH].
  - intros p rb rs s _. exact I.
  - cbn [createStep]. apply createStep_body_spec. exact IH.
Qed.

Lemma inv_state_of tbl : inv (state_of tbl).
Proof.
  repeat split.
  - intros a [Ha|Ha]; cbn in Ha; apply elem_of_nil in Ha; contradiction.
  - intros p w Hw. cbn in Hw. rewrite lookup_empty in Hw. discriminate.
  - intros a o Ho. cbn in Ho. discriminate.
  - intros a Ha. cbn in Ha. apply elem_of_nil in Ha. contradiction.
Qed.

Lemma internStep_fresh p rb rs s :
  no_live_entry s p ->
  exists m, internStep p rb rs s =
            Ok (length (stepHeap s), true) (installed p rb rs m s).
Proof.
  intros Hnl. destruct (steps s !! p) as [w|] eqn:Hw.
  - eexists. apply (internStep_expired _ _ _ _ w); auto.
  - eexists. apply internStep_absent. assumption.
Qed.

Lemma release_last h c n :
  n = length h -> strong c = 1 -> Step.deps (obj c) = [] ->
  release n (h ++ [c]) = (h ++ [mkCell (obj c) 0])%list.
Proof.
  intros -> Hs Hd. unfold release. cbn [release_fuel].
  rewrite lookup_app_r, Nat.sub_diag by lia. cbn [lookup list_lookup].
  rewrite Hs, Hd. cbn [fold_left].
  rewrite insert_app_r_alt, Nat.sub_diag by lia. reflexivity.
Qed.

(** ** createStep comes back *)

Lemma quiet_refl h : quiet h h.
Proof. intros a p H. exact H. Qed.

Lemma quiet_trans h1 h2 h3 : quiet h1 h2 -> quiet h2 h3 -> quiet h1 h3.
Proof. intros H1 H2 a p H. auto. Qed.

Lemma release_fuel_cell n : forall x h a c',
  release_fuel n x h !! a = Some c' ->
  exists c, h !! a = Some c /\ obj c = obj c' /\ strong c' <= strong c.
Proof.
  induction n as [|n IH]; intros x h a c' H; cbn [release_fuel] in H.
  - exists c'. auto.
  - destruct (h !! x) as [cx|] eqn:Hx; [|exists c'; auto].
    assert (Hfold : forall ds h0 c0,
              fold_left (fun h' d => release_fuel n d h') ds h0 !! a = Some c0 ->
              exists c, h0 !! a = Some c /\ obj c = obj c0 /\ strong c0 <= strong c).
    { induction ds as [|d ds IHd]; intros h0 c0 H0; cbn [fold_left] in H0.
      - exists c0. auto.
      - apply IHd in H0. destruct H0 as (c1 & H1 & Ho & Hle).
        apply IH in H1. destruct H1 as (c2 & H2 & Ho2 & Hle2).
        exists c2. split; [assumption|]. split; [congruence|lia]. }
    assert (Hlt : x < length h) by (eapply lookup_lt_Some; eassumption).
    destruct (strong cx) as [|[|k]] eqn:Hs.
    + exists c'. auto.
    + apply Hfold in H. destruct H as (c1 & H1 & Ho & Hle).
      destruct (decide (x = a)) as [->|Hne].
      * rewrite list_lookup_insert_eq in H1 by assumption.
        injection H1 as <-. exists cx. cbn in *. split; [assumption|].
        split; [assumption|lia].
      * rewrite list_lookup_insert_ne in H1 by assumption. eauto.
    + destruct (decide (x = a)) as [->|Hne].
      * rewrite list_lookup_insert_eq in H by assumption.
        injection H as <-. exists cx. cbn. split; [assumption|].
        split; [reflexivity|lia].
      * rewrite list_lookup_insert_ne in H by assumption. exists c'. auto.
Qed.

Lemma quiet_shrink (h h' : list StepCell) :
  (forall a c', h' !! a = Some c' ->
     exists c, h !! a = Some c /\ obj c = obj c' /\ strong c' <= strong c) ->
  quiet h h'.
Proof.
  intros H a p (c' & Hc' & Hs & Hcr & Hp).
  destruct (H a c' Hc') as (c & Hc & Ho & Hle).
  exists c. rewrite Ho. split; [assumption|]. split; [lia|auto].
Qed.

Lemma quiet_release x h : quiet h (release x h).
Proof. apply quiet_shrink. intros a c'. apply release_fuel_cell. Qed.

Lemma quiet_release_all l : forall h, quiet h (release_all l h).
Proof.
  induction l as [|x l IH]; intros h; cbn [release_all fold_left].
  - apply quiet_refl.
  - eapply quiet_trans; [apply quiet_release|apply IH].
Qed.

Lemma quiet_release_opt o h : quiet h (release_opt o h).
Proof. destruct o; [apply quiet_release|apply quiet_refl]. Qed.

Lemma pending_retain x h a p : pending (retain x h) a p -> a = x \/ pending h a p.
Proof.
  intros (c & Hc & Hs & Hcr & Hp). rewrite retain_lookup in Hc.
  destruct (decide (x = a)) as [->|Hne]; [left; reflexivity|].
  right. exists c. auto.
Qed.

Lemma quiet_retain x h :
  Step.created (step_at h x) = true -> quiet h (retain x h).
Proof.
  intros Hx a p (c & Hc & Hs & Hcr & Hp). rewrite retain_lookup in Hc.
  destruct (decide (x = a)) as [->|Hne].
  - unfold step_at in Hx. destruct (h !! a) as [c0|]; [|discriminate].
    injection Hc as <-. cbn in Hcr. congruence.
  - exists c. auto.
Qed.

Lemma quiet_update f x h :
  (forall o, Step.created (f o) = false ->
     Step.created o = false /\ Step.drvPath (f o) = Step.drvPath o) ->
  quiet h (update_step f x h).
Proof.
  intros Hf a p (c & Hc & Hs & Hcr & Hp). rewrite update_step_lookup in Hc.
  destruct (decide (x = a)) as [->|Hne].
  - destruct (h !! a) as [c0|] eqn:H0; [|discriminate].
    injection Hc as <-. cbn in *. destruct (Hf _ Hcr) as [Hcr0 Hp0].
    exists c0. split; [exact H0|]. split; [assumption|]. split; [assumption|congruence].
  - exists c. auto.
Qed.

Lemma pending_snoc h c a p :
  pending (h ++ [c]) a p ->
  pending h a p \/ (a = length h /\ 0 < strong c /\ p = Step.drvPath (obj c)).
Proof.
  intros (c' & Hc & Hs & Hcr & Hp).
  apply lookup_app_Some in Hc. destruct Hc as [Hc|[Hge Hc]].
  - left. exists c'. auto.
  - right. destruct (a - length h) as [|k] eqn:Hk; [|destruct k; discriminate].
    injection Hc as <-. split; [lia|]. split; [assumption|congruence].
Qed.

Lemma pending_update f x h a p :
  (forall o, Step.created (f o) = Step.created o /\ Step.drvPath (f o) = Step.drvPath o) ->
  pending (update_step f x h) a p -> pending h a p.
Proof.
  intros Hf. apply quiet_update. intros o Ho. destruct (Hf o) as [H1 H2].
  split; congruence.
Qed.

Lemma pending_step_at h a p : pending h a p -> Step.created (step_at h a) = false.
Proof. intros (c & Hc & _ & Hcr & _). unfold step_at. rewrite Hc. exact Hcr. Qed.

Lemma step_at_retain x h a : step_at (retain x h) a = step_at h a.
Proof.
  unfold step_at. rewrite retain_lookup.
  destruct (decide (x = a)); [|reflexivity]. destruct (h !! a); reflexivity.
Qed.

Lemma step_at_update f x h a :
  Step.created (f (Step.fresh "")) = false ->
  (forall o, Step.created o = true -> Step.created (f o) = true) ->
  Step.created (step_at h a) = true ->
  Step.created (step_at (update_step f x h) a) = true.
Proof.
  intros _ Hf. unfold step_at. rewrite update_step_lookup.
  destruct (decide (x = a)); [|auto]. destruct (h !! a); cbn; auto.
Qed.

Lemma link_dep_quiet st dep s :
  Step.created (step_at (stepHeap s) dep) = true ->
  quiet (stepHeap s) (stepHeap (link_dep st dep s)).
Proof.
  intros Hd. unfold link_dep.
  change (stepHeap (set_stepHeap ?h _)) with h.
  eapply quiet_trans; [|apply quiet_release].
  destruct (set_has dep (Step.deps (step_at (stepHeap s) st))); [apply quiet_refl|].
  eapply quiet_trans; [|apply quiet_retain].
  - apply quiet_update. intros o Ho. split; [exact Ho|reflexivity].
  - apply step_at_update; [reflexivity|auto|exact Hd].
Qed.

Lemma pending_set_created n h a q :
  pending (update_step Step.set_created n h) a q -> a <> n /\ pending h a q.
Proof.
  intros (c & Hc & Hs & Hcr & Hp). rewrite update_step_lookup in Hc.
  destruct (decide (n = a)) as [->|Hne].
  - destruct (h !! a); [|discriminate]. injection Hc as <-. discriminate.
  - split; [congruence|]. exists c. auto.
Qed.

Lemma finishStep_quiet n s r s' :
  finishStep n s = Ok r s' ->
  forall a q, pending (stepHeap s') a q -> a <> n /\ pending (stepHeap s) a q.
Proof.
  unfold finishStep. destruct (Step.created (step_at (stepHeap s) n)); [discriminate|].
  change (stepHeap (set_stepHeap ?h _)) with h.
  destruct (Step.deps _); intros [= _ <-] a q Hp.
  - unfold insert_newRunnable in Hp.
    destruct (set_has n _).
    + apply pending_set_created. exact Hp.
    + change (pending (retain n (update_step Step.set_created n (stepHeap s))) a q) in Hp.
      pose proof (pending_step_at _ _ _ Hp) as Hcr. rewrite step_at_retain in Hcr.
      destruct (pending_retain _ _ _ _ Hp) as [->|Hp'].
      * exfalso. destruct Hp as (c & Hc & _).
        rewrite retain_lookup, decide_True in Hc by reflexivity.
        unfold step_at in Hcr. rewrite update_step_lookup in Hcr, Hc.
        rewrite decide_True in Hcr, Hc by reflexivity.
        destruct (stepHeap s !! n); [discriminate Hcr|discriminate Hc].
      * apply pending_set_created. exact Hp'.
  - apply pending_set_created. exact Hp.
Qed.

Lemma pending_objs s a q o :
  pending (stepHeap s) a q -> objs s !! a = Some o -> q = Step.drvPath o.
Proof.
  intros (c & Hc & _ & _ & Hp) Ho. unfold objs in Ho.
  rewrite list_lookup_fmap, Hc in Ho. injection Ho as <-. congruence.
Qed.

Lemma created_step_at s a o :
  objs s !! a = Some o -> step_at (stepHeap s) a = o.
Proof. intros Ho. rewrite step_at_objs. fold (objs s). rewrite Ho. reflexivity. Qed.

Lemma createDeps_total E rank k rec st (base : nat -> string -> Prop) :
  step_spec E rec -> step_total E rank k rec ->
  forall inputs s o,
    inv s -> objs s !! st = Some o -> Step.created o = false ->
    st ∉ newRunnable s ->
    (forall d, d ∈ Step.deps o ->
       exists od, objs s !! d = Some od /\ Step.created od = true) ->
    (forall q, q ∈ fst <$> inputs -> rank q < rank (Step.drvPath o) /\ rank q < k) ->
    (forall a q, pending (stepHeap s) a q -> a = st \/ base a q) ->
    (forall a q, base a q -> rank (Step.drvPath o) < rank q) ->
    match createDeps rec st inputs s with
    | Ok _ s' => forall a q, pending (stepHeap s') a q -> a = st \/ base a q
    | Throw _ => exists q, readDerivation E q = None
    | AssertFail | OutOfFuel => False
    end.
Proof.
  intros Hspec Htot. induction inputs as [|[q l] inputs IH];
    intros s o Hinv Ho Hcr Hnr Hd Hrank Hpend Hbase.
  - exact Hpend.
  - cbn [createDeps].
    pose proof (createDeps_spec E rec st Hspec [(q, l)] s o Hinv Ho Hcr Hnr Hd) as H1.
    cbn [createDeps] in H1.
    pose proof (Hspec q None (Some st) s Hinv) as H3.
    destruct (Hrank q) as [Hq1 Hq2]; [apply list_elem_of_here|].
    assert (Hpa : forall a q', pending (stepHeap s) a q' -> rank q < rank q').
    { intros a q' Hp. destruct (Hpend a q' Hp) as [->|Hb].
      - rewrite (pending_objs _ _ _ _ Hp Ho). exact Hq1.
      - specialize (Hbase _ _ Hb). lia. }
    pose proof (Htot q None (Some st) s Hq2 Hinv Hpa) as H2.
    assert (Hrank' : forall o', Step.drvPath o' = Step.drvPath o ->
              forall q0, q0 ∈ fst <$> inputs ->
                rank q0 < rank (Step.drvPath o') /\ rank q0 < k).
    { intros o' -> q0 Hq0. apply Hrank. apply list_elem_of_further. exact Hq0. }
    destruct (rec q None (Some st) s) as [[dep|] s1|s1| |]; [| |exact H2|exact H2|exact H2].
    + destruct H3 as (_ & _ & _ & _ & od & Hod & Hodc & _).
      destruct H1 as (_ & Hinv' & _ & _ & o' & Ho' & Hcr' & _ & Hp' & Hnr' & Hd' & _).
      apply (IH _ o'); try assumption.
      * apply Hrank'. exact Hp'.
      * intros a q' Hp. apply Hpend. apply H2.
        revert Hp. apply link_dep_quiet.
        rewrite (created_step_at _ _ _ Hod). exact Hodc.
      * rewrite Hp'. exact Hbase.
    + destruct H1 as (_ & Hinv' & _ & _ & o' & Ho' & Hcr' & _ & Hp' & Hnr' & Hd' & _).
      apply (IH _ o'); try assumption.
      * apply Hrank'. exact Hp'.
      * intros a q' Hp. apply Hpend. apply H2. exact Hp.
      * rewrite Hp'. exact Hbase.
Qed.

Lemma internStep_cases rank p s :
  inv s ->
  (forall a q, pending (stepHeap s) a q -> rank p < rank q) ->
  (exists w, steps s !! p = Some w /\ live (stepHeap s) w /\
     Step.created (step_at (stepHeap s) w) = true) \/
  no_live_entry s p.
Proof.
  intros Hinv Hpa. destruct (steps s !! p) as [w|] eqn:Hw.
  - destruct (live_dec (stepHeap s) w) as [Hl|Hd].
    + destruct (Step.created (step_at (stepHeap s) w)) eqn:Hc.
      * left. eauto.
      * exfalso. destruct Hl as (c & Hc1 & Hs).
        assert (Hp : pending (stepHeap s) w (Step.drvPath (obj c))).
        { exists c. split; [assumption|]. split; [assumption|].
          split; [|reflexivity]. unfold step_at in Hc. rewrite Hc1 in Hc. exact Hc. }
        destruct Hinv as (_ & Hk & _). destruct (Hk p w Hw) as (o & Ho & Hop).
        pose proof (Hpa _ _ Hp) as Hlt.
        rewrite (pending_objs _ _ _ _ Hp Ho), Hop in Hlt. lia.
    + right. intros w' Hw'. assert (w' = w) as -> by congruence. exact Hd.
  - right. intros w' Hw'. congruence.
Qed.

Lemma createStep_body_total E rank k rec :
  acyclic E rank ->
  step_spec E rec -> step_total E rank k rec ->
  step_total E rank (S k) (createStep_body E rec).
Proof.
  intros Hacy Hspec Htot p rb rs s Hk Hinv Hpa. unfold createStep_body.
  destruct (bool_decide (p ∈ finishedDrvs s)); [apply quiet_refl|].
  destruct (internStep_cases rank p s Hinv Hpa) as [(w & Hw & Hl & Hc)|Hnl].
  { rewrite (internStep_live _ _ _ _ _ Hw Hl Hc).
    change (quiet (stepHeap s)
              (update_step (link_back rb rs) w (retain w (stepHeap s)))).
    eapply quiet_trans; [apply quiet_retain; exact Hc|apply quiet_update].
    intros o Ho. rewrite link_back_created in Ho.
    split; [exact Ho|apply link_back_drvPath]. }
  destruct (internStep_fresh p rb rs s Hnl) as (m & Hint). rewrite Hint.
  destruct (internStep_inv _ _ _ _ _ _ _ Hinv Hint)
    as (Hev1 & Hinv1 & o1 & Ho1 & Hp1 & Hcr1 & Hn & Hd1 & Hdrv1 & Hlen1).
  destruct (internStep_rest _ _ _ _ _ _ Hint) as (Hns1 & Hnr1 & Hfd1 & Hout1 & _).
  cbn [negb] in Hcr1.
  set (s1 := installed p rb rs m s) in *.
  set (n := length (stepHeap s)) in *.
  set (c1 := mkCell (link_back rb rs (Step.fresh p)) 1).
  assert (Hh1 : stepHeap s1 = (stepHeap s ++ [c1])%list) by reflexivity.
  set (s2 := set_trace (trace s1 ++ [EvReadDerivation p]) s1).
  destruct (readDerivation E p) as [drv|] eqn:Hread; [|exists p; exact Hread].
  set (F := Step.set_drv drv (required_features E drv) (prefer_local E drv)).
  set (s3 := set_stepHeap (update_step F n (stepHeap s2)) s2).
  set (c3 := mkCell (F (obj c1)) 1).
  assert (Hh3 : stepHeap s3 = (stepHeap s ++ [c3])%list).
  { change (stepHeap s3) with (update_step F n (stepHeap s1)).
    rewrite Hh1. apply update_step_snoc. }
  assert (Hobjs3 : objs s3 = alter F n (objs s1)) by apply update_step_objs.
  assert (Ho3 : objs s3 !! n = Some (F o1)).
  { rewrite Hobjs3, list_lookup_alter_eq, Ho1. reflexivity. }
  assert (Hinv3 : inv s3).
  { eapply (inv_alter F n s1); try eassumption; try reflexivity.
    intros x _. repeat split. }
  destruct (all_outputs_valid E drv).
  { change (quiet (stepHeap s) (release n (stepHeap s3))).
    rewrite Hh3, (release_last _ c3 n eq_refl eq_refl)
      by (cbn; apply link_back_deps).
    intros a q Hp. apply pending_snoc in Hp.
    destruct Hp as [Hp|(_ & Hs & _)]; [exact Hp|cbn in Hs; lia]. }
  destruct (insert_newSteps_spec n s3) as (Ho4 & Hs4 & Hn4 & Hr4 & Hf4 & Hout4).
  assert (Hpend4 : forall a q, pending (stepHeap (insert_newSteps n s3)) a q ->
            a = n \/ pending (stepHeap s) a q).
  { intros a q Hp.
    assert (Hp3 : a = n \/ pending (stepHeap s3) a q).
    { unfold insert_newSteps in Hp. destruct (set_has n (newSteps s3)); [auto|].
      apply pending_retain. exact Hp. }
    destruct Hp3 as [?|Hp3]; [auto|]. rewrite Hh3 in Hp3.
    apply pending_snoc in Hp3. destruct Hp3 as [?|(? & _)]; auto. }
  set (s4 := insert_newSteps n s3) in *.
  assert (Hn' : n = length (objs s)) by (unfold n, objs; rewrite length_fmap; reflexivity).
  assert (Hinv4 : inv s4).
  { eapply (inv_sets s3); try eassumption.
    - intros a Ha. apply Hn4 in Ha. destruct Ha as [->|Ha].
      + apply lookup_lt_Some in Ho3. exact Ho3.
      + apply Hinv3. auto.
    - intros a Ha. rewrite Hr4 in Ha. apply Hinv3. assumption. }
  assert (Hnr4 : n ∉ newRunnable s4).
  { rewrite Hr4. change (newRunnable s3) with (newRunnable s1). rewrite Hnr1.
    intros Hin. destruct Hinv as (Hb & _). specialize (Hb n (or_intror Hin)). lia. }
  assert (Ho4n : objs s4 !! n = Some (F o1)) by (rewrite Ho4; exact Ho3).
  assert (Hcr4 : Step.created (F o1) = false) by exact Hcr1.
  assert (Hd4 : forall d, d ∈ Step.deps (F o1) ->
            exists od, objs s4 !! d = Some od /\ Step.created od = true).
  { intros d Hd. change (Step.deps (F o1)) with (Step.deps o1) in Hd.
    rewrite Hd1 in Hd. apply elem_of_nil in Hd. contradiction. }
  assert (HpF : Step.drvPath (F o1) = p) by exact Hp1.
  pose proof (createDeps_spec E rec n Hspec (Derivation.inputDrvs drv) s4 (F o1)
                Hinv4 Ho4n Hcr4 Hnr4 Hd4) as Hloop.
  pose proof (createDeps_total E rank k rec n (pending (stepHeap s)) Hspec Htot
                (Derivation.inputDrvs drv) s4 (F o1) Hinv4 Ho4n Hcr4 Hnr4 Hd4) as Hlt.
  rewrite HpF in Hlt. specialize (Hlt ltac:(intros q Hq; pose proof (Hacy p drv q Hread Hq); lia) Hpend4 Hpa).
  destruct (createDeps rec n (Derivation.inputDrvs drv) s4) as [[] s5|s5| |];
    [|exact Hlt|exact Hlt|exact Hlt].
  destruct Hloop as (_ & Hinv5 & _ & _ & o5 & Ho5 & Hcr5 & _ & _ & Hnr5 & Hd5 & _).
  destruct (finishStep_spec n s5 o5 Hinv5 Ho5 Hcr5 Hnr5 Hd5) as (s6 & Hfin6 & _).
  rewrite Hfin6. intros a q Hp.
  destruct (finishStep_quiet _ _ _ _ Hfin6 a q Hp) as [Hne Hp5].
  destruct (Hlt a q Hp5) as [?|?]; [contradiction|assumption].
Qed.

Lemma createStep_total E rank :
  acyclic E rank -> forall fuel, step_total E rank fuel (createStep fuel E).
Proof.
  intros Hacy. induction fuel as [|fuel IH].
  - intros p rb rs s Hk. lia.
  - cbn [createStep]. apply createStep_body_total; [assumption| |assumption].
    apply createStep_spec.
Qed.

Lemma acyclic_env_AC : acyclic env_AC rank_AC.
Proof.
  intros p drv q Hread Hq. cbn in Hread.
  destruct (String.eqb_spec p "/d/A") as [->|HA].
  - injection Hread as <-. cbn in Hq. apply list_elem_of_singleton in Hq.
    subst q. cbn. lia.
  - destruct (String.eqb_spec p "/d/C") as [->|HC]; [|discriminate].
    injection Hread as <-. cbn in Hq. apply elem_of_nil in Hq. contradiction.
Qed.

Lemma settled_state_of tbl a q : ~ pending (stepHeap (state_of tbl)) a q.
Proof. intros (c & Hc & _). cbn in Hc. discriminate. Qed.

(** C3. Whatever way createStep ends, by a return or by an exception: a
    step that this call made has [created] set only when the derivation has
    been read into it and every input derivation is finished or has its
    step in [deps], and it is then in [newRunnable] exactly when [deps] is
    empty; every step in [newRunnable] is created. After a return, every
    step the call put into [newSteps] is created. And the call does end
    when the derivation graph has no cycle and the steps under
    construction are for paths of higher rank: it returns, with no step
    left under construction, or it throws because a derivation cannot be
    read. *)
Theorem createStep_created_then_runnable E rank fuel p rb rs s :
  inv s ->
  match createStep fuel E p rb rs s with
  | Ok _ s' => fresh_ok E s s' /\ runnable_ok s' /\ fresh_created s s'
  | Throw s' => fresh_ok E s s' /\ runnable_ok s'
  | AssertFail | OutOfFuel => True
  end /\
  (acyclic E rank -> rank p < fuel ->
   (forall a q, pending (stepHeap s) a q -> rank p < rank q) ->
   match createStep fuel E p rb rs s with
   | Ok _ s' => quiet (stepHeap s) (stepHeap s')
   | Throw _ => exists q, readDerivation E q = None
   | AssertFail | OutOfFuel => False
   end).
Proof.
  intros Hinv. split.
  - pose proof (createStep_spec E fuel p rb rs s Hinv) as H.
    destruct (createStep fuel E p rb rs s) as [r s'|s'| |]; [| |exact I|exact I].
    + destruct H as (_ & (_ & _ & _ & Hr) & Hf & Hc & _). auto.
    + destruct H as (_ & (_ & _ & _ & Hr) & Hf). auto.
  - intros Hacy Hfuel Hpend.
    exact (createStep_total E rank Hacy fuel p rb rs s Hfuel Hinv Hpend).
Qed.

Lemma createStep_created_then_runnable_witness :
  inv (state_of []) /\ acyclic env_AC rank_AC /\
  match createStep 3 env_AC "/d/A" (Some 0) None (state_of []) with
  | Ok _ s' =>
      fresh_ok env_AC (state_of []) s' /\ runnable_ok s' /\
      fresh_created (state_of []) s'
  | Throw s' => fresh_ok env_AC (state_of []) s' /\ runnable_ok s'
  | AssertFail | OutOfFuel => True
  end /\
  match createStep 3 env_AC "/d/A" (Some 0) None (state_of []) with
  | Ok _ s' => quiet (stepHeap (state_of [])) (stepHeap s')
  | Throw _ => exists q, readDerivation env_AC q = None
  | AssertFail | OutOfFuel => False
  end.
Proof.
  split; [apply inv_state_of|]. split; [apply acyclic_env_AC|].
  destruct (createStep_created_then_runnable env_AC rank_AC 3 "/d/A" (Some 0) None
              (state_of []) (inv_state_of [])) as [H1 H2].
  split; [exact H1|]. apply H2.
  - apply acyclic_env_AC.
  - cbn. lia.
  - intros a q Hp. exfalso. exact (settled_state_of [] a q Hp).
Defined.

(** On the store of the scenario the call returns the step of /d/A; the
    step of /d/C is the one that is runnable. *)
Example createStep_env_AC :
  exists s', createStep 3 env_AC "/d/A" (Some 0) None (state_of []) = Ok (Some 0) s'
    /\ newSteps s' = [0; 1] /\ newRunnable s' = [1]
    /\ Step.created <$> objs s' = [true; true]
    /\ Step.deps <$> objs s' = [[1]; []].
Proof. eexists. split; [vm_compute; reflexivity|]. repeat split. Qed.

(** ** Valid outputs *)

Lemma createStep_finished E fuel p rb rs s :
  p ∈ finishedDrvs s -> createStep (S fuel) E p rb rs s = Ok None s.
Proof.
  intros Hin. cbn [createStep]. unfold createStep_body.
  rewrite bool_decide_eq_true_2 by assumption. reflexivity.
Qed.

(** The pointers in [newSteps] stay there. *)
Lemma createDeps_newSteps_mono rec st a :
  (forall p rb rs s,
     match rec p rb rs s with
     | Ok _ s' | Throw s' => a ∈ newSteps s -> a ∈ newSteps s'
     | _ => True
     end) ->
  forall inputs s,
    match createDeps rec st inputs s with
    | Ok _ s' | Throw s' => a ∈ newSteps s -> a ∈ newSteps s'
    | _ => True
    end.
Proof.
  intros Hrec. induction inputs as [|[q x] rest IH]; intros s; cbn [createDeps]; [auto|].
  specialize (Hrec q None (Some st) s).
  destruct (rec q None (Some st) s) as [[dep|] t|t| |]; try exact I; try assumption.
  - specialize (IH (link_dep st dep t)).
    destruct (createDeps rec st rest (link_dep st dep t)); try exact I;
      intros Ha; apply IH; apply Hrec; assumption.
  - specialize (IH t).
    destruct (createDeps rec st rest t); try exact I;
      intros Ha; apply IH; apply Hrec; assumption.
Qed.

Lemma finishStep_newSteps n s r s' :
  finishStep n s = Ok r s' -> newSteps s' = newSteps s.
Proof.
  unfold finishStep. destruct (Step.created _); [discriminate|].
  match goal with |- context [insert_newRunnable n ?t] =>
    destruct (insert_newRunnable_spec n t) as (_ & _ & Hn & _) end.
  destruct (Step.deps _); intros [= <- <-]; [rewrite Hn|]; reflexivity.
Qed.

Lemma finishStep_no_throw n s s' : finishStep n s <> Throw s'.
Proof.
  unfold finishStep. destruct (Step.created _); [discriminate|].
  destruct (Step.deps _); discriminate.
Qed.

Lemma createStep_newSteps_mono E a fuel : forall p rb rs s,
  match createStep fuel E p rb rs s with
  | Ok _ s' | Throw s' => a ∈ newSteps s -> a ∈ newSteps s'
  | _ => True
  end.
Proof.
  induction fuel as [|fuel IH]; intros p rb rs s; [exact I|].
  cbn [createStep]. unfold createStep_body.
  destruct (bool_decide (p ∈ finishedDrvs s)); [auto|].
  destruct (internStep p rb rs s) as [[n isNew] s1|s1| |] eqn:Hint; try exact I.
  2:{ exfalso. eapply internStep_no_throw; eassumption. }
  destruct (internStep_rest _ _ _ _ _ _ Hint) as (Hns1 & _).
  destruct isNew; [|rewrite Hns1; auto].
  destruct (readDerivation E p) as [drv|]; [|cbn; rewrite Hns1; auto].
  destruct (all_outputs_valid E drv); [cbn; rewrite Hns1; auto|].
  match goal with |- context [insert_newSteps n ?t] =>
    destruct (insert_newSteps_spec n t) as (_ & _ & Hn4 & _);
    pose proof (createDeps_newSteps_mono (createStep fuel E) n a IH
                  (Derivation.inputDrvs drv) (insert_newSteps n t)) as Hloop;
    change (newSteps t) with (newSteps s1) in Hn4
  end.
  destruct (createDeps _ _ _ _) as [[] s5|s5| |]; try exact I.
  - destruct (finishStep n s5) as [r s6|s6| |] eqn:Hfs; try exact I.
    + rewrite (finishStep_newSteps _ _ _ _ Hfs). intros Ha. apply Hloop, Hn4.
      rewrite Hns1. auto.
    + exfalso. eapply finishStep_no_throw; eassumption.
  - cbn. intros Ha. apply Hloop, Hn4. rewrite Hns1. auto.
Qed.

(** C4 (as amended). When createStep makes a new step for [p] ([p] is not
    in [finishedDrvs] and the interner has no live step for it) and reads
    its derivation: if every output is valid, it returns none, [p] is in
    [finishedDrvs], [newSteps] and [newRunnable] are as before, the step is
    gone, and any later call for [p] with these [finishedDrvs] returns none
    at once; if some output is not valid, the step is put into [newSteps]
    before the steps of its inputs are made, and it is in [newSteps]
    whenever the call comes back, by a return or by an exception. When the
    interner has a live step for [p], createStep hands that step back
    without a look at the outputs: nothing is read, [finishedDrvs] and
    [newSteps] stay as they are. *)
Theorem createStep_new_step E fuel p rb rs s :
  p ∉ finishedDrvs s ->
  (forall drv, no_live_entry s p -> readDerivation E p = Some drv ->
   if all_outputs_valid E drv then
     exists s', createStep (S fuel) E p rb rs s = Ok None s' /\
       finishedDrvs s' = {[p]} ∪ finishedDrvs s /\
       newSteps s' = newSteps s /\ newRunnable s' = newRunnable s /\
       ~ live (stepHeap s') (length (stepHeap s)) /\
       forall fuel' rb' rs', createStep (S fuel') E p rb' rs' s' = Ok None s'
   else
     exists s4,
       length (stepHeap s) ∈ newSteps s4 /\
       createStep (S fuel) E p rb rs s =
         match createDeps (createStep fuel E) (length (stepHeap s))
                 (Derivation.inputDrvs drv) s4 with
         | Ok _ s5 => finishStep (length (stepHeap s)) s5
         | Throw s5 => Throw (drop_step (length (stepHeap s)) s5)
         | AssertFail => AssertFail
         | OutOfFuel => OutOfFuel
         end /\
       match createStep (S fuel) E p rb rs s with
       | Ok _ s' | Throw s' => length (stepHeap s) ∈ newSteps s'
       | AssertFail | OutOfFuel => True
       end) /\
  (forall w, steps s !! p = Some w -> live (stepHeap s) w ->
     Step.created (step_at (stepHeap s) w) = true ->
     exists s', createStep (S fuel) E p rb rs s = Ok (Some w) s' /\
       finishedDrvs s' = finishedDrvs s /\ newSteps s' = newSteps s /\
       trace s' = trace s).
Proof.
  intros Hnf. split.
  2:{ intros w Hw Hl Hc. eexists. split.
      - cbn [createStep]. unfold createStep_body.
        rewrite bool_decide_eq_false_2 by assumption.
        rewrite (internStep_live _ _ _ _ _ Hw Hl Hc). reflexivity.
      - repeat split. }
  intros drv Hnl Hread.
  destruct (internStep_fresh p rb rs s Hnl) as (m & Hint).
  eassert (Heq : createStep (S fuel) E p rb rs s = _).
  { cbn [createStep]. unfold createStep_body.
    rewrite bool_decide_eq_false_2 by assumption.
    rewrite Hint, Hread. reflexivity. }
  destruct (all_outputs_valid E drv) eqn:Hvalid.
  - eexists. split; [exact Heq|]. split; [reflexivity|].
    split; [reflexivity|]. split; [reflexivity|]. split.
    + unfold drop_step, installed. sproj.
      rewrite update_step_snoc. cbn [obj strong].
      rewrite release_last; [|reflexivity|reflexivity|].
      2:{ cbn [obj Step.set_drv Step.deps]. apply link_back_deps. }
      intros (c & Hc & Hpos). rewrite lookup_app_r, Nat.sub_diag in Hc by lia.
      cbn in Hc. inversion Hc; subst c. cbn in Hpos. lia.
    + intros fuel' rb' rs'. apply createStep_finished. cbn.
      apply elem_of_union_l, elem_of_singleton. reflexivity.
  - refine (ex_intro _ _ (conj _ (conj Heq _))).
    { apply insert_newSteps_spec. auto. }
    rewrite Heq. clear Heq. set (n := length (stepHeap s)).
    match goal with |- context [insert_newSteps n ?t] =>
      destruct (insert_newSteps_spec n t) as (_ & _ & Hn4 & _);
      pose proof (createDeps_newSteps_mono (createStep fuel E) n n
                    (createStep_newSteps_mono E n fuel)
                    (Derivation.inputDrvs drv) (insert_newSteps n t)) as Hloop
    end.
    destruct (createDeps _ _ _ _) as [[] s5|s5| |]; try exact I.
    + destruct (finishStep n s5) as [r s6|s6| |] eqn:Hfs; try exact I.
      * rewrite (finishStep_newSteps _ _ _ _ Hfs). apply Hloop, Hn4. auto.
      * exfalso. eapply finishStep_no_throw; eassumption.
    + cbn. apply Hloop, Hn4. auto.
Qed.

Lemma no_live_entry_state_of tbl p : no_live_entry (state_of tbl) p.
Proof. intros w Hw. cbn in Hw. rewrite lookup_empty in Hw. discriminate. Qed.

(** In the empty state the step of /d/C (its output is not valid) has to be
    built, and with the output in the store it has not. When /d/A has been
    expanded, the step of /d/C is handed back as it is. *)
Lemma createStep_new_step_witness :
  (exists s4,
     length (stepHeap (state_of [])) ∈ newSteps s4 /\
     createStep 3 env_AC "/d/C" None None (state_of []) =
       match createDeps (createStep 2 env_AC) (length (stepHeap (state_of [])))
               (Derivation.inputDrvs (drv_of "/s/C" [])) s4 with
       | Ok _ s5 => finishStep (length (stepHeap (state_of []))) s5
       | Throw s5 => Throw (drop_step (length (stepHeap (state_of []))) s5)
       | AssertFail => AssertFail
       | OutOfFuel => OutOfFuel
       end /\
     match createStep 3 env_AC "/d/C" None None (state_of []) with
     | Ok _ s' | Throw s' => length (stepHeap (state_of [])) ∈ newSteps s'
     | AssertFail | OutOfFuel => True
     end) /\
  (exists s', createStep 3 env_AC_built "/d/C" None None (state_of []) = Ok None s' /\
     finishedDrvs s' = {["/d/C"]} ∪ finishedDrvs (state_of []) /\
     newSteps s' = newSteps (state_of []) /\
     newRunnable s' = newRunnable (state_of []) /\
     ~ live (stepHeap s') (length (stepHeap (state_of []))) /\
     forall fuel' rb' rs', createStep (S fuel') env_AC_built "/d/C" rb' rs' s' = Ok None s') /\
  (exists s', createStep 3 env_AC_built "/d/C" (Some 1) None state_after_A = Ok (Some 1) s' /\
     finishedDrvs s' = finishedDrvs state_after_A /\
     newSteps s' = newSteps state_after_A /\ trace s' = trace state_after_A).
Proof.
  assert (Hnf : forall tbl, "/d/C" ∉ finishedDrvs (state_of tbl))
    by (intros tbl; cbn; apply not_elem_of_empty).
  split; [|split].
  - apply (proj1 (createStep_new_step env_AC 2 "/d/C" None None (state_of []) (Hnf []))
             (drv_of "/s/C" [])).
    + apply no_live_entry_state_of.
    + reflexivity.
  - apply (proj1 (createStep_new_step env_AC_built 2 "/d/C" None None (state_of [])
                    (Hnf []))
             (drv_of "/s/C" [])).
    + apply no_live_entry_state_of.
    + reflexivity.
  - apply (proj2 (createStep_new_step env_AC_built 2 "/d/C" (Some 1) None state_after_A
                    (not_elem_of_empty _)) 1).
    + reflexivity.
    + eexists. split; [reflexivity|]. cbn. lia.
    + reflexivity.
Defined.

(** C4 (counterexample). The interner holds the live step of /d/C, made when
    /d/A was expanded. A call for /d/C hands that step back and leaves the
    fresh [newSteps] empty although the output of /d/C is not valid; and
    with the output valid in the store, the call still hands the step back
    and records nothing in [finishedDrvs]. *)
Lemma createStep_existing_counterexample :
  all_outputs_valid env_AC (drv_of "/s/C" []) = false /\
  (exists s', createStep 3 env_AC "/d/C" (Some 1) None state_after_A = Ok (Some 1) s'
     /\ newSteps s' = []) /\
  all_outputs_valid env_AC_built (drv_of "/s/C" []) = true /\
  (exists s', createStep 3 env_AC_built "/d/C" (Some 1) None state_after_A = Ok (Some 1) s'
     /\ "/d/C" ∉ finishedDrvs s').
Proof.
  split; [reflexivity|]. split.
  { eexists. split; [vm_compute; reflexivity|reflexivity]. }
  split; [reflexivity|].
  eexists. split; [vm_compute; reflexivity|]. cbn. apply not_elem_of_empty.
Qed.

(** ** The build ingester *)

Lemma build_at_lookup bh b x : bh !! b = Some x -> build_at bh b = x.
Proof. unfold build_at. intros ->. reflexivity. Qed.

(** C6. A build whose derivation path is not valid in the store is aborted:
    one transaction with the one update, status Aborted, the same time as
    start and stop time, the message as given, for this id where
    [finished = 0]; then [finishedInDB] is set and [nrBuildsDone] goes up
    by one. Nothing is read ([readDerivation] is not called), no step is
    made, and the build is not published. *)
Theorem createBuild_gced E fuel build s x :
  buildHeap s !! build = Some x ->
  isValidPath E (Build.drvPath x) = false ->
  Build.finishedInDB x = false ->
  exists s', createBuild (S fuel) E build s = Ok tt s' /\
    trace s' = (trace s ++
      [EvLoadBuild build;
       EvCommit [Exec sql_abort_gced
                   [PId (Build.id x); PStatus bsAborted; PInt (now E s);
                    PStr "derivation was garbage-collected prior to build"]]])%list /\
    db s' = update_where (Build.id x)
              (fun r => row_finish (Some bsAborted) (now E s) (now E s)
                          (Some "derivation was garbage-collected prior to build")
                          (Row.isCachedBuild r) r) (db s) /\
    buildHeap s' = <[build := Build.set_finishedInDB x]> (buildHeap s) /\
    nrBuildsDone s' = incr64 (nrBuildsDone s) /\
    stepHeap s' = stepHeap s /\ steps s' = steps s /\ builds s' = builds s /\
    newBuilds s' = newBuilds s /\ newRunnable s' = newRunnable s.
Proof.
  intros Hx Hgone Hfin.
  cbn [createBuild]. unfold createBuild_body, loadBuild. sproj.
  rewrite (build_at_lookup _ _ _ Hx), Hgone. cbn [negb].
  unfold abortGCed. sproj. rewrite (build_at_lookup _ _ _ Hx), Hfin.
  eexists. split; [reflexivity|].
  unfold commit, tick, update_build. sproj.
  rewrite (build_at_lookup _ _ _ Hx).
  split; [rewrite <- app_assoc; reflexivity|].
  repeat split.
Qed.

Lemma createBuild_gced_witness :
  exists s', createBuild 1 env_gone 0 state_gone = Ok tt s' /\
    trace s' = [EvLoadBuild 0;
       EvCommit [Exec sql_abort_gced
                   [PId 3; PStatus bsAborted; PInt 1000;
                    PStr "derivation was garbage-collected prior to build"]]] /\
    Row.finished <$> db s' = [1%Z] /\
    Row.buildStatus <$> db s' = [Some bsAborted] /\
    Build.finishedInDB <$> buildHeap s' = [true] /\
    nrBuildsDone s' = 1%N /\ stepHeap s' = [] /\ builds s' = ∅.
Proof.
  destruct (createBuild_gced env_gone 0 0 state_gone
              (Build.mk 3 "/d/gone" "hydra:trunk:job" 0 0 false None)
              eq_refl eq_refl eq_refl)
    as (s' & Hrun & Htr & Hdb & Hbh & Hdone & Hheap & _ & Hb & _).
  exists s'. split; [exact Hrun|]. split; [exact Htr|].
  rewrite Hdb, Hbh, Hdone, Hheap, Hb. repeat split.
Defined.

(** *** The classification pass *)

Lemma classifyStep_verdict E root r s :
  let o := step_at (stepHeap s) r in
  classifyStep E root r s =
  if checkCachedFailure E o
  then (if bool_decide (root = r) then bsFailed else bsDepFailed, bssFailed)
  else if existsb (fun m => supportsStep m o) (machines E)
       then (bsSuccess, bssFailed)
       else (bsUnsupported, bssUnsupported).
Proof.
  cbv zeta. unfold classifyStep.
  destruct (checkCachedFailure E _); [|reflexivity].
  destruct (bool_decide (root = r)); reflexivity.
Qed.

Lemma classify_first_bad E build root l1 r l2 s :
  (forall a, a ∈ l1 -> fst (classifyStep E root a s) = bsSuccess) ->
  fst (classifyStep E root r s) <> bsSuccess ->
  classify E build root (l1 ++ r :: l2) s =
  (true, failBuild E build r (fst (classifyStep E root r s))
           (snd (classifyStep E root r s)) s).
Proof.
  intros Hgood Hbad. induction l1 as [|a l1 IH]; cbn [app classify].
  - destruct (classifyStep E root r s) as [bs bss]. cbn [fst snd] in *.
    rewrite bool_decide_eq_true_2 by assumption. reflexivity.
  - pose proof (Hgood a (list_elem_of_here a l1)) as Ha.
    destruct (classifyStep E root a s) as [bs bss]. cbn [fst] in Ha. subst bs.
    rewrite bool_decide_eq_false_2 by (intros H; apply H; reflexivity).
    apply IH. intros b Hb. apply Hgood. apply list_elem_of_further. assumption.
Qed.

Lemma classify_all_good E build root l s :
  (forall a, a ∈ l -> fst (classifyStep E root a s) = bsSuccess) ->
  classify E build root l s = (false, s).
Proof.
  intros Hgood. induction l as [|a l IH]; cbn [classify]; [reflexivity|].
  pose proof (Hgood a (list_elem_of_here a l)) as Ha.
  destruct (classifyStep E root a s) as [bs bss]. cbn [fst] in Ha. subst bs.
  rewrite bool_decide_eq_false_2 by (intros H; apply H; reflexivity).
  apply IH. intros b Hb. apply Hgood. apply list_elem_of_further. assumption.
Qed.

(** The start of an ingestion, up to the call of createStep. *)
Lemma createBuild_unfold E fuel build s x :
  buildHeap s !! build = Some x ->
  isValidPath E (Build.drvPath x) = true ->
  createBuild (S fuel) E build s =
  match createStep (S fuel) E (Build.drvPath x) (Some build) None
          (freshLocals (loadBuild build s)) with
  | Ok step s2 =>
      match piggyback (createBuild fuel E) (in_address_order E (newSteps s2)) s2 with
      | Ok _ s3 =>
          match step with
          | None =>
              match markCachedSuccess E build s3 with
              | Ok _ s4 => Ok tt (leave None s4)
              | Throw s4 => Throw (leave None s4)
              | AssertFail => AssertFail
              | OutOfFuel => OutOfFuel
              end
          | Some root =>
              let '(badStep, s4) := classify E build root (in_address_order E (newSteps s3)) s3 in
              if badStep then Ok tt (leave step s4)
              else Ok tt (leave step (publish build root s4))
          end
      | Throw s3 => Throw (leave step s3)
      | AssertFail => AssertFail
      | OutOfFuel => OutOfFuel
      end
  | Throw s2 => Throw (leave None s2)
  | AssertFail => AssertFail
  | OutOfFuel => OutOfFuel
  end.
Proof.
  intros Hx Hvalid. cbn [createBuild]. unfold createBuild_body.
  assert (Hb : build_at (buildHeap (loadBuild build s)) build = x)
    by (apply build_at_lookup; exact Hx).
  rewrite Hb, Hvalid. reflexivity.
Qed.

(** ** What createStep leaves alone *)

Lemma step_frame_refl s : step_frame s s.
Proof. split; [reflexivity|]. exists []. rewrite app_nil_r. reflexivity. Qed.

Lemma step_frame_trans s1 s2 s3 :
  step_frame s1 s2 -> step_frame s2 s3 -> step_frame s1 s3.
Proof.
  intros [H1 [e1 T1]] [H2 [e2 T2]]. split; [congruence|].
  exists (e1 ++ e2)%list. rewrite T2, T1, app_assoc. reflexivity.
Qed.

(** Steps that change neither the trace nor the part outside. *)
Ltac frame_now :=
  split; [reflexivity|exists []; rewrite app_nil_r; reflexivity].

Lemma step_frame_heap h s : step_frame s (set_stepHeap h s).
Proof. frame_now. Qed.

Lemma createDeps_frame rec st :
  (forall p rb rs s,
     match rec p rb rs s with
     | Ok _ s' | Throw s' => step_frame s s'
     | _ => True
     end) ->
  forall inputs s,
    match createDeps rec st inputs s with
    | Ok _ s' | Throw s' => step_frame s s'
    | _ => True
    end.
Proof.
  intros Hrec. induction inputs as [|[q x] rest IH]; intros s; cbn [createDeps];
    [apply step_frame_refl|].
  specialize (Hrec q None (Some st) s).
  destruct (rec q None (Some st) s) as [[dep|] t|t| |]; try exact I; try assumption.
  - specialize (IH (link_dep st dep t)).
    assert (Hl : step_frame t (link_dep st dep t)) by frame_now.
    destruct (createDeps rec st rest (link_dep st dep t)); try exact I;
      (eapply step_frame_trans; [exact Hrec|];
       eapply step_frame_trans; [exact Hl|exact IH]).
  - specialize (IH t).
    destruct (createDeps rec st rest t); try exact I;
      (eapply step_frame_trans; [exact Hrec|exact IH]).
Qed.

Lemma insert_newSteps_frame n s : step_frame s (insert_newSteps n s).
Proof.
  unfold insert_newSteps. destruct (set_has n (newSteps s)); frame_now.
Qed.

Lemma insert_newRunnable_frame n s : step_frame s (insert_newRunnable n s).
Proof.
  unfold insert_newRunnable. destruct (set_has n (newRunnable s)); frame_now.
Qed.

Lemma finishStep_frame n s r s' : finishStep n s = Ok r s' -> step_frame s s'.
Proof.
  unfold finishStep. destruct (Step.created _); [discriminate|].
  destruct (Step.deps _); intros [= <- <-].
  - eapply step_frame_trans; [|apply insert_newRunnable_frame]. frame_now.
  - frame_now.
Qed.

Lemma createStep_frame E fuel : forall p rb rs s,
  match createStep fuel E p rb rs s with
  | Ok _ s' | Throw s' => step_frame s s'
  | _ => True
  end.
Proof.
  induction fuel as [|fuel IH]; intros p rb rs s; [exact I|].
  cbn [createStep]. unfold createStep_body.
  destruct (bool_decide (p ∈ finishedDrvs s)); [apply step_frame_refl|].
  destruct (internStep p rb rs s) as [[n isNew] s1|s1| |] eqn:Hint; try exact I.
  2:{ exfalso. eapply internStep_no_throw; eassumption. }
  destruct (internStep_rest _ _ _ _ _ _ Hint) as (_ & _ & _ & Hout1 & _ & Htr1).
  assert (H01 : step_frame s s1).
  { split; [assumption|]. exists []. rewrite app_nil_r. assumption. }
  destruct isNew; [|exact H01].
  set (s2 := set_trace (trace s1 ++ [EvReadDerivation p]) s1).
  assert (H12 : step_frame s1 s2) by (split; [reflexivity|eexists; reflexivity]).
  destruct (readDerivation E p) as [drv|].
  2:{ eapply step_frame_trans; [exact H01|]. eapply step_frame_trans; [exact H12|].
      frame_now. }
  destruct (all_outputs_valid E drv).
  { eapply step_frame_trans; [exact H01|]. eapply step_frame_trans; [exact H12|].
    frame_now. }
  match goal with |- context [insert_newSteps n ?t] =>
    pose proof (createDeps_frame (createStep fuel E) n IH
                  (Derivation.inputDrvs drv) (insert_newSteps n t)) as Hloop;
    assert (H24 : step_frame s2 (insert_newSteps n t))
      by (eapply step_frame_trans; [|apply insert_newSteps_frame]; frame_now)
  end.
  assert (H04 := step_frame_trans _ _ _ H01 (step_frame_trans _ _ _ H12 H24)).
  destruct (createDeps _ _ _ _) as [[] s5|s5| |]; try exact I.
  - destruct (finishStep n s5) as [r s6|s6| |] eqn:Hfs; try exact I.
    + eapply step_frame_trans; [exact H04|]. eapply step_frame_trans; [exact Hloop|].
      eapply finishStep_frame; eassumption.
    + exfalso. eapply finishStep_no_throw; eassumption.
  - eapply step_frame_trans; [exact H04|]. eapply step_frame_trans; [exact Hloop|].
    frame_now.
Qed.

(** ** The step graph across ingestions *)

Lemma hinv_of_inv s : inv s -> hinv s.
Proof. intros (_ & ? & ? & ?). repeat split; assumption. Qed.

Lemma inv_of_hinv s :
  hinv s -> (forall a, a ∈ newSteps s -> a < length (objs s)) -> inv s.
Proof.
  intros (Hk & Hc & Hr) Hn. repeat split; try assumption.
  intros a [Ha|Ha]; [auto|]. destruct (Hr a Ha) as (o & Ho & _).
  eapply lookup_lt_Some; eassumption.
Qed.

Lemma hinv_same s s' :
  objs s' = objs s -> steps s' = steps s -> newRunnable s' = newRunnable s ->
  hinv s -> hinv s'.
Proof.
  intros Ho Hs Hr (Hk & Hc & Hro).
  unfold hinv, keyed, closed, runnable_ok, ready. rewrite Ho, Hs, Hr. auto.
Qed.

Lemma grows_refl s : grows s s.
Proof.
  split; [lia|]. split; [|auto].
  intros a o Ho. exists o. split; [assumption|apply stable_refl].
Qed.

Lemma grows_same s s' :
  objs s' = objs s -> newRunnable s' = newRunnable s -> grows s s'.
Proof.
  intros Ho Hr. unfold grows. rewrite Ho, Hr. apply grows_refl.
Qed.

Lemma grows_trans s1 s2 s3 : grows s1 s2 -> grows s2 s3 -> grows s1 s3.
Proof.
  intros (L1 & O1 & R1) (L2 & O2 & R2). split; [lia|]. split; [|auto].
  intros a o Ho. destruct (O1 a o Ho) as (o' & Ho' & S1).
  destruct (O2 a o' Ho') as (o'' & Ho'' & S2). exists o''.
  split; [assumption|eapply stable_trans; eassumption].
Qed.

Lemma grows_of_evolves s s' : evolves None s s' -> grows s s'.
Proof.
  intros Hev. split; [eapply ev_len; eassumption|]. split.
  - intros a o Ho. destruct (ev_old _ _ _ Hev a o Ho) as (o' & Ho' & Hst).
    exists o'. split; assumption.
  - eapply ev_run_mono; eassumption.
Qed.

Lemma loaded_refl s : loaded s s.
Proof. exists []. rewrite app_nil_r. split; [reflexivity|auto]. Qed.

Lemma loaded_trans s1 s2 s3 : loaded s1 s2 -> loaded s2 s3 -> loaded s1 s3.
Proof.
  intros (e1 & T1 & L1) (e2 & T2 & L2). exists (e1 ++ e2)%list.
  split; [rewrite T2, T1, app_assoc; reflexivity|].
  intros e He. destruct (L1 e He) as [H1|H1].
  - destruct (L2 e H1) as [H2|H2]; [auto|]. right. apply elem_of_app. auto.
  - right. apply elem_of_app. auto.
Qed.

Lemma pig_post_refl s : hinv s -> pig_post s s.
Proof.
  intros Hh. split; [apply grows_refl|]. split; [assumption|].
  repeat split; auto. apply loaded_refl.
Qed.

Lemma pig_post_trans s1 s2 s3 : pig_post s1 s2 -> pig_post s2 s3 -> pig_post s1 s3.
Proof.
  intros (G1 & H1 & N1 & F1 & L1 & B1 & W1 & T1) (G2 & H2 & N2 & F2 & L2 & B2 & W2 & T2).
  split; [eapply grows_trans; eassumption|]. split; [assumption|].
  split; [congruence|]. split; [congruence|]. split; [congruence|].
  split; [|split; [auto|eapply loaded_trans; eassumption]].
  intros c Hc. rewrite B2, B1; [reflexivity|assumption|].
  intros Hin. apply Hc. apply list_elem_of_fmap in Hin. destruct Hin as (e & -> & He).
  apply list_elem_of_fmap. exists e. split; [reflexivity|auto].
Qed.

Lemma find_erase_Some p m b rest :
  find_erase p m = Some (b, rest) ->
  (p, b) ∈ m /\ (forall e, e ∈ rest -> e ∈ m) /\
  (forall e, e ∈ m -> e = (p, b) \/ e ∈ rest) /\
  length m = S (length rest).
Proof.
  revert b rest. induction m as [|[k v] m IH]; intros b rest; cbn [find_erase];
    [discriminate|].
  destruct (String.eqb_spec p k) as [->|Hne].
  - intros [= <- <-]. split; [apply list_elem_of_here|].
    split; [intros e He; apply list_elem_of_further; assumption|].
    split; [|reflexivity].
    intros e He. apply elem_of_cons in He. destruct He; auto.
  - destruct (find_erase p m) as [[b' r']|]; [|discriminate].
    intros [= <- <-]. destruct (IH b' r' eq_refl) as (Hin & Hsub & Hcov & Hlen).
    split; [apply list_elem_of_further; assumption|].
    split; [|split].
    + intros e He. apply elem_of_cons in He. destruct He as [->|He];
        [apply list_elem_of_here|apply list_elem_of_further; auto].
    + intros e He. apply elem_of_cons in He. destruct He as [->|He].
      * right. apply list_elem_of_here.
      * destruct (Hcov e He); [auto|]. right. apply list_elem_of_further. assumption.
    + cbn [length]. rewrite Hlen. reflexivity.
Qed.

Lemma find_erase_None p m :
  find_erase p m = None -> forall b, (p, b) ∉ m.
Proof.
  induction m as [|[k v] m IH]; cbn [find_erase]; intros Hf b Hin.
  - apply elem_of_nil in Hin. contradiction.
  - destruct (String.eqb_spec p k) as [->|Hne]; [discriminate|].
    destruct (find_erase p m) as [[b' r']|]; [discriminate|].
    apply elem_of_cons in Hin. destruct Hin as [[= -> ->]|Hin]; [congruence|].
    eapply IH; eauto.
Qed.

(** ** The last part of an ingestion *)

Lemma tail_ok_refl b s : tail_ok b s s.
Proof.
  repeat split. exists []. rewrite app_nil_r. split; [reflexivity|].
  intros c Hc. apply elem_of_nil in Hc. contradiction.
Qed.

Lemma tail_ok_trans b s1 s2 s3 : tail_ok b s1 s2 -> tail_ok b s2 s3 -> tail_ok b s1 s3.
Proof.
  intros (O1 & S1 & R1 & N1 & F1 & W1 & L1 & B1 & e1 & T1 & E1)
         (O2 & S2 & R2 & N2 & F2 & W2 & L2 & B2 & e2 & T2 & E2).
  repeat split; try congruence.
  - intros c Hc. rewrite B2, B1 by assumption. reflexivity.
  - exists (e1 ++ e2)%list. split; [rewrite T2, T1, app_assoc; reflexivity|].
    intros c Hc. apply elem_of_app in Hc. destruct Hc; [eapply E1|eapply E2]; eassumption.
Qed.

Lemma tail_ok_events b s s' evs :
  objs s' = objs s -> steps s' = steps s -> newRunnable s' = newRunnable s ->
  newSteps s' = newSteps s -> finishedDrvs s' = finishedDrvs s ->
  newBuilds s' = newBuilds s ->
  length (buildHeap s') = length (buildHeap s) ->
  (forall c, c <> b -> buildHeap s' !! c = buildHeap s !! c) ->
  trace s' = (trace s ++ evs)%list -> (forall c, EvLoadBuild c ∉ evs) ->
  tail_ok b s s'.
Proof. intros. repeat split; try assumption. exists evs. auto. Qed.

Lemma update_build_heap f b s :
  length (buildHeap (update_build f b s)) = length (buildHeap s) /\
  forall c, c <> b -> buildHeap (update_build f b s) !! c = buildHeap s !! c.
Proof.
  unfold update_build. sproj. split; [apply length_insert|].
  intros c Hc. apply list_lookup_insert_ne. congruence.
Qed.

Lemma not_load_commit ops c : EvLoadBuild c ∉ [EvCommit ops].
Proof. intros H. apply list_elem_of_singleton in H. discriminate. Qed.

Lemma abortGCed_tail E b s : tail_ok b s (abortGCed E b s).
Proof.
  unfold abortGCed. destruct (Build.finishedInDB _); [apply tail_ok_refl|].
  match goal with |- tail_ok _ _ (set_nrBuildsDone _ (update_build ?f b ?t)) =>
    destruct (update_build_heap f b t) as [Hl Hb] end.
  eapply tail_ok_events; try reflexivity; try assumption.
  apply not_load_commit.
Qed.

Lemma failBuild_tail E b r bs bss s : tail_ok b s (failBuild E b r bs bss s).
Proof.
  unfold failBuild. destruct (Build.finishedInDB _).
  - eapply (tail_ok_events b s _ []); try reflexivity.
    + unfold tick. sproj. rewrite app_nil_r. reflexivity.
    + intros c Hc. apply elem_of_nil in Hc. contradiction.
  - match goal with |- tail_ok _ _ (set_nrBuildsDone _ (update_build ?f b ?t)) =>
      destruct (update_build_heap f b t) as [Hl Hb] end.
    eapply tail_ok_events; try reflexivity; try assumption.
    apply not_load_commit.
Qed.

Lemma classify_tail E b root l s :
  tail_ok b s (snd (classify E b root l s)).
Proof.
  induction l as [|r l IH]; cbn [classify]; [apply tail_ok_refl|].
  destruct (classifyStep E root r s) as [bs bss].
  destruct (bool_decide (bs <> bsSuccess)); [apply failBuild_tail|exact IH].
Qed.

Lemma dropBuild_objs b s : objs (dropBuild b s) = objs s.
Proof.
  unfold dropBuild. destruct (bool_decide _); [reflexivity|].
  unfold objs. sproj. apply release_opt_objs.
Qed.

Lemma dropBuild_tail c b s : tail_ok c s (dropBuild b s).
Proof.
  pose proof (dropBuild_objs b s) as Ho.
  unfold dropBuild in *. destruct (bool_decide _); [apply tail_ok_refl|].
  eapply (tail_ok_events c s _ []); try reflexivity; try assumption.
  - sproj. rewrite app_nil_r. reflexivity.
  - intros x Hx. apply elem_of_nil in Hx. contradiction.
Qed.

Lemma publish_tail b root s : tail_ok b s (publish b root s).
Proof.
  unfold publish.
  set (s1 := if Build.finishedInDB (build_at (buildHeap s) b) then s else _).
  assert (H1 : tail_ok b s s1).
  { unfold s1. destruct (Build.finishedInDB _); [apply tail_ok_refl|].
    destruct (builds s !! _) as [old|].
    - destruct (bool_decide (old = b)).
      + eapply (tail_ok_events b s _ []); try reflexivity.
        * sproj. rewrite app_nil_r. reflexivity.
        * intros x Hx. apply elem_of_nil in Hx. contradiction.
      + eapply tail_ok_trans; [|apply dropBuild_tail].
        eapply (tail_ok_events b s _ []); try reflexivity.
        * sproj. rewrite app_nil_r. reflexivity.
        * intros x Hx. apply elem_of_nil in Hx. contradiction.
    - eapply (tail_ok_events b s _ []); try reflexivity.
      + sproj. rewrite app_nil_r. reflexivity.
      + intros x Hx. apply elem_of_nil in Hx. contradiction. }
  eapply tail_ok_trans; [exact H1|].
  match goal with |- tail_ok _ _ (update_build ?f b ?t) =>
    destruct (update_build_heap f b t) as [Hl Hb] end.
  eapply (tail_ok_events b s1 _ []); try reflexivity; try assumption.
  - unfold update_build, objs. sproj. rewrite release_opt_objs, retain_objs. reflexivity.
  - unfold update_build. sproj. rewrite app_nil_r. reflexivity.
  - intros x Hx. apply elem_of_nil in Hx. contradiction.
Qed.

Lemma leave_tail b step s : tail_ok b s (leave step s).
Proof.
  eapply (tail_ok_events b s _ []); try reflexivity.
  - unfold leave, objs. sproj. rewrite release_opt_objs, release_all_objs. reflexivity.
  - unfold leave. sproj. rewrite app_nil_r. reflexivity.
  - intros x Hx. apply elem_of_nil in Hx. contradiction.
Qed.

Lemma markCachedSuccess_tail E b s :
  match markCachedSuccess E b s with
  | Ok _ s' | Throw s' => tail_ok b s s'
  | _ => True
  end.
Proof.
  unfold markCachedSuccess. destruct (readDerivation E _) as [drv|].
  - match goal with |- tail_ok _ _ (update_build ?f b ?t) =>
      destruct (update_build_heap f b t) as [Hl Hb] end.
    eapply tail_ok_events; try reflexivity; try assumption.
    + unfold update_build, commit, tick. sproj. rewrite <- app_assoc. reflexivity.
    + intros c Hc. apply elem_of_cons in Hc. destruct Hc as [Hc|Hc]; [discriminate|].
      apply list_elem_of_singleton in Hc. discriminate.
  - eapply tail_ok_events; try reflexivity.
    intros c Hc. apply list_elem_of_singleton in Hc. discriminate.
Qed.

(** ** The piggyback pass *)

Lemma piggybackPath_spec rec p :
  build_spec rec ->
  forall n s, hinv s ->
    match piggybackPath n rec p s with
    | Ok _ s' => pig_post s s' /\ forall b, (p, b) ∉ newBuilds s'
    | Throw s' => pig_post s s'
    | AssertFail | OutOfFuel => True
    end.
Proof.
  intros Hrec. induction n as [|n IH]; intros s Hh.
  - cbn [piggybackPath]. destruct (find_erase p (newBuilds s)) as [[b rest]|] eqn:Hf;
      [exact I|]. split; [apply pig_post_refl; assumption|].
    apply find_erase_None. assumption.
  - cbn [piggybackPath]. destruct (find_erase p (newBuilds s)) as [[b rest]|] eqn:Hf.
    2:{ split; [apply pig_post_refl; assumption|]. apply find_erase_None. assumption. }
    destruct (find_erase_Some _ _ _ _ Hf) as (Hin & Hsub & Hcov & _).
    assert (Hh0 : hinv (set_newBuilds rest s)) by exact Hh.
    specialize (Hrec b (set_newBuilds rest s) Hh0).
    set (back := fun s' => set_newSteps (newSteps s) (set_finishedDrvs (finishedDrvs s) s')).
    assert (Hstep : forall s1,
              grows (set_newBuilds rest s) s1 /\ hinv s1 /\
              build_frame b (set_newBuilds rest s) s1 /\
              (exists evs, trace s1 = (trace (set_newBuilds rest s) ++ EvLoadBuild b :: evs)%list /\
                 forall e, e ∈ newBuilds (set_newBuilds rest s) ->
                   e ∈ newBuilds s1 \/ EvLoadBuild (snd e) ∈ evs) ->
              pig_post s (back (dropBuild b s1))).
    { intros s1 (Hg & Hh1 & (Hlen & Hfr & Hw) & evs & Htr & Hld).
      pose proof (dropBuild_objs b s1) as Hdo.
      destruct (dropBuild_tail b b s1) as (_ & Hds & Hdr & _ & _ & Hdw & Hdl & Hdb & devs & Hdt & _).
      assert (Hdt' : trace (dropBuild b s1) = trace s1).
      { unfold dropBuild. destruct (bool_decide _); reflexivity. }
      assert (Hdbh : buildHeap (dropBuild b s1) = buildHeap s1).
      { unfold dropBuild. destruct (bool_decide _); reflexivity. }
      split.
      { eapply grows_trans; [exact Hg|]. apply grows_same; assumption. }
      split; [eapply hinv_same; [| | |exact Hh1]; assumption|].
      split; [reflexivity|]. split; [reflexivity|].
      split; [change (length (buildHeap (dropBuild b s1)) = length (buildHeap s));
              rewrite Hdbh; exact Hlen|].
      split; [|split].
      - intros c Hc. change (buildHeap (dropBuild b s1) !! c = buildHeap s !! c).
        rewrite Hdbh. apply Hfr.
        + intros ->. apply Hc. apply list_elem_of_fmap. exists (p, b). auto.
        + intros Hcr. apply Hc. apply list_elem_of_fmap in Hcr.
          destruct Hcr as (e & -> & He). apply list_elem_of_fmap. exists e. auto.
      - intros e He. change (e ∈ newBuilds (dropBuild b s1)) in He.
        rewrite Hdw in He. auto.
      - exists (EvLoadBuild b :: evs). split.
        + change (trace (dropBuild b s1) = (trace s ++ EvLoadBuild b :: evs)%list).
          rewrite Hdt'. exact Htr.
        + intros e He. change (e ∈ newBuilds (dropBuild b s1) \/ EvLoadBuild (snd e) ∈ EvLoadBuild b :: evs).
          rewrite Hdw. destruct (Hcov e He) as [->|Hr].
          * right. apply list_elem_of_here.
          * destruct (Hld e Hr) as [?|?]; [auto|]. right. apply list_elem_of_further. assumption. }
    subst back. cbv beta in Hstep.
    destruct (rec b (set_newBuilds rest s)) as [[] s1|s1| |]; [| |exact I|exact I].
    + pose proof (Hstep s1 Hrec) as Hp1.
      match type of Hp1 with pig_post _ ?t =>
        assert (Hh1 : hinv t) by (destruct Hp1 as (_ & ? & _); assumption);
        specialize (IH t Hh1);
        destruct (piggybackPath n rec p t) as [[] s'|s'| |]; [| |exact I|exact I]
      end.
      * destruct IH as [Hp2 Hno]. split; [eapply pig_post_trans; eassumption|assumption].
      * eapply pig_post_trans; eassumption.
    + exact (Hstep s1 Hrec).
Qed.

Lemma piggyback_spec rec :
  build_spec rec ->
  forall l s, hinv s ->
    match piggyback rec l s with
    | Ok _ s' =>
        pig_post s s' /\
        forall r o, r ∈ l -> objs s !! r = Some o ->
          forall b, (Step.drvPath o, b) ∉ newBuilds s'
    | Throw s' => pig_post s s'
    | AssertFail | OutOfFuel => True
    end.
Proof.
  intros Hrec. induction l as [|r l IH]; intros s Hh; cbn [piggyback].
  - split; [apply pig_post_refl; assumption|].
    intros r o Hr. apply elem_of_nil in Hr. contradiction.
  - pose proof (piggybackPath_spec rec (Step.drvPath (step_at (stepHeap s) r)) Hrec
                  (length (newBuilds s)) s Hh) as H1.
    destruct (piggybackPath _ rec _ s) as [[] s1|s1| |]; [| |exact I|exact I];
      [|exact H1].
    destruct H1 as [Hp1 Hno1].
    assert (Hh1 : hinv s1) by (destruct Hp1 as (_ & ? & _); assumption).
    specialize (IH s1 Hh1).
    destruct (piggyback rec l s1) as [[] s'|s'| |]; [| |exact I|exact I].
    + destruct IH as [Hp2 Hno2]. split; [eapply pig_post_trans; eassumption|].
      intros r' o Hr' Ho b Hin. apply elem_of_cons in Hr'. destruct Hr' as [->|Hr'].
      * destruct Hp2 as (_ & _ & _ & _ & _ & _ & Hw & _).
        apply (Hno1 b). rewrite step_at_objs. fold (objs s). rewrite Ho. cbn.
        apply Hw. assumption.
      * destruct Hp1 as ((_ & Hold & _) & _).
        destruct (Hold r' o Ho) as (o' & Ho' & Hp & _).
        apply (Hno2 r' o' Hr' Ho' b). rewrite Hp. assumption.
    + eapply pig_post_trans; eassumption.
Qed.

(** ** createBuild keeps the invariant *)

Lemma build_post_load b s : hinv s -> build_post b s (loadBuild b s).
Proof.
  intros Hh. split; [apply grows_same; reflexivity|]. split; [exact Hh|].
  split; [repeat split; auto|]. exists []. split; [reflexivity|auto].
Qed.

Lemma build_post_tail b s s1 s2 :
  build_post b s s1 -> tail_ok b s1 s2 -> build_post b s s2.
Proof.
  intros (Hg & Hh & (Hl & Hfr & Hw) & evs & Htr & Hld)
         (O & S & R & N & F & W & L & B & e2 & T & _).
  split; [eapply grows_trans; [exact Hg|apply grows_same; assumption]|].
  split; [eapply hinv_same; [| | |exact Hh]; assumption|].
  split.
  - split; [congruence|]. split.
    + intros c Hc Hn. rewrite B by assumption. auto.
    + rewrite W. assumption.
  - exists (evs ++ e2)%list. split.
    + rewrite T, Htr, <- app_assoc. reflexivity.
    + intros e He. rewrite W. destruct (Hld e He); [auto|].
      right. apply elem_of_app. auto.
Qed.

Lemma build_post_step b s s1 s2 :
  build_post b s s1 -> grows s1 s2 -> hinv s2 -> step_frame s1 s2 ->
  build_post b s s2.
Proof.
  intros (Hg & Hh & (Hl & Hfr & Hw) & evs & Htr & Hld) Hg2 Hh2 (Hout & e2 & T).
  assert (Hbh : buildHeap s2 = buildHeap s1) by (unfold outside in Hout; congruence).
  assert (Hnb : newBuilds s2 = newBuilds s1) by (unfold outside in Hout; congruence).
  split; [eapply grows_trans; eassumption|]. split; [assumption|]. split.
  - unfold build_frame. rewrite Hbh, Hnb. repeat split; assumption.
  - exists (evs ++ e2)%list. split.
    + rewrite T, Htr, <- app_assoc. reflexivity.
    + intros e He. rewrite Hnb. destruct (Hld e He); [auto|].
      right. apply elem_of_app. auto.
Qed.

Lemma build_post_pig b s s1 s2 :
  build_post b s s1 -> pig_post s1 s2 -> build_post b s s2.
Proof.
  intros (Hg & Hh & (Hl & Hfr & Hw) & evs & Htr & Hld)
         (G2 & H2 & _ & _ & L2 & B2 & W2 & e2 & T2 & Ld2).
  split; [eapply grows_trans; eassumption|]. split; [assumption|]. split.
  - split; [congruence|]. split; [|auto].
    intros c Hc Hn. rewrite B2; [auto|].
    intros Hin. apply Hn. apply list_elem_of_fmap in Hin. destruct Hin as (e & -> & He).
    apply list_elem_of_fmap. exists e. auto.
  - exists (evs ++ e2)%list. split.
    + rewrite T2, Htr, <- app_assoc. reflexivity.
    + intros e He. destruct (Hld e He) as [H1|H1].
      * destruct (Ld2 e H1); [auto|]. right. apply elem_of_app. auto.
      * right. apply elem_of_app. auto.
Qed.

Lemma createBuild_body_spec E recS rec :
  step_spec E recS ->
  (forall p rb rs s,
     match recS p rb rs s with
     | Ok _ s' | Throw s' => step_frame s s'
     | _ => True
     end) ->
  build_spec rec -> build_spec (createBuild_body E recS rec).
Proof.
  intros HS HF HB b s Hh. unfold createBuild_body.
  pose proof (build_post_load b s Hh) as P0.
  set (s0 := loadBuild b s) in *.
  destruct (negb (isValidPath E _)).
  { exact (build_post_tail _ _ _ _ P0 (abortGCed_tail E b s0)). }
  assert (Hi1 : inv (freshLocals s0)).
  { apply inv_of_hinv; [exact Hh|]. intros a Ha. cbn in Ha.
    apply elem_of_nil in Ha. contradiction. }
  assert (P1 : build_post b s (freshLocals s0)) by exact P0.
  specialize (HS (Build.drvPath (build_at (buildHeap s0) b)) (Some b) None
                (freshLocals s0) Hi1).
  specialize (HF (Build.drvPath (build_at (buildHeap s0) b)) (Some b) None
                (freshLocals s0)).
  destruct (recS _ (Some b) None (freshLocals s0)) as [step s2|s2| |];
    [| |exact I|exact I].
  2:{ destruct HS as (Hev & Hi2 & _).
      eapply build_post_tail; [|apply leave_tail].
      eapply build_post_step; [exact P1|apply grows_of_evolves; exact Hev| |exact HF].
      apply hinv_of_inv. exact Hi2. }
  destruct HS as (Hev & Hi2 & _).
  assert (P2 : build_post b s s2).
  { eapply build_post_step; [exact P1|apply grows_of_evolves; exact Hev| |exact HF].
    apply hinv_of_inv. exact Hi2. }
  pose proof (piggyback_spec rec HB (in_address_order E (newSteps s2)) s2 (hinv_of_inv _ Hi2)) as Hpig.
  destruct (piggyback rec (in_address_order E (newSteps s2)) s2) as [[] s3|s3| |]; [| |exact I|exact I].
  2:{ eapply build_post_tail; [|apply leave_tail].
      eapply build_post_pig; eassumption. }
  destruct Hpig as [Hp3 _].
  assert (P3 : build_post b s s3) by (eapply build_post_pig; eassumption).
  destruct step as [root|].
  - pose proof (classify_tail E b root (in_address_order E (newSteps s3)) s3) as Hc.
    destruct (classify E b root (in_address_order E (newSteps s3)) s3) as [bad s4]. cbn [snd] in Hc.
    destruct bad.
    + eapply build_post_tail; [|apply leave_tail].
      eapply build_post_tail; eassumption.
    + eapply build_post_tail; [|apply leave_tail].
      eapply build_post_tail; [|apply publish_tail].
      eapply build_post_tail; eassumption.
  - pose proof (markCachedSuccess_tail E b s3) as Hm.
    destruct (markCachedSuccess E b s3) as [[] s4|s4| |]; [| |exact I|exact I].
    + eapply build_post_tail; [|apply leave_tail].
      eapply build_post_tail; eassumption.
    + eapply build_post_tail; [|apply leave_tail].
      eapply build_post_tail; eassumption.
Qed.

Lemma createBuild_spec E fuel : build_spec (createBuild fuel E).
Proof.
  induction fuel as [|fuel IH].
  - intros b s _. exact I.
  - cbn [createBuild]. apply createBuild_body_spec.
    + apply createStep_spec.
    + apply createStep_frame.
    + exact IH.
Qed.

(** ** Publication *)

Lemma reach_created s :
  closed s ->
  forall a b, reach s a b ->
    (exists o, objs s !! a = Some o /\ Step.created o = true) ->
    exists o, objs s !! b = Some o /\ Step.created o = true.
Proof.
  intros Hc a b Hr. induction Hr as [a|a o d b Ho Hd Hr IH]; [auto|].
  intros (o' & Ho' & Hcr). assert (o' = o) as -> by congruence.
  apply IH. eapply Hc; eassumption.
Qed.

Lemma reach_same s s' a b : objs s' = objs s -> reach s a b -> reach s' a b.
Proof.
  intros Ho Hr. induction Hr as [a|a o d b Hl Hd Hr IH]; [constructor|].
  econstructor; [rewrite Ho; exact Hl|exact Hd|exact IH].
Qed.

Lemma dropBuild_builds b s :
  builds (dropBuild b s) = builds s /\ buildHeap (dropBuild b s) = buildHeap s.
Proof. unfold dropBuild. destruct (bool_decide _); split; reflexivity. Qed.

Lemma publish_spec b root s x :
  buildHeap s !! b = Some x -> Build.finishedInDB x = false ->
  builds (publish b root s) = <[Build.id x := b]> (builds s) /\
  buildHeap (publish b root s) = <[b := Build.set_toplevel root x]> (buildHeap s).
Proof.
  intros Hx Hfin. unfold publish. rewrite (build_at_lookup _ _ _ Hx), Hfin.
  unfold update_build. sproj.
  destruct (builds s !! Build.id x) as [old|].
  - destruct (bool_decide (old = b)).
    + sproj. rewrite (build_at_lookup _ _ _ Hx). split; reflexivity.
    + destruct (dropBuild_builds old (set_builds (<[Build.id x := b]> (builds s)) s))
        as [Hb Hh].
      rewrite Hb, Hh. sproj. rewrite (build_at_lookup _ _ _ Hx). split; reflexivity.
  - sproj. rewrite (build_at_lookup _ _ _ Hx). split; reflexivity.
Qed.

(** The build that is being ingested is not written to by createStep nor
    by the ingestions that the piggyback pass starts. *)
Lemma build_untouched E fuel build s p s2 step s3 :
  hinv s ->
  build ∉ snd <$> newBuilds s ->
  createStep (S fuel) E p (Some build) None (freshLocals (loadBuild build s))
    = Ok step s2 ->
  piggyback (createBuild fuel E) (in_address_order E (newSteps s2)) s2 = Ok tt s3 ->
  buildHeap s3 !! build = buildHeap s !! build /\
  inv s2 /\ result_ok p step s2 /\ pig_post s2 s3 /\
  nrBuildsDone s2 = nrBuildsDone s /\ builds s2 = builds s /\
  newBuilds s2 = newBuilds s /\
  (forall r o, r ∈ newSteps s2 -> objs s2 !! r = Some o ->
     forall b, (Step.drvPath o, b) ∉ newBuilds s3).
Proof.
  intros Hh Hnot Hstep Hpig.
  assert (Hi1 : inv (freshLocals (loadBuild build s))).
  { apply inv_of_hinv; [exact Hh|]. intros a Ha. cbn in Ha.
    apply elem_of_nil in Ha. contradiction. }
  pose proof (createStep_spec E (S fuel) p (Some build) None _ Hi1) as HS.
  pose proof (createStep_frame E (S fuel) p (Some build) None
                (freshLocals (loadBuild build s))) as HF.
  rewrite Hstep in HS, HF. destruct HS as (Hev & Hi2 & _ & _ & Hres).
  destruct HF as (Hout & _).
  pose proof (piggyback_spec _ (createBuild_spec E fuel) (in_address_order E (newSteps s2)) s2
                (hinv_of_inv _ Hi2)) as HP.
  rewrite Hpig in HP. destruct HP as [Hp3 Hno].
  unfold outside, freshLocals, loadBuild in Hout. sproj.
  injection Hout as Hbh Hbs Hdone _ _ _ Hnb _.
  split.
  - destruct Hp3 as (_ & _ & _ & _ & _ & Hfr & _). rewrite Hfr, Hbh; [reflexivity|].
    rewrite Hnb. assumption.
  - split; [assumption|]. split; [assumption|]. split; [assumption|].
    split; [congruence|]. split; [congruence|]. split; [assumption|].
    intros r o Hr Ho. apply (Hno r o (proj2 (elem_of_in_address_order E _ r) Hr) Ho).
Qed.

Lemma hinv_empty_heap s :
  stepHeap s = [] -> steps s = ∅ -> newRunnable s = [] -> hinv s.
Proof.
  intros Hh Hs Hr. unfold hinv, keyed, closed, runnable_ok, objs.
  rewrite Hh, Hs, Hr. repeat split.
  - intros p w Hw. rewrite lookup_empty in Hw. discriminate.
  - intros a o Ho. discriminate.
  - intros a Ha. apply elem_of_nil in Ha. contradiction.
Qed.

(** C5. The classification pass goes through [newSteps] in the order of
    the set, which is the order of the machine addresses of the steps,
    whatever the allocator made them. A step
    with a cached failure gives Failed for the root and DepFailed for any
    other step, with step status Failed; otherwise a step that no machine
    supports gives Unsupported for both. At the first such step, with the
    build not yet finished in the database: one transaction records the
    failed build step and then updates the build ([finished = 1],
    [busy = 0], the status, the same time as start and stop time,
    [isCachedBuild = 1] unless the status is Unsupported); [finishedInDB]
    is set, [nrBuildsDone] goes up by one, and createBuild returns with
    [builds] as it was. *)
Theorem createBuild_bad_step E fuel build s x root s2 s3 l1 r l2 :
  hinv s ->
  buildHeap s !! build = Some x ->
  build ∉ snd <$> newBuilds s ->
  Build.finishedInDB x = false ->
  isValidPath E (Build.drvPath x) = true ->
  createStep (S fuel) E (Build.drvPath x) (Some build) None
    (freshLocals (loadBuild build s)) = Ok (Some root) s2 ->
  piggyback (createBuild fuel E) (in_address_order E (newSteps s2)) s2 = Ok tt s3 ->
  in_address_order E (newSteps s3) = (l1 ++ r :: l2)%list ->
  (forall a, a ∈ l1 -> fst (classifyStep E root a s3) = bsSuccess) ->
  fst (classifyStep E root r s3) <> bsSuccess ->
  let o := step_at (stepHeap s3) r in
  let bs := if checkCachedFailure E o
            then (if bool_decide (root = r) then bsFailed else bsDepFailed)
            else bsUnsupported in
  let bss := if checkCachedFailure E o then bssFailed else bssUnsupported in
  let cached := (if bool_decide (bs <> bsUnsupported) then 1 else 0)%Z in
  (checkCachedFailure E o = false ->
   existsb (fun m => supportsStep m o) (machines E) = false) /\
  classifyStep E root r s3 = (bs, bss) /\
  exists s', createBuild (S fuel) E build s = Ok tt s' /\
    trace s' = (trace s3 ++
      [EvCommit [CreateBuildStep 0 build r "" bss;
                 Exec sql_fail_build
                   [PId (Build.id x); PStatus bs; PInt (now E s3); PInt cached]]])%list /\
    db s' = update_where (Build.id x)
              (fun row => row_finish (Some bs) (now E s3) (now E s3)
                            (Row.errorMsg row) (Some cached) row) (db s3) /\
    buildHeap s' = <[build := Build.set_finishedInDB x]> (buildHeap s3) /\
    (exists x', buildHeap s' !! build = Some x' /\
       build_is x true (Build.toplevel x) x') /\
    nrBuildsDone s' = incr64 (nrBuildsDone s3) /\
    builds s' = builds s3.
Proof.
  intros Hh Hx0 Hnot Hfin Hvalid Hstep Hpig Hns Hgood Hbad. cbv zeta.
  destruct (build_untouched E fuel build s _ s2 _ s3 Hh Hnot Hstep Hpig) as (Hx & _).
  rewrite Hx0 in Hx.
  pose proof (classifyStep_verdict E root r s3) as Hv. cbv zeta in Hv.
  assert (Hcs : (checkCachedFailure E (step_at (stepHeap s3) r) = false ->
                 existsb (fun m => supportsStep m (step_at (stepHeap s3) r)) (machines E) = false) /\
                classifyStep E root r s3 =
                (if checkCachedFailure E (step_at (stepHeap s3) r)
                 then if bool_decide (root = r) then bsFailed else bsDepFailed
                 else bsUnsupported,
                 if checkCachedFailure E (step_at (stepHeap s3) r)
                 then bssFailed else bssUnsupported)).
  { rewrite Hv in Hbad |- *.
    destruct (checkCachedFailure E _); [split; [discriminate|reflexivity]|].
    destruct (existsb _ _); [exfalso; apply Hbad; reflexivity|].
    split; reflexivity. }
  destruct Hcs as [Hsup Hcs]. split; [exact Hsup|]. split; [exact Hcs|].
  rewrite (createBuild_unfold E fuel build s x Hx0 Hvalid), Hstep, Hpig, Hns.
  rewrite (classify_first_bad E build root l1 r l2 s3 Hgood Hbad).
  rewrite Hcs. cbn [fst snd].
  eexists. split; [reflexivity|].
  unfold leave, failBuild. sproj. rewrite (build_at_lookup _ _ _ Hx), Hfin.
  unfold commit, tick, update_build. sproj. rewrite (build_at_lookup _ _ _ Hx).
  split; [reflexivity|]. split; [reflexivity|]. split; [reflexivity|].
  split; [|split; reflexivity].
  exists (Build.set_finishedInDB x). split.
  - apply list_lookup_insert_eq. eapply lookup_lt_Some; exact Hx.
  - unfold build_is. cbn. repeat split.
Qed.

(** Build 4 of the unsupported-platform scenario: the root step is the
    first bad step, the build is marked Unsupported with
    [isCachedBuild = 0]. Build 5 of the shared-subtree scenario with every
    step a cached failure: the build is marked Failed for its root step
    when that step has the lowest address, and DepFailed for the step of
    /d/C when the allocator has put that one lower. *)
Lemma createBuild_bad_step_witness :
  (classifyStep env_arm 0 0 state_arm_created = (bsUnsupported, bssUnsupported) /\
   exists s', createBuild 2 env_arm 0 state_arm = Ok tt s' /\
     trace s' =
       [EvLoadBuild 0; EvReadDerivation "/d/arm";
        EvCommit [CreateBuildStep 0 0 0 "" bssUnsupported;
                  Exec sql_fail_build
                    [PId 4; PStatus bsUnsupported; PInt 1000; PInt 0]]] /\
     Row.buildStatus <$> db s' = [Some bsUnsupported] /\
     Row.isCachedBuild <$> db s' = [Some 0%Z] /\
     Build.finishedInDB <$> buildHeap s' = [true] /\
     nrBuildsDone s' = 1%N /\ builds s' = ∅) /\
  (exists s', createBuild 3 (env_AC_failed (fun a => a)) 0 state_A = Ok tt s' /\
     trace s' =
       [EvLoadBuild 0; EvReadDerivation "/d/A"; EvReadDerivation "/d/C";
        EvCommit [CreateBuildStep 0 0 0 "" bssFailed;
                  Exec sql_fail_build
                    [PId 5; PStatus bsFailed; PInt 1000; PInt 1]]] /\
     Row.buildStatus <$> db s' = [Some bsFailed]) /\
  (exists s', createBuild 3 (env_AC_failed downwards) 0 state_A = Ok tt s' /\
     trace s' =
       [EvLoadBuild 0; EvReadDerivation "/d/A"; EvReadDerivation "/d/C";
        EvCommit [CreateBuildStep 0 0 1 "" bssFailed;
                  Exec sql_fail_build
                    [PId 5; PStatus bsDepFailed; PInt 1000; PInt 1]]] /\
     Row.buildStatus <$> db s' = [Some bsDepFailed]).
Proof.
  assert (Hnil : forall (P : nat -> Prop) a, a ∈ @nil nat -> P a)
    by (intros P a Ha; apply elem_of_nil in Ha; contradiction).
  assert (Hnot : forall s, newBuilds s = [] -> 0 ∉ snd <$> newBuilds s).
  { intros s ->. cbn. intros H. apply elem_of_nil in H. contradiction. }
  split; [|split].
  - assert (Hstep : createStep 2 env_arm "/d/arm" (Some 0) None
                      (freshLocals (loadBuild 0 state_arm)) = Ok (Some 0) state_arm_created)
      by (vm_compute; reflexivity).
    assert (Hpig : piggyback (createBuild 1 env_arm)
                     (in_address_order env_arm (newSteps state_arm_created))
                     state_arm_created = Ok tt state_arm_created)
      by (vm_compute; reflexivity).
    assert (Hbad : fst (classifyStep env_arm 0 0 state_arm_created) <> bsSuccess)
      by (vm_compute; discriminate).
    destruct (createBuild_bad_step env_arm 1 0 state_arm
                (Build.mk 4 "/d/arm" "hydra:trunk:job" 0 0 false None)
                0 state_arm_created state_arm_created
                [] 0 [] (hinv_empty_heap state_arm eq_refl eq_refl eq_refl) eq_refl
                (Hnot state_arm eq_refl) eq_refl eq_refl Hstep Hpig eq_refl
                (Hnil _) Hbad)
      as (_ & Hcs & s' & Hrun & Htr & Hdb & Hbh & _ & Hdone & Hb).
    split; [exact Hcs|].
    exists s'. split; [exact Hrun|].
    rewrite Htr, Hdb, Hbh, Hdone, Hb. repeat split.
  - assert (Hstep : createStep 3 (env_AC_failed (fun a => a)) "/d/A" (Some 0) None
                      (freshLocals (loadBuild 0 state_A)) =
                    Ok (Some 0) (state_A_created (fun a => a)))
      by (vm_compute; reflexivity).
    assert (Hpig : piggyback (createBuild 2 (env_AC_failed (fun a => a)))
                     (in_address_order (env_AC_failed (fun a => a))
                        (newSteps (state_A_created (fun a => a))))
                     (state_A_created (fun a => a)) =
                   Ok tt (state_A_created (fun a => a)))
      by (vm_compute; reflexivity).
    assert (Hbad : fst (classifyStep (env_AC_failed (fun a => a)) 0 0
                          (state_A_created (fun a => a))) <> bsSuccess)
      by (vm_compute; discriminate).
    destruct (createBuild_bad_step (env_AC_failed (fun a => a)) 2 0 state_A build5
                0 (state_A_created (fun a => a)) (state_A_created (fun a => a))
                [] 0 [1] (hinv_empty_heap state_A eq_refl eq_refl eq_refl) eq_refl
                (Hnot state_A eq_refl) eq_refl eq_refl Hstep Hpig eq_refl
                (Hnil _) Hbad)
      as (_ & _ & s' & Hrun & Htr & Hdb & _).
    exists s'. split; [exact Hrun|]. rewrite Htr, Hdb. split; reflexivity.
  - assert (Hstep : createStep 3 (env_AC_failed downwards) "/d/A" (Some 0) None
                      (freshLocals (loadBuild 0 state_A)) =
                    Ok (Some 0) (state_A_created downwards))
      by (vm_compute; reflexivity).
    assert (Hpig : piggyback (createBuild 2 (env_AC_failed downwards))
                     (in_address_order (env_AC_failed downwards)
                        (newSteps (state_A_created downwards)))
                     (state_A_created downwards) =
                   Ok tt (state_A_created downwards))
      by (vm_compute; reflexivity).
    assert (Hbad : fst (classifyStep (env_AC_failed downwards) 0 1
                          (state_A_created downwards)) <> bsSuccess)
      by (vm_compute; discriminate).
    destruct (createBuild_bad_step (env_AC_failed downwards) 2 0 state_A build5
                0 (state_A_created downwards) (state_A_created downwards)
                [] 1 [0] (hinv_empty_heap state_A eq_refl eq_refl eq_refl) eq_refl
                (Hnot state_A eq_refl) eq_refl eq_refl Hstep Hpig eq_refl
                (Hnil _) Hbad)
      as (_ & _ & s' & Hrun & Htr & Hdb & _).
    exists s'. split; [exact Hrun|]. rewrite Htr, Hdb. split; reflexivity.
Defined.

(** C7. A build that is neither garbage-collected nor a cached success and
    has no bad step is published: it is entered in [builds] under its id
    (it was not finished in the database), its [toplevel] is the root
    step, and every step that can be reached from the root along [deps]
    exists and is created. *)
Theorem createBuild_publish E fuel build s x root s2 s3 :
  hinv s ->
  buildHeap s !! build = Some x ->
  build ∉ snd <$> newBuilds s ->
  Build.finishedInDB x = false ->
  isValidPath E (Build.drvPath x) = true ->
  createStep (S fuel) E (Build.drvPath x) (Some build) None
    (freshLocals (loadBuild build s)) = Ok (Some root) s2 ->
  piggyback (createBuild fuel E) (in_address_order E (newSteps s2)) s2 = Ok tt s3 ->
  (forall a, a ∈ newSteps s3 -> fst (classifyStep E root a s3) = bsSuccess) ->
  exists s', createBuild (S fuel) E build s = Ok tt s' /\
    builds s' !! Build.id x = Some build /\
    (exists x', buildHeap s' !! build = Some x' /\
       build_is x false (Some root) x') /\
    forall a, reach s' root a ->
      exists o, objs s' !! a = Some o /\ Step.created o = true.
Proof.
  intros Hh Hx Hnot Hfin Hvalid Hstep Hpig Hgood.
  destruct (build_untouched E fuel build s _ s2 _ s3 Hh Hnot Hstep Hpig)
    as (Hx3 & Hi2 & Hres & Hp3 & _).
  rewrite Hx in Hx3.
  rewrite (createBuild_unfold E fuel build s x Hx Hvalid), Hstep, Hpig.
  rewrite (classify_all_good E build root (in_address_order E (newSteps s3)) s3
             (fun a Ha => Hgood a (proj1 (elem_of_in_address_order E _ a) Ha))).
  destruct (publish_spec build root s3 x Hx3 Hfin) as [Hb Hbh].
  eexists. split; [reflexivity|].
  split; [|split].
  - change (builds (publish build root s3) !! Build.id x = Some build).
    rewrite Hb. apply lookup_insert_eq.
  - exists (Build.set_toplevel root x). split.
    + change (buildHeap (publish build root s3) !! build =
              Some (Build.set_toplevel root x)).
      rewrite Hbh. apply list_lookup_insert_eq. eapply lookup_lt_Some; eassumption.
    + unfold build_is. cbn. rewrite Hfin. repeat split.
  - assert (Hobjs : objs (leave (Some root) (publish build root s3)) = objs s3).
    { destruct (leave_tail build (Some root) (publish build root s3)) as (O1 & _).
      destruct (publish_tail build root s3) as (O2 & _). congruence. }
    intros a Hr. rewrite Hobjs.
    destruct Hp3 as ((_ & Hold & _) & (_ & Hc3 & _) & _).
    destruct Hres as (o & Ho & Hcr & _).
    destruct (Hold root o Ho) as (o' & Ho' & _ & Hst).
    destruct (Hst eq_refl) as (_ & _ & _ & Hcr' & _).
    eapply (reach_created s3 Hc3 root a).
    + eapply reach_same; [|exact Hr]. symmetry. exact Hobjs.
    + exists o'. split; [assumption|congruence].
Qed.

(** Build 5 of the shared-subtree scenario is published with the step of
    /d/A as its top level. *)
Lemma createBuild_publish_witness :
  exists s', createBuild 3 env_AC 0 state_5 = Ok tt s' /\
    builds s' !! 5%N = Some 0 /\
    (exists x', buildHeap s' !! 0 = Some x' /\ build_is build5 false (Some 0) x') /\
    forall a, reach s' 0 a ->
      exists o, objs s' !! a = Some o /\ Step.created o = true.
Proof.
  apply (createBuild_publish env_AC 2 0 state_5 build5 0
           state_5_stepped state_5_piggybacked).
  - apply hinv_empty_heap; reflexivity.
  - reflexivity.
  - cbn. intros H. apply list_elem_of_singleton in H. discriminate.
  - reflexivity.
  - reflexivity.
  - vm_compute. reflexivity.
  - vm_compute. reflexivity.
  - intros a Ha. change (newSteps state_5_piggybacked) with [0; 1] in Ha.
    apply elem_of_cons in Ha. destruct Ha as [->|Ha]; [vm_compute; reflexivity|].
    apply list_elem_of_singleton in Ha. subst a. vm_compute. reflexivity.
Defined.

(** ** The piggyback pass of an ingestion *)

Lemma createBuild_after_piggyback E fuel build s x step s2 s3 :
  buildHeap s !! build = Some x ->
  isValidPath E (Build.drvPath x) = true ->
  createStep (S fuel) E (Build.drvPath x) (Some build) None
    (freshLocals (loadBuild build s)) = Ok step s2 ->
  piggyback (createBuild fuel E) (in_address_order E (newSteps s2)) s2 = Ok tt s3 ->
  match createBuild (S fuel) E build s with
  | Ok _ s' | Throw s' => tail_ok build s3 s'
  | AssertFail | OutOfFuel => True
  end.
Proof.
  intros Hx Hvalid Hstep Hpig.
  rewrite (createBuild_unfold E fuel build s x Hx Hvalid), Hstep, Hpig.
  destruct step as [root|].
  - pose proof (classify_tail E build root (in_address_order E (newSteps s3)) s3) as Hc.
    destruct (classify E build root (in_address_order E (newSteps s3)) s3) as [bad s4]. cbn [snd] in Hc.
    destruct bad.
    + eapply tail_ok_trans; [exact Hc|apply leave_tail].
    + eapply tail_ok_trans; [exact Hc|].
      eapply tail_ok_trans; [apply publish_tail|apply leave_tail].
  - pose proof (markCachedSuccess_tail E build s3) as Hm.
    destruct (markCachedSuccess E build s3) as [[] s4|s4| |]; try exact I;
      (eapply tail_ok_trans; [exact Hm|apply leave_tail]).
Qed.

(** C8 (as amended). When the piggyback pass of an ingestion has come back,
    no build is left in the working set for the path of any step in
    [newSteps]; every build that left the working set has been loaded by a
    nested ingestion, and the outer ingestion only ends after that. In the
    shared-subtree scenario the ingestion of build 5 also ingests build 6;
    afterwards the step of /d/C refers back to build 6 only (build 5 is
    with the step of /d/A, its own top level), and its [rdeps] is the step
    of /d/A. *)
Theorem piggyback_ingests_pending :
  (forall E fuel build s x step s2 s3,
     hinv s ->
     buildHeap s !! build = Some x ->
     isValidPath E (Build.drvPath x) = true ->
     createStep (S fuel) E (Build.drvPath x) (Some build) None
       (freshLocals (loadBuild build s)) = Ok step s2 ->
     piggyback (createBuild fuel E) (in_address_order E (newSteps s2)) s2 = Ok tt s3 ->
     (forall r o, r ∈ newSteps s2 -> objs s2 !! r = Some o ->
        forall b, (Step.drvPath o, b) ∉ newBuilds s3) /\
     (forall e, e ∈ newBuilds s3 -> e ∈ newBuilds s) /\
     (exists evs, trace s3 = (trace s2 ++ evs)%list /\
        forall e, e ∈ newBuilds s ->
          e ∈ newBuilds s3 \/ EvLoadBuild (snd e) ∈ evs) /\
     match createBuild (S fuel) E build s with
     | Ok _ s' | Throw s' =>
         newBuilds s' = newBuilds s3 /\
         exists evs, trace s' = (trace s3 ++ evs)%list /\
           forall c, EvLoadBuild c ∉ evs
     | AssertFail | OutOfFuel => True
     end)
  /\ createBuild 3 env_AC 0 state_5 = Ok tt state_5_done
  /\ newBuilds state_5_done = []
  /\ trace state_5_done =
       [EvLoadBuild 0; EvReadDerivation "/d/A"; EvReadDerivation "/d/C"; EvLoadBuild 1]
  /\ Step.drvPath (step_at (stepHeap state_5_done) 1) = "/d/C"
  /\ builds_of state_5_done 1 = [6%N]
  /\ rdeps_of state_5_done 1 = ["/d/A"]
  /\ builds_of state_5_done 0 = [5%N].
Proof.
  split.
  - intros E fuel build s x step s2 s3 Hh Hx Hvalid Hstep Hpig.
    assert (Hi1 : inv (freshLocals (loadBuild build s))).
    { apply inv_of_hinv; [exact Hh|]. intros a Ha. cbn in Ha.
      apply elem_of_nil in Ha. contradiction. }
    pose proof (createStep_spec E (S fuel) (Build.drvPath x) (Some build) None _ Hi1) as HS.
    pose proof (createStep_frame E (S fuel) (Build.drvPath x) (Some build) None
                  (freshLocals (loadBuild build s))) as HF.
    rewrite Hstep in HS, HF. destruct HS as (_ & Hi2 & _).
    destruct HF as (Hout & _).
    unfold outside, freshLocals, loadBuild in Hout. sproj.
    injection Hout as _ _ _ _ _ _ Hnb _.
    pose proof (piggyback_spec _ (createBuild_spec E fuel) (in_address_order E (newSteps s2)) s2
                  (hinv_of_inv _ Hi2)) as HP.
    rewrite Hpig in HP. destruct HP as [(_ & _ & _ & _ & _ & _ & Hw & Hld) Hno].
    unfold loaded in Hld. rewrite Hnb in Hw, Hld.
    split; [intros r o Hr; apply Hno; apply elem_of_in_address_order; exact Hr|].
    split; [exact Hw|]. split; [exact Hld|].
    pose proof (createBuild_after_piggyback E fuel build s x step s2 s3
                  Hx Hvalid Hstep Hpig) as Ht.
    destruct (createBuild (S fuel) E build s) as [[] s'|s'| |]; try exact I;
      destruct Ht as (_ & _ & _ & _ & _ & W & _ & _ & E3); auto.
  - split; [vm_compute; reflexivity|]. repeat split.
Qed.

(** The general part of C8 at the scenario: /d/C, the path of the new step
    at address 1, has no build left in the working set, and build 6 (at
    address 1) has been loaded before the ingestion of build 5 ended. *)
Lemma piggyback_ingests_pending_witness :
  (forall r o, r ∈ newSteps state_5_stepped -> objs state_5_stepped !! r = Some o ->
     forall b, (Step.drvPath o, b) ∉ newBuilds state_5_piggybacked) /\
  (forall e, e ∈ newBuilds state_5_piggybacked -> e ∈ newBuilds state_5) /\
  (exists evs, trace state_5_piggybacked = (trace state_5_stepped ++ evs)%list /\
     forall e, e ∈ newBuilds state_5 ->
       e ∈ newBuilds state_5_piggybacked \/ EvLoadBuild (snd e) ∈ evs) /\
  match createBuild 3 env_AC 0 state_5 with
  | Ok _ s' | Throw s' =>
      newBuilds s' = newBuilds state_5_piggybacked /\
      exists evs, trace s' = (trace state_5_piggybacked ++ evs)%list /\
        forall c, EvLoadBuild c ∉ evs
  | AssertFail | OutOfFuel => True
  end.
Proof.
  apply (proj1 piggyback_ingests_pending env_AC 2 0 state_5 build5 (Some 0)
           state_5_stepped state_5_piggybacked).
  - apply hinv_empty_heap; reflexivity.
  - reflexivity.
  - reflexivity.
  - vm_compute. reflexivity.
  - vm_compute. reflexivity.
Defined.

(** C8 (counterexample). After the ingestion of build 5, which ingested
    build 6 on the way, the back-references of the step of /d/C are build 6
    alone: build 5 is not among them. *)
Lemma piggyback_builds_counterexample :
  createBuild 3 env_AC 0 state_5 = Ok tt state_5_done /\
  Step.drvPath (step_at (stepHeap state_5_done) 1) = "/d/C" /\
  builds_of state_5_done 1 = [6%N] /\
  5%N ∉ builds_of state_5_done 1.
Proof.
  split; [vm_compute; reflexivity|]. split; [reflexivity|]. split; [reflexivity|].
  change (builds_of state_5_done 1) with [6%N].
  intros H. apply list_elem_of_singleton in H. discriminate.
Qed.

(** ** The transactions of an ingestion *)

Lemma adds_refl P s s' : trace s' = trace s -> adds P s s'.
Proof. intros H. exists []. rewrite app_nil_r. split; [assumption|constructor]. Qed.

Lemma adds_trans P s1 s2 s3 : adds P s1 s2 -> adds P s2 s3 -> adds P s1 s3.
Proof.
  intros (e1 & T1 & F1) (e2 & T2 & F2). exists (e1 ++ e2)%list.
  split; [rewrite T2, T1, app_assoc; reflexivity|]. apply Forall_app. auto.
Qed.

Lemma adds_events P s s' evs :
  trace s' = (trace s ++ evs)%list -> Forall P evs -> adds P s s'.
Proof. intros H F. exists evs. auto. Qed.

Lemma createDeps_adds P rec st :
  (forall p rb rs s,
     match rec p rb rs s with
     | Ok _ s' | Throw s' => adds P s s'
     | _ => True
     end) ->
  forall inputs s,
    match createDeps rec st inputs s with
    | Ok _ s' | Throw s' => adds P s s'
    | _ => True
    end.
Proof.
  intros Hrec. induction inputs as [|[q x] rest IH]; intros s; cbn [createDeps];
    [apply adds_refl; reflexivity|].
  specialize (Hrec q None (Some st) s).
  destruct (rec q None (Some st) s) as [[dep|] t|t| |]; try exact I; try assumption.
  - specialize (IH (link_dep st dep t)).
    assert (Hl : adds P t (link_dep st dep t)) by (apply adds_refl; reflexivity).
    destruct (createDeps rec st rest (link_dep st dep t)); try exact I;
      (eapply adds_trans; [exact Hrec|]; eapply adds_trans; [exact Hl|exact IH]).
  - specialize (IH t).
    destruct (createDeps rec st rest t); try exact I;
      (eapply adds_trans; [exact Hrec|exact IH]).
Qed.

Lemma finishStep_trace n s r s' : finishStep n s = Ok r s' -> trace s' = trace s.
Proof.
  unfold finishStep. destruct (Step.created _); [discriminate|].
  unfold insert_newRunnable.
  destruct (Step.deps _); [destruct (set_has _ _)|]; intros [= <- <-]; reflexivity.
Qed.

Lemma insert_newSteps_trace n s : trace (insert_newSteps n s) = trace s.
Proof. unfold insert_newSteps. destruct (set_has _ _); reflexivity. Qed.

Lemma createStep_adds E fuel : forall p rb rs s,
  match createStep fuel E p rb rs s with
  | Ok _ s' | Throw s' => adds run_event s s'
  | _ => True
  end.
Proof.
  induction fuel as [|fuel IH]; intros p rb rs s; [exact I|].
  cbn [createStep]. unfold createStep_body.
  destruct (bool_decide (p ∈ finishedDrvs s)); [apply adds_refl; reflexivity|].
  destruct (internStep p rb rs s) as [[n isNew] s1|s1| |] eqn:Hint; try exact I.
  2:{ exfalso. eapply internStep_no_throw; eassumption. }
  destruct (internStep_rest _ _ _ _ _ _ Hint) as (_ & _ & _ & _ & _ & Htr1).
  assert (H01 : adds run_event s s1) by (apply adds_refl; assumption).
  destruct isNew; [|exact H01].
  set (s2 := set_trace (trace s1 ++ [EvReadDerivation p]) s1).
  assert (H12 : adds run_event s1 s2)
    by (eapply adds_events; [reflexivity|repeat constructor]).
  assert (H02 := adds_trans _ _ _ _ H01 H12).
  destruct (readDerivation E p) as [drv|].
  2:{ eapply adds_trans; [exact H02|]. apply adds_refl. reflexivity. }
  destruct (all_outputs_valid E drv).
  { eapply adds_trans; [exact H02|]. apply adds_refl. reflexivity. }
  match goal with |- context [insert_newSteps n ?t] =>
    pose proof (createDeps_adds run_event (createStep fuel E) n IH
                  (Derivation.inputDrvs drv) (insert_newSteps n t)) as Hloop;
    assert (H24 : adds run_event s2 (insert_newSteps n t))
      by (apply adds_refl; rewrite insert_newSteps_trace; reflexivity)
  end.
  assert (H04 := adds_trans _ _ _ _ H02 H24).
  destruct (createDeps _ _ _ _) as [[] s5|s5| |]; try exact I.
  - destruct (finishStep n s5) as [r s6|s6| |] eqn:Hfs; try exact I.
    + eapply adds_trans; [exact H04|]. eapply adds_trans; [exact Hloop|].
      apply adds_refl. eapply finishStep_trace; eassumption.
    + exfalso. eapply finishStep_no_throw; eassumption.
  - eapply adds_trans; [exact H04|]. eapply adds_trans; [exact Hloop|].
    apply adds_refl. reflexivity.
Qed.

Lemma abortGCed_adds E b s : adds run_event s (abortGCed E b s).
Proof.
  unfold abortGCed. destruct (Build.finishedInDB _); [apply adds_refl; reflexivity|].
  eapply adds_events; [reflexivity|]. repeat constructor.
Qed.

Lemma failBuild_adds E b r bs bss s : adds run_event s (failBuild E b r bs bss s).
Proof.
  unfold failBuild. destruct (Build.finishedInDB _); [apply adds_refl; reflexivity|].
  eapply adds_events; [reflexivity|]. repeat constructor.
Qed.

Lemma classify_adds E b root l s : adds run_event s (snd (classify E b root l s)).
Proof.
  induction l as [|r l IH]; cbn [classify]; [apply adds_refl; reflexivity|].
  destruct (classifyStep E root r s) as [bs bss].
  destruct (bool_decide (bs <> bsSuccess)); [apply failBuild_adds|exact IH].
Qed.

Lemma dropBuild_trace b s : trace (dropBuild b s) = trace s.
Proof. unfold dropBuild. destruct (bool_decide _); reflexivity. Qed.

Lemma publish_trace b root s : trace (publish b root s) = trace s.
Proof.
  unfold publish, update_build. sproj.
  destruct (Build.finishedInDB _); [reflexivity|].
  destruct (builds s !! _) as [old|]; [|reflexivity].
  destruct (bool_decide (old = b)); [reflexivity|].
  rewrite dropBuild_trace. reflexivity.
Qed.

Lemma markCachedSuccess_adds E b s :
  match markCachedSuccess E b s with
  | Ok _ s' | Throw s' => adds run_event s s'
  | _ => True
  end.
Proof.
  unfold markCachedSuccess. destruct (readDerivation E _) as [drv|].
  - eapply adds_events.
    + unfold update_build, commit, tick. sproj. rewrite <- app_assoc. reflexivity.
    + repeat constructor.
  - eapply adds_events; [reflexivity|repeat constructor].
Qed.

Lemma piggybackPath_adds rec p :
  adds_spec rec ->
  forall n s,
    match piggybackPath n rec p s with
    | Ok _ s' | Throw s' => adds run_event s s'
    | _ => True
    end.
Proof.
  intros Hrec. induction n as [|n IH]; intros s; cbn [piggybackPath];
    destruct (find_erase p (newBuilds s)) as [[b rest]|]; try exact I;
    try (apply adds_refl; reflexivity).
  specialize (Hrec b (set_newBuilds rest s)).
  destruct (rec b (set_newBuilds rest s)) as [[] s1|s1| |]; try exact I.
  - match goal with |- context [piggybackPath n rec p ?t] =>
      specialize (IH t);
      assert (H1 : adds run_event s t)
        by (eapply adds_trans; [exact Hrec|]; apply adds_refl; apply dropBuild_trace);
      destruct (piggybackPath n rec p t); try exact I;
        (eapply adds_trans; [exact H1|exact IH])
    end.
  - eapply adds_trans; [exact Hrec|]. apply adds_refl. apply dropBuild_trace.
Qed.

Lemma piggyback_adds rec :
  adds_spec rec ->
  forall l s,
    match piggyback rec l s with
    | Ok _ s' | Throw s' => adds run_event s s'
    | _ => True
    end.
Proof.
  intros Hrec. induction l as [|r l IH]; intros s; cbn [piggyback];
    [apply adds_refl; reflexivity|].
  pose proof (piggybackPath_adds rec (Step.drvPath (step_at (stepHeap s) r)) Hrec
                (length (newBuilds s)) s) as H1.
  destruct (piggybackPath _ rec _ s) as [[] s1|s1| |]; try exact I; [|exact H1].
  specialize (IH s1).
  destruct (piggyback rec l s1); try exact I; (eapply adds_trans; [exact H1|exact IH]).
Qed.

Lemma createBuild_adds E fuel : adds_spec (createBuild fuel E).
Proof.
  induction fuel as [|fuel IH]; intros b s; [exact I|].
  cbn [createBuild]. unfold createBuild_body.
  assert (H0 : adds run_event s (loadBuild b s))
    by (eapply adds_events; [reflexivity|repeat constructor]).
  destruct (negb (isValidPath E _)).
  { eapply adds_trans; [exact H0|apply abortGCed_adds]. }
  match goal with |- context [createStep (S fuel) E ?p ?rb ?rs ?t] =>
    pose proof (createStep_adds E (S fuel) p rb rs t) as HS;
    assert (H1 : adds run_event s t) by exact H0;
    destruct (createStep (S fuel) E p rb rs t) as [step s2|s2| |]; try exact I
  end.
  2:{ eapply adds_trans; [exact H1|]. eapply adds_trans; [exact HS|].
      apply adds_refl. reflexivity. }
  assert (H2 := adds_trans _ _ _ _ H1 HS).
  pose proof (piggyback_adds _ IH (in_address_order E (newSteps s2)) s2) as HP.
  destruct (piggyback (createBuild fuel E) (in_address_order E (newSteps s2)) s2) as [[] s3|s3| |];
    try exact I.
  2:{ eapply adds_trans; [exact H2|]. eapply adds_trans; [exact HP|].
      apply adds_refl. reflexivity. }
  assert (H3 := adds_trans _ _ _ _ H2 HP).
  destruct step as [root|].
  - pose proof (classify_adds E b root (in_address_order E (newSteps s3)) s3) as Hc.
    destruct (classify E b root (in_address_order E (newSteps s3)) s3) as [bad s4]. cbn [snd] in Hc.
    destruct bad.
    + eapply adds_trans; [exact H3|]. eapply adds_trans; [exact Hc|].
      apply adds_refl. reflexivity.
    + eapply adds_trans; [exact H3|]. eapply adds_trans; [exact Hc|].
      apply adds_refl. unfold leave. sproj. apply publish_trace.
  - pose proof (markCachedSuccess_adds E b s3) as Hm.
    destruct (markCachedSuccess E b s3) as [[] s4|s4| |]; try exact I;
      (eapply adds_trans; [exact H3|]; eapply adds_trans; [exact Hm|];
       apply adds_refl; reflexivity).
Qed.

Lemma update_where_finished i f tbl k row :
  tbl !! k = Some row -> Row.finished row <> 0%Z ->
  update_where i f tbl !! k = Some row.
Proof.
  intros Hk Hf. unfold update_where.
  change (map ?g tbl) with (g <$> tbl). rewrite list_lookup_fmap, Hk. cbn.
  destruct (Z.eqb_spec (Row.finished row) 0); [contradiction|].
  rewrite andb_false_r. reflexivity.
Qed.

Lemma commit_shape_guarded ops :
  commit_shape ops ->
  forall sql ps, (sql, ps) ∈ updates_of ops ->
    updates_of ops = [(sql, ps)] /\
    ends_with " where id = $1 and finished = 0" sql = true /\
    (exists i rest, ps = PId i :: rest) /\
    forall tbl k row, tbl !! k = Some row -> Row.finished row <> 0%Z ->
      exec_sql sql ps tbl !! k = Some row.
Proof.
  intros [i t|b r bss i bs t|b res t] sql ps Hin; cbn in Hin.
  - apply list_elem_of_singleton in Hin. injection Hin as -> ->.
    split; [reflexivity|]. split; [vm_compute; reflexivity|]. split; [eauto|].
    intros tbl k row Hk Hf. apply update_where_finished; assumption.
  - apply list_elem_of_singleton in Hin. injection Hin as -> ->.
    split; [reflexivity|]. split; [vm_compute; reflexivity|]. split; [eauto|].
    intros tbl k row Hk Hf. apply update_where_finished; assumption.
  - apply elem_of_nil in Hin. contradiction.
Qed.

Lemma scanRow_trace E acc row : trace (snd (scanRow E acc row)) = trace (snd acc).
Proof.
  destruct acc as [h s]. unfold scanRow. cbn [snd].
  destruct (negb (buildOne E =? 0)%N && negb (Row.id row =? buildOne E)%N);
    [reflexivity|].
  destruct (builds s !! Row.id row); reflexivity.
Qed.

Lemma scanQueue_trace E h s : trace (snd (scanQueue E h s)) = trace s.
Proof.
  unfold scanQueue.
  change (trace s) with (trace (snd (h, set_newBuilds [] s))).
  generalize (h, set_newBuilds [] s).
  induction (queuedRows h (db s)) as [|r rows IH]; intros acc; cbn [fold_left];
    [reflexivity|].
  rewrite IH. apply scanRow_trace.
Qed.

Lemma processQueue_adds E fuel : forall n s,
  match processQueue n fuel E s with
  | Ok _ s' | Throw s' => adds run_event s s'
  | AssertFail | OutOfFuel => True
  end.
Proof.
  induction n as [|n IH]; intros s; cbn [processQueue];
    (destruct (newBuilds s) as [|[p build] rest]; [apply adds_refl; reflexivity|]);
    [exact I|].
  set (s1 := set_nrAdded 0%N (clear_newRunnable (set_newBuilds rest s))).
  pose proof (createBuild_adds E fuel build s1) as H1.
  destruct (createBuild fuel E build s1) as [[] s2|s2| |]; try exact I.
  - match goal with |- match processQueue n fuel E ?t with _ => _ end =>
      specialize (IH t);
      assert (H2 : adds run_event s2 t)
    end.
    { eapply (adds_events _ _ _ (map EvMakeRunnable (in_address_order E (newRunnable s2)))).
      - rewrite dropBuild_trace. reflexivity.
      - apply Forall_forall. intros e He. apply list_elem_of_In in He.
        apply in_map_iff in He. destruct He as (a & <- & _). exact I. }
    destruct (processQueue n fuel E _) as [[] s'|s'| |]; try exact I.
    + eapply adds_trans; [|exact IH]. eapply adds_trans; [exact H1|exact H2].
    + eapply adds_trans; [|exact IH]. eapply adds_trans; [exact H1|exact H2].
  - eapply adds_trans; [exact H1|]. apply adds_refl.
    change (trace (dropBuild build s2) = trace s2). apply dropBuild_trace.
Qed.

Lemma getQueuedBuilds_adds E fuel h s :
  match getQueuedBuilds fuel E h s with
  | Ok _ s' | Throw s' => adds run_event s s'
  | AssertFail | OutOfFuel => True
  end.
Proof.
  unfold getQueuedBuilds. pose proof (scanQueue_trace E h s) as Ht.
  destruct (scanQueue E h s) as [h' s1]. cbn [snd] in Ht.
  set (s2 := set_newRunnable [] s1).
  pose proof (processQueue_adds E fuel (length (newBuilds s2)) s2) as H.
  assert (H0 : adds run_event s s2) by (apply adds_refl; exact Ht).
  destruct (processQueue _ fuel E s2) as [[] s3|s3| |]; try exact I.
  - eapply adds_trans; [exact H0|]. eapply adds_trans; [exact H|].
    apply adds_refl. reflexivity.
  - eapply adds_trans; [exact H0|exact H].
Qed.

(** C9 (as amended). Every transaction that an ingestion commits, and so
    every transaction of a pass of getQueuedBuilds, is one of three: the
    update that aborts a garbage-collected build, alone; the record of the
    failed build step followed by the update that fails the build; or the
    marking of a cached success. Each of the two updates is the only
    update of its transaction, its text ends in
    [where id = $1 and finished = 0] with the build id as [$1], and it
    leaves a row whose [finished] is not 0 as it is. *)
Theorem terminal_updates_guarded E fuel :
  (forall build s,
     match createBuild fuel E build s with
     | Ok _ s' | Throw s' =>
         exists evs, trace s' = (trace s ++ evs)%list /\ commits_guarded evs
     | AssertFail | OutOfFuel => True
     end) /\
  (forall lastBuildId s,
     match getQueuedBuilds fuel E lastBuildId s with
     | Ok _ s' | Throw s' =>
         exists evs, trace s' = (trace s ++ evs)%list /\ commits_guarded evs
     | AssertFail | OutOfFuel => True
     end).
Proof.
  assert (Hg : forall s s', adds run_event s s' ->
            exists evs, trace s' = (trace s ++ evs)%list /\ commits_guarded evs).
  { intros s s' (evs & Htr & Hall). exists evs. split; [exact Htr|].
    intros ops Hin. rewrite Forall_forall in Hall. specialize (Hall _ Hin).
    split; [exact Hall|apply commit_shape_guarded; exact Hall]. }
  split.
  - intros build s. pose proof (createBuild_adds E fuel build s) as H.
    destruct (createBuild fuel E build s) as [[] s'|s'| |]; try exact I; auto.
  - intros h s. pose proof (getQueuedBuilds_adds E fuel h s) as H.
    destruct (getQueuedBuilds fuel E h s) as [h' s'|s'| |]; try exact I; auto.
Qed.

(** C9 (counterexample). The transaction that fails the unsupported build 4
    is not a single statement: it records the build step and then updates
    the build. *)
Lemma fail_transaction_counterexample :
  createBuild 2 env_arm 0 state_arm = Ok tt state_arm_done /\
  exists ops, EvCommit ops ∈ trace state_arm_done /\
    ops = [CreateBuildStep 0 0 0 "" bssUnsupported;
           Exec sql_fail_build [PId 4; PStatus bsUnsupported; PInt 1000; PInt 0]] /\
    length ops = 2 /\ length ops <> 1.
Proof.
  split; [vm_compute; reflexivity|].
  eexists. split.
  - change (trace state_arm_done) with
      [EvLoadBuild 0; EvReadDerivation "/d/arm";
       EvCommit [CreateBuildStep 0 0 0 "" bssUnsupported;
                 Exec sql_fail_build [PId 4; PStatus bsUnsupported; PInt 1000; PInt 0]]].
    apply list_elem_of_further, list_elem_of_further, list_elem_of_here.
  - split; [reflexivity|]. split; [reflexivity|]. discriminate.
Qed.

(** ** The counters *)

Lemma piggyback_nothing rec l s : newBuilds s = [] -> piggyback rec l s = Ok tt s.
Proof.
  intros Hn. induction l as [|r l IH]; cbn [piggyback]; [reflexivity|].
  rewrite Hn. cbn [length piggybackPath]. rewrite Hn. cbn [find_erase]. exact IH.
Qed.

(** From fresh locals createStep returns none only for a new step whose
    outputs are all valid. *)
Lemma createStep_none_fresh E fuel p rb rs s s2 :
  finishedDrvs s = ∅ ->
  createStep (S fuel) E p rb rs s = Ok None s2 ->
  exists drv, readDerivation E p = Some drv /\ all_outputs_valid E drv = true /\
    newSteps s2 = newSteps s /\ newRunnable s2 = newRunnable s /\
    outside s2 = outside s /\
    trace s2 = (trace s ++ [EvReadDerivation p])%list.
Proof.
  intros Hfd. cbn [createStep]. unfold createStep_body.
  rewrite bool_decide_eq_false_2 by (rewrite Hfd; apply not_elem_of_empty).
  destruct (internStep p rb rs s) as [[n isNew] s1|s1| |] eqn:Hint; try discriminate.
  destruct (internStep_rest _ _ _ _ _ _ Hint) as (Hns & Hnr & _ & Hout & _ & Htr).
  destruct isNew; [|discriminate].
  destruct (readDerivation E p) as [drv|]; [|discriminate].
  destruct (all_outputs_valid E drv) eqn:Hvalid.
  - intros [= <-]. exists drv. unfold drop_step, outside in *. sproj.
    rewrite Htr. repeat split; assumption.
  - destruct (createDeps _ _ _ _) as [[] s5|s5| |]; try discriminate.
    unfold finishStep. destruct (Step.created _); [discriminate|].
    destruct (Step.deps _); discriminate.
Qed.

(** The cached-success path of an ingestion (lines 133-145), for a build
    in any state: the derivation is read again and the success transaction
    is committed. *)
Lemma createBuild_cached E fuel build s x s2 :
  buildHeap s !! build = Some x ->
  isValidPath E (Build.drvPath x) = true ->
  createStep (S fuel) E (Build.drvPath x) (Some build) None
    (freshLocals (loadBuild build s)) = Ok None s2 ->
  exists drv, readDerivation E (Build.drvPath x) = Some drv /\
    outside s2 = outside (loadBuild build s) /\
    trace s2 = (trace s ++ [EvLoadBuild build; EvReadDerivation (Build.drvPath x)])%list /\
    createBuild (S fuel) E build s =
    Ok tt (leave None
      (update_build Build.set_finishedInDB build
         (commit [MarkSucceededBuild build (getBuildOutput E drv) true
                    (now E s2) (now E s2)]
            (tick (set_trace (trace s2 ++ [EvReadDerivation (Build.drvPath x)]) s2))))).
Proof.
  intros Hx Hvalid Hstep.
  assert (Hfd : finishedDrvs (freshLocals (loadBuild build s)) = ∅) by reflexivity.
  destruct (createStep_none_fresh E fuel _ _ _ _ s2 Hfd Hstep)
    as (drv & Hread & _ & Hns2 & Hnr2 & Hout2 & Htr2).
  exists drv. split; [exact Hread|]. split; [exact Hout2|]. split.
  { rewrite Htr2. change (trace (freshLocals (loadBuild build s)))
      with (trace s ++ [EvLoadBuild build])%list.
    rewrite <- app_assoc. reflexivity. }
  assert (Hx2 : build_at (buildHeap s2) build = x).
  { apply build_at_lookup. unfold outside in Hout2.
    injection Hout2 as Hbh2 _ _ _ _ _ _ _. rewrite Hbh2. exact Hx. }
  rewrite (createBuild_unfold E fuel build s x Hx Hvalid), Hstep.
  rewrite Hns2. change (newSteps (freshLocals (loadBuild build s))) with (@nil nat).
  cbn [in_address_order fold_right piggyback].
  unfold markCachedSuccess. rewrite Hx2, Hread. reflexivity.
Qed.

(** ** getQueuedBuilds comes back *)

Lemma settled_quiet s s' :
  quiet (stepHeap s) (stepHeap s') -> settled s -> settled s'.
Proof. intros Hq Hs a q Hp. exact (Hs a q (Hq a q Hp)). Qed.

Lemma abortGCed_heap E b s :
  stepHeap (abortGCed E b s) = stepHeap s /\
  newBuilds (abortGCed E b s) = newBuilds s.
Proof. unfold abortGCed. destruct (Build.finishedInDB _); split; reflexivity. Qed.

Lemma failBuild_heap E b r bs bss s :
  stepHeap (failBuild E b r bs bss s) = stepHeap s /\
  newBuilds (failBuild E b r bs bss s) = newBuilds s.
Proof. unfold failBuild. destruct (Build.finishedInDB _); split; reflexivity. Qed.

Lemma classify_heap E b root l s :
  stepHeap (snd (classify E b root l s)) = stepHeap s /\
  newBuilds (snd (classify E b root l s)) = newBuilds s.
Proof.
  induction l as [|r l IH]; cbn [classify]; [split; reflexivity|].
  destruct (classifyStep E root r s) as [bs bss].
  destruct (bool_decide (bs <> bsSuccess)); [apply failBuild_heap|exact IH].
Qed.

Lemma dropBuild_quiet b s :
  quiet (stepHeap s) (stepHeap (dropBuild b s)) /\
  newBuilds (dropBuild b s) = newBuilds s.
Proof.
  unfold dropBuild. destruct (bool_decide _); split; try reflexivity.
  - apply quiet_refl.
  - apply quiet_release_opt.
Qed.

Lemma leave_quiet step s :
  quiet (stepHeap s) (stepHeap (leave step s)) /\
  newBuilds (leave step s) = newBuilds s.
Proof.
  split; [|reflexivity]. unfold leave.
  change (stepHeap (set_stepHeap ?h _)) with h.
  eapply quiet_trans; [apply quiet_release_all|apply quiet_release_opt].
Qed.

Lemma step_at_same_objs h h' a :
  obj <$> h' = obj <$> h -> step_at h' a = step_at h a.
Proof. intros H. rewrite !step_at_objs, H. reflexivity. Qed.

Lemma publish_quiet b root s :
  Step.created (step_at (stepHeap s) root) = true ->
  quiet (stepHeap s) (stepHeap (publish b root s)) /\
  newBuilds (publish b root s) = newBuilds s.
Proof.
  intros Hroot. unfold publish.
  set (s1 := if Build.finishedInDB (build_at (buildHeap s) b) then s else _).
  assert (H1 : quiet (stepHeap s) (stepHeap s1) /\ newBuilds s1 = newBuilds s /\
               obj <$> stepHeap s1 = obj <$> stepHeap s).
  { unfold s1. destruct (Build.finishedInDB _); [split; [apply quiet_refl|split; reflexivity]|].
    destruct (builds s !! _) as [old|]; [|split; [apply quiet_refl|split; reflexivity]].
    destruct (bool_decide (old = b)); [split; [apply quiet_refl|split; reflexivity]|].
    match goal with |- context [dropBuild old ?t] =>
      destruct (dropBuild_quiet old t) as [Hq Hn];
      pose proof (dropBuild_objs old t) as Ho end.
    split; [exact Hq|]. split; [exact Hn|exact Ho]. }
  destruct H1 as (Hq1 & Hn1 & Ho1). split; [|exact Hn1].
  change (quiet (stepHeap s)
            (release_opt (Build.toplevel (build_at (buildHeap s) b))
               (retain root (stepHeap s1)))).
  eapply quiet_trans; [exact Hq1|].
  eapply quiet_trans; [|apply quiet_release_opt].
  apply quiet_retain. rewrite (step_at_same_objs _ _ _ Ho1). exact Hroot.
Qed.

Lemma markCachedSuccess_heap E b s :
  match markCachedSuccess E b s with
  | Ok _ s' => stepHeap s' = stepHeap s /\ newBuilds s' = newBuilds s
  | Throw _ => exists q, readDerivation E q = None
  | AssertFail | OutOfFuel => False
  end.
Proof.
  unfold markCachedSuccess. destruct (readDerivation E _) eqn:H.
  - split; reflexivity.
  - eexists. exact H.
Qed.

Lemma piggybackPath_total E k rec p :
  build_spec rec -> build_total E k rec ->
  forall n s, hinv s -> settled s ->
    length (newBuilds s) <= k -> length (newBuilds s) <= n ->
    match piggybackPath n rec p s with
    | Ok _ s' =>
        hinv s' /\ settled s' /\ length (newBuilds s') <= length (newBuilds s)
    | Throw _ => exists q, readDerivation E q = None
    | AssertFail | OutOfFuel => False
    end.
Proof.
  intros Hspec Htot. induction n as [|n IH]; intros s Hh Hs Hk Hn.
  - destruct (newBuilds s) eqn:Hnb; [|cbn in Hn; lia].
    cbn [piggybackPath]. rewrite Hnb. cbn [find_erase]. rewrite Hnb. auto.
  - cbn [piggybackPath].
    destruct (find_erase p (newBuilds s)) as [[b rest]|] eqn:Hf; [|auto].
    destruct (find_erase_Some _ _ _ _ Hf) as (_ & _ & _ & Hlen).
    pose proof (Hspec b (set_newBuilds rest s) Hh) as H1.
    pose proof (Htot b (set_newBuilds rest s)) as H2.
    cbn [newBuilds set_newBuilds] in H2. specialize (H2 ltac:(lia) Hh Hs).
    destruct (rec b (set_newBuilds rest s)) as [[] s1|s1| |]; try exact H2.
    destruct H1 as (_ & Hh1 & _). destruct H2 as [Hs1 Hl1].
    destruct (dropBuild_quiet b s1) as [Hq Hnb].
    pose proof (dropBuild_objs b s1) as Hdo.
    destruct (dropBuild_tail b b s1) as (_ & Hds & Hdr & _).
    match goal with |- match piggybackPath n rec p ?t with _ => _ end =>
      assert (Hht : hinv t) by (eapply hinv_same; [| | |exact Hh1]; assumption);
      assert (Hst : settled t) by (eapply settled_quiet; [exact Hq|exact Hs1]);
      assert (Hnt : newBuilds t = newBuilds s1) by exact Hnb;
      specialize (IH t Hht Hst)
    end.
    rewrite Hnt in IH. specialize (IH ltac:(lia) ltac:(lia)).
    destruct (piggybackPath n rec p _) as [[] s'|s'| |]; try exact IH.
    destruct IH as (? & ? & ?). split; [assumption|]. split; [assumption|lia].
Qed.

Lemma piggyback_total E k rec :
  build_spec rec -> build_total E k rec ->
  forall l s, hinv s -> settled s -> length (newBuilds s) <= k ->
    match piggyback rec l s with
    | Ok _ s' =>
        hinv s' /\ settled s' /\ length (newBuilds s') <= length (newBuilds s)
    | Throw _ => exists q, readDerivation E q = None
    | AssertFail | OutOfFuel => False
    end.
Proof.
  intros Hspec Htot. induction l as [|r l IH]; intros s Hh Hs Hk; cbn [piggyback].
  - auto.
  - pose proof (piggybackPath_total E k rec (Step.drvPath (step_at (stepHeap s) r))
                  Hspec Htot (length (newBuilds s)) s Hh Hs Hk (Nat.le_refl _)) as H1.
    destruct (piggybackPath _ rec _ s) as [[] s1|s1| |]; try exact H1.
    destruct H1 as (Hh1 & Hs1 & Hl1).
    specialize (IH s1 Hh1 Hs1 ltac:(lia)).
    destruct (piggyback rec l s1) as [[] s'|s'| |]; try exact IH.
    destruct IH as (? & ? & ?). split; [assumption|]. split; [assumption|lia].
Qed.

Lemma createBuild_body_total E rank K k recS rec :
  (forall p, rank p < K) ->
  step_spec E recS -> step_total E rank K recS ->
  build_spec rec -> build_total E k rec ->
  build_total E (S k) (createBuild_body E recS rec).
Proof.
  intros HK HS HT HB HBT b s Hk Hh Hs. unfold createBuild_body.
  set (s0 := loadBuild b s).
  destruct (negb (isValidPath E _)).
  { destruct (abortGCed_heap E b s0) as [H1 H2]. split.
    - intros a q Hp. rewrite H1 in Hp. exact (Hs a q Hp).
    - rewrite H2. apply Nat.le_refl. }
  assert (Hi1 : inv (freshLocals s0)).
  { apply inv_of_hinv; [exact Hh|]. intros a Ha. cbn in Ha.
    apply elem_of_nil in Ha. contradiction. }
  pose proof (HS (Build.drvPath (build_at (buildHeap s0) b)) (Some b) None
                (freshLocals s0) Hi1) as H1.
  pose proof (HT (Build.drvPath (build_at (buildHeap s0) b)) (Some b) None
                (freshLocals s0) (HK _) Hi1
                (fun a q Hp => False_ind _ (Hs a q Hp))) as H2.
  destruct (recS _ (Some b) None (freshLocals s0)) as [step s2|s2| |]; try exact H2.
  destruct H1 as (Hev & Hi2 & _ & _ & Hres).
  assert (Hs2 : settled s2) by (eapply settled_quiet; [exact H2|exact Hs]).
  assert (Hn2 : newBuilds s2 = newBuilds s).
  { pose proof (ev_outside _ _ _ Hev) as Ho. unfold outside in Ho.
    injection Ho as _ _ _ _ _ _ Ho _. exact Ho. }
  pose proof (piggyback_spec rec HB (in_address_order E (newSteps s2)) s2 (hinv_of_inv _ Hi2)) as P1.
  assert (Hk2 : length (newBuilds s2) <= k).
  { rewrite Hn2. lia. }
  pose proof (piggyback_total E k rec HB HBT (in_address_order E (newSteps s2)) s2 (hinv_of_inv _ Hi2) Hs2
                Hk2) as P2.
  destruct (piggyback rec (in_address_order E (newSteps s2)) s2) as [[] s3|s3| |]; try exact P2.
  destruct P2 as (Hh3 & Hs3 & Hl3). destruct P1 as [((_ & Hold & _) & _) _].
  rewrite Hn2 in Hl3.
  destruct step as [root|].
  - pose proof (classify_heap E b root (in_address_order E (newSteps s3)) s3) as Hc.
    destruct (classify E b root (in_address_order E (newSteps s3)) s3) as [bad s4]. cbn [snd] in Hc.
    destruct Hc as [Hc1 Hc2].
    assert (Hs4 : settled s4) by (intros a q Hp; rewrite Hc1 in Hp; exact (Hs3 a q Hp)).
    destruct bad.
    + destruct (leave_quiet (Some root) s4) as [Hq Hn]. split.
      * eapply settled_quiet; eassumption.
      * rewrite Hn, Hc2. lia.
    + destruct Hres as (o & Ho & Hoc & _).
      destruct (Hold root o Ho) as (o' & Ho' & _ & Hst).
      destruct (Hst eq_refl) as (_ & _ & _ & Hc' & _).
      assert (Hroot : Step.created (step_at (stepHeap s4) root) = true).
      { rewrite Hc1, (created_step_at _ _ _ Ho'). congruence. }
      destruct (publish_quiet b root s4 Hroot) as [Hq1 Hn1].
      destruct (leave_quiet (Some root) (publish b root s4)) as [Hq Hn]. split.
      * eapply settled_quiet; [exact Hq|]. eapply settled_quiet; eassumption.
      * rewrite Hn, Hn1, Hc2. lia.
  - pose proof (markCachedSuccess_heap E b s3) as Hm.
    destruct (markCachedSuccess E b s3) as [[] s4|s4| |]; try exact Hm.
    destruct Hm as [Hm1 Hm2].
    destruct (leave_quiet None s4) as [Hq Hn]. split.
    + eapply settled_quiet; [exact Hq|]. intros a q Hp. rewrite Hm1 in Hp.
      exact (Hs3 a q Hp).
    + rewrite Hn, Hm2. lia.
Qed.

Lemma createBuild_total E rank N :
  acyclic E rank -> (forall p, rank p < N) ->
  forall fuel, build_total E fuel (createBuild (N + fuel) E).
Proof.
  intros Hacy HN. induction fuel as [|fuel IH].
  - intros b s Hk. lia.
  - rewrite Nat.add_succ_r. cbn [createBuild].
    apply (createBuild_body_total E rank (S (N + fuel))).
    + intros p. specialize (HN p). lia.
    + apply createStep_spec.
    + apply createStep_total. exact Hacy.
    + apply createBuild_spec.
    + exact IH.
Qed.

Lemma hinv_clear s : hinv s -> hinv (clear_newRunnable s).
Proof.
  intros (Hk & Hc & _). split; [|split].
  - intros p w Hw. destruct (Hk p w Hw) as (o & Ho & Hp). exists o.
    split; [|exact Hp]. unfold clear_newRunnable, objs.
    change (stepHeap (set_newRunnable _ (set_stepHeap ?h _))) with h.
    rewrite release_all_objs. exact Ho.
  - unfold closed, clear_newRunnable, objs.
    change (stepHeap (set_newRunnable _ (set_stepHeap ?h _))) with h.
    rewrite release_all_objs. exact Hc.
  - intros a Ha. apply elem_of_nil in Ha. contradiction.
Qed.

Lemma settled_clear s : settled s -> settled (clear_newRunnable s).
Proof. apply settled_quiet. apply quiet_release_all. Qed.

Lemma processQueue_total E rank N :
  acyclic E rank -> (forall p, rank p < N) ->
  forall n fuel s,
    length (newBuilds s) <= n -> length (newBuilds s) <= fuel ->
    hinv s -> settled s ->
    match processQueue n (N + fuel) E s with
    | Ok _ s' => hinv s' /\ settled s' /\ newBuilds s' = []
    | Throw _ => exists q, readDerivation E q = None
    | AssertFail | OutOfFuel => False
    end.
Proof.
  intros Hacy HN. induction n as [|n IH]; intros fuel s Hn Hf Hh Hs.
  - destruct (newBuilds s) eqn:Hnb; [|cbn in Hn; lia].
    cbn [processQueue]. rewrite Hnb. auto.
  - cbn [processQueue]. destruct (newBuilds s) as [|[p build] rest] eqn:Hnb; [auto|].
    cbn [length] in Hn, Hf.
    set (s1 := set_nrAdded 0%N (clear_newRunnable (set_newBuilds rest s))).
    assert (Hh1 : hinv s1) by (apply (hinv_clear (set_newBuilds rest s)); exact Hh).
    assert (Hs1 : settled s1) by (apply (settled_clear (set_newBuilds rest s)); exact Hs).
    pose proof (createBuild_spec E (N + fuel) build s1 Hh1) as H1.
    pose proof (createBuild_total E rank N Hacy HN fuel build s1) as H2.
    change (newBuilds s1) with rest in H2. specialize (H2 ltac:(lia) Hh1 Hs1).
    destruct (createBuild (N + fuel) E build s1) as [[] s2|s2| |]; try exact H2.
    destruct H1 as (_ & Hh2 & _). destruct H2 as [Hs2 Hl2].
    match goal with |- match processQueue n _ E (dropBuild build ?t) with _ => _ end =>
      destruct (dropBuild_quiet build t) as [Hq Hnb'];
      pose proof (dropBuild_objs build t) as Hdo;
      destruct (dropBuild_tail build build t) as (_ & Hds & Hdr & _);
      assert (Hht : hinv (dropBuild build t))
        by (eapply hinv_same; [| | |exact Hh2]; assumption);
      assert (Hst : settled (dropBuild build t))
        by (eapply settled_quiet; [exact Hq|exact Hs2]);
      assert (Hnt : newBuilds (dropBuild build t) = newBuilds s2) by exact Hnb';
      specialize (IH fuel (dropBuild build t))
    end.
    rewrite Hnt in IH. apply IH; try assumption; lia.
Qed.

(** ** The working set after the scan *)

Lemma elem_of_emplace k v m e : e ∈ emplace k v m <-> e = (k, v) \/ e ∈ m.
Proof.
  induction m as [|[k' v'] m IH]; cbn [emplace].
  - rewrite list_elem_of_singleton. split; [auto|].
    intros [?|H]; [assumption|]. apply elem_of_nil in H. contradiction.
  - destruct (String.ltb k k').
    + rewrite elem_of_cons. reflexivity.
    + rewrite !elem_of_cons, IH. tauto.
Qed.

Lemma length_emplace k v m : length (emplace k v m) = S (length m).
Proof.
  induction m as [|[k' v'] m IH]; cbn [emplace]; [reflexivity|].
  destruct (String.ltb k k'); cbn [length]; [reflexivity|]. rewrite IH. reflexivity.
Qed.

Lemma length_insert_row r l : length (insert_row r l) = S (length l).
Proof.
  induction l as [|x l IH]; cbn [insert_row]; [reflexivity|].
  destruct (Row.id r <? Row.id x)%N; cbn [length]; [reflexivity|]. rewrite IH. reflexivity.
Qed.

Lemma length_order_by_id l : length (order_by_id l) = length l.
Proof.
  unfold order_by_id. induction l as [|r l IH]; cbn [fold_right length]; [reflexivity|].
  rewrite length_insert_row, IH. reflexivity.
Qed.

Lemma length_queuedRows h tbl : length (queuedRows h tbl) <= length tbl.
Proof.
  unfold queuedRows. rewrite length_order_by_id. apply List.filter_length_le.
Qed.

Lemma scanRow_scanned E s0 acc row :
  scanned s0 (snd acc) ->
  scanned s0 (snd (scanRow E acc row)) /\
  length (newBuilds (snd (scanRow E acc row))) <= S (length (newBuilds (snd acc))).
Proof.
  destruct acc as [h s]. cbn [snd]. intros Hsc. unfold scanRow.
  destruct (negb (buildOne E =? 0)%N && negb (Row.id row =? buildOne E)%N);
    [cbn [snd]; split; [exact Hsc|lia]|].
  destruct (builds s !! Row.id row) eqn:Hb; [cbn [snd]; split; [exact Hsc|lia]|].
  cbn [snd]. destruct Hsc as (H1 & H2 & H3 & H4 & H5 & (l & H6) & H7).
  split.
  - split; [exact H1|]. split; [exact H2|]. split; [exact H3|].
    split; [exact H4|]. split; [exact H5|]. split.
    + eexists. cbn [buildHeap set_newBuilds set_buildHeap].
      rewrite H6, <- app_assoc. reflexivity.
    + intros p b Hin. cbn [newBuilds set_newBuilds set_buildHeap] in Hin.
      cbn [buildHeap set_newBuilds set_buildHeap].
      apply elem_of_emplace in Hin. destruct Hin as [[= -> ->]|Hin].
      * split; [rewrite H6, length_app; lia|].
        eexists. split; [rewrite lookup_app_r, Nat.sub_diag by lia; reflexivity|].
        cbn. repeat split. rewrite <- H4. exact Hb.
      * destruct (H7 p b Hin) as (Hge & x & Hx & Hrest). split; [exact Hge|].
        exists x. split; [|exact Hrest]. apply lookup_app_l_Some. exact Hx.
  - cbn [newBuilds set_newBuilds set_buildHeap]. rewrite length_emplace. lia.
Qed.

Lemma scan_fold_scanned E s0 rows : forall acc,
  scanned s0 (snd acc) ->
  scanned s0 (snd (fold_left (scanRow E) rows acc)) /\
  length (newBuilds (snd (fold_left (scanRow E) rows acc)))
    <= length rows + length (newBuilds (snd acc)).
Proof.
  induction rows as [|r rows IH]; intros acc Hsc; cbn [fold_left length].
  - split; [exact Hsc|lia].
  - destruct (scanRow_scanned E s0 acc r Hsc) as [H1 H2].
    destruct (IH _ H1) as [H3 H4]. split; [exact H3|lia].
Qed.

Lemma scanQueue_scanned E h s :
  scanned s (snd (scanQueue E h s)) /\
  length (newBuilds (snd (scanQueue E h s))) <= length (db s).
Proof.
  unfold scanQueue.
  destruct (scan_fold_scanned E s (queuedRows h (db s)) (h, set_newBuilds [] s)) as [H1 H2].
  - cbn [snd]. repeat split; try reflexivity.
    + exists []. cbn. rewrite app_nil_r. reflexivity.
    + cbn in H. apply elem_of_nil in H. contradiction.
    + cbn in H. apply elem_of_nil in H. contradiction.
  - split; [exact H1|]. cbn [snd newBuilds set_newBuilds length] in H2.
    pose proof (length_queuedRows h (db s)). lia.
Qed.

Lemma getQueuedBuilds_total E rank N h s :
  acyclic E rank -> (forall p, rank p < N) -> hinv s -> settled s ->
  match getQueuedBuilds (N + length (db s)) E h s with
  | Ok h' s' =>
      h' = fst (scanQueue E h s) /\ hinv s' /\ settled s' /\
      newBuilds s' = [] /\ newRunnable s' = []
  | Throw _ => exists q, readDerivation E q = None
  | AssertFail | OutOfFuel => False
  end.
Proof.
  intros Hacy HN Hh Hs. unfold getQueuedBuilds.
  destruct (scanQueue_scanned E h s) as [(H1 & H2 & H3 & H4 & H5 & H6 & H7) Hlen].
  destruct (scanQueue E h s) as [h' s1]. cbn [fst snd] in *.
  set (s2 := set_newRunnable [] s1).
  assert (Hh2 : hinv s2).
  { destruct Hh as (Hk & Hc & _). unfold hinv, keyed, closed, objs.
    change (stepHeap s2) with (stepHeap s1). change (steps s2) with (steps s1).
    rewrite H1, H2. split; [exact Hk|]. split; [exact Hc|].
    intros a Ha. apply elem_of_nil in Ha. contradiction. }
  assert (Hs2 : settled s2).
  { intros a q Hp. change (stepHeap s2) with (stepHeap s1) in Hp.
    rewrite H1 in Hp. exact (Hs a q Hp). }
  pose proof (processQueue_total E rank N Hacy HN (length (newBuilds s2))
                (length (db s)) s2 (Nat.le_refl _) Hlen Hh2 Hs2) as HP.
  destruct (processQueue _ _ E s2) as [[] s3|s3| |]; try exact HP.
  destruct HP as (Hh3 & Hs3 & Hn3).
  split; [reflexivity|]. split; [apply hinv_clear; exact Hh3|].
  split; [apply settled_clear; exact Hs3|]. split; [exact Hn3|reflexivity].
Qed.

(** ** The builds of the working set

    A build stays as the scan made it until it is ingested: the loop of
    getQueuedBuilds and the piggyback pass take it out of the working set
    first, and an ingestion writes to its own build only. *)

Lemma emplace_perm k v m : emplace k v m ≡ₚ (k, v) :: m.
Proof.
  induction m as [|[k' v'] m IH]; cbn [emplace]; [reflexivity|].
  destruct (String.ltb k k'); [reflexivity|].
  rewrite IH. apply Permutation_swap.
Qed.

Lemma find_erase_perm p m b rest :
  find_erase p m = Some (b, rest) -> m ≡ₚ (p, b) :: rest.
Proof.
  revert b rest. induction m as [|[k v] m IH]; intros b rest; cbn [find_erase];
    [discriminate|].
  destruct (String.eqb_spec p k) as [->|Hne].
  - intros [= <- <-]. reflexivity.
  - destruct (find_erase p m) as [[b' r']|]; [|discriminate].
    intros [= <- <-]. rewrite (IH b' r' eq_refl). apply Permutation_swap.
Qed.

Lemma untouched_tail b s s' :
  tail_ok b s s' -> b ∉ snd <$> newBuilds s -> untouched s ->
  untouched s' /\ forall e, e ∈ newBuilds s' -> e ∈ newBuilds s.
Proof.
  intros (_ & _ & _ & _ & _ & W & _ & B & _) Hb [Hnd Hfr].
  split; [|rewrite W; auto]. split; [rewrite W; exact Hnd|].
  intros p c Hin. rewrite W in Hin. rewrite B; [apply Hfr; exact Hin|].
  intros ->. apply Hb. apply list_elem_of_fmap. exists (p, b). auto.
Qed.

Lemma untouched_frame s s' :
  step_frame s s' -> untouched s ->
  untouched s' /\ newBuilds s' = newBuilds s.
Proof.
  intros [Ho _] [Hnd Hfr]. unfold outside in Ho.
  injection Ho as Hbh _ _ _ _ _ Hnb _.
  split; [|exact Hnb]. split; [rewrite Hnb; exact Hnd|].
  intros p c Hin. rewrite Hnb in Hin. rewrite Hbh. apply Hfr. exact Hin.
Qed.

Lemma untouched_erase p b rest s :
  find_erase p (newBuilds s) = Some (b, rest) -> untouched s ->
  untouched (set_newBuilds rest s) /\ (b ∉ snd <$> rest) /\
  (exists x, buildHeap s !! b = Some x /\ Build.drvPath x = p /\
     Build.finishedInDB x = false /\ Build.toplevel x = None).
Proof.
  intros Hf [Hnd Hfr]. pose proof (find_erase_perm _ _ _ _ Hf) as Hp.
  destruct (find_erase_Some _ _ _ _ Hf) as (Hin & Hsub & _).
  rewrite Hp in Hnd. cbn [fmap list_fmap snd] in Hnd.
  apply NoDup_cons in Hnd. destruct Hnd as [Hnot Hnd'].
  split; [|split; [exact Hnot|apply Hfr; exact Hin]].
  split; [exact Hnd'|]. intros q c Hc. apply (Hfr q c). apply Hsub. exact Hc.
Qed.

Lemma piggybackPath_untouched rec p b0 :
  untouched_spec rec ->
  forall n s, untouched s -> b0 ∉ snd <$> newBuilds s ->
    match piggybackPath n rec p s with
    | Ok _ s' | Throw s' =>
        untouched s' /\ forall e, e ∈ newBuilds s' -> e ∈ newBuilds s
    | AssertFail | OutOfFuel => True
    end.
Proof.
  intros Hrec. induction n as [|n IH]; intros s Hu Hb0; cbn [piggybackPath];
    (destruct (find_erase p (newBuilds s)) as [[b rest]|] eqn:Hf; [|auto]);
    [exact I|].
  destruct (untouched_erase _ _ _ _ Hf Hu) as (Hu1 & Hnot & _).
  destruct (find_erase_Some _ _ _ _ Hf) as (_ & Hsub & _).
  pose proof (Hrec b (set_newBuilds rest s) Hu1 Hnot) as H1.
  destruct (rec b (set_newBuilds rest s)) as [[] s1|s1| |]; try exact I.
  - destruct H1 as [Hu2 Hs2].
    destruct (untouched_tail b _ _ (dropBuild_tail b b s1)) as [Hu3 Hs3];
      [|exact Hu2|].
    { intros Hin. apply Hnot. apply list_elem_of_fmap in Hin.
      destruct Hin as (e & -> & He). apply list_elem_of_fmap. exists e.
      split; [reflexivity|]. apply Hs2. exact He. }
    match goal with |- match piggybackPath n rec p ?t with _ => _ end =>
      assert (Hut : untouched t) by exact Hu3;
      assert (Hst : forall e, e ∈ newBuilds t -> e ∈ newBuilds s)
        by (intros e He; apply Hsub, Hs2, Hs3; exact He);
      specialize (IH t Hut)
    end.
    match type of IH with ?A -> _ => assert (Hb0' : A) end.
    { intros Hin. apply Hb0. apply list_elem_of_fmap in Hin.
      destruct Hin as (e & -> & He). apply list_elem_of_fmap. exists e.
      split; [reflexivity|]. apply Hst. exact He. }
    specialize (IH Hb0').
    destruct (piggybackPath n rec p _) as [[] s'|s'| |]; try exact I.
    + destruct IH as [? Hs']. split; [assumption|]. intros e He. apply Hst, Hs', He.
    + destruct IH as [? Hs']. split; [assumption|]. intros e He. apply Hst, Hs', He.
  - destruct H1 as [Hu2 Hs2].
    destruct (untouched_tail b _ _ (dropBuild_tail b b s1)) as [Hu3 Hs3];
      [|exact Hu2|].
    { intros Hin. apply Hnot. apply list_elem_of_fmap in Hin.
      destruct Hin as (e & -> & He). apply list_elem_of_fmap. exists e.
      split; [reflexivity|]. apply Hs2. exact He. }
    split; [exact Hu3|]. intros e He. apply Hsub, Hs2, Hs3. exact He.
Qed.

Lemma not_in_sub (b : nat) (l l' : list (string * nat)) :
  (forall e, e ∈ l' -> e ∈ l) -> b ∉ snd <$> l -> b ∉ snd <$> l'.
Proof.
  intros Hsub Hb Hin. apply Hb. apply list_elem_of_fmap in Hin.
  destruct Hin as (e & -> & He). apply list_elem_of_fmap. exists e. auto.
Qed.

Lemma piggyback_untouched rec b0 :
  untouched_spec rec ->
  forall l s, untouched s -> b0 ∉ snd <$> newBuilds s ->
    match piggyback rec l s with
    | Ok _ s' | Throw s' =>
        untouched s' /\ forall e, e ∈ newBuilds s' -> e ∈ newBuilds s
    | AssertFail | OutOfFuel => True
    end.
Proof.
  intros Hrec. induction l as [|r l IH]; intros s Hu Hb0; cbn [piggyback]; [auto|].
  pose proof (piggybackPath_untouched rec (Step.drvPath (step_at (stepHeap s) r)) b0
                Hrec (length (newBuilds s)) s Hu Hb0) as H1.
  destruct (piggybackPath _ rec _ s) as [[] s1|s1| |]; try exact I; [|exact H1].
  destruct H1 as [Hu1 Hs1].
  specialize (IH s1 Hu1 (not_in_sub _ _ _ Hs1 Hb0)).
  destruct (piggyback rec l s1) as [[] s'|s'| |]; try exact I.
  - destruct IH as [? Hs']. split; [assumption|]. intros e He. apply Hs1, Hs', He.
  - destruct IH as [? Hs']. split; [assumption|]. intros e He. apply Hs1, Hs', He.
Qed.

Lemma createBuild_body_untouched E recS rec :
  (forall p rb rs s,
     match recS p rb rs s with
     | Ok _ s' | Throw s' => step_frame s s'
     | _ => True
     end) ->
  untouched_spec rec -> untouched_spec (createBuild_body E recS rec).
Proof.
  intros HF HB b s Hu Hb. unfold createBuild_body.
  set (s0 := loadBuild b s).
  assert (Hu0 : untouched s0) by exact Hu.
  assert (Hb0 : b ∉ snd <$> newBuilds s0) by exact Hb.
  destruct (negb (isValidPath E _)).
  { exact (untouched_tail b _ _ (abortGCed_tail E b s0) Hb0 Hu0). }
  specialize (HF (Build.drvPath (build_at (buildHeap s0) b)) (Some b) None
                (freshLocals s0)).
  destruct (recS _ (Some b) None (freshLocals s0)) as [step s2|s2| |];
    [| |exact I|exact I].
  2:{ destruct (untouched_frame _ _ HF Hu0) as [Hu2 Hn2].
      destruct (untouched_tail b _ _ (leave_tail b None s2)) as [Hu3 Hs3];
        [rewrite Hn2; exact Hb0|exact Hu2|].
      split; [exact Hu3|]. intros e He. apply Hs3 in He. rewrite Hn2 in He. exact He. }
  destruct (untouched_frame _ _ HF Hu0) as [Hu2 Hn2].
  assert (Hb2 : b ∉ snd <$> newBuilds s2) by (rewrite Hn2; exact Hb0).
  pose proof (piggyback_untouched rec b HB (in_address_order E (newSteps s2)) s2 Hu2 Hb2) as HP.
  destruct (piggyback rec (in_address_order E (newSteps s2)) s2) as [[] s3|s3| |]; [| |exact I|exact I].
  2:{ destruct HP as [Hu3 Hs3].
      destruct (untouched_tail b _ _ (leave_tail b step s3)) as [Hu4 Hs4];
        [exact (not_in_sub _ _ _ Hs3 Hb2)|exact Hu3|].
      split; [exact Hu4|]. intros e He. apply Hs4, Hs3 in He.
      rewrite Hn2 in He. exact He. }
  destruct HP as [Hu3 Hs3].
  assert (Hb3 : b ∉ snd <$> newBuilds s3) by exact (not_in_sub _ _ _ Hs3 Hb2).
  assert (Hfin : forall s4, tail_ok b s3 s4 ->
            untouched s4 /\ forall e, e ∈ newBuilds s4 -> e ∈ newBuilds s).
  { intros s4 Ht. destruct (untouched_tail b _ _ Ht Hb3 Hu3) as [Hu4 Hs4].
    split; [exact Hu4|]. intros e He. apply Hs4, Hs3 in He.
    rewrite Hn2 in He. exact He. }
  destruct step as [root|].
  - pose proof (classify_tail E b root (in_address_order E (newSteps s3)) s3) as Hc.
    destruct (classify E b root (in_address_order E (newSteps s3)) s3) as [bad s4]. cbn [snd] in Hc.
    destruct bad; apply Hfin.
    + eapply tail_ok_trans; [exact Hc|apply leave_tail].
    + eapply tail_ok_trans; [exact Hc|].
      eapply tail_ok_trans; [apply publish_tail|apply leave_tail].
  - pose proof (markCachedSuccess_tail E b s3) as Hm.
    destruct (markCachedSuccess E b s3) as [[] s4|s4| |]; [| |exact I|exact I];
      apply Hfin; (eapply tail_ok_trans; [exact Hm|apply leave_tail]).
Qed.

Lemma createBuild_untouched E fuel : untouched_spec (createBuild fuel E).
Proof.
  induction fuel as [|fuel IH]; [intros b s _ _; exact I|].
  cbn [createBuild]. apply createBuild_body_untouched; [|exact IH].
  apply createStep_frame.
Qed.

Lemma scanRow_untouched E acc row :
  untouched (snd acc) -> untouched (snd (scanRow E acc row)).
Proof.
  destruct acc as [h s]. cbn [snd]. intros [Hnd Hfr]. unfold scanRow.
  destruct (negb (buildOne E =? 0)%N && negb (Row.id row =? buildOne E)%N);
    [split; assumption|].
  destruct (builds s !! Row.id row); [split; assumption|].
  cbn [snd]. split.
  - cbn [newBuilds set_newBuilds set_buildHeap]. rewrite emplace_perm.
    cbn [fmap list_fmap snd]. apply NoDup_cons. split; [|exact Hnd].
    intros Hin. apply list_elem_of_fmap in Hin. destruct Hin as ([p b] & Hb & He).
    cbn in Hb. subst b. destruct (Hfr p _ He) as (x & Hx & _).
    apply lookup_lt_Some in Hx. lia.
  - intros p b Hin. cbn [newBuilds set_newBuilds set_buildHeap] in Hin.
    cbn [buildHeap set_newBuilds set_buildHeap].
    apply elem_of_emplace in Hin. destruct Hin as [[= -> ->]|Hin].
    + eexists. split; [rewrite lookup_app_r, Nat.sub_diag by lia; reflexivity|].
      repeat split.
    + destruct (Hfr p b Hin) as (x & Hx & Hrest). exists x.
      split; [apply lookup_app_l_Some; exact Hx|exact Hrest].
Qed.

Lemma scanQueue_untouched E h s : untouched (snd (scanQueue E h s)).
Proof.
  unfold scanQueue.
  assert (H0 : untouched (snd (h, set_newBuilds [] s))).
  { split; [constructor|]. intros p b Hin. cbn in Hin.
    apply elem_of_nil in Hin. contradiction. }
  revert H0. generalize (h, set_newBuilds [] s).
  induction (queuedRows h (db s)) as [|r rows IH]; intros acc H0; cbn [fold_left];
    [exact H0|].
  apply IH. apply scanRow_untouched. exact H0.
Qed.

Lemma processQueue_next_untouched E fuel p build rest s :
  untouched s -> newBuilds s = (p, build) :: rest ->
  let s1 := set_nrAdded 0%N (clear_newRunnable (set_newBuilds rest s)) in
  (exists x, buildHeap s1 !! build = Some x /\ Build.drvPath x = p /\
     Build.finishedInDB x = false /\ Build.toplevel x = None) /\
  (build ∉ snd <$> newBuilds s1) /\ untouched s1 /\
  match createBuild fuel E build s1 with
  | Ok _ s2 =>
      untouched
        (dropBuild build
           (set_nrBuildsRead (add64 (nrBuildsRead s2) (nrAdded s2))
              (makeRunnable_all E s2)))
  | _ => True
  end.
Proof.
  intros [Hnd Hfr] Hnb s1. rewrite Hnb in Hnd, Hfr.
  cbn [fmap list_fmap snd] in Hnd. apply NoDup_cons in Hnd.
  destruct Hnd as [Hnot Hnd].
  assert (Hu1 : untouched s1).
  { split; [exact Hnd|]. intros q c Hc. apply (Hfr q c).
    apply list_elem_of_further. exact Hc. }
  split; [apply (Hfr p build); apply list_elem_of_here|].
  split; [exact Hnot|]. split; [exact Hu1|].
  pose proof (createBuild_untouched E fuel build s1 Hu1 Hnot) as H.
  destruct (createBuild fuel E build s1) as [[] s2|s2| |]; try exact I.
  destruct H as [Hu2 Hs2].
  match goal with |- untouched (dropBuild build ?t) =>
    apply (untouched_tail build t _ (dropBuild_tail build build t)); [|exact Hu2]
  end.
  exact (not_in_sub _ _ _ Hs2 Hnot).
Qed.

(** ** Five passes of getQueuedBuilds, from the table to the dispatcher *)

(** One runnable build: the input of /d/root is built, so its step has no
    dependencies and goes to the dispatcher; the build is published. *)
Example pass_single_runnable :
  exists s', getQueuedBuilds 5 env_root 0 (state_of [row0 1%N "/d/root"]) = Ok 1%N s'
    /\ nrBuildsRead s' = 1%N /\ nrBuildsDone s' = 0%N
    /\ builds s' !! 1%N = Some 0
    /\ Build.toplevel <$> buildHeap s' !! 0 = Some (Some 0)
    /\ Step.drvPath (step_at (stepHeap s') 0) = "/d/root"
    /\ Step.deps (step_at (stepHeap s') 0) = []
    /\ trace s' = [EvLoadBuild 0; EvReadDerivation "/d/root";
                   EvReadDerivation "/d/leaf"; EvMakeRunnable 0].
Proof. eexists. split; [vm_compute; reflexivity|]. repeat split. Qed.

(** A cached success: one transaction, nothing published, nothing for the
    dispatcher. *)
Example pass_cached_success :
  exists s', getQueuedBuilds 5 env_cached 0 (state_of [row0 2%N "/d/cached"]) = Ok 2%N s'
    /\ nrBuildsRead s' = 1%N /\ nrBuildsDone s' = 0%N
    /\ builds s' = ∅
    /\ Build.finishedInDB <$> buildHeap s' !! 0 = Some true
    /\ trace s' = [EvLoadBuild 0; EvReadDerivation "/d/cached";
                   EvReadDerivation "/d/cached";
                   EvCommit [MarkSucceededBuild 0 [("out", "/s/cached")] true 1000 1000]].
Proof. eexists. split; [vm_compute; reflexivity|]. repeat split. Qed.

(** A garbage-collected derivation: the build is aborted, and no
    derivation is read. *)
Example pass_gced :
  exists s', getQueuedBuilds 5 env_gone 0 (state_of [row0 3%N "/d/gone"]) = Ok 3%N s'
    /\ nrBuildsRead s' = 1%N /\ nrBuildsDone s' = 1%N
    /\ builds s' = ∅ /\ stepHeap s' = []
    /\ (Row.finished <$> db s', Row.buildStatus <$> db s', Row.errorMsg <$> db s')
       = ([1%Z], [Some bsAborted],
          [Some "derivation was garbage-collected prior to build"])
    /\ trace s' = [EvLoadBuild 0;
                   EvCommit [Exec sql_abort_gced
                               [PId 3; PStatus bsAborted; PInt 1000; PStr msg_gced]]].
Proof. eexists. split; [vm_compute; reflexivity|]. repeat split. Qed.

(** An unsupported platform: the build is failed and not published. Its
    step, which has no dependencies, had been put into [newRunnable] by
    createStep and is still handed to the dispatcher. *)
Example pass_unsupported :
  exists s', getQueuedBuilds 5 env_arm 0 (state_of [row0 4%N "/d/arm"]) = Ok 4%N s'
    /\ nrBuildsRead s' = 1%N /\ nrBuildsDone s' = 1%N
    /\ builds s' = ∅
    /\ (Row.finished <$> db s', Row.buildStatus <$> db s', Row.isCachedBuild <$> db s')
       = ([1%Z], [Some bsUnsupported], [Some 0%Z])
    /\ trace s' = [EvLoadBuild 0; EvReadDerivation "/d/arm";
                   EvCommit [CreateBuildStep 0 0 0 "" bssUnsupported;
                             Exec sql_fail_build
                               [PId 4; PStatus bsUnsupported; PInt 1000; PInt 0]];
                   EvMakeRunnable 0].
Proof. eexists. split; [vm_compute; reflexivity|]. repeat split. Qed.

(** The shared subtree: build 6 is ingested inside the ingestion of
    build 5; both are published and counted, and the step of /d/C, the
    only one without dependencies, goes to the dispatcher. *)
Example pass_shared_subtree :
  exists s', getQueuedBuilds 5 env_AC 0 state_56 = Ok 6%N s'
    /\ nrBuildsRead s' = 2%N /\ nrBuildsDone s' = 0%N
    /\ builds s' !! 5%N = Some 0 /\ builds s' !! 6%N = Some 1
    /\ Build.toplevel <$> buildHeap s' = [Some 0; Some 1]
    /\ Step.drvPath <$> objs s' = ["/d/A"; "/d/C"]
    /\ Step.deps <$> objs s' = [[1]; []]
    /\ builds_of s' 0 = [5%N] /\ builds_of s' 1 = [6%N]
    /\ rdeps_of s' 1 = ["/d/A"]
    /\ trace s' = [EvLoadBuild 0; EvReadDerivation "/d/A"; EvReadDerivation "/d/C";
                   EvLoadBuild 1; EvMakeRunnable 1].
Proof. eexists. split; [vm_compute; reflexivity|]. repeat split. Qed.

(** * Further properties *)

(** ** The scan *)

Lemma elem_of_insert_row r x l : x ∈ insert_row r l <-> x = r \/ x ∈ l.
Proof.
  induction l as [|y l IH]; cbn [insert_row].
  - rewrite list_elem_of_singleton. split; [auto|].
    intros [?|H]; [assumption|]. apply elem_of_nil in H. contradiction.
  - destruct (Row.id r <? Row.id y)%N.
    + rewrite elem_of_cons. reflexivity.
    + rewrite !elem_of_cons, IH. tauto.
Qed.

Lemma elem_of_order_by_id x l : x ∈ order_by_id l <-> x ∈ l.
Proof.
  unfold order_by_id. induction l as [|r l IH]; cbn [fold_right]; [reflexivity|].
  rewrite elem_of_insert_row, IH, elem_of_cons. reflexivity.
Qed.

Lemma elem_of_queuedRows h tbl row :
  row ∈ queuedRows h tbl <->
  row ∈ tbl /\ (h < Row.id row)%N /\ Row.finished row = 0%Z.
Proof.
  unfold queuedRows. rewrite elem_of_order_by_id, list_elem_of_In, filter_In.
  rewrite <- list_elem_of_In, andb_true_iff, N.ltb_lt, Z.eqb_eq. tauto.
Qed.

Lemma scanRow_builds E acc row : builds (snd (scanRow E acc row)) = builds (snd acc).
Proof.
  destruct acc as [h s]. unfold scanRow. cbn [snd].
  destruct (negb (buildOne E =? 0)%N && negb (Row.id row =? buildOne E)%N);
    [reflexivity|].
  destruct (builds s !! Row.id row); reflexivity.
Qed.

Lemma scanRow_skip_pin E acc row :
  passes_pin E row = false -> scanRow E acc row = acc.
Proof.
  destruct acc as [h s]. unfold scanRow, passes_pin. intros Hp.
  apply orb_false_iff in Hp. destruct Hp as [H1 H2]. rewrite H1, H2. reflexivity.
Qed.

(** A build of the working set that was made of [row]. *)
Lemma scanRow_keeps E acc row p b x :
  (p, b) ∈ newBuilds (snd acc) -> buildHeap (snd acc) !! b = Some x ->
  (p, b) ∈ newBuilds (snd (scanRow E acc row)) /\
  buildHeap (snd (scanRow E acc row)) !! b = Some x.
Proof.
  destruct acc as [h s]. cbn [snd]. intros Hin Hx. unfold scanRow.
  destruct (negb (buildOne E =? 0)%N && negb (Row.id row =? buildOne E)%N);
    [split; assumption|].
  destruct (builds s !! Row.id row); [split; assumption|].
  cbn [snd newBuilds buildHeap set_newBuilds set_buildHeap]. split.
  - apply elem_of_emplace. auto.
  - apply lookup_app_l_Some. exact Hx.
Qed.

Lemma scan_fold_keeps E rows : forall acc p b x,
  (p, b) ∈ newBuilds (snd acc) -> buildHeap (snd acc) !! b = Some x ->
  (p, b) ∈ newBuilds (snd (fold_left (scanRow E) rows acc)) /\
  buildHeap (snd (fold_left (scanRow E) rows acc)) !! b = Some x.
Proof.
  induction rows as [|r rows IH]; intros acc p b x Hin Hx; cbn [fold_left];
    [split; assumption|].
  destruct (scanRow_keeps E acc r p b x Hin Hx) as [H1 H2]. apply IH; assumption.
Qed.

Lemma scanRow_takes E acc row :
  passes_pin E row = true -> builds (snd acc) !! Row.id row = None ->
  exists b, (Row.drvPath row, b) ∈ newBuilds (snd (scanRow E acc row)) /\
    buildHeap (snd (scanRow E acc row)) !! b = Some (build_of_row row).
Proof.
  destruct acc as [h s]. cbn [snd]. unfold scanRow, passes_pin. intros Hp Hb.
  assert (Hpin : negb (buildOne E =? 0)%N && negb (Row.id row =? buildOne E)%N = false).
  { apply orb_true_iff in Hp. destruct Hp as [->| ->]; [reflexivity|].
    apply andb_false_r. }
  rewrite Hpin, Hb. cbn [snd newBuilds buildHeap set_newBuilds set_buildHeap].
  exists (length (buildHeap s)). split.
  - apply elem_of_emplace. auto.
  - rewrite lookup_app_r, Nat.sub_diag by lia. reflexivity.
Qed.

Lemma scan_fold_takes E row rows : forall acc,
  row ∈ rows -> passes_pin E row = true -> builds (snd acc) !! Row.id row = None ->
  exists b, (Row.drvPath row, b) ∈ newBuilds (snd (fold_left (scanRow E) rows acc)) /\
    buildHeap (snd (fold_left (scanRow E) rows acc)) !! b = Some (build_of_row row).
Proof.
  induction rows as [|r rows IH]; intros acc Hin Hp Hb; cbn [fold_left].
  - apply elem_of_nil in Hin. contradiction.
  - apply elem_of_cons in Hin. destruct Hin as [<-|Hin].
    + destruct (scanRow_takes E acc row Hp Hb) as (b & H1 & H2).
      exists b. apply scan_fold_keeps; assumption.
    + apply IH; [assumption|assumption|]. rewrite scanRow_builds. exact Hb.
Qed.

Lemma scanRow_from E (P : Row.t -> Prop) acc row :
  (passes_pin E row = true -> builds (snd acc) !! Row.id row = None -> P row) ->
  (forall p b, (p, b) ∈ newBuilds (snd acc) ->
     exists r, P r /\ p = Row.drvPath r /\
       buildHeap (snd acc) !! b = Some (build_of_row r)) ->
  forall p b, (p, b) ∈ newBuilds (snd (scanRow E acc row)) ->
    exists r, P r /\ p = Row.drvPath r /\
      buildHeap (snd (scanRow E acc row)) !! b = Some (build_of_row r).
Proof.
  destruct acc as [h s]. cbn [snd]. intros HP Hold p b. unfold scanRow, passes_pin in *.
  destruct (negb (buildOne E =? 0)%N && negb (Row.id row =? buildOne E)%N) eqn:Hpin;
    [apply Hold|].
  destruct (builds s !! Row.id row) eqn:Hb; [apply Hold|].
  cbn [snd newBuilds buildHeap set_newBuilds set_buildHeap]. intros Hin.
  apply elem_of_emplace in Hin. destruct Hin as [[= -> ->]|Hin].
  - exists row. split; [|split; [reflexivity|]].
    + apply HP; [|reflexivity]. apply andb_false_iff in Hpin.
      destruct Hpin as [H|H]; apply negb_false_iff in H; rewrite H;
        [reflexivity|apply orb_true_r].
    + rewrite lookup_app_r, Nat.sub_diag by lia. reflexivity.
  - destruct (Hold p b Hin) as (r & Hr & Hp & Hx). exists r.
    split; [assumption|]. split; [assumption|]. apply lookup_app_l_Some. exact Hx.
Qed.

Lemma scan_fold_from E (P : Row.t -> Prop) rows : forall acc,
  (forall row, row ∈ rows -> passes_pin E row = true ->
     builds (snd acc) !! Row.id row = None -> P row) ->
  (forall p b, (p, b) ∈ newBuilds (snd acc) ->
     exists r, P r /\ p = Row.drvPath r /\
       buildHeap (snd acc) !! b = Some (build_of_row r)) ->
  forall p b, (p, b) ∈ newBuilds (snd (fold_left (scanRow E) rows acc)) ->
    exists r, P r /\ p = Row.drvPath r /\
      buildHeap (snd (fold_left (scanRow E) rows acc)) !! b = Some (build_of_row r).
Proof.
  induction rows as [|r rows IH]; intros acc HP Hold; cbn [fold_left]; [exact Hold|].
  apply IH.
  - intros row Hin Hp Hb. apply HP; [apply list_elem_of_further; exact Hin|exact Hp|].
    rewrite scanRow_builds in Hb. exact Hb.
  - apply scanRow_from; [|exact Hold].
    apply HP. apply list_elem_of_here.
Qed.

(** X1. The scan turns rows into builds, one for one: every row of the
    table that is in the result of the query, gets past the pin and whose
    id is not in [builds] has its build in the working set, under its
    derivation path, with the fields of the row, [fullJobName] put
    together as project:jobset:job, not finished and without a top-level
    step; and every entry of the working set is such a build. *)
Theorem scanQueue_rows_to_builds E h s :
  (forall row, scan_takes E h s row ->
     exists b, (Row.drvPath row, b) ∈ newBuilds (snd (scanQueue E h s)) /\
       buildHeap (snd (scanQueue E h s)) !! b = Some (build_of_row row)) /\
  (forall p b, (p, b) ∈ newBuilds (snd (scanQueue E h s)) ->
     exists row, scan_takes E h s row /\ p = Row.drvPath row /\
       buildHeap (snd (scanQueue E h s)) !! b = Some (build_of_row row)).
Proof.
  unfold scanQueue. split.
  - intros row (Hin & Hh & Hf & Hp & Hb).
    apply scan_fold_takes; [|exact Hp|exact Hb].
    apply elem_of_queuedRows. auto.
  - apply (scan_fold_from E (scan_takes E h s)).
    + intros row Hin Hp Hb. apply elem_of_queuedRows in Hin.
      destruct Hin as (H1 & H2 & H3). repeat split; assumption.
    + intros p b Hin. cbn in Hin. apply elem_of_nil in Hin. contradiction.
Qed.

(** X2. The scan only adds builds: it leaves the steps, the interner,
    [builds], [newRunnable], the table and the trace as they are, puts the
    new builds at the end of the build heap, and makes a working set in
    which every build is there once. *)
Theorem scanQueue_only_adds E h s :
  scanned s (snd (scanQueue E h s)) /\
  untouched (snd (scanQueue E h s)) /\
  trace (snd (scanQueue E h s)) = trace s /\
  length (newBuilds (snd (scanQueue E h s))) <= length (db s).
Proof.
  destruct (scanQueue_scanned E h s) as [H1 H2].
  split; [exact H1|]. split; [apply scanQueue_untouched|].
  split; [apply scanQueue_trace|exact H2].
Qed.

Lemma scan_high_water_eq E h s :
  fst (scanQueue E h s) =
  max_id h (List.filter (passes_pin E) (queuedRows h (db s))).
Proof. unfold scanQueue. rewrite scan_fold_fst. reflexivity. Qed.

Lemma max_id_ge h rows :
  (h <= max_id h rows)%N /\ forall r, r ∈ rows -> (Row.id r <= max_id h rows)%N.
Proof.
  unfold max_id. revert h. induction rows as [|x rows IH]; intros h; cbn [map fold_left].
  - split; [lia|]. intros r Hr. apply elem_of_nil in Hr. contradiction.
  - destruct (IH (N.max h (Row.id x))) as [H1 H2]. split; [lia|].
    intros r Hr. apply elem_of_cons in Hr. destruct Hr as [->|Hr]; [lia|auto].
Qed.

Lemma scan_fold_skip E rows : forall acc,
  (forall row, row ∈ rows -> passes_pin E row = false) ->
  fold_left (scanRow E) rows acc = acc.
Proof.
  induction rows as [|r rows IH]; intros acc Hall; cbn [fold_left]; [reflexivity|].
  rewrite scanRow_skip_pin by (apply Hall, list_elem_of_here).
  apply IH. intros row Hin. apply Hall, list_elem_of_further, Hin.
Qed.

(** X3. A second scan, from the mark that a scan has returned, finds
    nothing to do when no unfinished row has been added to the table
    meanwhile: the working set is empty and the mark stays. *)
Theorem scanQueue_again E h s s1 :
  (forall r, r ∈ db s1 -> Row.finished r = 0%Z -> r ∈ db s) ->
  scanQueue E (fst (scanQueue E h s)) s1 =
  (fst (scanQueue E h s), set_newBuilds [] s1).
Proof.
  intros Hsub. rewrite scan_high_water_eq.
  set (h' := max_id h (List.filter (passes_pin E) (queuedRows h (db s)))).
  unfold scanQueue. apply scan_fold_skip. intros row Hin.
  apply elem_of_queuedRows in Hin. destruct Hin as (Hin & Hlt & Hf).
  destruct (passes_pin E row) eqn:Hp; [exfalso|reflexivity].
  destruct (max_id_ge h (List.filter (passes_pin E) (queuedRows h (db s)))) as [Hh Hall].
  fold h' in Hh, Hall.
  assert (Hr : (Row.id row <= h')%N); [|lia].
  apply Hall. apply list_elem_of_In, filter_In. split; [|exact Hp].
  apply list_elem_of_In, elem_of_queuedRows.
  split; [apply Hsub; assumption|]. split; [lia|assumption].
Qed.

Lemma scanQueue_again_witness :
  scanQueue env_AC (fst (scanQueue env_AC 0 state_56)) state_56_done =
  (fst (scanQueue env_AC 0 state_56), set_newBuilds [] state_56_done).
Proof.
  apply (scanQueue_again env_AC 0%N state_56 state_56_done).
  intros r Hr _. exact Hr.
Defined.

Lemma scanRow_known E acc row :
  (passes_pin E row = true -> is_Some (builds (snd acc) !! Row.id row)) ->
  snd (scanRow E acc row) = snd acc.
Proof.
  destruct acc as [h s]. cbn [snd]. unfold scanRow, passes_pin. intros Hk.
  destruct (negb (buildOne E =? 0)%N && negb (Row.id row =? buildOne E)%N) eqn:Hpin;
    [reflexivity|].
  destruct Hk as [b Hb].
  { apply andb_false_iff in Hpin.
    destruct Hpin as [H|H]; apply negb_false_iff in H; rewrite H;
      [reflexivity|apply orb_true_r]. }
  rewrite Hb. reflexivity.
Qed.

Lemma scan_fold_known E rows : forall acc,
  (forall row, row ∈ rows -> passes_pin E row = true ->
     is_Some (builds (snd acc) !! Row.id row)) ->
  snd (fold_left (scanRow E) rows acc) = snd acc.
Proof.
  induction rows as [|r rows IH]; intros acc Hall; cbn [fold_left]; [reflexivity|].
  assert (H1 : snd (scanRow E acc r) = snd acc)
    by (apply scanRow_known, Hall, list_elem_of_here).
  rewrite IH; [exact H1|]. intros row Hin Hp. rewrite H1.
  apply Hall; [apply list_elem_of_further; exact Hin|exact Hp].
Qed.

(** X4. A pass that finds nothing new, because every row of the query
    that gets past the pin has its build in [builds] already, does
    nothing: no build is loaded, no derivation read, no transaction
    committed, no step made or dispatched. Only the mark moves on. *)
Theorem getQueuedBuilds_nothing_new E fuel h s :
  (forall row, row ∈ db s -> (h < Row.id row)%N -> Row.finished row = 0%Z ->
     passes_pin E row = true -> is_Some (builds s !! Row.id row)) ->
  getQueuedBuilds fuel E h s =
  Ok (max_id h (List.filter (passes_pin E) (queuedRows h (db s))))
     (set_newRunnable [] (set_newBuilds [] s)).
Proof.
  intros Hall. unfold getQueuedBuilds.
  pose proof (scan_high_water_eq E h s) as Hm.
  assert (Hs : snd (scanQueue E h s) = set_newBuilds [] s).
  { unfold scanQueue. apply (scan_fold_known E _ (h, set_newBuilds [] s)).
    intros row Hin Hp. apply elem_of_queuedRows in Hin.
    destruct Hin as (H1 & H2 & H3). apply Hall; assumption. }
  destruct (scanQueue E h s) as [h' s1]. cbn [fst snd] in Hm, Hs. subst h' s1.
  reflexivity.
Qed.

Lemma getQueuedBuilds_nothing_new_witness :
  getQueuedBuilds 5 env_AC 0 state_56_done =
  Ok (max_id 0 (List.filter (passes_pin env_AC) (queuedRows 0 (db state_56_done))))
     (set_newRunnable [] (set_newBuilds [] state_56_done)).
Proof.
  apply (getQueuedBuilds_nothing_new env_AC 5 0%N state_56_done).
  intros row Hin _ _ _.
  change (db state_56_done) with [row0 5%N "/d/A"; row0 6%N "/d/C"] in Hin.
  apply elem_of_cons in Hin. destruct Hin as [->|Hin].
  - exists 0. vm_compute. reflexivity.
  - apply list_elem_of_singleton in Hin. subst row. exists 1. vm_compute. reflexivity.
Defined.

(** The order of the working set, a [std::multimap]: by derivation path. *)
Lemma ltb_asym (a b : string) : String.ltb a b = true -> String.ltb b a = false.
Proof.
  unfold String.ltb. rewrite (String.compare_antisym b a).
  destruct (String.compare a b); cbn; congruence.
Qed.

Lemma emplace_sorted k v m :
  Sorted (fun a b : string * nat => String.ltb b.1 a.1 = false) m ->
  Sorted (fun a b : string * nat => String.ltb b.1 a.1 = false) (emplace k v m).
Proof.
  induction m as [|[k' v'] m IH]; intros Hs; cbn [emplace].
  - repeat constructor.
  - destruct (String.ltb k k') eqn:Hlt.
    + constructor; [exact Hs|]. constructor. cbn. apply ltb_asym. exact Hlt.
    + apply Sorted_inv in Hs. destruct Hs as [Hs Hhd].
      constructor; [apply IH; exact Hs|].
      destruct m as [|[k2 v2] m]; cbn [emplace].
      * constructor. exact Hlt.
      * destruct (String.ltb k k2); constructor; [exact Hlt|].
        apply HdRel_inv in Hhd. exact Hhd.
Qed.

Lemma path_le_trans (a b c : string) :
  String.ltb b a = false -> String.ltb c b = false -> String.ltb c a = false.
Proof.
  intros Hab Hbc. destruct (String.ltb c a) eqn:Hca; [exfalso|reflexivity].
  unfold String.ltb in *.
  destruct (String.compare c a) eqn:C1; try discriminate.
  assert (Hlt1 : String_as_OT.lt c a) by (apply String_as_OT.cmp_lt; exact C1).
  destruct (String.compare b a) eqn:C2; try discriminate.
  - apply String.compare_eq_iff in C2. subst b. rewrite C1 in Hbc. discriminate.
  - assert (Hlt2 : String_as_OT.lt a b).
    { apply String_as_OT.cmp_lt. unfold String_as_OT.cmp.
      rewrite (String.compare_antisym a b), C2. reflexivity. }
    pose proof (String_as_OT.lt_trans _ _ _ Hlt1 Hlt2) as Hlt3.
    apply String_as_OT.cmp_lt in Hlt3. unfold String_as_OT.cmp in Hlt3.
    rewrite Hlt3 in Hbc. discriminate.
Qed.

(** X5. The working set that the scan makes is in the order of the
    derivation paths, not of the ids: the loop of getQueuedBuilds, which
    takes the first entry each time, starts with a build whose derivation
    path is the least of the working set. *)
Theorem scanQueue_sorted E h s :
  Sorted (fun a b : string * nat => String.ltb b.1 a.1 = false)
    (newBuilds (snd (scanQueue E h s))) /\
  (forall p b rest, newBuilds (snd (scanQueue E h s)) = (p, b) :: rest ->
     forall e, e ∈ rest -> String.ltb e.1 p = false).
Proof.
  assert (Hs : Sorted (fun a b : string * nat => String.ltb b.1 a.1 = false)
                 (newBuilds (snd (scanQueue E h s)))).
  { unfold scanQueue.
    assert (H0 : Sorted (fun a b : string * nat => String.ltb b.1 a.1 = false)
                   (newBuilds (snd (h, set_newBuilds [] s)))) by constructor.
    revert H0. generalize (h, set_newBuilds [] s).
    induction (queuedRows h (db s)) as [|r rows IH]; intros acc H0; cbn [fold_left];
      [exact H0|].
    apply IH. destruct acc as [h0 s0]. cbn [snd] in *. unfold scanRow.
    destruct (negb (buildOne E =? 0)%N && negb (Row.id r =? buildOne E)%N); [exact H0|].
    destruct (builds s0 !! Row.id r); [exact H0|].
    cbn [snd newBuilds set_newBuilds set_buildHeap]. apply emplace_sorted. exact H0. }
  split; [exact Hs|]. intros p b rest Heq e He.
  apply Sorted_StronglySorted in Hs.
  - rewrite Heq in Hs. apply StronglySorted_inv in Hs. destruct Hs as [_ Hall].
    rewrite List.Forall_forall in Hall. apply (Hall e). apply list_elem_of_In. exact He.
  - intros x y z Hxy Hyz. eapply path_le_trans; eassumption.
Qed.

(** ** createStep *)

Lemma createStep_adds_reads E fuel : forall p rb rs s,
  match createStep fuel E p rb rs s with
  | Ok _ s' | Throw s' => adds is_read s s'
  | _ => True
  end.
Proof.
  induction fuel as [|fuel IH]; intros p rb rs s; [exact I|].
  cbn [createStep]. unfold createStep_body.
  destruct (bool_decide (p ∈ finishedDrvs s)); [apply adds_refl; reflexivity|].
  destruct (internStep p rb rs s) as [[n isNew] s1|s1| |] eqn:Hint; try exact I.
  2:{ exfalso. eapply internStep_no_throw; eassumption. }
  destruct (internStep_rest _ _ _ _ _ _ Hint) as (_ & _ & _ & _ & _ & Htr1).
  assert (H01 : adds is_read s s1) by (apply adds_refl; assumption).
  destruct isNew; [|exact H01].
  set (s2 := set_trace (trace s1 ++ [EvReadDerivation p]) s1).
  assert (H12 : adds is_read s1 s2).
  { eapply adds_events; [reflexivity|]. constructor; [|constructor]. exists p. reflexivity. }
  assert (H02 := adds_trans _ _ _ _ H01 H12).
  destruct (readDerivation E p) as [drv|].
  2:{ eapply adds_trans; [exact H02|]. apply adds_refl. reflexivity. }
  destruct (all_outputs_valid E drv).
  { eapply adds_trans; [exact H02|]. apply adds_refl. reflexivity. }
  match goal with |- context [insert_newSteps n ?t] =>
    pose proof (createDeps_adds is_read (createStep fuel E) n IH
                  (Derivation.inputDrvs drv) (insert_newSteps n t)) as Hloop;
    assert (H24 : adds is_read s2 (insert_newSteps n t))
      by (apply adds_refl; rewrite insert_newSteps_trace; reflexivity)
  end.
  assert (H04 := adds_trans _ _ _ _ H02 H24).
  destruct (createDeps _ _ _ _) as [[] s5|s5| |]; try exact I.
  - destruct (finishStep n s5) as [r s6|s6| |] eqn:Hfs; try exact I.
    + eapply adds_trans; [exact H04|]. eapply adds_trans; [exact Hloop|].
      apply adds_refl. eapply finishStep_trace; eassumption.
    + exfalso. eapply finishStep_no_throw; eassumption.
  - eapply adds_trans; [exact H04|]. eapply adds_trans; [exact Hloop|].
    apply adds_refl. reflexivity.
Qed.

(** X6. createStep works on the step graph and reads derivations, nothing
    else: it commits no transaction, loads no build and dispatches no
    step (the new events are all reads of derivations), and it leaves the
    builds, [builds], the counters, the table and the working set as they
    are; whether it returns or throws. *)
Theorem createStep_only_reads E fuel p rb rs s :
  match createStep fuel E p rb rs s with
  | Ok _ s' | Throw s' =>
      buildHeap s' = buildHeap s /\ builds s' = builds s /\
      nrBuildsDone s' = nrBuildsDone s /\ nrBuildsRead s' = nrBuildsRead s /\
      db s' = db s /\ newBuilds s' = newBuilds s /\ nrAdded s' = nrAdded s /\
      exists evs, trace s' = (trace s ++ evs)%list /\
        forall e, e ∈ evs -> exists q, e = EvReadDerivation q
  | AssertFail | OutOfFuel => True
  end.
Proof.
  pose proof (createStep_adds_reads E fuel p rb rs s) as Ha.
  pose proof (createStep_frame E fuel p rb rs s) as Hf.
  destruct (createStep fuel E p rb rs s) as [r s'|s'| |]; try exact I.
  all: destruct Hf as [Ho _]; unfold outside in Ho;
    injection Ho as H1 H2 H3 H4 H5 H6 H7 H8;
    destruct Ha as (evs & Htr & Hall); rewrite Forall_forall in Hall;
    repeat (split; [assumption|]); exists evs; split; [exact Htr|exact Hall].
Qed.

(** X7. A derivation that names itself as its first input makes createStep
    fail the assertion of line 299: the step of the derivation is in the
    interner, alive and not yet created, when the recursion asks for it. *)
Theorem createStep_cycle_asserts E fuel p rb rs s drv l rest :
  p ∉ finishedDrvs s -> no_live_entry s p -> readDerivation E p = Some drv ->
  all_outputs_valid E drv = false -> Derivation.inputDrvs drv = (p, l) :: rest ->
  createStep (S (S fuel)) E p rb rs s = AssertFail.
Proof.
  intros Hnf Hnl Hread Hvalid Hin.
  destruct (internStep_fresh p rb rs s Hnl) as (m & Hint).
  change (createStep (S (S fuel)) E p rb rs s)
    with (createStep_body E (createStep (S fuel) E) p rb rs s).
  unfold createStep_body at 1.
  rewrite bool_decide_eq_false_2 by assumption.
  rewrite Hint, Hread, Hvalid, Hin. cbn [createDeps].
  set (n := length (stepHeap s)).
  match goal with |- context [createStep (S fuel) E p None (Some n) ?t] =>
    set (s4 := t);
    assert (Hrec : createStep (S fuel) E p None (Some n) s4 = AssertFail)
  end.
  2:{ rewrite Hrec. reflexivity. }
  cbn [createStep]. unfold createStep_body.
  assert (Hfd : finishedDrvs s4 = finishedDrvs s).
  { unfold s4, insert_newSteps. destruct (set_has _ _); reflexivity. }
  rewrite bool_decide_eq_false_2 by (rewrite Hfd; assumption).
  assert (Hst : steps s4 !! p = Some n).
  { unfold s4, insert_newSteps. destruct (set_has _ _); cbn; apply lookup_insert_eq. }
  assert (Hcell : exists k, stepHeap s4 !! n =
            Some (mkCell (Step.set_drv drv (required_features E drv) (prefer_local E drv)
                            (link_back rb rs (Step.fresh p))) (S k))).
  { unfold s4, n, insert_newSteps, installed.
    destruct (set_has _ _); sproj; rewrite update_step_snoc; cbn [obj strong].
    - exists 0. rewrite lookup_app_r, Nat.sub_diag by lia. reflexivity.
    - exists 1. rewrite retain_lookup, decide_True by reflexivity.
      rewrite lookup_app_r, Nat.sub_diag by lia. reflexivity. }
  destruct Hcell as (k & Hcell).
  rewrite (internStep_assert p None (Some n) s4 n Hst); [reflexivity| |].
  - eexists. split; [exact Hcell|]. cbn. lia.
  - unfold step_at. rewrite Hcell. cbn [obj Step.set_drv Step.created].
    apply link_back_created.
Qed.

Lemma createStep_cycle_asserts_witness :
  createStep 2 env_loop "/d/L" None None (state_of []) = AssertFail.
Proof.
  apply (createStep_cycle_asserts env_loop 0 "/d/L" None None (state_of [])
           (drv_of "/s/L" ["/d/L"]) ["out"] []).
  - cbn. apply not_elem_of_empty.
  - apply no_live_entry_state_of.
  - reflexivity.
  - reflexivity.
  - reflexivity.
Defined.

(** ** Ingestions *)

(** X8. An ingestion writes to its own build and to the builds that it
    takes out of the working set, to no other: the builds that it leaves
    in the working set are as the scan made them, each there once, and
    the builds outside the working set keep every field. The working set
    only shrinks. *)
Theorem createBuild_own_build E fuel b s :
  hinv s -> untouched s -> b ∉ snd <$> newBuilds s ->
  match createBuild fuel E b s with
  | Ok _ s' | Throw s' =>
      untouched s' /\
      (forall e, e ∈ newBuilds s' -> e ∈ newBuilds s) /\
      length (buildHeap s') = length (buildHeap s) /\
      (forall c, c <> b -> c ∉ snd <$> newBuilds s ->
         buildHeap s' !! c = buildHeap s !! c)
  | AssertFail | OutOfFuel => True
  end.
Proof.
  intros Hh Hu Hb.
  pose proof (createBuild_untouched E fuel b s Hu Hb) as H1.
  pose proof (createBuild_spec E fuel b s Hh) as H2.
  destruct (createBuild fuel E b s) as [[] s'|s'| |]; try exact I.
  all: destruct H1 as [Hu' Hsub]; destruct H2 as (_ & _ & (Hl & Hfr & _) & _);
    repeat split; try apply Hu'; assumption.
Qed.

Lemma createBuild_own_build_witness :
  match createBuild 3 env_AC 0 state_5 with
  | Ok _ s' | Throw s' =>
      untouched s' /\
      (forall e, e ∈ newBuilds s' -> e ∈ newBuilds state_5) /\
      length (buildHeap s') = length (buildHeap state_5) /\
      (forall c, c <> 0 -> c ∉ snd <$> newBuilds state_5 ->
         buildHeap s' !! c = buildHeap state_5 !! c)
  | AssertFail | OutOfFuel => True
  end.
Proof.
  apply (createBuild_own_build env_AC 3 0 state_5).
  - apply hinv_empty_heap; reflexivity.
  - split.
    + cbn. apply NoDup_singleton.
    + intros p b Hin. cbn in Hin. apply list_elem_of_singleton in Hin.
      injection Hin as -> ->. exists build6. repeat split.
  - cbn. intros H. apply list_elem_of_singleton in H. discriminate.
Defined.

(** X9. When the derivation of a build cannot be read, the loop of
    getQueuedBuilds is left by the exception: the build has been loaded
    and counted in [nrAdded], but [nrBuildsRead] is not brought up to
    date; nothing is written to the table, the build is neither marked
    finished nor published, and the step that had been made for it is
    gone. *)
Theorem processQueue_unreadable E fuel n p build s x :
  newBuilds s = [(p, build)] -> newRunnable s = [] ->
  buildHeap s !! build = Some x -> Build.toplevel x = None ->
  isValidPath E (Build.drvPath x) = true ->
  readDerivation E (Build.drvPath x) = None ->
  no_live_entry s (Build.drvPath x) ->
  exists s', processQueue (S n) (S fuel) E s = Throw s' /\
    trace s' = (trace s ++ [EvLoadBuild build; EvReadDerivation (Build.drvPath x)])%list /\
    db s' = db s /\ builds s' = builds s /\ buildHeap s' = buildHeap s /\
    nrBuildsDone s' = nrBuildsDone s /\ nrBuildsRead s' = nrBuildsRead s /\
    nrAdded s' = 1%N /\ newBuilds s' = [] /\
    ~ live (stepHeap s') (length (stepHeap s)).
Proof.
  intros Hnb Hnr Hx Htop Hvalid Hread Hnl.
  cbn [processQueue]. rewrite Hnb.
  set (s1 := set_nrAdded 0%N (clear_newRunnable (set_newBuilds [] s))).
  assert (Hh1 : stepHeap s1 = stepHeap s).
  { unfold s1, clear_newRunnable. sproj. rewrite Hnr. reflexivity. }
  set (s0 := freshLocals (loadBuild build s1)).
  assert (Hnl0 : no_live_entry s0 (Build.drvPath x)).
  { intros w Hw Hl. apply (Hnl w Hw). change (stepHeap s0) with (stepHeap s1) in Hl.
    rewrite Hh1 in Hl. exact Hl. }
  destruct (internStep_fresh (Build.drvPath x) (Some build) None s0 Hnl0) as (m & Hint).
  assert (Hstep : createStep (S fuel) E (Build.drvPath x) (Some build) None s0 =
                  Throw (drop_step (length (stepHeap s0))
                           (set_trace (trace (installed (Build.drvPath x) (Some build) None m s0)
                                         ++ [EvReadDerivation (Build.drvPath x)])
                              (installed (Build.drvPath x) (Some build) None m s0)))).
  { cbn [createStep]. unfold createStep_body.
    rewrite bool_decide_eq_false_2 by (cbn; apply not_elem_of_empty).
    rewrite Hint, Hread. reflexivity. }
  rewrite (createBuild_unfold E fuel build s1 x Hx Hvalid).
  fold s0. rewrite Hstep.
  eexists. split; [reflexivity|].
  assert (Hdrop' : forall t, dropBuild build t = t \/
            dropBuild build t = set_stepHeap (release_opt (Build.toplevel (build_at (buildHeap t) build)) (stepHeap t)) t).
  { intros t. unfold dropBuild. destruct (bool_decide _); auto. }
  match goal with |- context [dropBuild build ?t] =>
    destruct (Hdrop' t) as [Hc|Hc]; rewrite Hc; clear Hc
  end.
  all: unfold clear_newRunnable, leave, drop_step, installed; sproj.
  all: (split; [change (trace s0) with (trace s ++ [EvLoadBuild build])%list;
                rewrite <- app_assoc; reflexivity|]).
  all: repeat (split; [reflexivity|]).
  all: change (newRunnable s0) with (@nil nat); change (newSteps s0) with (@nil nat).
  all: change (buildHeap s0) with (buildHeap s).
  all: try rewrite (build_at_lookup _ _ _ Hx), Htop.
  all: cbn [release_all fold_left release_opt].
  all: change (stepHeap s0) with (stepHeap s1); rewrite Hh1.
  all: rewrite release_last by reflexivity.
  all: intros (c & Hc & Hpos); rewrite lookup_app_r, Nat.sub_diag in Hc by lia;
    cbn in Hc; inversion Hc; subst c; cbn in Hpos; lia.
Qed.

Lemma processQueue_unreadable_witness :
  exists s', processQueue 1 1 env_lost state_lost = Throw s' /\
    trace s' = [EvLoadBuild 0; EvReadDerivation "/d/lost"] /\
    db s' = db state_lost /\ builds s' = ∅ /\ buildHeap s' = [build8] /\
    nrBuildsDone s' = 0%N /\ nrBuildsRead s' = 0%N /\
    nrAdded s' = 1%N /\ newBuilds s' = [] /\
    ~ live (stepHeap s') 0.
Proof.
  apply (processQueue_unreadable env_lost 0 0 "/d/lost" 0 state_lost build8).
  - reflexivity.
  - reflexivity.
  - reflexivity.
  - reflexivity.
  - reflexivity.
  - reflexivity.
  - intros w Hw. cbn in Hw. rewrite lookup_empty in Hw. discriminate.
Defined.

Lemma publish_finished b root s x :
  buildHeap s !! b = Some x -> Build.finishedInDB x = true ->
  builds (publish b root s) = builds s /\
  buildHeap (publish b root s) = <[b := Build.set_toplevel root x]> (buildHeap s) /\
  trace (publish b root s) = trace s /\ db (publish b root s) = db s /\
  nrBuildsDone (publish b root s) = nrBuildsDone s.
Proof.
  intros Hx Hfin. unfold publish. rewrite (build_at_lookup _ _ _ Hx), Hfin.
  unfold update_build. sproj. rewrite (build_at_lookup _ _ _ Hx). repeat split.
Qed.

(** X10. What createBuild does with a build whose [finishedInDB] is set
    already. Three of its four paths look at the flag (lines 98, 178 and
    203): with the derivation path not valid the build is only loaded, no
    transaction and no count; with a bad step the clock is read but no
    transaction is committed and [nrBuildsDone] stays; without a bad step
    the build gets its top-level step but is not entered in [builds]. The
    cached-success path (lines 133-145) does not look at the flag: the
    derivation is read again and the transaction of markSucceededBuild is
    committed all the same. *)
Theorem createBuild_finished E fuel build s x :
  hinv s -> buildHeap s !! build = Some x -> build ∉ snd <$> newBuilds s ->
  Build.finishedInDB x = true ->
  (isValidPath E (Build.drvPath x) = false ->
   createBuild (S fuel) E build s = Ok tt (loadBuild build s)) /\
  (isValidPath E (Build.drvPath x) = true ->
   forall s2,
     createStep (S fuel) E (Build.drvPath x) (Some build) None
       (freshLocals (loadBuild build s)) = Ok None s2 ->
     exists s' drv x', createBuild (S fuel) E build s = Ok tt s' /\
       readDerivation E (Build.drvPath x) = Some drv /\
       trace s' = (trace s ++
         [EvLoadBuild build;
          EvReadDerivation (Build.drvPath x);
          EvReadDerivation (Build.drvPath x);
          EvCommit [MarkSucceededBuild build (getBuildOutput E drv) true
                      (time_ E (clock s)) (time_ E (clock s))]])%list /\
       nrBuildsDone s' = nrBuildsDone s /\ builds s' = builds s /\
       buildHeap s' !! build = Some x' /\ build_is x true (Build.toplevel x) x') /\
  (isValidPath E (Build.drvPath x) = true ->
   forall root s2 s3,
     createStep (S fuel) E (Build.drvPath x) (Some build) None
       (freshLocals (loadBuild build s)) = Ok (Some root) s2 ->
     piggyback (createBuild fuel E) (in_address_order E (newSteps s2)) s2 = Ok tt s3 ->
     (forall l1 r l2, in_address_order E (newSteps s3) = (l1 ++ r :: l2)%list ->
        (forall a, a ∈ l1 -> fst (classifyStep E root a s3) = bsSuccess) ->
        fst (classifyStep E root r s3) <> bsSuccess ->
        exists s', createBuild (S fuel) E build s = Ok tt s' /\
          trace s' = trace s3 /\ db s' = db s3 /\ clock s' = S (clock s3) /\
          nrBuildsDone s' = nrBuildsDone s3 /\ builds s' = builds s3 /\
          buildHeap s' = buildHeap s3) /\
     ((forall a, a ∈ newSteps s3 -> fst (classifyStep E root a s3) = bsSuccess) ->
        exists s' x', createBuild (S fuel) E build s = Ok tt s' /\
          trace s' = trace s3 /\ db s' = db s3 /\
          nrBuildsDone s' = nrBuildsDone s3 /\ builds s' = builds s3 /\
          buildHeap s' = <[build := x']> (buildHeap s3) /\
          build_is x true (Some root) x')).
Proof.
  intros Hh Hx Hnot Hfin. split; [|split].
  - intros Hgone. cbn [createBuild]. unfold createBuild_body.
    assert (Hb : build_at (buildHeap (loadBuild build s)) build = x)
      by (apply build_at_lookup; exact Hx).
    rewrite Hb, Hgone. cbn [negb]. unfold abortGCed. rewrite Hb, Hfin. reflexivity.
  - intros Hvalid s2 Hstep.
    destruct (createBuild_cached E fuel build s x s2 Hx Hvalid Hstep)
      as (drv & Hread & Hout & Htr & Hrun).
    unfold outside, loadBuild in Hout. sproj.
    injection Hout as Hbh2 Hbs2 Hdone2 _ _ Hclk2 _ _.
    eexists _, drv, (Build.set_finishedInDB x). split; [exact Hrun|].
    split; [exact Hread|].
    unfold leave, update_build, commit, tick, now. sproj.
    rewrite Htr, Hclk2, Hdone2, Hbs2, Hbh2. rewrite <- !app_assoc.
    split; [reflexivity|]. split; [reflexivity|]. split; [reflexivity|].
    split.
    + rewrite (build_at_lookup _ _ _ Hx).
      apply list_lookup_insert_eq. eapply lookup_lt_Some; exact Hx.
    + unfold build_is. cbn. repeat split.
  - intros Hvalid root s2 s3 Hstep Hpig.
    destruct (build_untouched E fuel build s _ s2 _ s3 Hh Hnot Hstep Hpig) as (Hx3 & _).
    rewrite Hx in Hx3. split.
    + intros l1 r l2 Hns Hgood Hbad.
      rewrite (createBuild_unfold E fuel build s x Hx Hvalid), Hstep, Hpig, Hns.
      rewrite (classify_first_bad E build root l1 r l2 s3 Hgood Hbad).
      eexists. split; [reflexivity|].
      unfold leave, failBuild. rewrite (build_at_lookup _ _ _ Hx3), Hfin.
      unfold tick. sproj. repeat split.
    + intros Hgood.
      rewrite (createBuild_unfold E fuel build s x Hx Hvalid), Hstep, Hpig.
      rewrite (classify_all_good E build root (in_address_order E (newSteps s3)) s3
                 (fun a Ha => Hgood a (proj1 (elem_of_in_address_order E _ a) Ha))).
      destruct (publish_finished build root s3 x Hx3 Hfin) as (H1 & H2 & H3 & H4 & H5).
      eexists _, (Build.set_toplevel root x). split; [reflexivity|].
      unfold leave. sproj. repeat split; assumption.
Qed.

Lemma createBuild_finished_witness :
  createBuild 1 env_gone 0 state_gone_finished = Ok tt (loadBuild 0 state_gone_finished) /\
  (exists s' drv x', createBuild 1 env_cached 0 state_cached_finished = Ok tt s' /\
     readDerivation env_cached "/d/cached" = Some drv /\
     trace s' =
       [EvLoadBuild 0; EvReadDerivation "/d/cached"; EvReadDerivation "/d/cached";
        EvCommit [MarkSucceededBuild 0 (getBuildOutput env_cached drv) true 1000 1000]] /\
     nrBuildsDone s' = 0%N /\ builds s' = ∅ /\
     buildHeap s' !! 0 = Some x' /\ build_is build2_finished true None x') /\
  (exists s', createBuild 2 env_arm 0 state_arm_finished = Ok tt s' /\
     trace s' = trace state_arm_finished_created /\
     db s' = db state_arm_finished_created /\
     clock s' = S (clock state_arm_finished_created) /\
     nrBuildsDone s' = nrBuildsDone state_arm_finished_created /\
     builds s' = builds state_arm_finished_created /\
     buildHeap s' = buildHeap state_arm_finished_created) /\
  (exists s' x', createBuild 3 env_AC 0 state_5_finished = Ok tt s' /\
     trace s' = trace state_5_finished_created /\
     db s' = db state_5_finished_created /\
     nrBuildsDone s' = nrBuildsDone state_5_finished_created /\
     builds s' = builds state_5_finished_created /\
     buildHeap s' = <[0 := x']> (buildHeap state_5_finished_created) /\
     build_is (Build.mk 5 "/d/A" "hydra:trunk:job" 0 0 true None) true (Some 0) x').
Proof.
  assert (Hnot : forall s, newBuilds s = [] -> 0 ∉ snd <$> newBuilds s).
  { intros s ->. cbn. intros H. apply elem_of_nil in H. contradiction. }
  split; [|split; [|split]].
  - apply (proj1 (createBuild_finished env_gone 0 0 state_gone_finished _
                    (hinv_empty_heap state_gone_finished eq_refl eq_refl eq_refl) eq_refl
                    (Hnot state_gone_finished eq_refl) eq_refl)).
    reflexivity.
  - apply (proj1 (proj2 (createBuild_finished env_cached 0 0 state_cached_finished _
                    (hinv_empty_heap state_cached_finished eq_refl eq_refl eq_refl) eq_refl
                    (Hnot state_cached_finished eq_refl) eq_refl)) eq_refl
             state_cached_finished_stepped).
    vm_compute. reflexivity.
  - apply (proj1 (proj2 (proj2 (createBuild_finished env_arm 1 0 state_arm_finished _
                    (hinv_empty_heap state_arm_finished eq_refl eq_refl eq_refl) eq_refl
                    (Hnot state_arm_finished eq_refl) eq_refl)) eq_refl 0
                    state_arm_finished_created state_arm_finished_created
                    ltac:(vm_compute; reflexivity) ltac:(vm_compute; reflexivity))
             [] 0 []).
    + reflexivity.
    + intros a Ha. apply elem_of_nil in Ha. contradiction.
    + vm_compute. discriminate.
  - apply (proj2 (proj2 (proj2 (createBuild_finished env_AC 2 0 state_5_finished _
                    (hinv_empty_heap state_5_finished eq_refl eq_refl eq_refl) eq_refl
                    (Hnot state_5_finished eq_refl) eq_refl)) eq_refl 0
                    state_5_finished_created state_5_finished_created
                    ltac:(vm_compute; reflexivity) ltac:(vm_compute; reflexivity))).
    intros a Ha. change (newSteps state_5_finished_created) with [0; 1] in Ha.
    apply elem_of_cons in Ha. destruct Ha as [->|Ha]; [vm_compute; reflexivity|].
    apply list_elem_of_singleton in Ha. subst a. vm_compute. reflexivity.
Defined.

(** ** What a pass hands to the dispatcher *)

Lemma adds_weaken (P Q : Event -> Prop) s s' :
  (forall e, P e -> Q e) -> adds P s s' -> adds Q s s'.
Proof.
  intros H (evs & Htr & Hall). exists evs. split; [exact Htr|].
  eapply Forall_impl; [exact Hall|exact H].
Qed.

Lemma createStep_no_dispatch E fuel p rb rs s :
  match createStep fuel E p rb rs s with
  | Ok _ s' | Throw s' => adds not_dispatch s s'
  | _ => True
  end.
Proof.
  pose proof (createStep_adds_reads E fuel p rb rs s) as H.
  destruct (createStep fuel E p rb rs s); try exact I;
    (eapply adds_weaken; [|exact H]; intros e [q ->]; exact I).
Qed.

Lemma piggybackPath_no_dispatch rec p :
  (forall b s, match rec b s with
               | Ok _ s' | Throw s' => adds not_dispatch s s'
               | _ => True
               end) ->
  forall n s,
    match piggybackPath n rec p s with
    | Ok _ s' | Throw s' => adds not_dispatch s s'
    | _ => True
    end.
Proof.
  intros Hrec. induction n as [|n IH]; intros s; cbn [piggybackPath];
    destruct (find_erase p (newBuilds s)) as [[b rest]|]; try exact I;
    try (apply adds_refl; reflexivity).
  specialize (Hrec b (set_newBuilds rest s)).
  destruct (rec b (set_newBuilds rest s)) as [[] s1|s1| |]; try exact I.
  - match goal with |- context [piggybackPath n rec p ?t] =>
      specialize (IH t);
      assert (H1 : adds not_dispatch s t)
        by (eapply adds_trans; [exact Hrec|]; apply adds_refl; apply dropBuild_trace);
      destruct (piggybackPath n rec p t); try exact I;
        (eapply adds_trans; [exact H1|exact IH])
    end.
  - eapply adds_trans; [exact Hrec|]. apply adds_refl. apply dropBuild_trace.
Qed.

Lemma piggyback_no_dispatch rec :
  (forall b s, match rec b s with
               | Ok _ s' | Throw s' => adds not_dispatch s s'
               | _ => True
               end) ->
  forall l s,
    match piggyback rec l s with
    | Ok _ s' | Throw s' => adds not_dispatch s s'
    | _ => True
    end.
Proof.
  intros Hrec. induction l as [|r l IH]; intros s; cbn [piggyback];
    [apply adds_refl; reflexivity|].
  pose proof (piggybackPath_no_dispatch rec (Step.drvPath (step_at (stepHeap s) r)) Hrec
                (length (newBuilds s)) s) as H1.
  destruct (piggybackPath _ rec _ s) as [[] s1|s1| |]; try exact I; [|exact H1].
  specialize (IH s1).
  destruct (piggyback rec l s1); try exact I; (eapply adds_trans; [exact H1|exact IH]).
Qed.

Lemma failBuild_no_dispatch E b r bs bss s :
  adds not_dispatch s (failBuild E b r bs bss s).
Proof.
  unfold failBuild. destruct (Build.finishedInDB _); [apply adds_refl; reflexivity|].
  eapply adds_events; [reflexivity|]. repeat constructor.
Qed.

Lemma classify_no_dispatch E b root l s :
  adds not_dispatch s (snd (classify E b root l s)).
Proof.
  induction l as [|r l IH]; cbn [classify]; [apply adds_refl; reflexivity|].
  destruct (classifyStep E root r s) as [bs bss].
  destruct (bool_decide (bs <> bsSuccess)); [apply failBuild_no_dispatch|exact IH].
Qed.

Lemma createBuild_no_dispatch E fuel : forall b s,
  match createBuild fuel E b s with
  | Ok _ s' | Throw s' => adds not_dispatch s s'
  | _ => True
  end.
Proof.
  induction fuel as [|fuel IH]; intros b s; [exact I|].
  cbn [createBuild]. unfold createBuild_body.
  assert (H0 : adds not_dispatch s (loadBuild b s))
    by (eapply adds_events; [reflexivity|repeat constructor]).
  destruct (negb (isValidPath E _)).
  { eapply adds_trans; [exact H0|]. unfold abortGCed.
    destruct (Build.finishedInDB _); [apply adds_refl; reflexivity|].
    eapply adds_events; [reflexivity|]. repeat constructor. }
  match goal with |- context [createStep (S fuel) E ?p ?rb ?rs ?t] =>
    pose proof (createStep_no_dispatch E (S fuel) p rb rs t) as HS;
    assert (H1 : adds not_dispatch s t) by exact H0;
    destruct (createStep (S fuel) E p rb rs t) as [step s2|s2| |]; try exact I
  end.
  2:{ eapply adds_trans; [exact H1|]. eapply adds_trans; [exact HS|].
      apply adds_refl. reflexivity. }
  assert (H2 := adds_trans _ _ _ _ H1 HS).
  pose proof (piggyback_no_dispatch _ IH (in_address_order E (newSteps s2)) s2) as HP.
  destruct (piggyback (createBuild fuel E) (in_address_order E (newSteps s2)) s2) as [[] s3|s3| |];
    try exact I.
  2:{ eapply adds_trans; [exact H2|]. eapply adds_trans; [exact HP|].
      apply adds_refl. reflexivity. }
  assert (H3 := adds_trans _ _ _ _ H2 HP).
  destruct step as [root|].
  - pose proof (classify_no_dispatch E b root (in_address_order E (newSteps s3)) s3) as Hc.
    destruct (classify E b root (in_address_order E (newSteps s3)) s3) as [bad s4]. cbn [snd] in Hc.
    destruct bad.
    + eapply adds_trans; [exact H3|]. eapply adds_trans; [exact Hc|].
      apply adds_refl. reflexivity.
    + eapply adds_trans; [exact H3|]. eapply adds_trans; [exact Hc|].
      apply adds_refl. unfold leave. sproj. apply publish_trace.
  - assert (Hm : match markCachedSuccess E b s3 with
                 | Ok _ s' | Throw s' => adds not_dispatch s3 s'
                 | _ => True
                 end).
    { unfold markCachedSuccess. destruct (readDerivation E _) as [drv|].
      - eapply adds_events.
        + unfold update_build, commit, tick. sproj. rewrite <- app_assoc. reflexivity.
        + repeat constructor.
      - eapply adds_events; [reflexivity|repeat constructor]. }
    destruct (markCachedSuccess E b s3) as [[] s4|s4| |]; try exact I;
      (eapply adds_trans; [exact H3|]; eapply adds_trans; [exact Hm|];
       apply adds_refl; reflexivity).
Qed.

Lemma ready_same s s' a : objs s' = objs s -> ready s a -> ready s' a.
Proof. intros Ho. unfold ready. rewrite Ho. auto. Qed.

Lemma ready_grows s s' a : grows s s' -> ready s a -> ready s' a.
Proof.
  intros (_ & Hold & _) (o & Ho & Hc & Hd).
  destruct (Hold a o Ho) as (o' & Ho' & _ & Hst).
  destruct (Hst eq_refl) as (_ & _ & _ & Hc' & Hd').
  exists o'. split; [exact Ho'|]. split; congruence.
Qed.

Lemma no_dispatch_in evs a : Forall not_dispatch evs -> EvMakeRunnable a ∉ evs.
Proof.
  intros Hall Hin. rewrite Forall_forall in Hall. exact (Hall _ Hin).
Qed.

Lemma processQueue_dispatch E fuel : forall n s,
  hinv s ->
  match processQueue n fuel E s with
  | Ok _ s' | Throw s' =>
      hinv s' /\ (forall a, ready s a -> ready s' a) /\
      exists evs, trace s' = (trace s ++ evs)%list /\ dispatch_ok s' evs
  | AssertFail | OutOfFuel => True
  end.
Proof.
  induction n as [|n IH]; intros s Hh; cbn [processQueue];
    (destruct (newBuilds s) as [|[p build] rest];
     [split; [exact Hh|]; split; [auto|]; exists []; rewrite app_nil_r;
      split; [reflexivity|]; intros a Ha; apply elem_of_nil in Ha; contradiction|]);
    [exact I|].
  set (s1 := set_nrAdded 0%N (clear_newRunnable (set_newBuilds rest s))).
  assert (Hh1 : hinv s1) by (apply (hinv_clear (set_newBuilds rest s)); exact Hh).
  assert (Ho1 : objs s1 = objs s).
  { unfold s1, clear_newRunnable, objs. sproj. apply release_all_objs. }
  pose proof (createBuild_spec E fuel build s1 Hh1) as H1.
  pose proof (createBuild_no_dispatch E fuel build s1) as H2.
  destruct (createBuild fuel E build s1) as [[] s2|s2| |]; try exact I.
  - destruct H1 as (Hg & Hh2 & _). destruct H2 as (evs1 & Htr1 & Hall1).
    set (s4 := set_nrBuildsRead (add64 (nrBuildsRead (makeRunnable_all E s2))
                 (nrAdded (makeRunnable_all E s2))) (makeRunnable_all E s2)).
    set (t0 := dropBuild build s4).
    destruct (dropBuild_tail build build s4) as (Hot & Hst & Hrt & _).
    fold t0 in Hot, Hst, Hrt.
    change (objs s4) with (objs s2) in Hot.
    change (steps s4) with (steps s2) in Hst.
    change (newRunnable s4) with (newRunnable s2) in Hrt.
    assert (Htt : trace t0 = (trace s2 ++ map EvMakeRunnable (in_address_order E (newRunnable s2)))%list)
      by (unfold t0; rewrite dropBuild_trace; reflexivity).
    assert (Hht : hinv t0) by (eapply hinv_same; eassumption).
    specialize (IH t0 Hht).
    destruct (processQueue n fuel E t0) as [[] s'|s'| |]; try exact I.
    all: destruct IH as (Hh' & Hk & evs2 & Htr2 & Hd2); split; [exact Hh'|].
    all: (split; [intros a Ha; apply Hk; apply (ready_same s2); [exact Hot|];
                  apply (ready_grows s1); [exact Hg|];
                  apply (ready_same s); [exact Ho1|exact Ha]|]).
    all: exists (evs1 ++ map EvMakeRunnable (in_address_order E (newRunnable s2)) ++ evs2)%list.
    all: (split; [rewrite Htr2, Htt, Htr1; change (trace s1) with (trace s);
                  rewrite <- !app_assoc; reflexivity|]).
    all: intros a Ha; apply elem_of_app in Ha; destruct Ha as [Ha|Ha];
      [exfalso; exact (no_dispatch_in _ _ Hall1 Ha)|].
    all: apply elem_of_app in Ha; destruct Ha as [Ha|Ha]; [|apply Hd2; exact Ha].
    all: apply Hk; apply (ready_same s2); [exact Hot|].
    all: apply list_elem_of_fmap in Ha; destruct Ha as (a' & [= ->] & Ha').
    all: destruct Hh2 as (_ & _ & Hr); apply Hr;
      apply (elem_of_in_address_order E); exact Ha'.
  - destruct H1 as (Hg & Hh2 & _). destruct H2 as (evs1 & Htr1 & Hall1).
    match goal with |- hinv ?t /\ _ =>
      assert (Hot : objs t = objs s2)
    end.
    { unfold clear_newRunnable, objs. sproj. rewrite release_all_objs.
      apply dropBuild_objs. }
    split; [|split].
    + apply hinv_clear.
      destruct (dropBuild_tail build build s2) as (Ho & Hs & Hr & _).
      eapply hinv_same; [exact Ho|exact Hs|exact Hr|exact Hh2].
    + intros a Ha. apply (ready_same s2); [exact Hot|].
      apply (ready_grows s1); [exact Hg|]. apply (ready_same s); [exact Ho1|exact Ha].
    + exists evs1. split.
      * change (trace (dropBuild build s2) = (trace s ++ evs1)%list).
        rewrite dropBuild_trace. exact Htr1.
      * intros a Ha. exfalso. exact (no_dispatch_in _ _ Hall1 Ha).
Qed.

(** X11. Only steps that are ready are handed to the dispatcher: every
    step for which a pass of getQueuedBuilds calls makeRunnable is
    created and has no dependency left, and it is still so when the pass
    ends, by a return or by an exception. *)
Theorem getQueuedBuilds_dispatches_ready E fuel h s :
  hinv s ->
  match getQueuedBuilds fuel E h s with
  | Ok _ s' | Throw s' =>
      exists evs, trace s' = (trace s ++ evs)%list /\
        forall a, EvMakeRunnable a ∈ evs ->
          exists o, objs s' !! a = Some o /\ Step.created o = true /\ Step.deps o = []
  | AssertFail | OutOfFuel => True
  end.
Proof.
  intros Hh. unfold getQueuedBuilds.
  destruct (scanQueue_scanned E h s) as [(H1 & H2 & H3 & _) _].
  pose proof (scanQueue_trace E h s) as Ht.
  destruct (scanQueue E h s) as [h' s1]. cbn [fst snd] in *.
  set (s2 := set_newRunnable [] s1).
  assert (Hh2 : hinv s2).
  { destruct Hh as (Hk & Hc & _). unfold hinv, keyed, closed, objs.
    change (stepHeap s2) with (stepHeap s1). change (steps s2) with (steps s1).
    rewrite H1, H2. split; [exact Hk|]. split; [exact Hc|].
    intros a Ha. apply elem_of_nil in Ha. contradiction. }
  pose proof (processQueue_dispatch E fuel (length (newBuilds s2)) s2 Hh2) as HP.
  destruct (processQueue _ fuel E s2) as [[] s3|s3| |]; try exact I.
  - destruct HP as (_ & _ & evs & Htr & Hd). exists evs. split.
    + change (trace s3 = (trace s ++ evs)%list). rewrite Htr.
      change (trace s2) with (trace s1). rewrite Ht. reflexivity.
    + intros a Ha. apply (ready_same s3); [|apply Hd; exact Ha].
      unfold clear_newRunnable, objs. sproj. apply release_all_objs.
  - destruct HP as (_ & _ & evs & Htr & Hd). exists evs. split.
    + rewrite Htr. change (trace s2) with (trace s1). rewrite Ht. reflexivity.
    + intros a Ha. apply Hd. exact Ha.
Qed.

Lemma getQueuedBuilds_dispatches_ready_witness :
  match getQueuedBuilds 5 env_AC 0 state_56 with
  | Ok _ s' | Throw s' =>
      exists evs, trace s' = (trace state_56 ++ evs)%list /\
        forall a, EvMakeRunnable a ∈ evs ->
          exists o, objs s' !! a = Some o /\ Step.created o = true /\ Step.deps o = []
  | AssertFail | OutOfFuel => True
  end.
Proof.
  apply (getQueuedBuilds_dispatches_ready env_AC 5 0%N state_56).
  apply hinv_empty_heap; reflexivity.
Defined.

(** ** The reaper *)

Lemma elem_of_currentIds tbl i : i ∈ currentIds tbl <-> queued_id tbl i.
Proof.
  unfold currentIds, queued_id. rewrite elem_of_list_to_set, list_elem_of_fmap. split.
  - intros (r & -> & Hr). apply list_elem_of_In, filter_In in Hr.
    destruct Hr as [Hr Hf]. exists r. split; [apply list_elem_of_In; exact Hr|].
    split; [reflexivity|]. apply Z.eqb_eq. exact Hf.
  - intros (r & Hr & <- & Hf). exists r. split; [reflexivity|].
    apply list_elem_of_In, filter_In. split; [apply list_elem_of_In; exact Hr|].
    apply Z.eqb_eq. exact Hf.
Qed.

Lemma elem_of_insert_entry e x l : x ∈ insert_entry e l <-> x = e \/ x ∈ l.
Proof.
  induction l as [|y l IH]; cbn [insert_entry].
  - rewrite list_elem_of_singleton. rewrite elem_of_nil. tauto.
  - destruct (e.1 <? y.1)%N.
    + rewrite elem_of_cons. tauto.
    + rewrite !elem_of_cons, IH. tauto.
Qed.

Lemma elem_of_builds_in_order m i b :
  (i, b) ∈ builds_in_order m <-> m !! i = Some b.
Proof.
  unfold builds_in_order. rewrite <- elem_of_map_to_list.
  induction (map_to_list m) as [|e l IH]; cbn [fold_right]; [reflexivity|].
  rewrite elem_of_insert_entry, IH, elem_of_cons. tauto.
Qed.

Lemma only_releases_refl s : only_releases s s.
Proof.
  unfold only_releases. repeat (split; [reflexivity|]).
  intros a c c' H1 H2. assert (c' = c) by congruence. subst. lia.
Qed.

Lemma only_releases_trans s1 s2 s3 :
  only_releases s1 s2 -> only_releases s2 s3 -> only_releases s1 s3.
Proof.
  intros (A1 & A2 & A3 & A4 & A5 & A6 & A7 & A8 & A9 & A10 & A11)
         (B1 & B2 & B3 & B4 & B5 & B6 & B7 & B8 & B9 & B10 & B11).
  unfold only_releases. repeat (split; [congruence|]).
  intros a c c' H1 H3.
  assert (H2 : exists c2, stepHeap s2 !! a = Some c2).
  { assert (Hl : objs s2 !! a = objs s1 !! a) by (rewrite A10; reflexivity).
    unfold objs in Hl. rewrite !list_lookup_fmap, H1 in Hl.
    destruct (stepHeap s2 !! a) as [c2|]; [eauto|discriminate]. }
  destruct H2 as (c2 & H2). specialize (A11 a c c2 H1 H2). specialize (B11 a c2 c' H2 H3).
  lia.
Qed.

Lemma eraseBuild_releases i b s :
  builds (eraseBuild i b s) = delete i (builds s) /\ only_releases s (eraseBuild i b s).
Proof.
  unfold eraseBuild.
  pose proof (dropBuild_objs b (set_builds (delete i (builds s)) s)) as Ho.
  unfold dropBuild in *. destruct (bool_decide _).
  - split; [reflexivity|]. apply (only_releases_refl s).
  - split; [reflexivity|]. unfold only_releases. sproj.
    repeat (split; [reflexivity|]). split; [exact Ho|].
    intros a c c' H1 H2. destruct (Build.toplevel _) as [x|]; cbn [release_opt] in H2.
    + apply release_fuel_cell in H2. destruct H2 as (c0 & H0 & _ & Hle).
      assert (c0 = c) by congruence. subst. exact Hle.
    + assert (c' = c) by congruence. subst. lia.
Qed.

Lemma reap_fold ids : forall l s,
  (forall i b, builds (fold_left (reapEntry ids) l s) !! i = Some b <->
     builds s !! i = Some b /\ (i ∈ ids \/ i ∉ (fst <$> l))) /\
  only_releases s (fold_left (reapEntry ids) l s).
Proof.
  induction l as [|[j c] l IH]; intros s; cbn [fold_left].
  - split; [|apply only_releases_refl]. intros i b. split; [|tauto].
    intros H. split; [exact H|]. right. apply not_elem_of_nil.
  - destruct (IH (reapEntry ids s (j, c))) as [IH1 IH2]. clear IH.
    assert (Hr : ((j ∈ ids) /\ reapEntry ids s (j, c) = s) \/
                 ((j ∉ ids) /\ reapEntry ids s (j, c) = eraseBuild j c s)).
    { unfold reapEntry. cbn [fst snd].
      destruct (bool_decide_reflect (j ∈ ids)); [left|right]; auto. }
    destruct Hr as [[Hj Hr]|[Hj Hr]]; rewrite Hr in *.
    + split; [|exact IH2]. intros i b. rewrite IH1, fmap_cons, not_elem_of_cons.
      cbn [fst]. split; intros [H1 H2]; (split; [exact H1|]).
      * destruct H2 as [H2|H2]; [left; exact H2|].
        destruct (decide (i = j)) as [->|Hne]; [left; exact Hj|right; auto].
      * destruct H2 as [H2|[_ H2]]; auto.
    + destruct (eraseBuild_releases j c s) as [Hb Ho].
      split; [|eapply only_releases_trans; eassumption].
      intros i b. rewrite IH1, Hb, fmap_cons, not_elem_of_cons. cbn [fst].
      rewrite lookup_delete_Some. split.
      * intros [[Hne H1] H2]. split; [exact H1|]. destruct H2; auto.
      * intros [H1 H2]. destruct H2 as [H2|[Hne H2]].
        -- split; [|left; exact H2]. split; [|exact H1]. intros ->. contradiction.
        -- auto.
Qed.

Lemma removeCancelledBuilds_spec s :
  (forall i b, builds (removeCancelledBuilds s) !! i = Some b <->
     builds s !! i = Some b /\ queued_id (db s) i) /\
  only_releases s (removeCancelledBuilds s).
Proof.
  unfold removeCancelledBuilds.
  destruct (reap_fold (currentIds (db s)) (builds_in_order (builds s)) s) as [H1 H2].
  split; [|exact H2]. intros i b. rewrite H1, <- elem_of_currentIds.
  split; intros [Hb H]; (split; [exact Hb|]); [|left; exact H].
  destruct H as [H|H]; [exact H|]. exfalso. apply H.
  apply list_elem_of_fmap. exists (i, b). split; [reflexivity|].
  apply elem_of_builds_in_order. exact Hb.
Qed.

Lemma reap_fold_id ids : forall l s,
  (forall e, e ∈ l -> e.1 ∈ ids) -> fold_left (reapEntry ids) l s = s.
Proof.
  induction l as [|e l IH]; intros s H; cbn [fold_left]; [reflexivity|].
  assert (He : reapEntry ids s e = s).
  { unfold reapEntry. rewrite bool_decide_eq_true_2; [reflexivity|].
    apply H. apply list_elem_of_here. }
  rewrite He. apply IH. intros e' He'. apply H. apply list_elem_of_further. exact He'.
Qed.

Lemma removeCancelledBuilds_fixed_aux s :
  (forall i, is_Some (builds s !! i) -> queued_id (db s) i) ->
  removeCancelledBuilds s = s.
Proof.
  intros H. unfold removeCancelledBuilds. apply reap_fold_id.
  intros [i b] He. apply elem_of_builds_in_order in He. cbn [fst].
  apply elem_of_currentIds. apply H. eauto.
Qed.

Lemma hinv_releases s s' : only_releases s s' -> hinv s -> hinv s'.
Proof.
  intros (_ & Hs & _ & _ & _ & _ & _ & _ & Hr & Ho & _). apply hinv_same; assumption.
Qed.

Lemma settled_releases s s' : only_releases s s' -> settled s -> settled s'.
Proof.
  intros (_ & _ & _ & _ & _ & _ & _ & _ & _ & Ho & Hle). apply settled_quiet.
  apply quiet_shrink. intros a c' Hc'.
  assert (H : exists c, stepHeap s !! a = Some c /\ obj c = obj c').
  { assert (Hl : objs s' !! a = objs s !! a) by (rewrite Ho; reflexivity).
    unfold objs in Hl. rewrite !list_lookup_fmap, Hc' in Hl.
    destruct (stepHeap s !! a) as [c|]; [|discriminate]. exists c.
    split; [reflexivity|]. cbn in Hl. congruence. }
  destruct H as (c & Hc & Hobj). exists c. split; [exact Hc|]. split; [exact Hobj|].
  eapply Hle; eassumption.
Qed.

(** X12. The reaper keeps exactly the builds that are still queued: an
    entry of [builds] survives removeCancelledBuilds when, and only when,
    the table has an unfinished row with its id. Nothing else is written:
    the table, the trace, the counters, the build objects and the step
    objects are as before, and no step gains an owner. *)
Theorem removeCancelledBuilds_discards s :
  (forall i b, builds (removeCancelledBuilds s) !! i = Some b <->
     builds s !! i = Some b /\
     exists r, r ∈ db s /\ Row.id r = i /\ Row.finished r = 0%Z) /\
  only_releases s (removeCancelledBuilds s).
Proof.
  unfold removeCancelledBuilds.
  destruct (reap_fold (currentIds (db s)) (builds_in_order (builds s)) s) as [H1 H2].
  split; [|exact H2]. intros i b. rewrite H1.
  change (exists r, r ∈ db s /\ Row.id r = i /\ Row.finished r = 0%Z)
    with (queued_id (db s) i).
  rewrite <- elem_of_currentIds.
  split; intros [Hb H]; (split; [exact Hb|]); [|left; exact H].
  destruct H as [H|H]; [exact H|]. exfalso. apply H.
  apply list_elem_of_fmap. exists (i, b). split; [reflexivity|].
  apply elem_of_builds_in_order. exact Hb.
Qed.

(** X13. When every build of [builds] is still queued, the reaper changes
    nothing at all. *)
Theorem removeCancelledBuilds_nothing_cancelled s :
  (forall i, is_Some (builds s !! i) ->
     exists r, r ∈ db s /\ Row.id r = i /\ Row.finished r = 0%Z) ->
  removeCancelledBuilds s = s.
Proof.
  intros H. unfold removeCancelledBuilds. apply reap_fold_id.
  intros [i b] He. apply elem_of_builds_in_order in He. cbn [fst].
  apply elem_of_currentIds. apply H. eauto.
Qed.

Lemma removeCancelledBuilds_nothing_cancelled_witness :
  removeCancelledBuilds state_56_done = state_56_done.
Proof.
  apply removeCancelledBuilds_nothing_cancelled. intros i [b Hb].
  apply elem_of_map_to_list in Hb.
  replace (map_to_list (builds state_56_done)) with [(6%N, 1); (5%N, 0)] in Hb
    by (vm_compute; reflexivity).
  apply elem_of_cons in Hb. destruct Hb as [Hb|Hb].
  - injection Hb as -> ->. exists (row0 6%N "/d/C").
    split; [|split; reflexivity].
    apply (list_elem_of_lookup_2 _ 1). vm_compute. reflexivity.
  - apply list_elem_of_singleton in Hb. injection Hb as -> ->.
    exists (row0 5%N "/d/A"). split; [|split; reflexivity].
    apply (list_elem_of_lookup_2 _ 0). vm_compute. reflexivity.
Defined.

(** X14. Running the reaper twice is the same as running it once. *)
Theorem removeCancelledBuilds_idempotent s :
  removeCancelledBuilds (removeCancelledBuilds s) = removeCancelledBuilds s.
Proof.
  destruct (removeCancelledBuilds_spec s) as [Hb Hr].
  apply removeCancelledBuilds_fixed_aux. intros i [b Hi].
  apply Hb in Hi. destruct Hi as [_ Hq].
  destruct Hr as (_ & _ & Hdb & _). rewrite Hdb. exact Hq.
Qed.

(** ** Unwinding after an exception *)

Lemma shrinks_refl h : shrinks h h.
Proof.
  split; [reflexivity|]. intros a c c' H1 H2. assert (c' = c) by congruence. subst.
  destruct (Step.created (obj c)); [left; reflexivity|right; split; [reflexivity|lia]].
Qed.

Lemma shrinks_trans h1 h2 h3 : shrinks h1 h2 -> shrinks h2 h3 -> shrinks h1 h3.
Proof.
  intros [L1 H1] [L2 H2]. split; [congruence|]. intros a c c3 Hc Hc3.
  destruct (h2 !! a) as [c2|] eqn:Hc2.
  - destruct (H2 a c2 c3 Hc2 Hc3) as [?|[Hn2 Hle2]]; [left; assumption|].
    destruct (H1 a c c2 Hc Hc2) as [?|[Hn1 Hle1]]; [congruence|].
    right. split; [assumption|lia].
  - apply lookup_ge_None in Hc2. apply lookup_lt_Some in Hc. lia.
Qed.

Lemma shrinks_retain x h :
  Step.created (step_at h x) = true -> shrinks h (retain x h).
Proof.
  intros Hx. split; [apply retain_length|]. intros a c c' Hc Hc'.
  rewrite retain_lookup, Hc in Hc'. destruct (decide (x = a)) as [->|Hne].
  - injection Hc' as <-. left. unfold step_at in Hx. rewrite Hc in Hx. exact Hx.
  - injection Hc' as <-.
    destruct (Step.created (obj c)); [left; reflexivity|right; split; [reflexivity|lia]].
Qed.

Lemma shrinks_update f x h :
  (forall o, Step.created o = true -> Step.created (f o) = true) ->
  shrinks h (update_step f x h).
Proof.
  intros Hf. split; [apply update_step_length|]. intros a c c' Hc Hc'.
  rewrite update_step_lookup, Hc in Hc'. destruct (decide (x = a)) as [->|Hne];
    injection Hc' as <-; cbn [obj strong].
  - destruct (Step.created (obj c)) eqn:Hcr; [left; apply Hf; exact Hcr|].
    destruct (Step.created (f (obj c))); [left; reflexivity|right; split; [reflexivity|lia]].
  - destruct (Step.created (obj c)); [left; reflexivity|right; split; [reflexivity|lia]].
Qed.

Lemma release_length x h : length (release x h) = length h.
Proof.
  pose proof (release_objs x h) as H. apply (f_equal length) in H.
  rewrite !length_fmap in H. exact H.
Qed.

Lemma shrinks_release x h : shrinks h (release x h).
Proof.
  split; [apply release_length|]. intros a c c' Hc Hc'.
  apply release_fuel_cell in Hc'. destruct Hc' as (c0 & H0 & Ho & Hle).
  assert (c0 = c) by congruence. subst c0. rewrite <- Ho.
  destruct (Step.created (obj c)); [left; reflexivity|right; split; [reflexivity|exact Hle]].
Qed.

Lemma shrinks_release_all l : forall h, shrinks h (release_all l h).
Proof.
  induction l as [|x l IH]; intros h; cbn [release_all fold_left].
  - apply shrinks_refl.
  - eapply shrinks_trans; [apply shrinks_release|apply IH].
Qed.

Lemma shrinks_release_opt o h : shrinks h (release_opt o h).
Proof. destruct o; [apply shrinks_release|apply shrinks_refl]. Qed.

Lemma unwinds_refl s : unwinds s s.
Proof.
  split; [lia|auto| |].
  - intros a c Hc. exists c. split; [exact Hc|].
    destruct (Step.created (obj c)); [left; reflexivity|right; split; [reflexivity|lia]].
  - intros a c' Hc Hge. apply lookup_lt_Some in Hc. lia.
Qed.

Lemma unwinds_trans s1 s2 s3 : unwinds s1 s2 -> unwinds s2 s3 -> unwinds s1 s3.
Proof.
  intros [L1 S1 O1 N1] [L2 S2 O2 N2]. split; [lia|auto| |].
  - intros a c Hc. destruct (O1 a c Hc) as (c2 & Hc2 & H12).
    destruct (O2 a c2 Hc2) as (c3 & Hc3 & H23). exists c3. split; [exact Hc3|].
    destruct H23 as [?|[Hn2 Hle2]]; [left; assumption|].
    destruct H12 as [?|[Hn1 Hle1]]; [congruence|]. right. split; [assumption|lia].
  - intros a c3 Hc3 Hge Hcr Hpos.
    destruct (stepHeap s2 !! a) as [c2|] eqn:Hc2.
    + destruct (O2 a c2 Hc2) as (c3' & Hc3' & H23).
      assert (c3' = c3) by congruence. subst c3'.
      destruct H23 as [?|[Hn2 Hle2]]; [congruence|].
      destruct (N1 a c2 Hc2 Hge Hn2 ltac:(lia)) as [He Hin]. split; [lia|auto].
    + apply lookup_ge_None in Hc2. apply (N2 a c3); assumption.
Qed.

Lemma unwinds_shrinks s s' :
  shrinks (stepHeap s) (stepHeap s') ->
  (forall a, a ∈ newSteps s -> a ∈ newSteps s') -> unwinds s s'.
Proof.
  intros [L H] Hs. split; [lia|exact Hs| |].
  - intros a c Hc. destruct (stepHeap s' !! a) as [c'|] eqn:Hc'.
    + exists c'. split; [reflexivity|]. eapply H; eassumption.
    + apply lookup_ge_None in Hc'. apply lookup_lt_Some in Hc. lia.
  - intros a c' Hc' Hge. apply lookup_lt_Some in Hc'. lia.
Qed.

Lemma link_dep_unwinds st dep s :
  Step.created (step_at (stepHeap s) dep) = true -> unwinds s (link_dep st dep s).
Proof.
  intros Hd. apply unwinds_shrinks; [|auto]. unfold link_dep.
  change (stepHeap (set_stepHeap ?h _)) with h.
  eapply shrinks_trans; [|apply shrinks_release].
  destruct (set_has dep _); [apply shrinks_refl|].
  eapply shrinks_trans;
    [|apply shrinks_retain; apply step_at_update; [reflexivity|auto|exact Hd]].
  apply shrinks_update. auto.
Qed.

Lemma createDeps_unwinds rec st :
  step_unwinds rec ->
  forall inputs s,
    match createDeps rec st inputs s with
    | Ok _ s' | Throw s' => unwinds s s'
    | AssertFail | OutOfFuel => True
    end.
Proof.
  intros Hrec. induction inputs as [|[q l] inputs IH]; intros s; cbn [createDeps].
  - apply unwinds_refl.
  - pose proof (Hrec q None (Some st) s) as H1.
    destruct (rec q None (Some st) s) as [[dep|] s1|s1| |]; try exact I; [| |exact H1].
    + destruct H1 as [H1 Hd]. specialize (Hd dep eq_refl).
      pose proof (link_dep_unwinds st dep s1 Hd) as H2.
      specialize (IH (link_dep st dep s1)).
      destruct (createDeps rec st inputs _); try exact I;
        (eapply unwinds_trans; [exact H1|]; eapply unwinds_trans; [exact H2|exact IH]).
    + destruct H1 as [H1 _]. specialize (IH s1).
      destruct (createDeps rec st inputs s1); try exact I;
        (eapply unwinds_trans; [exact H1|exact IH]).
Qed.

(** Letting go of a step takes one owner away. *)
Lemma release_self x h c c' :
  h !! x = Some c -> release x h !! x = Some c' -> strong c' <= pred (strong c).
Proof.
  intros Hc Hc'. unfold release in Hc'. cbn [release_fuel] in Hc'. rewrite Hc in Hc'.
  assert (Hlt : x < length h) by (eapply lookup_lt_Some; eassumption).
  destruct (strong c) as [|[|k]] eqn:Hs.
  - assert (c' = c) by congruence. subst. lia.
  - assert (Hfold : forall ds h0 c0,
              fold_left (fun h' d => release_fuel (length h) d h') ds h0 !! x = Some c0 ->
              exists c1, h0 !! x = Some c1 /\ strong c0 <= strong c1).
    { induction ds as [|d ds IHd]; intros h0 c0 H0; cbn [fold_left] in H0.
      - exists c0. auto.
      - apply IHd in H0. destruct H0 as (c1 & H1 & Hle).
        apply release_fuel_cell in H1. destruct H1 as (c2 & H2 & _ & Hle2).
        exists c2. split; [assumption|lia]. }
    apply Hfold in Hc'. destruct Hc' as (c1 & H1 & Hle).
    rewrite list_lookup_insert_eq in H1 by assumption. injection H1 as <-.
    cbn in Hle. lia.
  - rewrite list_lookup_insert_eq in Hc' by assumption. injection Hc' as <-. cbn. lia.
Qed.

Lemma unwinds_dropped s s' c :
  stepHeap s' = (stepHeap s ++ [c])%list -> strong c = 0 ->
  newSteps s' = newSteps s -> unwinds s s'.
Proof.
  intros Hh Hc Hn. split.
  - rewrite Hh, length_app. lia.
  - intros a. rewrite Hn. auto.
  - intros a x Hx. exists x. split; [rewrite Hh; apply lookup_app_l_Some; exact Hx|].
    destruct (Step.created (obj x)); [left; reflexivity|right; split; [reflexivity|lia]].
  - intros a c' Hc' Hge _ Hpos. rewrite Hh in Hc'.
    rewrite lookup_app_r in Hc' by exact Hge.
    destruct (a - length (stepHeap s)) as [|k]; [|destruct k; discriminate].
    injection Hc' as <-. lia.
Qed.

Lemma finishStep_cells n s r s' :
  finishStep n s = Ok r s' ->
  r = Some n /\ newSteps s' = newSteps s /\
  length (stepHeap s') = length (stepHeap s) /\
  (forall a, a <> n -> stepHeap s' !! a = stepHeap s !! a) /\
  (forall c, stepHeap s' !! n = Some c -> Step.created (obj c) = true).
Proof.
  unfold finishStep. destruct (Step.created (step_at (stepHeap s) n)); [discriminate|].
  change (stepHeap (set_stepHeap ?h _)) with h.
  assert (H0 : forall c, update_step Step.set_created n (stepHeap s) !! n = Some c ->
                 Step.created (obj c) = true).
  { intros c Hc. rewrite update_step_lookup, decide_True in Hc by reflexivity.
    destruct (stepHeap s !! n); [|discriminate]. injection Hc as <-. reflexivity. }
  assert (H1 : forall a, a <> n ->
                 update_step Step.set_created n (stepHeap s) !! a = stepHeap s !! a).
  { intros a Ha. rewrite update_step_lookup, decide_False by congruence. reflexivity. }
  destruct (Step.deps _); intros [= <- <-].
  - unfold insert_newRunnable. cbn [newRunnable set_stepHeap stepHeap].
    destruct (set_has n _).
    + split; [reflexivity|]. split; [reflexivity|]. cbn [stepHeap set_stepHeap].
      split; [apply update_step_length|]. split; assumption.
    + split; [reflexivity|]. split; [reflexivity|].
      cbn [stepHeap set_stepHeap set_newRunnable].
      split; [rewrite retain_length; apply update_step_length|]. split.
      * intros a Ha. rewrite retain_lookup, decide_False by congruence. apply H1, Ha.
      * intros c Hc. rewrite retain_lookup, decide_True in Hc by reflexivity.
        destruct (update_step _ _ _ !! n) as [c0|] eqn:H2; [|discriminate].
        injection Hc as <-. cbn. apply H0. reflexivity.
  - split; [reflexivity|]. split; [reflexivity|]. cbn [stepHeap set_stepHeap].
    split; [apply update_step_length|]. split; assumption.
Qed.

Section UnderConstruction.

Variables (s s4 s5 : State) (c4 : StepCell).
Let n := length (stepHeap s).
Hypothesis Hh4 : stepHeap s4 = (stepHeap s ++ [c4])%list.
Hypothesis Hc4 : strong c4 <= 2.
Hypothesis Hn4 : n ∈ newSteps s4.
Hypothesis Hs4 : forall a, a ∈ newSteps s -> a ∈ newSteps s4.
Hypothesis U : unwinds s4 s5.

Lemma local_old a c :
  stepHeap s !! a = Some c ->
  exists c5, stepHeap s5 !! a = Some c5 /\
    (Step.created (obj c5) = true \/
     (Step.created (obj c) = false /\ strong c5 <= strong c)).
Proof.
  intros Hc. apply (uw_old _ _ U). rewrite Hh4. apply lookup_app_l_Some. exact Hc.
Qed.

Lemma local_len : S n <= length (stepHeap s5).
Proof.
  pose proof (uw_len _ _ U) as H. rewrite Hh4, length_app in H. cbn in H.
  unfold n. lia.
Qed.

Lemma local_self :
  exists c5, stepHeap s5 !! n = Some c5 /\
    (Step.created (obj c5) = true \/ strong c5 <= 2).
Proof.
  destruct (uw_old _ _ U n c4) as (c5 & H5 & H).
  - rewrite Hh4. unfold n. rewrite lookup_app_r, Nat.sub_diag by lia. reflexivity.
  - exists c5. split; [exact H5|]. destruct H as [?|[_ ?]]; [left; assumption|right; lia].
Qed.

Lemma local_new a c5 :
  stepHeap s5 !! a = Some c5 -> n < a ->
  Step.created (obj c5) = false -> 0 < strong c5 ->
  strong c5 = 1 /\ a ∈ newSteps s5.
Proof.
  intros H5 Hlt. apply (uw_new _ _ U a c5 H5).
  rewrite Hh4, length_app. cbn. unfold n in Hlt. lia.
Qed.

Lemma unwinds_thrown : unwinds s (drop_step n s5).
Proof.
  unfold drop_step.
  destruct (shrinks_release n (stepHeap s5)) as [Hl Hsh].
  split; cbn [stepHeap set_stepHeap newSteps].
  - rewrite Hl. pose proof local_len. unfold n in *. lia.
  - intros a Ha. apply (uw_steps _ _ U). auto.
  - intros a c Hc. destruct (local_old a c Hc) as (c5 & H5 & H).
    destruct (release n (stepHeap s5) !! a) as [c'|] eqn:Hc'.
    + exists c'. split; [reflexivity|].
      destruct (Hsh a c5 c' H5 Hc') as [?|[Hn5 Hle5]]; [left; assumption|].
      destruct H as [?|[Hn Hle]]; [congruence|]. right. split; [assumption|lia].
    + apply lookup_ge_None in Hc'. apply lookup_lt_Some in H5. lia.
  - intros a c' Hc' Hge Hcr Hpos.
    pose proof (release_fuel_cell _ _ _ _ _ Hc') as (c5 & H5 & Ho & Hle).
    rewrite <- Ho in Hcr.
    destruct (decide (a = n)) as [->|Hne].
    + destruct local_self as (c5' & H5' & H). assert (c5' = c5) by congruence. subst c5'.
      destruct H as [?|H]; [congruence|].
      pose proof (release_self _ _ _ _ H5 Hc') as Hp.
      split; [lia|]. apply (uw_steps _ _ U). exact Hn4.
    + destruct (local_new a c5 H5 ltac:(unfold n in *; lia) Hcr ltac:(lia)) as [H1 H2].
      split; [lia|exact H2].
Qed.

Lemma unwinds_finished r s6 :
  finishStep n s5 = Ok r s6 ->
  unwinds s s6 /\
  forall d, r = Some d -> Step.created (step_at (stepHeap s6) d) = true.
Proof.
  intros Hfin. destruct (finishStep_cells _ _ _ _ Hfin) as (-> & Hns & Hl & Hoth & Hself).
  destruct local_self as (c5 & H5 & _).
  assert (H6 : exists c6, stepHeap s6 !! n = Some c6).
  { apply lookup_lt_is_Some. rewrite Hl. eapply lookup_lt_Some. exact H5. }
  destruct H6 as (c6 & H6). split.
  - split.
    + rewrite Hl. pose proof local_len. unfold n in *. lia.
    + intros a Ha. rewrite Hns. apply (uw_steps _ _ U). auto.
    + intros a c Hc. destruct (local_old a c Hc) as (c5' & H5' & H).
      exists c5'. split; [|exact H]. rewrite Hoth; [exact H5'|].
      apply lookup_lt_Some in Hc. unfold n. lia.
    + intros a c' Hc' Hge Hcr Hpos.
      assert (Hne : a <> n).
      { intros ->. rewrite (Hself c' Hc') in Hcr. discriminate. }
      rewrite Hoth in Hc' by exact Hne. rewrite Hns.
      apply (local_new a c' Hc'); [unfold n in *; lia|assumption|assumption].
  - intros d [= <-]. unfold step_at. rewrite H6. apply Hself. exact H6.
Qed.

End UnderConstruction.

Lemma createStep_body_unwinds E rec :
  step_unwinds rec -> step_unwinds (createStep_body E rec).
Proof.
  intros Hrec p rb rs s. unfold createStep_body.
  destruct (bool_decide (p ∈ finishedDrvs s)).
  { split; [apply unwinds_refl|discriminate]. }
  assert (Hcases : (exists w, steps s !! p = Some w /\ live (stepHeap s) w) \/
                   no_live_entry s p).
  { destruct (steps s !! p) as [w|] eqn:Hw.
    - destruct (live_dec (stepHeap s) w) as [Hl|Hd]; [left; eauto|].
      right. intros w' Hw'. assert (w' = w) as -> by congruence. exact Hd.
    - right. intros w' Hw'. congruence. }
  destruct Hcases as [(w & Hw & Hl)|Hnl].
  { destruct (Step.created (step_at (stepHeap s) w)) eqn:Hc.
    - rewrite (internStep_live _ _ _ _ _ Hw Hl Hc). split.
      + apply unwinds_shrinks; [|auto]. unfold relinked. cbn [stepHeap set_steps set_stepHeap].
        eapply shrinks_trans; [apply shrinks_retain; exact Hc|].
        apply shrinks_update. intros o Ho. rewrite link_back_created. exact Ho.
      + intros d [= <-]. unfold relinked. cbn [stepHeap set_steps set_stepHeap].
        apply step_at_update.
        * rewrite link_back_created. reflexivity.
        * intros o Ho. rewrite link_back_created. exact Ho.
        * rewrite step_at_retain. exact Hc.
    - rewrite (internStep_assert _ _ _ _ _ Hw Hl Hc). exact I. }
  destruct (internStep_fresh p rb rs s Hnl) as (m & Hint). rewrite Hint.
  set (s1 := installed p rb rs m s).
  set (n := length (stepHeap s)).
  set (c1 := mkCell (link_back rb rs (Step.fresh p)) 1).
  assert (Hh1 : stepHeap s1 = (stepHeap s ++ [c1])%list) by reflexivity.
  set (s2 := set_trace (trace s1 ++ [EvReadDerivation p]) s1).
  destruct (readDerivation E p) as [drv|].
  2:{ apply (unwinds_dropped s _ (mkCell (obj c1) 0)); [|reflexivity|reflexivity].
      change (release n (stepHeap s1) = (stepHeap s ++ [mkCell (obj c1) 0])%list).
      rewrite Hh1. apply release_last; [reflexivity|reflexivity|].
      cbn. apply link_back_deps. }
  set (F := Step.set_drv drv (required_features E drv) (prefer_local E drv)).
  set (s3 := set_stepHeap (update_step F n (stepHeap s2)) s2).
  set (c3 := mkCell (F (obj c1)) 1).
  assert (Hh3 : stepHeap s3 = (stepHeap s ++ [c3])%list).
  { change (stepHeap s3) with (update_step F n (stepHeap s1)).
    rewrite Hh1. apply update_step_snoc. }
  destruct (all_outputs_valid E drv).
  { split; [|discriminate].
    apply (unwinds_dropped s _ (mkCell (obj c3) 0)); [|reflexivity|reflexivity].
    change (release n (stepHeap s3) = (stepHeap s ++ [mkCell (obj c3) 0])%list).
    rewrite Hh3. apply release_last; [reflexivity|reflexivity|].
    cbn. apply link_back_deps. }
  set (s4 := insert_newSteps n s3).
  assert (H4 : exists c4, stepHeap s4 = (stepHeap s ++ [c4])%list /\ strong c4 <= 2).
  { unfold s4, insert_newSteps. destruct (set_has n (newSteps s3)).
    - exists c3. split; [exact Hh3|cbn; lia].
    - exists (mkCell (obj c3) 2). split; [|cbn; lia].
      cbn [stepHeap set_stepHeap set_newSteps]. rewrite Hh3. unfold retain, n.
      rewrite lookup_app_r, Nat.sub_diag by lia. cbn [lookup list_lookup].
      rewrite insert_app_r_alt, Nat.sub_diag by lia. reflexivity. }
  destruct H4 as (c4 & Hh4 & Hc4).
  destruct (insert_newSteps_spec n s3) as (_ & _ & Hn4 & _).
  fold s4 in Hn4.
  assert (Hin4 : n ∈ newSteps s4) by (apply Hn4; left; reflexivity).
  assert (Hs4 : forall a, a ∈ newSteps s -> a ∈ newSteps s4).
  { intros a Ha. apply Hn4. right. exact Ha. }
  pose proof (createDeps_unwinds rec n Hrec (Derivation.inputDrvs drv) s4) as U.
  destruct (createDeps rec n (Derivation.inputDrvs drv) s4) as [[] s5|s5| |];
    try exact I.
  - pose proof (unwinds_finished s s4 s5 c4 Hh4 Hc4 Hs4 U) as HF.
    fold n in HF. destruct (finishStep n s5) as [r s6| | |] eqn:Hfin; try exact I.
    + apply (HF r s6 eq_refl).
    + unfold finishStep in Hfin. destruct (Step.created _); [discriminate|].
      destruct (Step.deps _); discriminate.
  - exact (unwinds_thrown s s4 s5 c4 Hh4 Hc4 Hin4 Hs4 U).
Qed.

Lemma createStep_unwinds E : forall fuel, step_unwinds (createStep fuel E).
Proof.
  induction fuel as [|fuel IH]; [intros p rb rs s; exact I|].
  cbn [createStep]. apply createStep_body_unwinds. exact IH.
Qed.

Lemma release_all_cell l : forall h a c',
  release_all l h !! a = Some c' ->
  exists c, h !! a = Some c /\ obj c = obj c' /\ strong c' <= strong c.
Proof.
  induction l as [|x l IH]; intros h a c' H; cbn [release_all fold_left] in H.
  - exists c'. auto.
  - apply IH in H. destruct H as (c1 & H1 & Ho1 & Hle1).
    apply release_fuel_cell in H1. destruct H1 as (c & Hc & Ho & Hle).
    exists c. split; [exact Hc|]. split; [congruence|lia].
Qed.

Lemma release_all_member l : forall h a c c',
  a ∈ l -> h !! a = Some c -> strong c <= 1 ->
  release_all l h !! a = Some c' -> strong c' = 0.
Proof.
  induction l as [|x l IH]; intros h a c c' Ha Hc Hle Hc'.
  - apply elem_of_nil in Ha. contradiction.
  - cbn [release_all fold_left] in Hc'.
    assert (H1 : exists c1, release x h !! a = Some c1).
    { apply lookup_lt_is_Some. rewrite release_length. eapply lookup_lt_Some. exact Hc. }
    destruct H1 as (c1 & H1).
    destruct (decide (a = x)) as [->|Hne].
    + pose proof (release_self _ _ _ _ Hc H1) as Hp.
      apply release_all_cell in Hc'. destruct Hc' as (c2 & H2 & _ & Hle2).
      assert (c2 = c1) by congruence. subst. lia.
    + apply elem_of_cons in Ha. destruct Ha as [?|Ha]; [contradiction|].
      apply (IH (release x h) a c1 c' Ha H1); [|exact Hc'].
      apply release_fuel_cell in H1. destruct H1 as (c0 & H0 & _ & Hle0).
      assert (c0 = c) by congruence. subst. lia.
Qed.

(** The locals of createBuild go out of scope after createStep has
    thrown: no step is left under construction. *)
Lemma settled_leave_thrown s0 s2 :
  settled s0 -> unwinds s0 s2 -> settled (leave None s2).
Proof.
  intros Hs U a q (c' & Hc' & Hpos & Hcr & _). unfold leave in Hc'.
  cbn [stepHeap set_stepHeap release_opt] in Hc'.
  pose proof (release_all_cell _ _ _ _ Hc') as (c2 & H2 & Ho & Hle).
  rewrite <- Ho in Hcr.
  destruct (stepHeap s0 !! a) as [c0|] eqn:H0.
  - destruct (uw_old _ _ U a c0 H0) as (c2' & H2' & H).
    assert (c2' = c2) by congruence. subst c2'.
    destruct H as [?|[Hn0 Hle0]]; [congruence|].
    destruct (strong c0) eqn:Hk; [lia|].
    apply (Hs a (Step.drvPath (obj c0))). exists c0.
    split; [exact H0|]. split; [lia|]. split; [exact Hn0|reflexivity].
  - apply lookup_ge_None in H0.
    destruct (uw_new _ _ U a c2 H2 H0 Hcr ltac:(lia)) as [H1 Hin].
    pose proof (release_all_member _ _ _ _ _ Hin H2 ltac:(lia) Hc'). lia.
Qed.

Lemma piggybackPath_unwinds E k rec p :
  build_spec rec -> build_total E k rec -> build_unwinds k rec ->
  forall n s, hinv s -> settled s ->
    length (newBuilds s) <= k -> length (newBuilds s) <= n ->
    match piggybackPath n rec p s with
    | Throw s' => settled s'
    | _ => True
    end.
Proof.
  intros Hspec Htot Hunw. induction n as [|n IH]; intros s Hh Hs Hk Hn.
  - cbn [piggybackPath]. destruct (find_erase p (newBuilds s)) as [[b rest]|]; exact I.
  - cbn [piggybackPath].
    destruct (find_erase p (newBuilds s)) as [[b rest]|] eqn:Hf; [|exact I].
    destruct (find_erase_Some _ _ _ _ Hf) as (_ & _ & _ & Hlen).
    pose proof (Hspec b (set_newBuilds rest s) Hh) as H1.
    pose proof (Htot b (set_newBuilds rest s)) as H2.
    pose proof (Hunw b (set_newBuilds rest s)) as H3.
    cbn [newBuilds set_newBuilds] in H2, H3.
    specialize (H2 ltac:(lia) Hh Hs). specialize (H3 ltac:(lia) Hh Hs).
    destruct (rec b (set_newBuilds rest s)) as [[] s1|s1| |]; try exact I.
    + destruct H1 as (_ & Hh1 & _). destruct H2 as [Hs1 Hl1].
      destruct (dropBuild_quiet b s1) as [Hq Hnb].
      pose proof (dropBuild_objs b s1) as Hdo.
      destruct (dropBuild_tail b b s1) as (_ & Hds & Hdr & _).
      match goal with |- match piggybackPath n rec p ?t with _ => _ end =>
        assert (Hht : hinv t) by (eapply hinv_same; [| | |exact Hh1]; assumption);
        assert (Hst : settled t) by (eapply settled_quiet; [exact Hq|exact Hs1]);
        assert (Hnt : newBuilds t = newBuilds s1) by exact Hnb;
        specialize (IH t Hht Hst)
      end.
      rewrite Hnt in IH. specialize (IH ltac:(lia) ltac:(lia)). exact IH.
    + destruct (dropBuild_quiet b s1) as [Hq _].
      eapply settled_quiet; [|exact H3]. exact Hq.
Qed.

Lemma piggyback_unwinds E k rec :
  build_spec rec -> build_total E k rec -> build_unwinds k rec ->
  forall l s, hinv s -> settled s -> length (newBuilds s) <= k ->
    match piggyback rec l s with
    | Throw s' => settled s'
    | _ => True
    end.
Proof.
  intros Hspec Htot Hunw. induction l as [|r l IH]; intros s Hh Hs Hk; cbn [piggyback].
  - exact I.
  - pose proof (piggybackPath_total E k rec (Step.drvPath (step_at (stepHeap s) r))
                  Hspec Htot (length (newBuilds s)) s Hh Hs Hk (Nat.le_refl _)) as H1.
    pose proof (piggybackPath_unwinds E k rec (Step.drvPath (step_at (stepHeap s) r))
                  Hspec Htot Hunw (length (newBuilds s)) s Hh Hs Hk (Nat.le_refl _)) as H2.
    destruct (piggybackPath _ rec _ s) as [[] s1|s1| |]; try exact I; [|exact H2].
    destruct H1 as (Hh1 & Hs1 & Hl1).
    apply (IH s1 Hh1 Hs1). lia.
Qed.

Lemma createBuild_body_unwinds E rank K k recS rec :
  (forall p, rank p < K) ->
  step_spec E recS -> step_total E rank K recS -> step_unwinds recS ->
  build_spec rec -> build_total E k rec -> build_unwinds k rec ->
  build_unwinds (S k) (createBuild_body E recS rec).
Proof.
  intros HK HS HT HU HB HBT HBU b s Hk Hh Hs. unfold createBuild_body.
  set (s0 := loadBuild b s).
  destruct (negb (isValidPath E _)); [exact I|].
  assert (Hi1 : inv (freshLocals s0)).
  { apply inv_of_hinv; [exact Hh|]. intros a Ha. cbn in Ha.
    apply elem_of_nil in Ha. contradiction. }
  pose proof (HS (Build.drvPath (build_at (buildHeap s0) b)) (Some b) None
                (freshLocals s0) Hi1) as H1.
  pose proof (HT (Build.drvPath (build_at (buildHeap s0) b)) (Some b) None
                (freshLocals s0) (HK _) Hi1
                (fun a q Hp => False_ind _ (Hs a q Hp))) as H2.
  pose proof (HU (Build.drvPath (build_at (buildHeap s0) b)) (Some b) None
                (freshLocals s0)) as H3.
  destruct (recS _ (Some b) None (freshLocals s0)) as [step s2|s2| |]; try exact I.
  2:{ apply (settled_leave_thrown (freshLocals s0)); [exact Hs|exact H3]. }
  destruct H1 as (Hev & Hi2 & _ & _ & Hres).
  assert (Hs2 : settled s2) by (eapply settled_quiet; [exact H2|exact Hs]).
  assert (Hn2 : newBuilds s2 = newBuilds s).
  { pose proof (ev_outside _ _ _ Hev) as Ho. unfold outside in Ho.
    injection Ho as _ _ _ _ _ _ Ho _. exact Ho. }
  assert (Hk2 : length (newBuilds s2) <= k).
  { rewrite Hn2. lia. }
  pose proof (piggyback_total E k rec HB HBT (in_address_order E (newSteps s2)) s2 (hinv_of_inv _ Hi2) Hs2
                Hk2) as P2.
  pose proof (piggyback_unwinds E k rec HB HBT HBU (in_address_order E (newSteps s2)) s2 (hinv_of_inv _ Hi2)
                Hs2 Hk2) as P3.
  destruct (piggyback rec (in_address_order E (newSteps s2)) s2) as [[] s3|s3| |]; try exact I.
  2:{ destruct (leave_quiet step s3) as [Hq _]. eapply settled_quiet; eassumption. }
  destruct P2 as (Hh3 & Hs3 & Hl3).
  destruct step as [root|].
  - destruct (classify E b root (in_address_order E (newSteps s3)) s3) as [bad s4]. destruct bad; exact I.
  - pose proof (markCachedSuccess_heap E b s3) as Hm.
    assert (Hm' : match markCachedSuccess E b s3 with
                  | Throw s4 => stepHeap s4 = stepHeap s3
                  | _ => True
                  end).
    { unfold markCachedSuccess. destruct (readDerivation E _); [exact I|reflexivity]. }
    destruct (markCachedSuccess E b s3) as [[] s4|s4| |]; try exact I.
    destruct (leave_quiet None s4) as [Hq _].
    eapply settled_quiet; [exact Hq|]. intros a q Hp. rewrite Hm' in Hp.
    exact (Hs3 a q Hp).
Qed.

Lemma createBuild_unwinds E rank N :
  acyclic E rank -> (forall p, rank p < N) ->
  forall fuel, build_unwinds fuel (createBuild (N + fuel) E).
Proof.
  intros Hacy HN. induction fuel as [|fuel IH].
  - intros b s Hk. lia.
  - rewrite Nat.add_succ_r. cbn [createBuild].
    apply (createBuild_body_unwinds E rank (S (N + fuel))).
    + intros p. specialize (HN p). lia.
    + apply createStep_spec.
    + apply createStep_total. exact Hacy.
    + apply createStep_unwinds.
    + apply createBuild_spec.
    + apply (createBuild_total E rank N); assumption.
    + exact IH.
Qed.

(** ** Exceptions *)

Lemma failed_read_same E s s1 s2 :
  trace s2 = trace s1 -> failed_read E s s1 -> failed_read E s s2.
Proof. intros H (q & evs & Hq & Ht). exists q, evs. split; [exact Hq|congruence]. Qed.

Lemma failed_read_from E P s s1 s2 :
  adds P s s1 -> failed_read E s1 s2 -> failed_read E s s2.
Proof.
  intros (e1 & T1 & _) (q & evs & Hq & Ht). exists q, (e1 ++ evs)%list.
  split; [exact Hq|]. rewrite Ht, T1, <- !app_assoc. reflexivity.
Qed.

Lemma failed_read_now E s s' q :
  readDerivation E q = None -> trace s' = (trace s ++ [EvReadDerivation q])%list ->
  failed_read E s s'.
Proof. intros Hq Ht. exists q, []. split; [exact Hq|exact Ht]. Qed.

Lemma failed_read_last E s s' :
  failed_read E s s' ->
  exists q tr, readDerivation E q = None /\ trace s' = (tr ++ [EvReadDerivation q])%list.
Proof.
  intros (q & evs & Hq & Ht). exists q, (trace s ++ evs)%list.
  split; [exact Hq|]. rewrite Ht, app_assoc. reflexivity.
Qed.

Lemma length_update_where i f tbl : length (update_where i f tbl) = length tbl.
Proof. apply length_map. Qed.

Lemma length_apply_op bh tbl op : length (apply_op bh tbl op) = length tbl.
Proof.
  destruct op as [sql ps| |]; cbn [apply_op]; [|reflexivity|apply length_update_where].
  unfold exec_sql.
  destruct (String.eqb sql sql_abort_gced).
  { destruct ps as [|[] [|[] [|[] [|[] [|]]]]]; try reflexivity.
    apply length_update_where. }
  destruct (String.eqb sql sql_fail_build); [|reflexivity].
  destruct ps as [|[] [|[] [|[] [|[] [|]]]]]; try reflexivity.
  apply length_update_where.
Qed.

Lemma length_commit ops s : length (db (commit ops s)) = length (db s).
Proof.
  unfold commit. cbn [db set_trace set_db]. generalize (db s).
  induction ops as [|op ops IH]; intros tbl; cbn [fold_left]; [reflexivity|].
  rewrite IH. apply length_apply_op.
Qed.

Lemma ends_well_from {A} E P s s1 (r : Res A) :
  length (db s1) = length (db s) -> adds P s s1 ->
  ends_well E s1 r -> ends_well E s r.
Proof.
  intros H Ha. destruct r; cbn [ends_well]; [congruence| |auto|auto].
  intros [H1 H2]. split; [congruence|]. eapply failed_read_from; eassumption.
Qed.

Lemma createDeps_ends E rec st :
  (forall p rb rs s, ends_well E s (rec p rb rs s)) ->
  (forall p rb rs s,
     match rec p rb rs s with
     | Ok _ s' | Throw s' => adds run_event s s'
     | _ => True
     end) ->
  forall inputs s, ends_well E s (createDeps rec st inputs s).
Proof.
  intros Hrec Hadd. induction inputs as [|[q l] inputs IH]; intros s; cbn [createDeps].
  - reflexivity.
  - pose proof (Hrec q None (Some st) s) as H1.
    pose proof (Hadd q None (Some st) s) as H2.
    destruct (rec q None (Some st) s) as [[dep|] s1|s1| |]; try exact I; [| |exact H1].
    + apply (ends_well_from E run_event s (link_dep st dep s1)); [exact H1| |apply IH].
      eapply adds_trans; [exact H2|]. apply adds_refl. reflexivity.
    + apply (ends_well_from E run_event s s1); [exact H1|exact H2|apply IH].
Qed.

Lemma createStep_ends E fuel : forall p rb rs s,
  ends_well E s (createStep fuel E p rb rs s).
Proof.
  induction fuel as [|fuel IH]; intros p rb rs s; [exact I|].
  cbn [createStep]. unfold createStep_body.
  destruct (bool_decide (p ∈ finishedDrvs s)); [reflexivity|].
  destruct (internStep p rb rs s) as [[n isNew] s1|s1| |] eqn:Hint; try exact I.
  2:{ exfalso. eapply internStep_no_throw; eassumption. }
  destruct (internStep_rest _ _ _ _ _ _ Hint) as (_ & _ & _ & Hout1 & _ & Htr1).
  assert (Hdb1 : db s1 = db s).
  { unfold outside in Hout1. injection Hout1 as _ _ _ _ Hd _ _ _. exact Hd. }
  destruct isNew; [|cbn; congruence].
  destruct (readDerivation E p) as [drv|] eqn:Hread.
  2:{ split; [cbn; congruence|]. apply (failed_read_now E _ _ p Hread).
      cbn [trace set_trace]. rewrite Htr1. reflexivity. }
  destruct (all_outputs_valid E drv); [cbn; congruence|].
  match goal with |- context [createDeps ?r n ?i ?t] =>
    pose proof (createDeps_ends E r n IH (createStep_adds E fuel) i t) as H;
    assert (Hdb4 : db t = db s) by
      (unfold insert_newSteps; destruct (set_has _ _); cbn; exact Hdb1);
    assert (Had4 : adds run_event s t) by
      (eapply adds_events;
       [rewrite insert_newSteps_trace; cbn [trace set_trace]; rewrite Htr1; reflexivity
       |repeat constructor]);
    destruct (createDeps r n i t) as [[] s5|s5| |]; try exact I
  end.
  - cbn [ends_well] in H. unfold finishStep.
    destruct (Step.created _); [exact I|].
    destruct (Step.deps _); cbn [ends_well].
    + unfold insert_newRunnable. destruct (set_has _ _); cbn; congruence.
    + cbn. congruence.
  - destruct H as [H1 H2]. split; [cbn; congruence|].
    eapply failed_read_same; [|eapply failed_read_from; [exact Had4|exact H2]].
    reflexivity.
Qed.

Lemma dropBuild_db b s : db (dropBuild b s) = db s.
Proof. unfold dropBuild. destruct (bool_decide _); reflexivity. Qed.

Lemma publish_db b root s : db (publish b root s) = db s.
Proof.
  unfold publish, update_build. sproj.
  destruct (Build.finishedInDB _); [reflexivity|].
  destruct (builds s !! _) as [old|]; [|reflexivity].
  destruct (bool_decide (old = b)); [reflexivity|].
  rewrite dropBuild_db. reflexivity.
Qed.

Lemma piggybackPath_ends E rec p :
  (forall b s, ends_well E s (rec b s)) -> adds_spec rec ->
  forall n s, ends_well E s (piggybackPath n rec p s).
Proof.
  intros Hrec Hadd. induction n as [|n IH]; intros s; cbn [piggybackPath];
    destruct (find_erase p (newBuilds s)) as [[b rest]|]; try exact I;
    try reflexivity.
  specialize (Hrec b (set_newBuilds rest s)).
  specialize (Hadd b (set_newBuilds rest s)).
  destruct (rec b (set_newBuilds rest s)) as [[] s1|s1| |]; try exact I.
  - cbn [ends_well] in Hrec.
    match goal with |- context [piggybackPath n rec p ?t] =>
      apply (ends_well_from E run_event s t); [| |apply IH]
    end.
    + cbn [db set_newSteps set_finishedDrvs]. rewrite dropBuild_db. exact Hrec.
    + eapply adds_trans; [exact Hadd|]. apply adds_refl.
      cbn [trace set_newSteps set_finishedDrvs]. apply dropBuild_trace.
  - destruct Hrec as [H1 H2]. split.
    + cbn [db set_newSteps set_finishedDrvs]. rewrite dropBuild_db. exact H1.
    + eapply failed_read_same; [|exact H2].
      cbn [trace set_newSteps set_finishedDrvs]. apply dropBuild_trace.
Qed.

Lemma piggyback_ends E rec :
  (forall b s, ends_well E s (rec b s)) -> adds_spec rec ->
  forall l s, ends_well E s (piggyback rec l s).
Proof.
  intros Hrec Hadd. induction l as [|r l IH]; intros s; cbn [piggyback]; [reflexivity|].
  pose proof (piggybackPath_ends E rec (Step.drvPath (step_at (stepHeap s) r)) Hrec Hadd
                (length (newBuilds s)) s) as H1.
  pose proof (piggybackPath_adds rec (Step.drvPath (step_at (stepHeap s) r)) Hadd
                (length (newBuilds s)) s) as H2.
  destruct (piggybackPath _ rec _ s) as [[] s1|s1| |]; try exact I; [|exact H1].
  apply (ends_well_from E run_event s s1); [exact H1|exact H2|apply IH].
Qed.

Lemma length_failBuild E b r bs bss s :
  length (db (failBuild E b r bs bss s)) = length (db s).
Proof.
  unfold failBuild. destruct (Build.finishedInDB _); [reflexivity|].
  cbv zeta. unfold update_build. sproj. rewrite length_commit. reflexivity.
Qed.

Lemma length_classify E b root l s :
  length (db (snd (classify E b root l s))) = length (db s).
Proof.
  induction l as [|r l IH]; cbn [classify]; [reflexivity|].
  destruct (classifyStep E root r s) as [bs bss].
  destruct (bool_decide (bs <> bsSuccess)); [apply length_failBuild|exact IH].
Qed.

Lemma createBuild_ends E fuel : forall b s, ends_well E s (createBuild fuel E b s).
Proof.
  induction fuel as [|fuel IH]; intros b s; [exact I|].
  cbn [createBuild]. unfold createBuild_body.
  destruct (negb (isValidPath E _)).
  { cbn [ends_well]. unfold abortGCed. destruct (Build.finishedInDB _); [reflexivity|].
    cbv zeta. unfold update_build. sproj. rewrite length_commit. reflexivity. }
  set (s1 := freshLocals (loadBuild b s)).
  assert (Had1 : adds run_event s s1)
    by (eapply adds_events; [reflexivity|repeat constructor]).
  match goal with |- context [createStep (S fuel) E ?p ?rb ?rs s1] =>
    pose proof (createStep_ends E (S fuel) p rb rs s1) as HS;
    pose proof (createStep_adds E (S fuel) p rb rs s1) as HA;
    destruct (createStep (S fuel) E p rb rs s1) as [step s2|s2| |]; try exact I
  end.
  2:{ destruct HS as [H1 H2]. split; [exact H1|].
      eapply failed_read_same; [|eapply failed_read_from; [exact Had1|exact H2]].
      reflexivity. }
  cbn [ends_well] in HS.
  change (length (db s2) = length (db s)) in HS.
  assert (Had2 := adds_trans _ _ _ _ Had1 HA).
  pose proof (piggyback_ends E _ IH (createBuild_adds E fuel)
                (in_address_order E (newSteps s2)) s2) as HP.
  pose proof (piggyback_adds _ (createBuild_adds E fuel)
                (in_address_order E (newSteps s2)) s2) as HQ.
  destruct (piggyback (createBuild fuel E) (in_address_order E (newSteps s2)) s2) as [[] s3|s3| |];
    try exact I.
  2:{ destruct HP as [H1 H2]. split; [cbn; congruence|].
      eapply failed_read_same; [|eapply failed_read_from; [exact Had2|exact H2]].
      reflexivity. }
  cbn [ends_well] in HP.
  assert (Had3 := adds_trans _ _ _ _ Had2 HQ).
  destruct step as [root|].
  - pose proof (length_classify E b root (in_address_order E (newSteps s3)) s3) as Hc.
    destruct (classify E b root (in_address_order E (newSteps s3)) s3) as [bad s4]. cbn [snd] in Hc.
    destruct bad; cbn [ends_well].
    + change (length (db s4) = length (db s)). congruence.
    + change (length (db (publish b root s4)) = length (db s)).
      rewrite publish_db. congruence.
  - unfold markCachedSuccess. destruct (readDerivation E _) eqn:Hread.
    + cbn [ends_well]. unfold leave, update_build. sproj. rewrite length_commit.
      cbn. congruence.
    + split; [cbn; congruence|].
      eapply failed_read_from; [exact Had3|].
      eapply failed_read_now; [exact Hread|]. reflexivity.
Qed.

Lemma processQueue_ends E fuel : forall n s, ends_well E s (processQueue n fuel E s).
Proof.
  induction n as [|n IH]; intros s; cbn [processQueue];
    destruct (newBuilds s) as [|[p build] rest]; try reflexivity; try exact I.
  set (s1 := set_nrAdded 0%N (clear_newRunnable (set_newBuilds rest s))).
  pose proof (createBuild_ends E fuel build s1) as H1.
  pose proof (createBuild_adds E fuel build s1) as HA.
  destruct (createBuild fuel E build s1) as [[] s2|s2| |]; try exact I.
  - cbn [ends_well] in H1.
    match goal with |- context [processQueue n fuel E ?t] =>
      apply (ends_well_from E run_event s t); [| |apply IH]
    end.
    + rewrite dropBuild_db. exact H1.
    + eapply adds_trans; [exact HA|].
      eapply (adds_events _ _ _ (map EvMakeRunnable (in_address_order E (newRunnable s2)))).
      * rewrite dropBuild_trace. reflexivity.
      * apply Forall_forall. intros e He. apply list_elem_of_In in He.
        apply in_map_iff in He. destruct He as (a & <- & _). exact I.
  - destruct H1 as [H1 H2]. split.
    + change (length (db (dropBuild build s2)) = length (db s)).
      rewrite dropBuild_db. exact H1.
    + eapply failed_read_same; [|exact H2].
      change (trace (dropBuild build s2) = trace s2). apply dropBuild_trace.
Qed.

Lemma getQueuedBuilds_ends E fuel h s : ends_well E s (getQueuedBuilds fuel E h s).
Proof.
  unfold getQueuedBuilds.
  destruct (scanQueue_scanned E h s) as [(_ & _ & _ & _ & Hdb & _) _].
  pose proof (scanQueue_trace E h s) as Ht.
  destruct (scanQueue E h s) as [h' s1]. cbn [fst snd] in *.
  pose proof (processQueue_ends E fuel (length (newBuilds (set_newRunnable [] s1)))
                (set_newRunnable [] s1)) as H.
  destruct (processQueue _ fuel E _) as [[] s3|s3| |]; try exact I.
  - cbn [ends_well] in *. unfold clear_newRunnable. sproj. congruence.
  - destruct H as [H1 H2]. split; [sproj; congruence|].
    eapply failed_read_from; [|exact H2].
    apply (adds_refl run_event). exact Ht.
Qed.

(** X15. When a pass of getQueuedBuilds ends by the exception of a
    derivation that cannot be read, the failed read is the last event of
    the pass: nothing is committed and no step is handed to the dispatcher
    after it. *)
Theorem getQueuedBuilds_throw_after_read E fuel h s :
  match getQueuedBuilds fuel E h s with
  | Throw s' =>
      exists q tr, readDerivation E q = None /\
        trace s' = (tr ++ [EvReadDerivation q])%list
  | _ => True
  end.
Proof.
  pose proof (getQueuedBuilds_ends E fuel h s) as H.
  destruct (getQueuedBuilds fuel E h s); try exact I.
  apply (failed_read_last E s). exact (proj2 H).
Qed.

(** ** The monitor *)

Lemma processQueue_recovers E rank N :
  acyclic E rank -> (forall p, rank p < N) ->
  forall n fuel s,
    length (newBuilds s) <= n -> length (newBuilds s) <= fuel ->
    hinv s -> settled s ->
    match processQueue n (N + fuel) E s with
    | Ok _ s' => hinv s' /\ settled s' /\ newBuilds s' = []
    | Throw s' => hinv s' /\ settled s'
    | AssertFail | OutOfFuel => False
    end.
Proof.
  intros Hacy HN. induction n as [|n IH]; intros fuel s Hn Hf Hh Hs.
  - destruct (newBuilds s) eqn:Hnb; [|cbn in Hn; lia].
    cbn [processQueue]. rewrite Hnb. auto.
  - cbn [processQueue]. destruct (newBuilds s) as [|[p build] rest] eqn:Hnb; [auto|].
    cbn [length] in Hn, Hf.
    set (s1 := set_nrAdded 0%N (clear_newRunnable (set_newBuilds rest s))).
    assert (Hh1 : hinv s1) by (apply (hinv_clear (set_newBuilds rest s)); exact Hh).
    assert (Hs1 : settled s1) by (apply (settled_clear (set_newBuilds rest s)); exact Hs).
    pose proof (createBuild_spec E (N + fuel) build s1 Hh1) as H1.
    pose proof (createBuild_total E rank N Hacy HN fuel build s1) as H2.
    pose proof (createBuild_unwinds E rank N Hacy HN fuel build s1) as H3.
    change (newBuilds s1) with rest in H2, H3.
    specialize (H2 ltac:(lia) Hh1 Hs1). specialize (H3 ltac:(lia) Hh1 Hs1).
    destruct (createBuild (N + fuel) E build s1) as [[] s2|s2| |]; try exact H2.
    + destruct H1 as (_ & Hh2 & _). destruct H2 as [Hs2 Hl2].
      match goal with |- match processQueue n _ E (dropBuild build ?t) with _ => _ end =>
        destruct (dropBuild_quiet build t) as [Hq Hnb'];
        pose proof (dropBuild_objs build t) as Hdo;
        destruct (dropBuild_tail build build t) as (_ & Hds & Hdr & _);
        assert (Hht : hinv (dropBuild build t))
          by (eapply hinv_same; [| | |exact Hh2]; assumption);
        assert (Hst : settled (dropBuild build t))
          by (eapply settled_quiet; [exact Hq|exact Hs2]);
        assert (Hnt : newBuilds (dropBuild build t) = newBuilds s2) by exact Hnb';
        specialize (IH fuel (dropBuild build t))
      end.
      rewrite Hnt in IH. apply IH; try assumption; lia.
    + destruct H1 as (_ & Hh2 & _).
      destruct (dropBuild_quiet build s2) as [Hq _].
      destruct (dropBuild_tail build build s2) as (Ho & Hds & Hdr & _).
      split.
      * apply hinv_clear. eapply hinv_same; [exact Ho|exact Hds|exact Hdr|exact Hh2].
      * apply settled_clear. eapply settled_quiet; [exact Hq|exact H3].
Qed.

Lemma getQueuedBuilds_recovers E rank N k h s :
  acyclic E rank -> (forall p, rank p < N) -> hinv s -> settled s ->
  length (db s) <= k ->
  match getQueuedBuilds (N + k) E h s with
  | Ok _ s' =>
      hinv s' /\ settled s' /\ newBuilds s' = [] /\ newRunnable s' = [] /\
      length (db s') = length (db s)
  | Throw s' =>
      hinv s' /\ settled s' /\ length (db s') = length (db s) /\ failed_read E s s'
  | AssertFail | OutOfFuel => False
  end.
Proof.
  intros Hacy HN Hh Hs Hk.
  pose proof (getQueuedBuilds_ends E (N + k) h s) as He.
  unfold getQueuedBuilds in *.
  destruct (scanQueue_scanned E h s) as [(H1 & H2 & H3 & H4 & H5 & H6 & H7) Hlen].
  destruct (scanQueue E h s) as [h' s1]. cbn [fst snd] in *.
  set (s2 := set_newRunnable [] s1) in *.
  assert (Hh2 : hinv s2).
  { destruct Hh as (Hk1 & Hc & _). unfold hinv, keyed, closed, objs.
    change (stepHeap s2) with (stepHeap s1). change (steps s2) with (steps s1).
    rewrite H1, H2. split; [exact Hk1|]. split; [exact Hc|].
    intros a Ha. apply elem_of_nil in Ha. contradiction. }
  assert (Hs2 : settled s2).
  { intros a q Hp. change (stepHeap s2) with (stepHeap s1) in Hp.
    rewrite H1 in Hp. exact (Hs a q Hp). }
  pose proof (processQueue_recovers E rank N Hacy HN (length (newBuilds s2))
                k s2 (Nat.le_refl _) ltac:(change (newBuilds s2) with (newBuilds s1); lia)
                Hh2 Hs2) as HP.
  destruct (processQueue _ _ E s2) as [[] s3|s3| |]; try exact HP.
  - destruct HP as (Hh3 & Hs3 & Hn3). cbn [ends_well] in He.
    split; [apply hinv_clear; exact Hh3|].
    split; [apply settled_clear; exact Hs3|]. split; [exact Hn3|].
    split; [reflexivity|exact He].
  - destruct HP as (Hh3 & Hs3). destruct He as [He1 He2]. auto.
Qed.

Lemma onWake_keeps w m k :
  hinv (core m) -> settled (core m) -> length (table w) <= k ->
  hinv (core (onWake w m)) /\ settled (core (onWake w m)) /\
  length (db (core (onWake w m))) <= k /\
  nrQueueWakeups (onWake w m) = incr64 (nrQueueWakeups m) /\
  trace (core (onWake w m)) = trace (core m).
Proof.
  intros Hh Hs Hk. unfold onWake. cbn [core nrQueueWakeups].
  set (s := set_db (table w) (core m)).
  assert (Hh0 : hinv s) by exact Hh. assert (Hs0 : settled s) by exact Hs.
  destruct (buildsCancelled w || buildsDeleted w).
  - destruct (removeCancelledBuilds_spec s) as [_ Hr].
    split; [eapply hinv_releases; eassumption|].
    split; [eapply settled_releases; eassumption|].
    destruct Hr as (_ & _ & Hdb & Htr & _). rewrite Hdb, Htr. auto.
  - auto.
Qed.

Lemma iter_incr64 n x : Nat.iter n incr64 (incr64 x) = Nat.iter (S n) incr64 x.
Proof. symmetry. apply Nat.iter_succ_r. Qed.

Lemma monitorLoop_safe world rank N k :
  (forall i, acyclic (world i) (rank i)) -> (forall i p, rank i p < N) ->
  forall ws i m,
    hinv (core m) -> settled (core m) -> length (db (core m)) <= k ->
    (forall w, w ∈ ws -> length (table w) <= k) ->
    match monitorLoop (N + k) world i ws m with
    | LoopWaiting m' =>
        hinv (core m') /\ settled (core m') /\
        newBuilds (core m') = [] /\ newRunnable (core m') = [] /\
        nrQueueWakeups m' = Nat.iter (length ws) incr64 (nrQueueWakeups m)
    | LoopThrow s' n rest i' =>
        hinv s' /\ settled s' /\ length (db s') <= k /\
        i < i' /\ failed_read (world (pred i')) (core m) s' /\
        (forall w, w ∈ rest -> length (table w) <= k) /\
        Nat.iter (length rest) incr64 n =
          Nat.iter (length ws) incr64 (nrQueueWakeups m)
    | LoopAssertFail | LoopOutOfFuel => False
    end.
Proof.
  intros Hacy HN. induction ws as [|w ws IH]; intros i m Hh Hs Hk Hws;
    cbn [monitorLoop];
    pose proof (getQueuedBuilds_recovers (world i) (rank i) N k (lastBuildId m) (core m)
                  (Hacy i) (HN i) Hh Hs Hk) as H;
    pose proof (getQueuedBuilds_adds (world i) (N + k) (lastBuildId m) (core m)) as HA;
    destruct (getQueuedBuilds (N + k) (world i) (lastBuildId m) (core m)) as [h s'|s'| |];
    try exact H.
  - destruct H as (H1 & H2 & H3 & H4 & _). cbn. auto.
  - destruct H as (H1 & H2 & H3 & H4). split; [exact H1|]. split; [exact H2|].
    split; [lia|]. split; [lia|]. split; [exact H4|]. split; [exact Hws|reflexivity].
  - destruct H as (H1 & H2 & H3 & H4 & _).
    set (m1 := mkMonitor s' h (nrQueueWakeups m)).
    destruct (onWake_keeps w m1 k H1 H2) as (K1 & K2 & K3 & K4 & K5).
    { apply Hws. apply list_elem_of_here. }
    specialize (IH (S i) (onWake w m1) K1 K2 K3
                  (fun w' Hw' => Hws w' (list_elem_of_further _ _ _ Hw'))).
    rewrite K4 in IH. change (nrQueueWakeups m1) with (nrQueueWakeups m) in IH.
    rewrite iter_incr64 in IH.
    destruct (monitorLoop (N + k) world (S i) ws (onWake w m1)); try exact IH.
    destruct IH as (I1 & I2 & I3 & I4 & I5 & I6).
    split; [exact I1|]. split; [exact I2|]. split; [exact I3|]. split; [lia|].
    split; [|exact I6].
    eapply failed_read_from; [|exact I5].
    eapply adds_trans; [exact HA|]. apply adds_refl. exact K5.
  - destruct H as (H1 & H2 & H3 & H4). split; [exact H1|]. split; [exact H2|].
    split; [lia|]. split; [lia|]. split; [exact H4|]. split; [exact Hws|reflexivity].
Qed.

(** X17. The monitor after a derivation could not be read. The exception
    of a pass takes queueMonitorLoop down; queueMonitor catches it and
    starts the loop again, with [lastBuildId] at 0 and the store as it is
    by then. When the derivation graph has no cycle, the restart finds the
    step graph in order and no half-made step with an owner, so the new
    pass does not fail the assertion of createStep. A run that is
    followed for [retries] restarts ends in one of two ways: waiting, with
    the working set and the list of runnable steps empty and every
    wake-up counted; or in the handler, and then the events of the run
    fall into [retries + 1] attempts, each of which ends with the read of
    a derivation that the store of its last pass did not have. (The
    exceptions of the database connection are not among the outcomes
    here.) *)
Theorem queueMonitor_recovers world rank N k :
  (forall i, acyclic (world i) (rank i)) -> (forall i p, rank i p < N) ->
  forall retries i ws s n,
    hinv s -> settled s -> length (db s) <= k ->
    (forall w, w ∈ ws -> length (table w) <= k) ->
    match queueMonitor retries (N + k) world i ws s n with
    | LoopWaiting m =>
        hinv (core m) /\ settled (core m) /\
        newBuilds (core m) = [] /\ newRunnable (core m) = [] /\
        nrQueueWakeups m = Nat.iter (length ws) incr64 n
    | LoopThrow s' _ _ i' =>
        hinv s' /\ settled s' /\
        exists atts, length atts = S retries /\ NoDup (pass <$> atts) /\
          trace s' = (trace s ++ concat (attempt_trace <$> atts))%list /\
          forall a, a ∈ atts ->
            i <= pass a < i' /\ readDerivation (world (pass a)) (lost a) = None
    | LoopAssertFail | LoopOutOfFuel => False
    end.
Proof.
  intros Hacy HN. induction retries as [|r IH]; intros i ws s n Hh Hs Hk Hws;
    cbn [queueMonitor]; unfold queueMonitorLoop;
    pose proof (monitorLoop_safe world rank N k Hacy HN ws i (mkMonitor s 0%N n)
                  Hh Hs Hk Hws) as H;
    cbn [nrQueueWakeups core] in H;
    destruct (monitorLoop (N + k) world i ws (mkMonitor s 0%N n)) as [m|s' n' rest i'| |];
    try exact H.
  - destruct H as (H1 & H2 & _ & Hlt & (q & evs & Hq & Ht) & _).
    split; [exact H1|]. split; [exact H2|]. exists [mkAttempt (pred i') evs q].
    split; [reflexivity|]. split; [apply NoDup_singleton|]. split.
    + rewrite Ht. cbn. rewrite app_nil_r. reflexivity.
    + intros a Ha. apply list_elem_of_singleton in Ha. subst a. cbn [pass lost].
      split; [lia|exact Hq].
  - destruct H as (H1 & H2 & H3 & Hlt & (q & evs & Hq & Ht) & H5 & H6).
    specialize (IH i' rest s' n' H1 H2 H3 H5).
    destruct (queueMonitor r (N + k) world i' rest s' n') as [m|s2 n2 rest2 i2| |];
      try exact IH.
    + destruct IH as (I1 & I2 & I3 & I4 & I5). rewrite I5, H6. auto.
    + destruct IH as (I1 & I2 & atts & Hlen & Hnd & Htr & Hat).
      split; [exact I1|]. split; [exact I2|].
      exists (mkAttempt (pred i') evs q :: atts).
      split; [cbn; lia|]. split; [|split].
      * cbn [fmap list_fmap pass]. apply NoDup_cons. split; [|exact Hnd].
        intros Hin. apply list_elem_of_fmap in Hin. destruct Hin as (a & Hp & Ha).
        destruct (Hat _ Ha) as [Hr _]. lia.
      * rewrite Htr, Ht. cbn [fmap list_fmap concat].
        change (attempt_trace (mkAttempt (pred i') evs q))
          with (evs ++ [EvReadDerivation q])%list.
        rewrite <- !app_assoc. reflexivity.
      * intros a Ha. apply elem_of_cons in Ha. destruct Ha as [->|Ha].
        -- assert (Hi2 : i' <= i2).
           { destruct atts as [|a0 atts']; [discriminate|].
             destruct (Hat a0 (list_elem_of_here _ _)) as [? _]. lia. }
           cbn [pass lost]. split; [lia|exact Hq].
        -- destruct (Hat a Ha) as [Hr Hq']. split; [lia|exact Hq'].
Qed.

Lemma acyclic_world_mend i : acyclic (world_mend i) (fun _ => 0).
Proof.
  intros p drv q Hread Hq. unfold world_mend in Hread.
  destruct i as [|i]; cbn in Hread; [discriminate|].
  destruct (String.eqb p "/d/lost"); [|discriminate].
  injection Hread as <-. cbn in Hq. apply elem_of_nil in Hq. contradiction.
Qed.

(** Build 8, whose derivation the store does not have at the first
    attempt and has at the second: the monitor ends waiting, after one
    restart, with the step of the build dispatched. *)
Lemma queueMonitor_recovers_witness :
  match queueMonitor 1 (1 + 1) world_mend 0 [wake_added] state_8 0 with
  | LoopWaiting m =>
      trace (core m) =
        [EvLoadBuild 0; EvReadDerivation "/d/lost";
         EvLoadBuild 1; EvReadDerivation "/d/lost"; EvMakeRunnable 1] /\
      nrQueueWakeups m = 1%N
  | _ => False
  end /\
  match queueMonitor 1 (1 + 1) world_mend 0 [wake_added] state_8 0 with
  | LoopWaiting m =>
      hinv (core m) /\ settled (core m) /\
      newBuilds (core m) = [] /\ newRunnable (core m) = [] /\
      nrQueueWakeups m = Nat.iter (length [wake_added]) incr64 0%N
  | LoopThrow s' _ _ i' =>
      hinv s' /\ settled s' /\
      exists atts, length atts = 2 /\ NoDup (pass <$> atts) /\
        trace s' = (trace state_8 ++ concat (attempt_trace <$> atts))%list /\
        forall a, a ∈ atts ->
          0 <= pass a < i' /\ readDerivation (world_mend (pass a)) (lost a) = None
  | LoopAssertFail | LoopOutOfFuel => False
  end.
Proof.
  split; [vm_compute; split; reflexivity|].
  apply (queueMonitor_recovers world_mend (fun _ _ => 0) 1 1).
  - exact acyclic_world_mend.
  - intros i p. lia.
  - apply hinv_empty_heap; reflexivity.
  - intros a q. exact (settled_state_of _ a q).
  - cbn. lia.
  - intros w Hw. apply list_elem_of_singleton in Hw. subst w. cbn. lia.
Defined.

(** X16. A pass of getQueuedBuilds and the exception of a derivation that
    cannot be read. When the derivation graph has no cycle, and the
    database and the other calls to the store do what they are asked, a
    pass comes back and fails no assertion. When it returns, the step
    graph is in order, no step under construction has an owner, and the
    working set and the list of runnable steps are empty. When it is left
    by the exception of readDerivation, the failed read is a read of this
    pass and its last event, and the unwinding has left the step graph in order and every step
    that was under construction without an owner. *)
Theorem getQueuedBuilds_comes_back E rank N k h s :
  acyclic E rank -> (forall p, rank p < N) -> hinv s -> settled s ->
  length (db s) <= k ->
  match getQueuedBuilds (N + k) E h s with
  | Ok _ s' => hinv s' /\ settled s' /\ newBuilds s' = [] /\ newRunnable s' = []
  | Throw s' =>
      (exists q evs, readDerivation E q = None /\
         trace s' = (trace s ++ evs ++ [EvReadDerivation q])%list) /\
      hinv s' /\ settled s'
  | AssertFail | OutOfFuel => False
  end.
Proof.
  intros Hacy HN Hh Hs Hk.
  pose proof (getQueuedBuilds_recovers E rank N k h s Hacy HN Hh Hs Hk) as H.
  destruct (getQueuedBuilds (N + k) E h s); try exact H.
  - destruct H as (H1 & H2 & H3 & H4 & _). auto.
  - destruct H as (H1 & H2 & _ & H4). auto.
Qed.

Lemma acyclic_env_lost : acyclic env_lost (fun _ => 0).
Proof. intros p drv q Hread. cbn in Hread. discriminate. Qed.

Lemma getQueuedBuilds_comes_back_witness :
  match getQueuedBuilds (1 + 1) env_lost 0 state_8 with
  | Ok _ s' => hinv s' /\ settled s' /\ newBuilds s' = [] /\ newRunnable s' = []
  | Throw s' =>
      (exists q evs, readDerivation env_lost q = None /\
         trace s' = (trace state_8 ++ evs ++ [EvReadDerivation q])%list) /\
      hinv s' /\ settled s'
  | AssertFail | OutOfFuel => False
  end.
Proof.
  apply (getQueuedBuilds_comes_back env_lost (fun _ => 0) 1 1 0%N state_8).
  - exact acyclic_env_lost.
  - intros p. lia.
  - apply hinv_empty_heap; reflexivity.
  - intros a q. exact (settled_state_of _ a q).
  - cbn. lia.
Defined.
(** ** The counters *)

Lemma loads_app l1 l2 : loads (l1 ++ l2) = loads l1 + loads l2.
Proof. unfold loads. rewrite List.filter_app, length_app. reflexivity. Qed.

Lemma failures_app l1 l2 : failures (l1 ++ l2) = failures l1 + failures l2.
Proof. unfold failures. rewrite List.filter_app, length_app. reflexivity. Qed.

Lemma iter_add {A} (f : A -> A) a b x :
  Nat.iter (a + b) f x = Nat.iter b f (Nat.iter a f x).
Proof. rewrite Nat.add_comm. apply Nat.iter_add. Qed.

Lemma counted_refl s s' :
  trace s' = trace s -> nrBuildsDone s' = nrBuildsDone s ->
  nrAdded s' = nrAdded s -> nrBuildsRead s' = nrBuildsRead s ->
  length (newBuilds s') <= length (newBuilds s) -> counted 0 s s'.
Proof.
  intros H1 H2 H3 H4 H5. exists []. rewrite app_nil_r. cbn.
  repeat split; try assumption; lia.
Qed.

Lemma counted_trans k1 k2 s1 s2 s3 :
  counted k1 s1 s2 -> counted k2 s2 s3 -> counted (k1 + k2) s1 s3.
Proof.
  intros (e1 & T1 & D1 & A1 & R1 & L1 & B1) (e2 & T2 & D2 & A2 & R2 & L2 & B2).
  exists (e1 ++ e2)%list. rewrite loads_app, failures_app, !iter_add.
  split; [rewrite T2, T1, app_assoc; reflexivity|].
  split; [congruence|]. split; [congruence|]. split; [congruence|]. lia.
Qed.

Lemma counted_reads s s' :
  adds is_read s s' -> outside s' = outside s -> counted 0 s s'.
Proof.
  intros (evs & Htr & Hall) Hout. unfold outside in Hout.
  injection Hout as _ _ Hd Hr _ _ Hn Ha.
  assert (Hz : loads evs = 0 /\ failures evs = 0).
  { clear Htr. induction Hall as [|e evs [q ->] _ [IH1 IH2]]; [split; reflexivity|].
    split; assumption. }
  destruct Hz as [Hl Hf]. exists evs. rewrite Hl, Hf. cbn.
  repeat split; try assumption; try rewrite Hn; lia.
Qed.

Lemma createStep_counted E fuel p rb rs s :
  match createStep fuel E p rb rs s with
  | Ok _ s' | Throw s' => counted 0 s s'
  | AssertFail | OutOfFuel => True
  end.
Proof.
  pose proof (createStep_adds_reads E fuel p rb rs s) as Ha.
  pose proof (createStep_frame E fuel p rb rs s) as Hf.
  destruct (createStep fuel E p rb rs s); try exact I;
    (apply counted_reads; [exact Ha|exact (proj1 Hf)]).
Qed.

Lemma piggybackPath_counted rec p :
  counted_spec rec ->
  forall n s,
    match piggybackPath n rec p s with
    | Ok _ s' | Throw s' => counted 0 s s'
    | AssertFail | OutOfFuel => True
    end.
Proof.
  intros Hrec. induction n as [|n IH]; intros s; cbn [piggybackPath];
    destruct (find_erase p (newBuilds s)) as [[b rest]|] eqn:Hf; try exact I;
    try (apply counted_refl; reflexivity).
  destruct (find_erase_Some _ _ _ _ Hf) as (_ & _ & _ & Hlen).
  specialize (Hrec b (set_newBuilds rest s)).
  assert (Hstep : forall s1, counted 1 (set_newBuilds rest s) s1 ->
            counted 0 s (set_newSteps (newSteps s)
                           (set_finishedDrvs (finishedDrvs s) (dropBuild b s1)))).
  { intros s1 (evs & T & D & A & R & L & B). exists evs.
    destruct (dropBuild_quiet b s1) as [_ Hnb].
    cbn [trace nrBuildsDone nrAdded nrBuildsRead newBuilds set_newSteps set_finishedDrvs].
    rewrite dropBuild_trace, Hnb.
    assert (Hc : nrBuildsDone (dropBuild b s1) = nrBuildsDone s1 /\
                 nrAdded (dropBuild b s1) = nrAdded s1 /\
                 nrBuildsRead (dropBuild b s1) = nrBuildsRead s1)
      by (unfold dropBuild; destruct (bool_decide _); repeat split).
    destruct Hc as (-> & -> & ->). cbn [newBuilds set_newBuilds] in B.
    repeat split; try assumption; lia. }
  destruct (rec b (set_newBuilds rest s)) as [[] s1|s1| |]; try exact I.
  - specialize (Hstep s1 Hrec).
    match goal with |- context [piggybackPath n rec p ?t] =>
      specialize (IH t); destruct (piggybackPath n rec p t); try exact I;
        exact (counted_trans 0 0 _ _ _ Hstep IH)
    end.
  - exact (Hstep s1 Hrec).
Qed.

Lemma piggyback_counted rec :
  counted_spec rec ->
  forall l s,
    match piggyback rec l s with
    | Ok _ s' | Throw s' => counted 0 s s'
    | AssertFail | OutOfFuel => True
    end.
Proof.
  intros Hrec. induction l as [|r l IH]; intros s; cbn [piggyback].
  - apply counted_refl; reflexivity.
  - pose proof (piggybackPath_counted rec (Step.drvPath (step_at (stepHeap s) r)) Hrec
                  (length (newBuilds s)) s) as H1.
    destruct (piggybackPath _ rec _ s) as [[] s1|s1| |]; try exact I; [|exact H1].
    specialize (IH s1).
    destruct (piggyback rec l s1); try exact I; exact (counted_trans 0 0 _ _ _ H1 IH).
Qed.

Lemma counted_event k s s' e :
  trace s' = (trace s ++ [e])%list ->
  nrBuildsDone s' = Nat.iter (failures [e]) incr64 (nrBuildsDone s) ->
  nrAdded s' = Nat.iter (loads [e]) incr32 (nrAdded s) ->
  nrBuildsRead s' = nrBuildsRead s ->
  newBuilds s' = newBuilds s -> k = loads [e] -> counted k s s'.
Proof.
  intros H1 H2 H3 H4 H5 ->. exists [e]. rewrite H5. repeat split; try assumption; lia.
Qed.

Lemma failBuild_counted E b r bs bss s :
  nrBuildsDone (failBuild E b r bs bss s) =
    (if Build.finishedInDB (build_at (buildHeap s) b) then nrBuildsDone s
     else incr64 (nrBuildsDone s)) /\
  counted 0 s (failBuild E b r bs bss s).
Proof.
  unfold failBuild. destruct (Build.finishedInDB _).
  - split; [reflexivity|]. apply counted_refl; reflexivity.
  - split; [reflexivity|]. eapply counted_event; try reflexivity.
Qed.

Lemma classify_counted E b root l s :
  counted 0 s (snd (classify E b root l s)).
Proof.
  induction l as [|r l IH]; cbn [classify]; [apply counted_refl; reflexivity|].
  destruct (classifyStep E root r s) as [bs bss].
  destruct (bool_decide (bs <> bsSuccess)); [|exact IH].
  apply failBuild_counted.
Qed.

Lemma dropBuild_counters b s :
  nrBuildsDone (dropBuild b s) = nrBuildsDone s /\
  nrAdded (dropBuild b s) = nrAdded s /\
  nrBuildsRead (dropBuild b s) = nrBuildsRead s /\
  newBuilds (dropBuild b s) = newBuilds s.
Proof. unfold dropBuild. destruct (bool_decide _); repeat split. Qed.

Lemma publish_counters b root s :
  nrBuildsDone (publish b root s) = nrBuildsDone s /\
  nrAdded (publish b root s) = nrAdded s /\
  nrBuildsRead (publish b root s) = nrBuildsRead s /\
  newBuilds (publish b root s) = newBuilds s.
Proof.
  unfold publish, update_build. sproj.
  destruct (Build.finishedInDB _); [repeat split|].
  destruct (builds s !! _) as [old|]; [|repeat split].
  destruct (bool_decide (old = b)); [repeat split|].
  apply (dropBuild_counters old
           (set_builds (<[Build.id (build_at (buildHeap s) b) := b]> (builds s)) s)).
Qed.

Lemma createBuild_counted E fuel : counted_spec (createBuild fuel E).
Proof.
  induction fuel as [|fuel IH]; intros b s; [exact I|].
  cbn [createBuild]. unfold createBuild_body.
  assert (H0 : counted 1 s (loadBuild b s))
    by (eapply counted_event; reflexivity).
  assert (Hend : forall t t', counted 1 s t -> counted 0 t t' -> counted 1 s t').
  { intros t t' H1 H2. exact (counted_trans 1 0 _ _ _ H1 H2). }
  destruct (negb (isValidPath E _)).
  { apply (Hend _ _ H0). unfold abortGCed. destruct (Build.finishedInDB _).
    - apply counted_refl; reflexivity.
    - eapply counted_event; try reflexivity. }
  match goal with |- context [createStep (S fuel) E ?p ?rb ?rs ?t] =>
    pose proof (createStep_counted E (S fuel) p rb rs t) as HS;
    assert (H1 : counted 1 s t) by exact H0;
    destruct (createStep (S fuel) E p rb rs t) as [step s2|s2| |]; try exact I
  end.
  2:{ apply (Hend _ _ (Hend _ _ H1 HS)). apply counted_refl; reflexivity. }
  assert (H2 := Hend _ _ H1 HS).
  pose proof (piggyback_counted _ IH (in_address_order E (newSteps s2)) s2) as HP.
  destruct (piggyback (createBuild fuel E) (in_address_order E (newSteps s2)) s2)
    as [[] s3|s3| |]; try exact I.
  2:{ apply (Hend _ _ (Hend _ _ H2 HP)). apply counted_refl; reflexivity. }
  assert (H3 := Hend _ _ H2 HP).
  destruct step as [root|].
  - pose proof (classify_counted E b root (in_address_order E (newSteps s3)) s3) as Hc.
    pose proof (classify_heap E b root (in_address_order E (newSteps s3)) s3) as Hh.
    destruct (classify E b root (in_address_order E (newSteps s3)) s3) as [bad s4].
    cbn [snd] in Hc, Hh. assert (H4 := Hend _ _ H3 Hc).
    destruct bad; apply (Hend _ _ H4).
    + apply counted_refl; reflexivity.
    + destruct (publish_counters b root s4) as (P1 & P2 & P3 & P4).
      apply counted_refl; unfold leave; sproj; try assumption.
      * apply publish_trace.
      * rewrite P4. lia.
  - unfold markCachedSuccess. destruct (readDerivation E _) as [drv|].
    + apply (Hend _ _ H3). exists [EvReadDerivation (Build.drvPath (build_at (buildHeap s3) b));
        EvCommit [MarkSucceededBuild b
          (getBuildOutput E drv) true
          (now E (set_trace (trace s3 ++ [EvReadDerivation (Build.drvPath (build_at (buildHeap s3) b))]) s3))
          (now E (set_trace (trace s3 ++ [EvReadDerivation (Build.drvPath (build_at (buildHeap s3) b))]) s3))]].
      unfold leave, update_build, commit, tick. sproj. rewrite <- app_assoc.
      repeat split; cbn; lia.
    + apply (Hend _ _ H3).
      exists [EvReadDerivation (Build.drvPath (build_at (buildHeap s3) b))].
      unfold leave. sproj. repeat split; cbn; lia.
Qed.

Lemma iter_incr32 k :
  (N.of_nat k < 2 ^ 32)%N -> Nat.iter k incr32 0%N = N.of_nat k.
Proof.
  induction k as [|k IH]; intros Hk; [reflexivity|].
  rewrite Nat.iter_succ, IH by lia. unfold incr32.
  rewrite N.mod_small by lia. lia.
Qed.

Lemma iter_incr64_add k x :
  1 <= k -> Nat.iter k incr64 x = ((x + N.of_nat k) mod 2 ^ 64)%N.
Proof.
  induction k as [|k IH]; intros Hk; [lia|].
  rewrite Nat.iter_succ. destruct k as [|k'].
  - reflexivity.
  - rewrite IH by lia. unfold incr64.
    rewrite N.Div0.add_mod_idemp_l. f_equal. lia.
Qed.

Lemma loads_dispatch l : loads (map EvMakeRunnable l) = 0.
Proof. unfold loads. induction l as [|a l IH]; [reflexivity|exact IH]. Qed.

Lemma failures_dispatch l : failures (map EvMakeRunnable l) = 0.
Proof. unfold failures. induction l as [|a l IH]; [reflexivity|exact IH]. Qed.

Lemma processQueue_counted E fuel : forall n s,
  (N.of_nat (length (newBuilds s)) < 2 ^ 32)%N ->
  match processQueue n fuel E s with
  | Ok _ s' =>
      exists evs, trace s' = (trace s ++ evs)%list /\
        nrBuildsDone s' = Nat.iter (failures evs) incr64 (nrBuildsDone s) /\
        nrBuildsRead s' = Nat.iter (loads evs) incr64 (nrBuildsRead s)
  | Throw s' =>
      exists evs, trace s' = (trace s ++ evs)%list /\
        nrBuildsDone s' = Nat.iter (failures evs) incr64 (nrBuildsDone s)
  | AssertFail | OutOfFuel => True
  end.
Proof.
  induction n as [|n IH]; intros s Hlen; cbn [processQueue];
    (destruct (newBuilds s) as [|[p build] rest] eqn:Hnb;
     [exists []; rewrite app_nil_r; repeat split|]); [exact I|].
  set (s1 := set_nrAdded 0%N (clear_newRunnable (set_newBuilds rest s))).
  pose proof (createBuild_counted E fuel build s1) as H1.
  destruct (createBuild fuel E build s1) as [[] s2|s2| |]; try exact I.
  - destruct H1 as (evs1 & T1 & D1 & A1 & R1 & L1 & B1).
    change (trace s1) with (trace s) in T1.
    change (nrBuildsDone s1) with (nrBuildsDone s) in D1.
    change (nrAdded s1) with 0%N in A1.
    change (nrBuildsRead s1) with (nrBuildsRead s) in R1.
    change (newBuilds s1) with rest in B1. cbn [length] in Hlen.
    set (s4 := set_nrBuildsRead (add64 (nrBuildsRead (makeRunnable_all E s2))
                 (nrAdded (makeRunnable_all E s2))) (makeRunnable_all E s2)).
    destruct (dropBuild_counters build s4) as (C1 & C2 & C3 & C4).
    specialize (IH (dropBuild build s4)).
    rewrite C4 in IH. change (newBuilds s4) with (newBuilds s2) in IH.
    specialize (IH ltac:(lia)).
    assert (Hread : nrBuildsRead s4 = Nat.iter (loads evs1) incr64 (nrBuildsRead s)).
    { change (nrBuildsRead s4) with (add64 (nrBuildsRead s2) (nrAdded s2)).
      rewrite R1, A1, iter_incr32 by lia. rewrite iter_incr64_add by exact L1. reflexivity. }
    destruct (processQueue n fuel E (dropBuild build s4)) as [[] s'|s'| |]; try exact I.
    + destruct IH as (evs2 & T2 & D2 & R2).
      exists (evs1 ++ map EvMakeRunnable (in_address_order E (newRunnable s2)) ++ evs2)%list.
      rewrite !loads_app, !failures_app, loads_dispatch, failures_dispatch, !iter_add.
      cbn [Nat.iter nat_rect]. split; [|split].
      * rewrite T2, dropBuild_trace.
        change (trace s4) with
          (trace s2 ++ map EvMakeRunnable (in_address_order E (newRunnable s2)))%list.
        rewrite T1, <- !app_assoc. reflexivity.
      * rewrite D2, C1. change (nrBuildsDone s4) with (nrBuildsDone s2).
        rewrite D1. reflexivity.
      * rewrite R2, C3, Hread. reflexivity.
    + destruct IH as (evs2 & T2 & D2).
      exists (evs1 ++ map EvMakeRunnable (in_address_order E (newRunnable s2)) ++ evs2)%list.
      rewrite !failures_app, failures_dispatch, !iter_add.
      cbn [Nat.iter nat_rect]. split.
      * rewrite T2, dropBuild_trace.
        change (trace s4) with
          (trace s2 ++ map EvMakeRunnable (in_address_order E (newRunnable s2)))%list.
        rewrite T1, <- !app_assoc. reflexivity.
      * rewrite D2, C1. change (nrBuildsDone s4) with (nrBuildsDone s2).
        rewrite D1. reflexivity.
  - destruct H1 as (evs1 & T1 & D1 & _).
    exists evs1. destruct (dropBuild_counters build s2) as (C1 & _). split.
    + change (trace (dropBuild build s2) = (trace s ++ evs1)%list).
      rewrite dropBuild_trace. exact T1.
    + change (nrBuildsDone (dropBuild build s2) =
              Nat.iter (failures evs1) incr64 (nrBuildsDone s)).
      rewrite C1. exact D1.
Qed.

Lemma scanQueue_counters E h s :
  nrBuildsDone (snd (scanQueue E h s)) = nrBuildsDone s /\
  nrBuildsRead (snd (scanQueue E h s)) = nrBuildsRead s.
Proof.
  unfold scanQueue.
  change (nrBuildsDone s) with (nrBuildsDone (snd (h, set_newBuilds [] s))).
  change (nrBuildsRead s) with (nrBuildsRead (snd (h, set_newBuilds [] s))).
  generalize (h, set_newBuilds [] s).
  induction (queuedRows h (db s)) as [|r rows IH]; intros acc; cbn [fold_left];
    [split; reflexivity|].
  destruct (IH (scanRow E acc r)) as [-> ->].
  destruct acc as [h0 s0]. unfold scanRow. cbn [snd].
  destruct (negb (buildOne E =? 0)%N && negb (Row.id r =? buildOne E)%N);
    [split; reflexivity|].
  destruct (builds s0 !! Row.id r); split; reflexivity.
Qed.

Lemma getQueuedBuilds_counted E fuel h s :
  (N.of_nat (length (db s)) < 2 ^ 32)%N ->
  match getQueuedBuilds fuel E h s with
  | Ok _ s' =>
      exists evs, trace s' = (trace s ++ evs)%list /\
        nrBuildsDone s' = Nat.iter (failures evs) incr64 (nrBuildsDone s) /\
        nrBuildsRead s' = Nat.iter (loads evs) incr64 (nrBuildsRead s)
  | Throw s' =>
      exists evs, trace s' = (trace s ++ evs)%list /\
        nrBuildsDone s' = Nat.iter (failures evs) incr64 (nrBuildsDone s)
  | AssertFail | OutOfFuel => True
  end.
Proof.
  intros Hlen. unfold getQueuedBuilds.
  destruct (scanQueue_scanned E h s) as [_ Hl].
  pose proof (scanQueue_trace E h s) as Ht.
  pose proof (scanQueue_counters E h s) as (Hd & Hr).
  destruct (scanQueue E h s) as [h' s1]. cbn [fst snd] in *.
  pose proof (processQueue_counted E fuel (length (newBuilds (set_newRunnable [] s1)))
                (set_newRunnable [] s1)
                ltac:(change (newBuilds (set_newRunnable [] s1)) with (newBuilds s1); lia))
    as HP.
  destruct (processQueue _ fuel E _) as [[] s3|s3| |]; try exact I.
  - destruct HP as (evs & T & D & R). exists evs.
    unfold clear_newRunnable. sproj. rewrite T, D, R, Ht, Hd, Hr. repeat split.
  - destruct HP as (evs & T & D). exists evs. sproj. rewrite T, D, Ht, Hd.
    split; reflexivity.
Qed.

(** C10. The counters of an ingestion. For a build that is not finished in
    the database, on each of the three terminal paths of createBuild,
    whatever the state and the working set: [nrAdded] is incremented on
    entry (line 93); on the garbage-collected path and on the
    failed-classification path [nrBuildsDone] goes up by one; on the
    cached-success path it stays as it is, [finishedInDB] is set, the
    success transaction is committed, and nothing else changes in the
    builds. Over a whole pass of getQueuedBuilds, with any number of
    builds, nested ingestions included: [nrBuildsRead] goes up by one for
    every ingestion that began, whichever path it took, and
    [nrBuildsDone] by one for every transaction of the garbage-collected
    or the failed-classification path, and not for a success
    transaction. *)
Theorem ingestion_counts :
  (forall E fuel build s x,
     hinv s -> buildHeap s !! build = Some x -> build ∉ snd <$> newBuilds s ->
     Build.finishedInDB x = false ->
     (isValidPath E (Build.drvPath x) = false ->
      exists s', createBuild (S fuel) E build s = Ok tt s' /\
        nrBuildsDone s' = incr64 (nrBuildsDone s) /\
        nrAdded s' = incr32 (nrAdded s)) /\
     (isValidPath E (Build.drvPath x) = true ->
      forall s2,
        createStep (S fuel) E (Build.drvPath x) (Some build) None
          (freshLocals (loadBuild build s)) = Ok None s2 ->
        exists s' drv x', createBuild (S fuel) E build s = Ok tt s' /\
          readDerivation E (Build.drvPath x) = Some drv /\
          nrBuildsDone s' = nrBuildsDone s /\
          nrAdded s' = incr32 (nrAdded s) /\
          trace s' = (trace s ++
            [EvLoadBuild build;
             EvReadDerivation (Build.drvPath x);
             EvReadDerivation (Build.drvPath x);
             EvCommit [MarkSucceededBuild build (getBuildOutput E drv) true
                         (time_ E (clock s)) (time_ E (clock s))]])%list /\
          builds s' = builds s /\
          buildHeap s' = <[build := x']> (buildHeap s) /\
          build_is x true (Build.toplevel x) x') /\
     (isValidPath E (Build.drvPath x) = true ->
      forall root s2 s3 l1 r l2,
        createStep (S fuel) E (Build.drvPath x) (Some build) None
          (freshLocals (loadBuild build s)) = Ok (Some root) s2 ->
        piggyback (createBuild fuel E) (in_address_order E (newSteps s2)) s2 = Ok tt s3 ->
        in_address_order E (newSteps s3) = (l1 ++ r :: l2)%list ->
        (forall a, a ∈ l1 -> fst (classifyStep E root a s3) = bsSuccess) ->
        fst (classifyStep E root r s3) <> bsSuccess ->
        exists s', createBuild (S fuel) E build s = Ok tt s' /\
          nrAdded s2 = incr32 (nrAdded s) /\
          nrBuildsDone s' = incr64 (nrBuildsDone s3) /\
          nrAdded s' = nrAdded s3))
  /\
  (forall E fuel h s,
     (N.of_nat (length (db s)) < 2 ^ 32)%N ->
     match getQueuedBuilds fuel E h s with
     | Ok _ s' =>
         exists evs, trace s' = (trace s ++ evs)%list /\
           nrBuildsRead s' = Nat.iter (loads evs) incr64 (nrBuildsRead s) /\
           nrBuildsDone s' = Nat.iter (failures evs) incr64 (nrBuildsDone s)
     | Throw s' =>
         exists evs, trace s' = (trace s ++ evs)%list /\
           nrBuildsDone s' = Nat.iter (failures evs) incr64 (nrBuildsDone s)
     | AssertFail | OutOfFuel => True
     end).
Proof.
  split.
  - intros E fuel build s x Hh Hx Hnot Hfin. split; [|split].
    + intros Hgone. eexists. split.
      * cbn [createBuild]. unfold createBuild_body.
        rewrite (build_at_lookup _ _ _ Hx : build_at (buildHeap (loadBuild build s)) build = x).
        rewrite Hgone. reflexivity.
      * unfold abortGCed.
        rewrite (build_at_lookup _ _ _ Hx : build_at (buildHeap (loadBuild build s)) build = x).
        rewrite Hfin. split; reflexivity.
    + intros Hvalid s2 Hstep.
      destruct (createBuild_cached E fuel build s x s2 Hx Hvalid Hstep)
        as (drv & Hread & Hout & Htr & Hrun).
      unfold outside, loadBuild in Hout. sproj.
      injection Hout as Hbh2 Hbs2 Hdone2 _ _ Hclk2 _ Hadd2.
      eexists _, drv, (Build.set_finishedInDB x). split; [exact Hrun|].
      split; [exact Hread|].
      unfold leave, update_build, commit, tick, now. sproj.
      rewrite Htr, Hclk2, Hdone2, Hbs2, Hbh2, Hadd2. rewrite <- !app_assoc.
      rewrite (build_at_lookup _ _ _ Hx).
      repeat split.
    + intros Hvalid root s2 s3 l1 r l2 Hstep Hpig Hns Hgood Hbad.
      destruct (build_untouched E fuel build s _ s2 _ s3 Hh Hnot Hstep Hpig) as (Hx3 & _).
      rewrite Hx in Hx3.
      pose proof (createStep_frame E (S fuel) (Build.drvPath x) (Some build) None
                    (freshLocals (loadBuild build s))) as HF.
      rewrite Hstep in HF. destruct HF as (Hout2 & _).
      unfold outside, freshLocals, loadBuild in Hout2. sproj.
      injection Hout2 as _ _ _ _ _ _ _ Hadd2.
      rewrite (createBuild_unfold E fuel build s x Hx Hvalid), Hstep, Hpig, Hns.
      rewrite (classify_first_bad E build root l1 r l2 s3 Hgood Hbad).
      eexists. split; [reflexivity|]. split; [exact Hadd2|].
      unfold leave, failBuild. sproj. rewrite (build_at_lookup _ _ _ Hx3), Hfin.
      split; reflexivity.
  - intros E fuel h s Hlen.
    pose proof (getQueuedBuilds_counted E fuel h s Hlen) as H.
    destruct (getQueuedBuilds fuel E h s); try exact I.
    + destruct H as (evs & T & D & R). exists evs. auto.
    + exact H.
Qed.

(** The three terminal scenarios (a garbage-collected derivation, a cached
    success, an unsupported platform), and the pass over the
    shared-subtree scenario, in which the ingestion of build 5 ingests
    build 6 as well. *)
Lemma ingestion_counts_witness :
  (exists s', createBuild 1 env_gone 0 state_gone = Ok tt s' /\
     nrBuildsDone s' = incr64 (nrBuildsDone state_gone) /\
     nrAdded s' = incr32 (nrAdded state_gone)) /\
  (exists s' drv x',
     createBuild 1 env_cached 0 (set_newBuilds [] state_cached) = Ok tt s' /\
     readDerivation env_cached "/d/cached" = Some drv /\
     nrBuildsDone s' = 0%N /\ nrAdded s' = incr32 0 /\
     trace s' =
       [EvLoadBuild 0; EvReadDerivation "/d/cached"; EvReadDerivation "/d/cached";
        EvCommit [MarkSucceededBuild 0 (getBuildOutput env_cached drv) true 1000 1000]] /\
     builds s' = ∅ /\ buildHeap s' = [x'] /\ build_is build2 true None x') /\
  (exists s', createBuild 2 env_arm 0 state_arm = Ok tt s' /\
     nrAdded state_arm_created = incr32 (nrAdded state_arm) /\
     nrBuildsDone s' = incr64 (nrBuildsDone state_arm_created) /\
     nrAdded s' = nrAdded state_arm_created) /\
  match getQueuedBuilds 5 env_AC 0 state_56 with
  | Ok _ s' =>
      exists evs, trace s' = (trace state_56 ++ evs)%list /\
        nrBuildsRead s' = Nat.iter (loads evs) incr64 (nrBuildsRead state_56) /\
        nrBuildsDone s' = Nat.iter (failures evs) incr64 (nrBuildsDone state_56)
  | Throw s' =>
      exists evs, trace s' = (trace state_56 ++ evs)%list /\
        nrBuildsDone s' = Nat.iter (failures evs) incr64 (nrBuildsDone state_56)
  | AssertFail | OutOfFuel => True
  end.
Proof.
  assert (Hnot : forall s, newBuilds s = [] -> 0 ∉ snd <$> newBuilds s).
  { intros s ->. cbn. intros H. apply elem_of_nil in H. contradiction. }
  destruct ingestion_counts as [HA HB].
  split; [|split; [|split]].
  - apply (proj1 (HA env_gone 0 0 state_gone _
                    (hinv_empty_heap state_gone eq_refl eq_refl eq_refl) eq_refl
                    (Hnot state_gone eq_refl) eq_refl)).
    reflexivity.
  - apply (proj1 (proj2 (HA env_cached 0 0 (set_newBuilds [] state_cached) build2
                    (hinv_empty_heap (set_newBuilds [] state_cached) eq_refl eq_refl eq_refl)
                    eq_refl (Hnot (set_newBuilds [] state_cached) eq_refl) eq_refl))
             eq_refl state_cached_stepped).
    vm_compute. reflexivity.
  - apply (proj2 (proj2 (HA env_arm 1 0 state_arm _
                    (hinv_empty_heap state_arm eq_refl eq_refl eq_refl) eq_refl
                    (Hnot state_arm eq_refl) eq_refl))
             eq_refl 0 state_arm_created state_arm_created [] 0 []).
    + vm_compute. reflexivity.
    + vm_compute. reflexivity.
    + reflexivity.
    + intros a Ha. apply elem_of_nil in Ha. contradiction.
    + vm_compute. discriminate.
  - apply (HB env_AC 5 0%N state_56). vm_compute. reflexivity.
Defined.
